(** * Cryptex secure chat: a Rocq model of the session and crypto core

    The development follows the Python sources: [crypto_handler.py]
    (hybrid crypto engine), [client.py] (stream framer of the receive
    loop) and [server.py] (directory and relay router).  Python values
    are modelled as the interpreter has them: [bytes] is a list of
    bytes, [str] a list of Unicode code points, a raised exception is
    the left injection of a sum and [None] is [None]. *)

From Stdlib Require Import Strings.Byte Strings.String Strings.Ascii.
From Stdlib Require Import NArith ZArith Lia Bool Arith List.
From Equations Require Import Equations.
Import ListNotations.

(** ** Python values *)

(** [bytes]: an immutable sequence of integers in [0, 256). *)
Definition bytes := list byte.

(** [str]: a sequence of code points.  CPython admits every code point
    below [0x110000], lone surrogates included. *)
Definition str := list N.

(** The exceptions the modelled code can raise. *)
Inductive pyexc : Type :=
| ValueError
| TypeError
| IndexError
| KeyError
| AttributeError
| BinasciiError
| UnicodeEncodeError
| UnicodeDecodeError
| OSError.

(** A computation that returns a value or raises. *)
Definition exc (A : Type) : Type := (pyexc + A)%type.

Definition ret {A} (a : A) : exc A := inr a.
Definition raise {A} (e : pyexc) : exc A := inl e.
Definition bind {A B} (m : exc A) (k : A -> exc B) : exc B :=
  match m with
  | inl e => inl e
  | inr a => k a
  end.

Declare Scope exc_scope.
Delimit Scope exc_scope with exc.
Notation "x <- m ;; k" := (bind m (fun x => k))
  (at level 61, m at next level, right associativity) : exc_scope.

(** [try: body except Exception: return None], the shape of every
    operation of [CryptoHandler]. *)
Definition except_None {A} (body : exc A) : option A :=
  match body with
  | inl _ => None
  | inr a => Some a
  end.

(** ** Bytes as numbers *)

(** The low eight bits of a number, as a C [unsigned char] keeps them. *)
Definition byte_of_N (n : N) : byte :=
  match Byte.of_N (N.land n 255) with
  | Some b => b
  | None => x00
  end.

Definition all_bytes : bytes :=
  Eval vm_compute in map (fun i => byte_of_N (N.of_nat i)) (seq 0 256).

Definition bxor (a b : byte) : byte :=
  byte_of_N (N.lxor (Byte.to_N a) (Byte.to_N b)).

(** A literal of the source, character by character. *)
Definition lit (s : string) : str :=
  map N_of_ascii (list_ascii_of_string s).

Fixpoint str_eqb (a b : str) : bool :=
  match a, b with
  | [], [] => true
  | x :: a', y :: b' => N.eqb x y && str_eqb a' b'
  | _, _ => false
  end.

(** Arithmetic with division by constants. *)
Ltac nlia := zify; Z.to_euclidean_division_equations; lia.

Lemma ret_inj {A} (a b : A) : ret a = ret b -> a = b.
Proof. intros H. injection H as ->. reflexivity. Qed.

Lemma to_N_lt (b : byte) : (Byte.to_N b < 256)%N.
Proof. pose proof (Byte.to_N_bounded b). lia. Qed.

Lemma land_255_small (n : N) : (n < 256)%N -> N.land n 255 = n.
Proof.
  intros H. change 255%N with (N.ones 8). rewrite N.land_ones.
  apply N.mod_small. exact H.
Qed.

Lemma to_N_byte_of_N (n : N) : (n < 256)%N -> Byte.to_N (byte_of_N n) = n.
Proof.
  intros H. unfold byte_of_N. rewrite land_255_small by exact H.
  destruct (Byte.of_N n) eqn:E.
  - apply Byte.to_of_N in E. exact E.
  - apply Byte.of_N_None_iff in E. lia.
Qed.

Lemma byte_of_N_to_N (b : byte) : byte_of_N (Byte.to_N b) = b.
Proof.
  unfold byte_of_N. rewrite land_255_small by apply to_N_lt.
  rewrite Byte.of_to_N. reflexivity.
Qed.

Lemma to_N_inj (a b : byte) : Byte.to_N a = Byte.to_N b -> a = b.
Proof.
  intros H. rewrite <- (byte_of_N_to_N a), <- (byte_of_N_to_N b), H.
  reflexivity.
Qed.

Lemma all_bytes_complete (b : byte) : In b all_bytes.
Proof.
  assert (H : existsb (Byte.eqb b) all_bytes = true)
    by (destruct b; vm_compute; reflexivity).
  apply existsb_exists in H. destruct H as [x [Hin Heq]].
  apply Byte.byte_dec_bl in Heq. subst x. exact Hin.
Qed.

(** Exhaustive checks over one and two bytes. *)
Lemma byte_forall (P : byte -> bool) :
  forallb P all_bytes = true -> forall b, P b = true.
Proof.
  intros H b. rewrite forallb_forall in H. apply H, all_bytes_complete.
Qed.

Lemma byte_forall2 (P : byte -> byte -> bool) :
  forallb (fun a => forallb (P a) all_bytes) all_bytes = true ->
  forall a b, P a b = true.
Proof.
  intros H a b. rewrite forallb_forall in H.
  specialize (H a (all_bytes_complete a)).
  rewrite forallb_forall in H. apply H, all_bytes_complete.
Qed.

Lemma to_N_bxor (a b : byte) :
  Byte.to_N (bxor a b) = N.lxor (Byte.to_N a) (Byte.to_N b).
Proof.
  apply N.eqb_eq.
  revert a b.
  apply (byte_forall2
    (fun a b => N.eqb (Byte.to_N (bxor a b)) (N.lxor (Byte.to_N a) (Byte.to_N b)))).
  vm_compute. reflexivity.
Qed.

Lemma bxor_comm (a b : byte) : bxor a b = bxor b a.
Proof. apply to_N_inj. rewrite !to_N_bxor. apply N.lxor_comm. Qed.

Lemma bxor_assoc (a b c : byte) : bxor (bxor a b) c = bxor a (bxor b c).
Proof. apply to_N_inj. rewrite !to_N_bxor. apply N.lxor_assoc. Qed.

Lemma bxor_nilpotent (a : byte) : bxor a a = x00.
Proof. apply to_N_inj. rewrite to_N_bxor, N.lxor_nilpotent. reflexivity. Qed.

Lemma bxor_0_r (a : byte) : bxor a x00 = a.
Proof. apply to_N_inj. rewrite to_N_bxor. simpl. apply N.lxor_0_r. Qed.

Lemma bxor_0_l (a : byte) : bxor x00 a = a.
Proof. rewrite bxor_comm. apply bxor_0_r. Qed.

Lemma bxor_cancel_l (k a : byte) : bxor k (bxor k a) = a.
Proof. rewrite <- bxor_assoc, bxor_nilpotent. apply bxor_0_l. Qed.

Lemma str_eqb_eq (a b : str) : str_eqb a b = true <-> a = b.
Proof.
  revert b. induction a as [|x a IH]; intros [|y b]; simpl;
    try (split; congruence).
  rewrite andb_true_iff, N.eqb_eq, IH. split.
  - intros [-> ->]. reflexivity.
  - intros H. injection H as -> ->. split; reflexivity.
Qed.

Lemma str_eqb_refl (a : str) : str_eqb a a = true.
Proof. apply str_eqb_eq. reflexivity. Qed.

Lemma str_eqb_neq (a b : str) : str_eqb a b = false <-> a <> b.
Proof.
  rewrite <- str_eqb_eq. destruct (str_eqb a b); split; congruence.
Qed.

(** ** The UTF-8 codec: [str.encode('utf-8')] and [bytes.decode('utf-8')]

    Both run with the default [errors='strict'] handler: encoding
    raises on a surrogate code point, decoding raises on any byte
    sequence that is not well-formed UTF-8. *)

Module Utf8.
Local Open Scope N_scope.

Definition is_surrogate (c : N) : bool := (0xD800 <=? c) && (c <=? 0xDFFF).

Definition encode_char (c : N) : option bytes :=
  if c <? 0x80 then Some [byte_of_N c]
  else if c <? 0x800 then
    Some [byte_of_N (0xC0 + c / 64); byte_of_N (0x80 + c mod 64)]
  else if c <? 0x10000 then
    if is_surrogate c then None
    else Some [byte_of_N (0xE0 + c / 4096);
               byte_of_N (0x80 + (c / 64) mod 64);
               byte_of_N (0x80 + c mod 64)]
  else if c <? 0x110000 then
    Some [byte_of_N (0xF0 + c / 262144);
          byte_of_N (0x80 + (c / 4096) mod 64);
          byte_of_N (0x80 + (c / 64) mod 64);
          byte_of_N (0x80 + c mod 64)]
  else None.

Fixpoint encode_opt (s : str) : option bytes :=
  match s with
  | [] => Some []
  | c :: r =>
    match encode_char c, encode_opt r with
    | Some a, Some b => Some (a ++ b)
    | _, _ => None
    end
  end.

(** [s.encode('utf-8')] *)
Definition encode (s : str) : exc bytes :=
  match encode_opt s with
  | Some b => ret b
  | None => raise UnicodeEncodeError
  end.

(** A continuation byte [10xxxxxx]. *)
Definition is_cont (b : byte) : bool :=
  (0x80 <=? Byte.to_N b) && (Byte.to_N b <? 0xC0).

Definition payload (b : byte) : N := Byte.to_N b - 0x80.

Fixpoint decode_opt (bs : bytes) : option str :=
  match bs with
  | [] => Some []
  | b0 :: r0 =>
    let n0 := Byte.to_N b0 in
    if n0 <? 0x80 then option_map (cons n0) (decode_opt r0)
    else if n0 <? 0xC2 then None
    else if n0 <? 0xE0 then
      match r0 with
      | b1 :: r1 =>
        if is_cont b1
        then option_map (cons ((n0 - 0xC0) * 64 + payload b1)) (decode_opt r1)
        else None
      | _ => None
      end
    else if n0 <? 0xF0 then
      match r0 with
      | b1 :: b2 :: r2 =>
        let c := (n0 - 0xE0) * 4096 + payload b1 * 64 + payload b2 in
        if is_cont b1 && is_cont b2 && (0x800 <=? c) && negb (is_surrogate c)
        then option_map (cons c) (decode_opt r2)
        else None
      | _ => None
      end
    else if n0 <? 0xF5 then
      match r0 with
      | b1 :: b2 :: b3 :: r3 =>
        let c := (n0 - 0xF0) * 262144 + payload b1 * 4096
                 + payload b2 * 64 + payload b3 in
        if is_cont b1 && is_cont b2 && is_cont b3
           && (0x10000 <=? c) && (c <? 0x110000)
        then option_map (cons c) (decode_opt r3)
        else None
      | _ => None
      end
    else None
  end.

(** [bs.decode('utf-8')] *)
Definition decode (bs : bytes) : exc str :=
  match decode_opt bs with
  | Some s => ret s
  | None => raise UnicodeDecodeError
  end.

(** The strings that have a UTF-8 encoding: every code point is a
    Unicode scalar value. *)
Definition scalar (c : N) : Prop := c < 0x110000 /\ is_surrogate c = false.
Definition encodable (s : str) : Prop := Forall scalar s.

#[local] Arguments N.add : simpl never.
#[local] Arguments N.sub : simpl never.
#[local] Arguments N.mul : simpl never.
#[local] Arguments N.div : simpl never.
#[local] Arguments N.modulo : simpl never.
#[local] Arguments N.ltb : simpl never.
#[local] Arguments N.leb : simpl never.

Ltac split_ltb :=
  repeat match goal with
  | |- context [?a <? ?b] => destruct (N.ltb_spec a b)
  | |- context [?a <=? ?b] => destruct (N.leb_spec a b)
  | H : context [?a <? ?b] |- _ => destruct (N.ltb_spec a b)
  | H : context [?a <=? ?b] |- _ => destruct (N.leb_spec a b)
  end.

(** Settle each comparison of the goal from the hypotheses. *)
Ltac decide_cmp :=
  repeat match goal with
  | |- context [?a <? ?b] =>
    first [ replace (a <? b) with true by (symmetry; apply N.ltb_lt; nlia)
          | replace (a <? b) with false by (symmetry; apply N.ltb_ge; nlia) ]
  | |- context [?a <=? ?b] =>
    first [ replace (a <=? b) with true by (symmetry; apply N.leb_le; nlia)
          | replace (a <=? b) with false by (symmetry; apply N.leb_gt; nlia) ]
  end.

Lemma encode_char_scalar (c : N) :
  scalar c <-> exists bs, encode_char c = Some bs.
Proof.
  unfold scalar, encode_char, is_surrogate. split.
  - intros [Hc Hs]. split_ltb; simpl in *; try discriminate; try lia; eauto.
  - intros [bs H]. split_ltb; simpl in *; try discriminate; split;
      try reflexivity; try lia.
Qed.

Lemma encode_opt_encodable (s : str) :
  encodable s <-> exists bs, encode_opt s = Some bs.
Proof.
  unfold encodable. induction s as [|c s IH]; simpl.
  - split; eauto.
  - split.
    + intros H. inversion H as [|? ? Hc Hs]; subst.
      apply encode_char_scalar in Hc. destruct Hc as [a ->].
      apply IH in Hs. destruct Hs as [b ->]. eauto.
    + intros [bs H].
      destruct (encode_char c) as [a|] eqn:Ea; [|discriminate].
      destruct (encode_opt s) as [b|] eqn:Eb; [|discriminate].
      constructor.
      * apply encode_char_scalar. eauto.
      * apply IH. eauto.
Qed.

Lemma encode_opt_app (s t : str) :
  encode_opt (s ++ t) =
  match encode_opt s, encode_opt t with
  | Some a, Some b => Some (a ++ b)
  | _, _ => None
  end.
Proof.
  induction s as [|c s IH]; simpl.
  - destruct (encode_opt t); reflexivity.
  - rewrite IH. destruct (encode_char c) as [a|]; [|reflexivity].
    destruct (encode_opt s) as [b|]; [|reflexivity].
    destruct (encode_opt t) as [d|]; [|reflexivity].
    rewrite app_assoc. reflexivity.
Qed.

Ltac byte_vals :=
  repeat rewrite to_N_byte_of_N by nlia.

(** Decoding the encoding of one character followed by anything gives
    the character back and continues with the rest. *)
Lemma decode_encode_char (c : N) (a rest : bytes) :
  encode_char c = Some a ->
  decode_opt (a ++ rest) = option_map (cons c) (decode_opt rest).
Proof.
  unfold encode_char, is_surrogate. intros H.
  destruct (N.ltb_spec c 0x80).
  { injection H as <-. cbn [decode_opt app]. byte_vals.
    decide_cmp. reflexivity. }
  destruct (N.ltb_spec c 0x800).
  { injection H as <-. cbn [decode_opt app]. unfold is_cont, payload.
    byte_vals.
    replace ((0xC0 + c / 64 - 0xC0) * 64 + (0x80 + c mod 64 - 0x80))
      with c by nlia.
    decide_cmp. reflexivity. }
  destruct (N.ltb_spec c 0x10000).
  { destruct (N.leb_spec 0xD800 c); destruct (N.leb_spec c 0xDFFF);
      cbn [andb] in H; try discriminate; try (exfalso; lia);
      injection H as <-;
      cbn [decode_opt app]; unfold is_cont, payload, is_surrogate; byte_vals.
    all: replace ((0xE0 + c / 4096 - 0xE0) * 4096
                  + (0x80 + (c / 64) mod 64 - 0x80) * 64
                  + (0x80 + c mod 64 - 0x80)) with c by nlia.
    all: decide_cmp; reflexivity. }
  destruct (N.ltb_spec c 0x110000); [|discriminate].
  injection H as <-. cbn [decode_opt app]. unfold is_cont, payload. byte_vals.
  replace ((0xF0 + c / 262144 - 0xF0) * 262144
           + (0x80 + (c / 4096) mod 64 - 0x80) * 4096
           + (0x80 + (c / 64) mod 64 - 0x80) * 64
           + (0x80 + c mod 64 - 0x80)) with c by nlia.
  decide_cmp. reflexivity.
Qed.

(** Round trip of the codec: [s.encode('utf-8').decode('utf-8') == s]. *)
Lemma decode_encode_opt (s : str) (bs : bytes) :
  encode_opt s = Some bs -> decode_opt bs = Some s.
Proof.
  revert bs. induction s as [|c s IH]; simpl; intros bs H.
  - injection H as <-. reflexivity.
  - destruct (encode_char c) as [a|] eqn:Ea; [|discriminate].
    destruct (encode_opt s) as [b|] eqn:Eb; [|discriminate].
    injection H as <-.
    rewrite (decode_encode_char c a b Ea), (IH b eq_refl). reflexivity.
Qed.

Lemma decode_encode (s : str) (bs : bytes) :
  encode s = ret bs -> decode bs = ret s.
Proof.
  unfold encode, decode. destruct (encode_opt s) eqn:E; [|discriminate].
  intros H. injection H as <-. rewrite (decode_encode_opt s b E). reflexivity.
Qed.

Lemma encode_encodable (s : str) :
  encodable s -> exists bs, encode s = ret bs.
Proof.
  intros H. apply encode_opt_encodable in H. destruct H as [bs H].
  exists bs. unfold encode. rewrite H. reflexivity.
Qed.

Lemma encode_not_encodable (s : str) :
  ~ encodable s -> encode s = raise UnicodeEncodeError.
Proof.
  intros H. unfold encode. destruct (encode_opt s) eqn:E; [|reflexivity].
  exfalso. apply H. apply encode_opt_encodable. eauto.
Qed.

End Utf8.

(** ** The decoder accepts canonical encodings only *)

Module Utf8Canon.
Import Utf8.
Local Open Scope N_scope.

#[local] Arguments N.add : simpl never.
#[local] Arguments N.sub : simpl never.
#[local] Arguments N.mul : simpl never.
#[local] Arguments N.div : simpl never.
#[local] Arguments N.modulo : simpl never.
#[local] Arguments N.ltb : simpl never.
#[local] Arguments N.leb : simpl never.

Lemma option_map_cons_inv (c : N) (o : option str) (s : str) :
  option_map (cons c) o = Some s -> exists s', o = Some s' /\ s = c :: s'.
Proof.
  destruct o as [s'|]; [|discriminate]. intros H. injection H as <-. eauto.
Qed.

Ltac cmp_hyps :=
  repeat match goal with
  | H : (_ && _)%bool = true |- _ => apply andb_true_iff in H; destruct H
  | H : negb _ = true |- _ => apply negb_true_iff in H
  | H : (_ <? _) = true |- _ => apply N.ltb_lt in H
  | H : (_ <? _) = false |- _ => apply N.ltb_ge in H
  | H : (_ <=? _) = true |- _ => apply N.leb_le in H
  | H : (_ <=? _) = false |- _ => apply N.leb_gt in H
  end.

Ltac decide_goal_cmp :=
  repeat match goal with
  | |- context [?a <? ?b] =>
    first [ replace (a <? b) with true by (symmetry; apply N.ltb_lt; nlia)
          | replace (a <? b) with false by (symmetry; apply N.ltb_ge; nlia) ]
  | |- context [?a <=? ?b] =>
    first [ replace (a <=? b) with true by (symmetry; apply N.leb_le; nlia)
          | replace (a <=? b) with false by (symmetry; apply N.leb_gt; nlia) ]
  end.

Lemma is_surrogate_false (c : N) :
  is_surrogate c = false -> c < 0xD800 \/ 0xDFFF < c.
Proof.
  unfold is_surrogate. intros H. apply andb_false_iff in H.
  destruct H as [H|H]; cmp_hyps; lia.
Qed.

(** One decoding step, inverted: the bytes consumed are the encoding of
    the character produced. *)
Lemma decode_step (b0 : byte) (r0 : bytes) (s : str) :
  decode_opt (b0 :: r0) = Some s ->
  exists c s' a rest,
    s = c :: s' /\ b0 :: r0 = a ++ rest /\
    encode_char c = Some a /\ decode_opt rest = Some s' /\
    (length rest < length (b0 :: r0))%nat.
Proof.
  cbn [decode_opt]. pose proof (to_N_lt b0) as Hb0.
  destruct (to_N b0 <? 0x80) eqn:C1.
  { intros H. apply option_map_cons_inv in H. destruct H as [s' [Hd ->]].
    exists (to_N b0), s', [b0], r0. cmp_hyps. repeat split; auto.
    unfold encode_char. decide_goal_cmp. rewrite byte_of_N_to_N. reflexivity. }
  destruct (to_N b0 <? 0xC2) eqn:C2; [discriminate|].
  destruct (to_N b0 <? 0xE0) eqn:C3.
  { destruct r0 as [|b1 r1]; [discriminate|].
    destruct (is_cont b1) eqn:K1; [|discriminate].
    intros H. apply option_map_cons_inv in H. destruct H as [s' [Hd ->]].
    unfold is_cont, payload in *. pose proof (to_N_lt b1) as Hb1. cmp_hyps.
    exists ((to_N b0 - 0xC0) * 64 + (to_N b1 - 0x80)), s', [b0; b1], r1.
    repeat split; auto; [|simpl; lia].
    unfold encode_char. decide_goal_cmp.
    replace (0xC0 + ((to_N b0 - 0xC0) * 64 + (to_N b1 - 0x80)) / 64)
      with (to_N b0) by nlia.
    replace (0x80 + ((to_N b0 - 0xC0) * 64 + (to_N b1 - 0x80)) mod 64)
      with (to_N b1) by nlia.
    rewrite !byte_of_N_to_N. reflexivity. }
  destruct (to_N b0 <? 0xF0) eqn:C4.
  { destruct r0 as [|b1 [|b2 r2]]; try discriminate.
    match goal with
    | |- (if ?g then _ else _) = _ -> _ => destruct g eqn:G; [|discriminate]
    end.
    intros H. apply option_map_cons_inv in H. destruct H as [s' [Hd ->]].
    unfold is_cont, payload in *.
    pose proof (to_N_lt b1) as Hb1. pose proof (to_N_lt b2) as Hb2.
    cmp_hyps.
    match goal with
    | Hs : is_surrogate ?c = false |- _ =>
      pose proof (is_surrogate_false c Hs) as Hsur; set (c0 := c) in *
    end.
    exists c0, s', [b0; b1; b2], r2.
    repeat split; auto; [|simpl; lia].
    unfold encode_char.
    replace (c0 <? 0x80) with false by (symmetry; apply N.ltb_ge; lia).
    replace (c0 <? 0x800) with false by (symmetry; apply N.ltb_ge; lia).
    replace (c0 <? 0x10000) with true
      by (symmetry; apply N.ltb_lt; subst c0; nlia).
    match goal with Hs : is_surrogate c0 = false |- _ => rewrite Hs end.
    replace (0xE0 + c0 / 4096) with (to_N b0) by (subst c0; nlia).
    replace (0x80 + (c0 / 64) mod 64) with (to_N b1) by (subst c0; nlia).
    replace (0x80 + c0 mod 64) with (to_N b2) by (subst c0; nlia).
    rewrite !byte_of_N_to_N. reflexivity. }
  destruct (to_N b0 <? 0xF5) eqn:C5; [|discriminate].
  destruct r0 as [|b1 [|b2 [|b3 r3]]]; try discriminate.
  match goal with
  | |- (if ?g then _ else _) = _ -> _ => destruct g eqn:G; [|discriminate]
  end.
  intros H. apply option_map_cons_inv in H. destruct H as [s' [Hd ->]].
  unfold is_cont, payload in *.
  pose proof (to_N_lt b1) as Hb1. pose proof (to_N_lt b2) as Hb2.
  pose proof (to_N_lt b3) as Hb3.
  cmp_hyps.
  match goal with
  | Hc : 0x10000 <= ?c |- _ => set (c0 := c) in *
  end.
  exists c0, s', [b0; b1; b2; b3], r3.
  repeat split; auto; [|simpl; lia].
  unfold encode_char.
  replace (c0 <? 0x80) with false by (symmetry; apply N.ltb_ge; lia).
  replace (c0 <? 0x800) with false by (symmetry; apply N.ltb_ge; lia).
  replace (c0 <? 0x10000) with false by (symmetry; apply N.ltb_ge; lia).
  replace (c0 <? 0x110000) with true by (symmetry; apply N.ltb_lt; lia).
  replace (0xF0 + c0 / 262144) with (to_N b0) by (subst c0; nlia).
  replace (0x80 + (c0 / 4096) mod 64) with (to_N b1) by (subst c0; nlia).
  replace (0x80 + (c0 / 64) mod 64) with (to_N b2) by (subst c0; nlia).
  replace (0x80 + c0 mod 64) with (to_N b3) by (subst c0; nlia).
  rewrite !byte_of_N_to_N. reflexivity.
Qed.

(** [bs.decode('utf-8').encode('utf-8') == bs] *)
Lemma encode_decode_opt (bs : bytes) (s : str) :
  decode_opt bs = Some s -> encode_opt s = Some bs.
Proof.
  remember (length bs) as n eqn:En. revert bs s En.
  induction n as [n IH] using lt_wf_ind. intros bs s En H.
  destruct bs as [|b0 r0].
  - cbn in H. injection H as <-. reflexivity.
  - destruct (decode_step b0 r0 s H) as [c [s' [a [rest [-> [Hb [Hc [Hd Hl]]]]]]]].
    cbn [encode_opt]. rewrite Hc.
    rewrite (IH (length rest)) with (bs := rest) (s := s');
      [rewrite Hb; reflexivity | subst n; exact Hl | reflexivity | exact Hd].
Qed.

Lemma encode_decode (bs : bytes) (s : str) :
  decode bs = ret s -> encode s = ret bs.
Proof.
  unfold decode, encode. destruct (decode_opt bs) as [s0|] eqn:E;
    [|discriminate].
  intros H. injection H as <-. rewrite (encode_decode_opt bs s0 E).
  reflexivity.
Qed.

(** The encoding of a concatenation. *)
Lemma encode_app (s t : str) (a b : bytes) :
  encode s = ret a -> encode t = ret b -> encode (s ++ t) = ret (a ++ b).
Proof.
  unfold encode. rewrite encode_opt_app.
  destruct (encode_opt s); [|discriminate].
  destruct (encode_opt t); [|discriminate].
  intros H1 H2. injection H1 as <-. injection H2 as <-. reflexivity.
Qed.

(** Every part of an encodable string is encodable. *)
Lemma encode_app_inv (s t : str) (c : bytes) :
  encode (s ++ t) = ret c ->
  exists a b, encode s = ret a /\ encode t = ret b /\ c = a ++ b.
Proof.
  unfold encode. rewrite encode_opt_app.
  destruct (encode_opt s) as [a|]; [|discriminate].
  destruct (encode_opt t) as [b|]; [|discriminate].
  intros H. injection H as <-. eauto.
Qed.

End Utf8Canon.

(** ** The transport encoding: [base64.b64encode] and [base64.b64decode]

    [b64decode] is called with its default [validate=False], that is
    [binascii.a2b_base64] in its lenient mode: characters outside the
    alphabet are skipped and only a dangling group raises
    [binascii.Error]. *)

Module Base64.
Local Open Scope N_scope.

Definition alphabet : bytes :=
  Eval vm_compute in
    map (fun a => byte_of_N (N_of_ascii a))
      (list_ascii_of_string
         "ABCDEFGHIJKLMNOPQRSTUVWXYZabcdefghijklmnopqrstuvwxyz0123456789+/").

Definition BASE64_PAD : byte := x3d.

(** [table_b2a_base64] *)
Definition table_b2a (v : N) : byte := nth (N.to_nat v) alphabet x00.

Fixpoint index_of (b : byte) (l : bytes) (i : N) : N :=
  match l with
  | [] => 255
  | x :: r => if Byte.eqb x b then i else index_of b r (i + 1)
  end.

(** [table_a2b_base64]: the value of an alphabet character, a number
    above 63 for any other byte. *)
Definition table_a2b (b : byte) : N := index_of b alphabet 0.

Definition sextet0 (a : byte) : N := N.shiftr (Byte.to_N a) 2.
Definition sextet1 (a b : byte) : N :=
  N.lor (N.shiftl (N.land (Byte.to_N a) 3) 4) (N.shiftr (Byte.to_N b) 4).
Definition sextet2 (b c : byte) : N :=
  N.lor (N.shiftl (N.land (Byte.to_N b) 15) 2) (N.shiftr (Byte.to_N c) 6).
Definition sextet3 (c : byte) : N := N.land (Byte.to_N c) 63.

(** [binascii.b2a_base64(data, newline=False)] *)
Fixpoint b2a_base64 (data : bytes) : bytes :=
  match data with
  | [] => []
  | [a] =>
    [table_b2a (sextet0 a); table_b2a (sextet1 a x00); BASE64_PAD; BASE64_PAD]
  | [a; b] =>
    [table_b2a (sextet0 a); table_b2a (sextet1 a b);
     table_b2a (sextet2 b x00); BASE64_PAD]
  | a :: b :: c :: rest =>
    table_b2a (sextet0 a) :: table_b2a (sextet1 a b)
    :: table_b2a (sextet2 b c) :: table_b2a (sextet3 c) :: b2a_base64 rest
  end.

(** The loop of [binascii.a2b_base64] with [strict_mode] off.
    [quad_pos] counts the characters of the current group, [leftchar]
    holds the bits not yet written, [pads] the padding seen. *)
Fixpoint a2b_loop (data : bytes) (quad_pos : nat) (leftchar pads : N)
    (out : bytes) : exc bytes :=
  match data with
  | [] =>
    match quad_pos with
    | O => ret out
    | _ => raise BinasciiError
    end
  | this_ch :: rest =>
    if Byte.eqb this_ch BASE64_PAD then
      if Nat.leb 2 quad_pos then
        if 4 <=? N.of_nat quad_pos + (pads + 1) then ret out
        else a2b_loop rest quad_pos leftchar (pads + 1) out
      else a2b_loop rest quad_pos leftchar pads out
    else
      let v := table_a2b this_ch in
      if 64 <=? v then a2b_loop rest quad_pos leftchar pads out
      else
        match quad_pos with
        | 0%nat => a2b_loop rest 1 v 0 out
        | 1%nat =>
          a2b_loop rest 2 (N.land v 15) 0
            (out ++ [byte_of_N (N.lor (N.shiftl leftchar 2) (N.shiftr v 4))])
        | 2%nat =>
          a2b_loop rest 3 (N.land v 3) 0
            (out ++ [byte_of_N (N.lor (N.shiftl leftchar 4) (N.shiftr v 2))])
        | _ =>
          a2b_loop rest 0 0 0
            (out ++ [byte_of_N (N.lor (N.shiftl leftchar 6) v)])
        end
  end.

Definition a2b_base64 (data : bytes) : exc bytes := a2b_loop data 0 0 0 [].

(** [base64.b64encode(s)] and [base64.b64decode(s)] *)
Definition b64encode (s : bytes) : bytes := b2a_base64 s.
Definition b64decode (s : bytes) : exc bytes := a2b_base64 s.

(** *** Facts on the tables *)

Definition sextets : list N :=
  Eval vm_compute in map N.of_nat (seq 0 64).

Lemma sextets_complete (v : N) : v < 64 -> In v sextets.
Proof.
  intros H. replace v with (N.of_nat (N.to_nat v)) by apply N2Nat.id.
  unfold sextets.
  change (In (N.of_nat (N.to_nat v)) (map N.of_nat (seq 0 64))).
  apply in_map, in_seq. lia.
Qed.

Lemma sextet_forall (P : N -> bool) :
  forallb P sextets = true -> forall v, v < 64 -> P v = true.
Proof.
  intros H v Hv. rewrite forallb_forall in H. apply H, sextets_complete, Hv.
Qed.

Lemma table_a2b_b2a (v : N) : v < 64 -> table_a2b (table_b2a v) = v.
Proof.
  intros H. apply N.eqb_eq. revert v H.
  apply (sextet_forall (fun v => table_a2b (table_b2a v) =? v)).
  vm_compute. reflexivity.
Qed.

Lemma table_b2a_not_pad (v : N) :
  v < 64 -> Byte.eqb (table_b2a v) BASE64_PAD = false.
Proof.
  intros H. apply negb_true_iff. revert v H.
  apply (sextet_forall (fun v => negb (Byte.eqb (table_b2a v) BASE64_PAD))).
  vm_compute. reflexivity.
Qed.

Lemma table_b2a_ascii (v : N) : v < 64 -> Byte.to_N (table_b2a v) < 128.
Proof.
  intros H. apply N.ltb_lt. revert v H.
  apply (sextet_forall (fun v => Byte.to_N (table_b2a v) <? 128)).
  vm_compute. reflexivity.
Qed.

(** *** Facts on the bit slicing, by exhaustion *)

Ltac by_bytes1 P := apply (byte_forall P); vm_compute; reflexivity.
Ltac by_bytes2 P := apply (byte_forall2 P); vm_compute; reflexivity.

Lemma sextet0_lt (a : byte) : sextet0 a < 64.
Proof. apply N.ltb_lt. revert a. by_bytes1 (fun a => sextet0 a <? 64). Qed.

Lemma sextet1_lt (a b : byte) : sextet1 a b < 64.
Proof.
  apply N.ltb_lt. revert a b. by_bytes2 (fun a b => sextet1 a b <? 64).
Qed.

Lemma sextet2_lt (b c : byte) : sextet2 b c < 64.
Proof.
  apply N.ltb_lt. revert b c. by_bytes2 (fun b c => sextet2 b c <? 64).
Qed.

Lemma sextet3_lt (c : byte) : sextet3 c < 64.
Proof. apply N.ltb_lt. revert c. by_bytes1 (fun c => sextet3 c <? 64). Qed.

Lemma first_byte (a b : byte) :
  byte_of_N (N.lor (N.shiftl (sextet0 a) 2) (N.shiftr (sextet1 a b) 4)) = a.
Proof.
  apply Byte.byte_dec_bl. revert a b.
  by_bytes2 (fun a b => Byte.eqb
    (byte_of_N (N.lor (N.shiftl (sextet0 a) 2) (N.shiftr (sextet1 a b) 4))) a).
Qed.

Lemma sextet1_low (a b : byte) :
  N.land (sextet1 a b) 15 = N.shiftr (Byte.to_N b) 4.
Proof.
  apply N.eqb_eq. revert a b.
  by_bytes2 (fun a b => N.land (sextet1 a b) 15 =? N.shiftr (Byte.to_N b) 4).
Qed.

Lemma sextet2_high (b c : byte) :
  N.shiftr (sextet2 b c) 2 = N.land (Byte.to_N b) 15.
Proof.
  apply N.eqb_eq. revert b c.
  by_bytes2 (fun b c => N.shiftr (sextet2 b c) 2 =? N.land (Byte.to_N b) 15).
Qed.

Lemma second_byte (b : byte) :
  byte_of_N (N.lor (N.shiftl (N.shiftr (Byte.to_N b) 4) 4)
                   (N.land (Byte.to_N b) 15)) = b.
Proof.
  apply Byte.byte_dec_bl. revert b.
  by_bytes1 (fun b => Byte.eqb
    (byte_of_N (N.lor (N.shiftl (N.shiftr (Byte.to_N b) 4) 4)
                      (N.land (Byte.to_N b) 15))) b).
Qed.

Lemma sextet2_low (b c : byte) :
  N.land (sextet2 b c) 3 = N.shiftr (Byte.to_N c) 6.
Proof.
  apply N.eqb_eq. revert b c.
  by_bytes2 (fun b c => N.land (sextet2 b c) 3 =? N.shiftr (Byte.to_N c) 6).
Qed.

Lemma third_byte (c : byte) :
  byte_of_N (N.lor (N.shiftl (N.shiftr (Byte.to_N c) 6) 6) (sextet3 c)) = c.
Proof.
  apply Byte.byte_dec_bl. revert c.
  by_bytes1 (fun c => Byte.eqb
    (byte_of_N (N.lor (N.shiftl (N.shiftr (Byte.to_N c) 6) 6) (sextet3 c))) c).
Qed.

(** *** The decoder on encoder output *)

(** One step of the loop on an alphabet character. *)
Lemma a2b_loop_alphabet (v : N) (rest : bytes) (q : nat) (lc p : N)
    (out : bytes) :
  v < 64 ->
  a2b_loop (table_b2a v :: rest) q lc p out =
  match q with
  | 0%nat => a2b_loop rest 1 v 0 out
  | 1%nat =>
    a2b_loop rest 2 (N.land v 15) 0
      (out ++ [byte_of_N (N.lor (N.shiftl lc 2) (N.shiftr v 4))])
  | 2%nat =>
    a2b_loop rest 3 (N.land v 3) 0
      (out ++ [byte_of_N (N.lor (N.shiftl lc 4) (N.shiftr v 2))])
  | _ =>
    a2b_loop rest 0 0 0 (out ++ [byte_of_N (N.lor (N.shiftl lc 6) v)])
  end.
Proof.
  intros H. cbn [a2b_loop].
  rewrite (table_b2a_not_pad v H), (table_a2b_b2a v H).
  replace (64 <=? v) with false by (symmetry; apply N.leb_gt; exact H).
  reflexivity.
Qed.

Lemma list_ind3 {A} (P : list A -> Prop) :
  P [] -> (forall a, P [a]) -> (forall a b, P [a; b]) ->
  (forall a b c l, P l -> P (a :: b :: c :: l)) ->
  forall l, P l.
Proof.
  intros H0 H1 H2 H3.
  fix IH 1.
  intros [|a [|b [|c l]]];
    [exact H0 | apply H1 | apply H2 | apply H3, IH].
Qed.

Lemma a2b_loop_b2a (data out : bytes) :
  a2b_loop (b2a_base64 data) 0 0 0 out = ret (out ++ data).
Proof.
  revert out. induction data as [|a|a b|a b c l IH] using list_ind3;
    intros out.
  - cbn. rewrite app_nil_r. reflexivity.
  - cbn [b2a_base64].
    rewrite (a2b_loop_alphabet _ _ _ _ _ _ (sextet0_lt a)).
    rewrite (a2b_loop_alphabet _ _ _ _ _ _ (sextet1_lt a x00)).
    rewrite first_byte. reflexivity.
  - cbn [b2a_base64].
    rewrite (a2b_loop_alphabet _ _ _ _ _ _ (sextet0_lt a)).
    rewrite (a2b_loop_alphabet _ _ _ _ _ _ (sextet1_lt a b)).
    rewrite (a2b_loop_alphabet _ _ _ _ _ _ (sextet2_lt b x00)).
    rewrite first_byte, sextet1_low, sextet2_high, second_byte.
    cbn. rewrite <- app_assoc. reflexivity.
  - cbn [b2a_base64].
    rewrite (a2b_loop_alphabet _ _ _ _ _ _ (sextet0_lt a)).
    rewrite (a2b_loop_alphabet _ _ _ _ _ _ (sextet1_lt a b)).
    rewrite (a2b_loop_alphabet _ _ _ _ _ _ (sextet2_lt b c)).
    rewrite (a2b_loop_alphabet _ _ _ _ _ _ (sextet3_lt c)).
    rewrite first_byte, sextet1_low, sextet2_high, second_byte.
    rewrite sextet2_low, third_byte.
    rewrite IH. rewrite <- !app_assoc. reflexivity.
Qed.

(** [b64decode(b64encode(s)) == s] *)
Lemma b64decode_b64encode (s : bytes) : b64decode (b64encode s) = ret s.
Proof. unfold b64decode, b64encode, a2b_base64. apply a2b_loop_b2a. Qed.

Lemma b64encode_inj (s t : bytes) : b64encode s = b64encode t -> s = t.
Proof.
  intros H. pose proof (b64decode_b64encode s) as Hs.
  rewrite H, b64decode_b64encode in Hs. injection Hs as <-. reflexivity.
Qed.

(** The encoder emits ASCII only. *)
Lemma b64encode_ascii (s : bytes) :
  Forall (fun b => Byte.to_N b < 128) (b64encode s).
Proof.
  unfold b64encode.
  induction s as [|a|a b|a b c l IH] using list_ind3; cbn [b2a_base64];
    repeat constructor;
    try (apply table_b2a_ascii;
         first [apply sextet0_lt | apply sextet1_lt
               | apply sextet2_lt | apply sextet3_lt]);
    try exact IH; try (vm_compute; reflexivity).
Qed.

End Base64.

(** ** ASCII text under the UTF-8 codec *)

(** The string whose characters are the given ASCII bytes. *)
Definition ascii_str (bs : bytes) : str := map Byte.to_N bs.

Lemma utf8_decode_ascii (bs : bytes) :
  Forall (fun b => (Byte.to_N b < 128)%N) bs ->
  Utf8.decode bs = ret (ascii_str bs).
Proof.
  intros H. unfold Utf8.decode, ascii_str.
  assert (E : Utf8.decode_opt bs = Some (map Byte.to_N bs)).
  { induction H as [|b l Hb Hl IH]; [reflexivity|].
    cbn [Utf8.decode_opt map].
    replace (Byte.to_N b <? 128)%N with true
      by (symmetry; apply N.ltb_lt; exact Hb).
    rewrite IH. reflexivity. }
  rewrite E. reflexivity.
Qed.

Lemma utf8_encode_ascii (bs : bytes) :
  Forall (fun b => (Byte.to_N b < 128)%N) bs ->
  Utf8.encode (ascii_str bs) = ret bs.
Proof.
  intros H. unfold Utf8.encode, ascii_str.
  assert (E : Utf8.encode_opt (map Byte.to_N bs) = Some bs).
  { induction H as [|b l Hb Hl IH]; [reflexivity|].
    cbn [Utf8.encode_opt map]. rewrite IH. unfold Utf8.encode_char.
    replace (Byte.to_N b <? 128)%N with true
      by (symmetry; apply N.ltb_lt; exact Hb).
    rewrite byte_of_N_to_N. reflexivity. }
  rewrite E. reflexivity.
Qed.

(** ** The block cipher: [Crypto.Cipher.AES] in [MODE_CBC]

    The library cipher is FIPS-197 AES; it is written out here so that
    the operations of [CryptoHandler] run on concrete inputs.  A word is
    a column of the state, a state is four columns. *)

Module AES.

Definition block_size : nat := 16.

Definition word : Type := (byte * byte * byte * byte)%type.
Definition state : Type := (word * word * word * word)%type.

Definition zero_word : word := (x00, x00, x00, x00).

(** *** Arithmetic of GF(2^8) *)

(** Multiplication by [x] modulo [x^8 + x^4 + x^3 + x + 1]. *)
Definition xtime (b : byte) : byte :=
  let n := Byte.to_N b in
  byte_of_N (N.lxor (N.shiftl n 1) (if N.testbit n 7 then 0x11b else 0)).

Fixpoint gmul_loop (fuel : nat) (a : byte) (b : N) (p : byte) : byte :=
  match fuel with
  | O => p
  | S f =>
    gmul_loop f (xtime a) (N.shiftr b 1) (if N.odd b then bxor p a else p)
  end.

Definition gmul (a b : byte) : byte := gmul_loop 8 a (Byte.to_N b) x00.

Fixpoint gpow (a : byte) (n : nat) : byte :=
  match n with
  | O => x01
  | S m => gmul a (gpow a m)
  end.

(** The multiplicative inverse, zero for zero. *)
Definition ginv (a : byte) : byte := gpow a 254.

Definition rotl8 (n : N) (k : N) : N :=
  N.land (N.lor (N.shiftl n k) (N.shiftr n (8 - k))) 255.

Definition sbox_value (a : byte) : byte :=
  let b := Byte.to_N (ginv a) in
  byte_of_N
    (N.lxor b (N.lxor (rotl8 b 1) (N.lxor (rotl8 b 2)
       (N.lxor (rotl8 b 3) (N.lxor (rotl8 b 4) 0x63))))).

Definition SBOX : bytes := Eval vm_compute in map sbox_value all_bytes.

Fixpoint index_of (b : byte) (l : bytes) (i : N) : N :=
  match l with
  | [] => 0
  | x :: r => if Byte.eqb x b then i else index_of b r (i + 1)
  end.

Definition INV_SBOX : bytes :=
  Eval vm_compute in map (fun b => byte_of_N (index_of b SBOX 0)) all_bytes.

Definition sub_byte (b : byte) : byte := nth (Byte.to_nat b) SBOX x00.
Definition inv_sub_byte (b : byte) : byte := nth (Byte.to_nat b) INV_SBOX x00.

(** *** The round transformations *)

Definition map_word (f : byte -> byte) (w : word) : word :=
  let '(a, b, c, d) := w in (f a, f b, f c, f d).

Definition xor_word (u v : word) : word :=
  let '(a, b, c, d) := u in
  let '(a', b', c', d') := v in
  (bxor a a', bxor b b', bxor c c', bxor d d').

Definition map_state (f : word -> word) (s : state) : state :=
  let '(c0, c1, c2, c3) := s in (f c0, f c1, f c2, f c3).

Definition xor_state (s t : state) : state :=
  let '(c0, c1, c2, c3) := s in
  let '(k0, k1, k2, k3) := t in
  (xor_word c0 k0, xor_word c1 k1, xor_word c2 k2, xor_word c3 k3).

Definition sub_word : word -> word := map_word sub_byte.
Definition rot_word (w : word) : word :=
  let '(a, b, c, d) := w in (b, c, d, a).

Definition sub_bytes : state -> state := map_state (map_word sub_byte).
Definition inv_sub_bytes : state -> state := map_state (map_word inv_sub_byte).

Definition shift_rows (s : state) : state :=
  let '((a0, a1, a2, a3), (b0, b1, b2, b3),
        (c0, c1, c2, c3), (d0, d1, d2, d3)) := s in
  ((a0, b1, c2, d3), (b0, c1, d2, a3), (c0, d1, a2, b3), (d0, a1, b2, c3)).

Definition inv_shift_rows (s : state) : state :=
  let '((a0, a1, a2, a3), (b0, b1, b2, b3),
        (c0, c1, c2, c3), (d0, d1, d2, d3)) := s in
  ((a0, d1, c2, b3), (b0, a1, d2, c3), (c0, b1, a2, d3), (d0, c1, b2, a3)).

Definition xor4 (a b c d : byte) : byte := bxor (bxor (bxor a b) c) d.

Definition mix_column (w : word) : word :=
  let '(a0, a1, a2, a3) := w in
  (xor4 (gmul a0 x02) (gmul a1 x03) a2 a3,
   xor4 a0 (gmul a1 x02) (gmul a2 x03) a3,
   xor4 a0 a1 (gmul a2 x02) (gmul a3 x03),
   xor4 (gmul a0 x03) a1 a2 (gmul a3 x02)).

Definition inv_mix_column (w : word) : word :=
  let '(a0, a1, a2, a3) := w in
  (xor4 (gmul a0 x0e) (gmul a1 x0b) (gmul a2 x0d) (gmul a3 x09),
   xor4 (gmul a0 x09) (gmul a1 x0e) (gmul a2 x0b) (gmul a3 x0d),
   xor4 (gmul a0 x0d) (gmul a1 x09) (gmul a2 x0e) (gmul a3 x0b),
   xor4 (gmul a0 x0b) (gmul a1 x0d) (gmul a2 x09) (gmul a3 x0e)).

Definition mix_columns : state -> state := map_state mix_column.
Definition inv_mix_columns : state -> state := map_state inv_mix_column.

(** *** The key schedule *)

Fixpoint words_of_bytes (k : bytes) : list word :=
  match k with
  | a :: b :: c :: d :: r => (a, b, c, d) :: words_of_bytes r
  | _ => []
  end.

Definition rcon (j : nat) : word := (gpow x02 (j - 1), x00, x00, x00).

Fixpoint expand_loop (fuel Nk i : nat) (w : list word) : list word :=
  match fuel with
  | O => w
  | S f =>
    let temp := nth (i - 1) w zero_word in
    let temp :=
      if Nat.eqb (i mod Nk) 0
      then xor_word (sub_word (rot_word temp)) (rcon (i / Nk))
      else if Nat.ltb 6 Nk && Nat.eqb (i mod Nk) 4 then sub_word temp
      else temp in
    expand_loop f Nk (S i) (w ++ [xor_word (nth (i - Nk) w zero_word) temp])
  end.

(** [Nk] key words, [Nr = Nk + 6] rounds, [4 * (Nr + 1)] schedule words. *)
Definition key_expansion (key : bytes) : list word :=
  let Nk := (length key / 4)%nat in
  expand_loop (4 * (Nk + 7) - Nk) Nk Nk (words_of_bytes key).

Definition rounds (key : bytes) : nat := (length key / 4 + 6)%nat.

Definition round_key (w : list word) (r : nat) : state :=
  (nth (4 * r) w zero_word, nth (4 * r + 1) w zero_word,
   nth (4 * r + 2) w zero_word, nth (4 * r + 3) w zero_word).

(** *** Cipher and inverse cipher *)

Definition add_round_key (w : list word) (r : nat) (s : state) : state :=
  xor_state s (round_key w r).

Definition round (w : list word) (s : state) (r : nat) : state :=
  add_round_key w r (mix_columns (shift_rows (sub_bytes s))).

Definition inv_round (w : list word) (s : state) (r : nat) : state :=
  inv_mix_columns (add_round_key w r (inv_sub_bytes (inv_shift_rows s))).

Definition cipher (w : list word) (Nr : nat) (s : state) : state :=
  let s := add_round_key w 0 s in
  let s := fold_left (round w) (seq 1 (Nr - 1)) s in
  add_round_key w Nr (shift_rows (sub_bytes s)).

Definition inv_cipher (w : list word) (Nr : nat) (s : state) : state :=
  let s := add_round_key w Nr s in
  let s := fold_left (inv_round w) (rev (seq 1 (Nr - 1))) s in
  add_round_key w 0 (inv_sub_bytes (inv_shift_rows s)).

(** *** Blocks of a byte string *)

Definition bytes_of_word (w : word) : bytes :=
  let '(a, b, c, d) := w in [a; b; c; d].

Definition bytes_of_state (s : state) : bytes :=
  let '(c0, c1, c2, c3) := s in
  bytes_of_word c0 ++ bytes_of_word c1 ++ bytes_of_word c2 ++ bytes_of_word c3.

(** Splits a byte string into 16-byte blocks; [None] when its length is
    not a multiple of the block size. *)
Fixpoint blocks_of_bytes (data : bytes) : option (list state) :=
  match data with
  | [] => Some []
  | a0 :: a1 :: a2 :: a3 :: b0 :: b1 :: b2 :: b3
    :: c0 :: c1 :: c2 :: c3 :: d0 :: d1 :: d2 :: d3 :: rest =>
    option_map
      (cons ((a0, a1, a2, a3), (b0, b1, b2, b3),
             (c0, c1, c2, c3), (d0, d1, d2, d3)))
      (blocks_of_bytes rest)
  | _ => None
  end.

Definition bytes_of_blocks (l : list state) : bytes :=
  flat_map bytes_of_state l.

(** *** Cipher block chaining *)

Fixpoint cbc_encrypt (w : list word) (Nr : nat) (prev : state)
    (blocks : list state) : list state :=
  match blocks with
  | [] => []
  | p :: rest =>
    let c := cipher w Nr (xor_state p prev) in
    c :: cbc_encrypt w Nr c rest
  end.

Fixpoint cbc_decrypt (w : list word) (Nr : nat) (prev : state)
    (blocks : list state) : list state :=
  match blocks with
  | [] => []
  | c :: rest =>
    xor_state (inv_cipher w Nr c) prev :: cbc_decrypt w Nr c rest
  end.

(** The cipher object returned by [AES.new(key, AES.MODE_CBC, iv)]. *)
Record cbc_cipher : Type := {
  schedule : list word;
  Nr : nat;
  iv_block : state
}.

Definition key_size_ok (key : bytes) : bool :=
  let n := length key in
  Nat.eqb n 16 || Nat.eqb n 24 || Nat.eqb n 32.

(** [AES.new(key, AES.MODE_CBC, iv)]: [ValueError] on a key that is not
    16, 24 or 32 bytes long and on an IV that is not one block. *)
Definition new (key iv : bytes) : exc cbc_cipher :=
  if key_size_ok key then
    match blocks_of_bytes iv with
    | Some [b] =>
      ret {| schedule := key_expansion key; Nr := rounds key; iv_block := b |}
    | _ => raise ValueError
    end
  else raise ValueError.

(** [cipher.encrypt(data)]: [ValueError] unless the data is a whole
    number of blocks. *)
Definition encrypt (c : cbc_cipher) (data : bytes) : exc bytes :=
  match blocks_of_bytes data with
  | Some blocks =>
    ret (bytes_of_blocks (cbc_encrypt (schedule c) (Nr c) (iv_block c) blocks))
  | None => raise ValueError
  end.

(** [cipher.decrypt(data)] *)
Definition decrypt (c : cbc_cipher) (data : bytes) : exc bytes :=
  match blocks_of_bytes data with
  | Some blocks =>
    ret (bytes_of_blocks (cbc_decrypt (schedule c) (Nr c) (iv_block c) blocks))
  | None => raise ValueError
  end.

End AES.

(** ** The inverse cipher undoes the cipher *)

Module AESFacts.
Import AES.

Definition word_eqb (u v : word) : bool :=
  let '(a, b, c, d) := u in
  let '(a', b', c', d') := v in
  Byte.eqb a a' && Byte.eqb b b' && Byte.eqb c c' && Byte.eqb d d'.

Lemma word_eqb_eq (u v : word) : word_eqb u v = true -> u = v.
Proof.
  destruct u as [[[a b] c] d], v as [[[a' b'] c'] d']. unfold word_eqb.
  rewrite !andb_true_iff. intros [[[Ha Hb] Hc] Hd].
  apply Byte.byte_dec_bl in Ha, Hb, Hc, Hd. subst. reflexivity.
Qed.

Lemma inv_sub_byte_sub_byte (b : byte) : inv_sub_byte (sub_byte b) = b.
Proof.
  apply Byte.byte_dec_bl. revert b.
  apply (byte_forall (fun b => Byte.eqb (inv_sub_byte (sub_byte b)) b)).
  vm_compute. reflexivity.
Qed.

Lemma inv_sub_bytes_sub_bytes (s : state) : inv_sub_bytes (sub_bytes s) = s.
Proof.
  destruct s as [[[[[[a0 a1] a2] a3] [[[b0 b1] b2] b3]]
                  [[[c0 c1] c2] c3]] [[[d0 d1] d2] d3]].
  unfold inv_sub_bytes, sub_bytes, map_state, map_word.
  rewrite !inv_sub_byte_sub_byte. reflexivity.
Qed.

Lemma inv_shift_rows_shift_rows (s : state) :
  inv_shift_rows (shift_rows s) = s.
Proof.
  destruct s as [[[[[[a0 a1] a2] a3] [[[b0 b1] b2] b3]]
                  [[[c0 c1] c2] c3]] [[[d0 d1] d2] d3]].
  reflexivity.
Qed.

Lemma xor_word_cancel (u k : word) : xor_word (xor_word u k) k = u.
Proof.
  destruct u as [[[a b] c] d], k as [[[a' b'] c'] d']. unfold xor_word.
  rewrite !(bxor_comm _ a'), !(bxor_comm _ b'), !(bxor_comm _ c'),
    !(bxor_comm _ d'), !bxor_cancel_l.
  reflexivity.
Qed.

Lemma xor_state_cancel (s k : state) : xor_state (xor_state s k) k = s.
Proof.
  destruct s as [[[c0 c1] c2] c3], k as [[[k0 k1] k2] k3]. unfold xor_state.
  rewrite !xor_word_cancel. reflexivity.
Qed.

Lemma add_round_key_cancel (w : list word) (r : nat) (s : state) :
  add_round_key w r (add_round_key w r s) = s.
Proof. unfold add_round_key. apply xor_state_cancel. Qed.

Lemma bxor_interchange (a b a' b' : byte) :
  bxor (bxor a a') (bxor b b') = bxor (bxor a b) (bxor a' b').
Proof.
  rewrite !bxor_assoc. f_equal.
  rewrite <- !bxor_assoc. f_equal. apply bxor_comm.
Qed.

Lemma xtime_xor (a b : byte) : xtime (bxor a b) = bxor (xtime a) (xtime b).
Proof.
  apply Byte.byte_dec_bl. revert a b.
  apply (byte_forall2
    (fun a b => Byte.eqb (xtime (bxor a b)) (bxor (xtime a) (xtime b)))).
  vm_compute. reflexivity.
Qed.

Lemma gmul_loop_xor (fuel : nat) (a a' : byte) (b : N) (p p' : byte) :
  gmul_loop fuel (bxor a a') b (bxor p p') =
  bxor (gmul_loop fuel a b p) (gmul_loop fuel a' b p').
Proof.
  revert a a' b p p'. induction fuel as [|f IH]; intros a a' b p p'.
  - reflexivity.
  - cbn [gmul_loop]. rewrite xtime_xor. destruct (N.odd b).
    + rewrite bxor_interchange. apply IH.
    + apply IH.
Qed.

(** Multiplication distributes over xor. *)
Lemma gmul_xor (c a b : byte) :
  gmul (bxor a b) c = bxor (gmul a c) (gmul b c).
Proof.
  unfold gmul. rewrite <- gmul_loop_xor, bxor_0_l. reflexivity.
Qed.

Lemma xor4_interchange (a b c d a' b' c' d' : byte) :
  xor4 (bxor a a') (bxor b b') (bxor c c') (bxor d d') =
  bxor (xor4 a b c d) (xor4 a' b' c' d').
Proof.
  unfold xor4. apply to_N_inj. rewrite !to_N_bxor.
  apply N.bits_inj. intros n. rewrite !N.lxor_spec.
  destruct (N.testbit (Byte.to_N a) n), (N.testbit (Byte.to_N b) n),
    (N.testbit (Byte.to_N c) n), (N.testbit (Byte.to_N d) n),
    (N.testbit (Byte.to_N a') n), (N.testbit (Byte.to_N b') n),
    (N.testbit (Byte.to_N c') n), (N.testbit (Byte.to_N d') n);
    reflexivity.
Qed.

Lemma mix_column_xor (u v : word) :
  mix_column (xor_word u v) = xor_word (mix_column u) (mix_column v).
Proof.
  destruct u as [[[a b] c] d], v as [[[a' b'] c'] d'].
  unfold mix_column, xor_word.
  rewrite !gmul_xor.
  rewrite !xor4_interchange. reflexivity.
Qed.

Lemma inv_mix_column_xor (u v : word) :
  inv_mix_column (xor_word u v) =
  xor_word (inv_mix_column u) (inv_mix_column v).
Proof.
  destruct u as [[[a b] c] d], v as [[[a' b'] c'] d'].
  unfold inv_mix_column, xor_word.
  rewrite !gmul_xor.
  rewrite !xor4_interchange. reflexivity.
Qed.

(** On a column with one non-zero entry, by exhaustion. *)
Lemma inv_mix_mix_unit (a : byte) :
  inv_mix_column (mix_column (a, x00, x00, x00)) = (a, x00, x00, x00) /\
  inv_mix_column (mix_column (x00, a, x00, x00)) = (x00, a, x00, x00) /\
  inv_mix_column (mix_column (x00, x00, a, x00)) = (x00, x00, a, x00) /\
  inv_mix_column (mix_column (x00, x00, x00, a)) = (x00, x00, x00, a).
Proof.
  repeat split; apply word_eqb_eq; revert a.
  - apply (byte_forall (fun a => word_eqb
      (inv_mix_column (mix_column (a, x00, x00, x00))) (a, x00, x00, x00))).
    vm_compute. reflexivity.
  - apply (byte_forall (fun a => word_eqb
      (inv_mix_column (mix_column (x00, a, x00, x00))) (x00, a, x00, x00))).
    vm_compute. reflexivity.
  - apply (byte_forall (fun a => word_eqb
      (inv_mix_column (mix_column (x00, x00, a, x00))) (x00, x00, a, x00))).
    vm_compute. reflexivity.
  - apply (byte_forall (fun a => word_eqb
      (inv_mix_column (mix_column (x00, x00, x00, a))) (x00, x00, x00, a))).
    vm_compute. reflexivity.
Qed.

Lemma word_decompose (a b c d : byte) :
  (a, b, c, d) =
  xor_word (xor_word (a, x00, x00, x00) (x00, b, x00, x00))
           (xor_word (x00, x00, c, x00) (x00, x00, x00, d)).
Proof.
  unfold xor_word.
  rewrite !bxor_0_r, !bxor_0_l, ?bxor_0_r. reflexivity.
Qed.

Lemma inv_mix_column_mix_column (w : word) :
  inv_mix_column (mix_column w) = w.
Proof.
  destruct w as [[[a b] c] d].
  rewrite (word_decompose a b c d) at 1.
  rewrite !mix_column_xor, !inv_mix_column_xor.
  destruct (inv_mix_mix_unit a) as [-> _].
  destruct (inv_mix_mix_unit b) as [_ [-> _]].
  destruct (inv_mix_mix_unit c) as [_ [_ [-> _]]].
  destruct (inv_mix_mix_unit d) as [_ [_ [_ ->]]].
  symmetry. apply word_decompose.
Qed.

Lemma inv_mix_columns_mix_columns (s : state) :
  inv_mix_columns (mix_columns s) = s.
Proof.
  destruct s as [[[c0 c1] c2] c3].
  unfold inv_mix_columns, mix_columns, map_state.
  rewrite !inv_mix_column_mix_column. reflexivity.
Qed.

Lemma inv_round_round (w : list word) (s : state) (r : nat) :
  inv_round w (shift_rows (sub_bytes (round w s r))) r =
  shift_rows (sub_bytes s).
Proof.
  unfold inv_round, round.
  rewrite inv_shift_rows_shift_rows, inv_sub_bytes_sub_bytes.
  rewrite add_round_key_cancel. apply inv_mix_columns_mix_columns.
Qed.

Lemma inv_rounds_rounds (w : list word) (l : list nat) (s : state) :
  fold_left (inv_round w) (rev l) (shift_rows (sub_bytes (fold_left (round w) l s)))
  = shift_rows (sub_bytes s).
Proof.
  revert s. induction l as [|r l IH] using rev_ind; intros s.
  - reflexivity.
  - rewrite rev_app_distr, !fold_left_app. cbn [rev app fold_left].
    rewrite inv_round_round. apply IH.
Qed.

(** FIPS-197, section 5.3: [InvCipher (Cipher s) = s], for any schedule
    and any number of rounds. *)
Theorem inv_cipher_cipher (w : list word) (n : nat) (s : state) :
  inv_cipher w n (cipher w n s) = s.
Proof.
  unfold inv_cipher, cipher.
  rewrite add_round_key_cancel, inv_rounds_rounds.
  rewrite inv_shift_rows_shift_rows, inv_sub_bytes_sub_bytes.
  apply add_round_key_cancel.
Qed.

(** *** Blocks *)

Lemma blocks_of_bytes_of_blocks (l : list state) :
  blocks_of_bytes (bytes_of_blocks l) = Some l.
Proof.
  induction l as [|s l IH]; [reflexivity|].
  destruct s as [[[[[[a0 a1] a2] a3] [[[b0 b1] b2] b3]]
                  [[[c0 c1] c2] c3]] [[[d0 d1] d2] d3]].
  unfold bytes_of_blocks in *. cbn [flat_map bytes_of_state bytes_of_word app].
  cbn [blocks_of_bytes]. rewrite IH. reflexivity.
Qed.

Lemma list_ind16 {A} (P : list A -> Prop) :
  (forall l, (length l < 16)%nat -> P l) ->
  (forall h t, length h = 16%nat -> P t -> P (h ++ t)) ->
  forall l, P l.
Proof.
  intros Hs Hc l. remember (length l) as n eqn:En. revert l En.
  induction n as [n IH] using lt_wf_ind. intros l En.
  destruct (Nat.lt_ge_cases (length l) 16) as [Hlt | Hge].
  - apply Hs, Hlt.
  - rewrite <- (firstn_skipn 16 l). apply Hc.
    + apply firstn_length_le, Hge.
    + apply (IH (length (skipn 16 l))); [|reflexivity].
      rewrite length_skipn. lia.
Qed.

Lemma bytes_of_blocks_of_bytes (data : bytes) (l : list state) :
  blocks_of_bytes data = Some l -> bytes_of_blocks l = data.
Proof.
  revert l. pattern data. apply list_ind16; clear data;
    [intros data Hlen | intros h t Hh IH]; intros l H.
  - destruct data as [|? data]; [injection H as <-; reflexivity|].
    do 15 (destruct data as [|? data]; [discriminate H|]).
    simpl in Hlen. lia.
  - do 16 (destruct h as [|? h]; [discriminate|]).
    destruct h; [|discriminate].
    cbn [app blocks_of_bytes] in H.
    destruct (blocks_of_bytes t) as [l'|] eqn:E; [|discriminate].
    injection H as <-. unfold bytes_of_blocks in *.
    cbn [flat_map bytes_of_state bytes_of_word app].
    rewrite (IH l' eq_refl). reflexivity.
Qed.

Lemma length_bytes_of_blocks (l : list state) :
  length (bytes_of_blocks l) = (16 * length l)%nat.
Proof.
  induction l as [|s l IH]; [reflexivity|].
  destruct s as [[[[[[a0 a1] a2] a3] [[[b0 b1] b2] b3]]
                  [[[c0 c1] c2] c3]] [[[d0 d1] d2] d3]].
  unfold bytes_of_blocks in *. cbn [flat_map bytes_of_state bytes_of_word app].
  cbn [length]. rewrite IH. lia.
Qed.

(** A byte string splits into blocks exactly when its length is a
    multiple of the block size. *)
Lemma blocks_of_bytes_some (data : bytes) :
  (length data mod 16 = 0)%nat -> exists l, blocks_of_bytes data = Some l.
Proof.
  pattern data. apply list_ind16; clear data;
    [intros data Hlen | intros h t Hh IH]; intros H.
  - rewrite Nat.mod_small in H by exact Hlen.
    destruct data; [|discriminate]. exists []. reflexivity.
  - rewrite length_app, Hh in H.
    assert (Ht : (length t mod 16 = 0)%nat).
    { replace (16 + length t)%nat with (length t + 1 * 16)%nat in H by lia.
      rewrite Nat.Div0.mod_add in H. exact H. }
    destruct (IH Ht) as [l Hl].
    do 16 (destruct h as [|? h]; [discriminate|]).
    destruct h; [|discriminate].
    cbn [app blocks_of_bytes]. rewrite Hl. eexists. reflexivity.
Qed.

Lemma blocks_of_bytes_length (data : bytes) (l : list state) :
  blocks_of_bytes data = Some l -> length data = (16 * length l)%nat.
Proof.
  intros H. apply bytes_of_blocks_of_bytes in H. subst data.
  apply length_bytes_of_blocks.
Qed.

Lemma blocks_of_bytes_one (data : bytes) :
  length data = 16%nat -> exists b, blocks_of_bytes data = Some [b].
Proof.
  intros H. do 16 (destruct data as [|? data]; [discriminate|]).
  destruct data; [|discriminate]. eexists. reflexivity.
Qed.

Lemma blocks_of_bytes_app (a b : bytes) (la lb : list state) :
  blocks_of_bytes a = Some la -> blocks_of_bytes b = Some lb ->
  blocks_of_bytes (a ++ b) = Some (la ++ lb).
Proof.
  intros Ha Hb. apply bytes_of_blocks_of_bytes in Ha, Hb. subst a b.
  unfold bytes_of_blocks. rewrite <- flat_map_app.
  apply blocks_of_bytes_of_blocks.
Qed.

(** *** Chaining *)

Lemma length_cbc_encrypt (w : list word) (n : nat) (prev : state)
    (blocks : list state) :
  length (cbc_encrypt w n prev blocks) = length blocks.
Proof.
  revert prev. induction blocks as [|p l IH]; intros prev; simpl;
    [reflexivity | rewrite IH; reflexivity].
Qed.

Lemma length_cbc_decrypt (w : list word) (n : nat) (prev : state)
    (blocks : list state) :
  length (cbc_decrypt w n prev blocks) = length blocks.
Proof.
  revert prev. induction blocks as [|p l IH]; intros prev; simpl;
    [reflexivity | rewrite IH; reflexivity].
Qed.

Lemma cbc_decrypt_encrypt (w : list word) (n : nat) (prev : state)
    (blocks : list state) :
  cbc_decrypt w n prev (cbc_encrypt w n prev blocks) = blocks.
Proof.
  revert prev. induction blocks as [|p l IH]; intros prev; simpl.
  - reflexivity.
  - rewrite inv_cipher_cipher, xor_state_cancel, IH. reflexivity.
Qed.

(** What [AES.new] accepts. *)
Lemma new_ok (key iv : bytes) :
  key_size_ok key = true -> length iv = 16%nat ->
  exists b, blocks_of_bytes iv = Some [b] /\
    new key iv = ret {| schedule := key_expansion key;
                        Nr := rounds key; iv_block := b |}.
Proof.
  intros Hk Hiv. destruct (blocks_of_bytes_one iv Hiv) as [b Hb].
  exists b. split; [exact Hb|]. unfold new. rewrite Hk, Hb. reflexivity.
Qed.

Lemma new_bad_iv (key iv : bytes) :
  length iv <> 16%nat -> new key iv = raise ValueError.
Proof.
  intros Hiv. unfold new. destruct (key_size_ok key); [|reflexivity].
  destruct (blocks_of_bytes iv) as [[|b [|b' l]]|] eqn:E; try reflexivity.
  apply blocks_of_bytes_length in E. simpl in E. lia.
Qed.

Lemma new_bad_key (key iv : bytes) :
  key_size_ok key = false -> new key iv = raise ValueError.
Proof. intros H. unfold new. rewrite H. reflexivity. Qed.

End AESFacts.

(** ** [config.py] *)

Module config.

Definition MSG_DELIMITER : str :=
  Eval vm_compute in (10%N :: lit "###MSG###" ++ [10%N]).

Definition BUFFER_SIZE : nat := 4096.

Definition AES_KEY_SIZE : nat := 32.
Definition AES_IV_SIZE : nat := 16.

Definition MSG_SEPARATOR : str := Eval vm_compute in lit "||".
Definition MSG_TYPE_AUTH : str := Eval vm_compute in lit "AUTH".
Definition MSG_TYPE_KEY_EXCHANGE : str := Eval vm_compute in lit "KEY_EXCHANGE".
Definition MSG_TYPE_MESSAGE : str := Eval vm_compute in lit "MESSAGE".
Definition MSG_TYPE_BROADCAST : str := Eval vm_compute in lit "BROADCAST".
Definition MSG_TYPE_USER_LIST : str := Eval vm_compute in lit "USER_LIST".
Definition MSG_TYPE_DISCONNECT : str := Eval vm_compute in lit "DISCONNECT".

End config.

(** ** Python dictionaries with [str] keys

    A [dict] keeps its entries in insertion order and holds a key at
    most once; iteration ([items()], [keys()]) follows that order. *)

Module Dict.

Definition dict (V : Type) : Type := list (str * V).

Section Ops.
Context {V : Type}.

(** [d.get(k)] *)
Fixpoint get (d : dict V) (k : str) : option V :=
  match d with
  | [] => None
  | (k', v) :: r => if str_eqb k' k then Some v else get r k
  end.

(** [k in d] *)
Definition contains (d : dict V) (k : str) : bool :=
  match get d k with
  | Some _ => true
  | None => false
  end.

(** [d[k] = v]: overwrites in place, appends a new key at the end. *)
Fixpoint set (d : dict V) (k : str) (v : V) : dict V :=
  match d with
  | [] => [(k, v)]
  | (k', v') :: r =>
    if str_eqb k' k then (k', v) :: r else (k', v') :: set r k v
  end.

(** [del d[k]], guarded by [k in d] at every call site. *)
Fixpoint del (d : dict V) (k : str) : dict V :=
  match d with
  | [] => []
  | (k', v') :: r => if str_eqb k' k then r else (k', v') :: del r k
  end.

Definition keys (d : dict V) : list str := map fst d.

(** The representation invariant. *)
Definition wf (d : dict V) : Prop := NoDup (keys d).

Lemma contains_In (d : dict V) (k : str) :
  contains d k = true <-> In k (keys d).
Proof.
  unfold contains. induction d as [|[k' v] r IH]; simpl.
  - split; [discriminate | contradiction].
  - destruct (str_eqb k' k) eqn:E.
    + apply str_eqb_eq in E. subst. split; auto.
    + apply str_eqb_neq in E. rewrite IH. split; [auto|].
      intros [H | H]; [contradiction | exact H].
Qed.

Lemma contains_false (d : dict V) (k : str) :
  contains d k = false <-> ~ In k (keys d).
Proof.
  rewrite <- contains_In. destruct (contains d k); split; congruence.
Qed.

Lemma get_In (d : dict V) (k : str) (v : V) :
  get d k = Some v -> In (k, v) d.
Proof.
  induction d as [|[k' v'] r IH]; simpl; [discriminate|].
  destruct (str_eqb k' k) eqn:E.
  - apply str_eqb_eq in E. subst. intros H. injection H as ->. auto.
  - auto.
Qed.

Lemma In_get (d : dict V) (k : str) (v : V) :
  wf d -> In (k, v) d -> get d k = Some v.
Proof.
  unfold wf, keys. induction d as [|[k' v'] r IH]; simpl; [contradiction|].
  intros Hnd Hin. inversion Hnd as [|? ? Hni Hr]; subst.
  destruct Hin as [Heq | Hin].
  - injection Heq as -> ->. rewrite str_eqb_refl. reflexivity.
  - destruct (str_eqb k' k) eqn:E.
    + apply str_eqb_eq in E. subst. exfalso. apply Hni.
      apply (in_map fst) in Hin. exact Hin.
    + apply IH; assumption.
Qed.

Lemma keys_set_new (d : dict V) (k : str) (v : V) :
  contains d k = false -> set d k v = d ++ [(k, v)].
Proof.
  unfold contains. induction d as [|[k' v'] r IH]; simpl; [reflexivity|].
  destruct (str_eqb k' k); [discriminate|].
  intros H. rewrite IH by exact H. reflexivity.
Qed.

Lemma keys_set_old (d : dict V) (k : str) (v : V) :
  contains d k = true -> keys (set d k v) = keys d.
Proof.
  unfold contains, keys. induction d as [|[k' v'] r IH]; simpl; [discriminate|].
  destruct (str_eqb k' k) eqn:E; [reflexivity|].
  intros H. simpl. rewrite IH by exact H. reflexivity.
Qed.

Lemma wf_nil : wf [].
Proof. constructor. Qed.

Lemma wf_set (d : dict V) (k : str) (v : V) : wf d -> wf (set d k v).
Proof.
  intros H. unfold wf. destruct (contains d k) eqn:E.
  - rewrite keys_set_old by exact E. exact H.
  - rewrite keys_set_new by exact E. unfold keys. rewrite map_app. simpl.
    apply contains_false in E.
    apply NoDup_app; [exact H | repeat constructor; simpl; tauto |].
    intros x Hx [Hk | []]. subst. apply E, Hx.
Qed.

Lemma keys_del_incl (d : dict V) (k x : str) :
  In x (keys (del d k)) -> In x (keys d).
Proof.
  unfold keys. induction d as [|[k' v'] r IH]; simpl; [auto|].
  destruct (str_eqb k' k); simpl; [auto|]. intros [H | H]; auto.
Qed.

Lemma wf_del (d : dict V) (k : str) : wf d -> wf (del d k).
Proof.
  unfold wf. induction d as [|[k' v'] r IH]; simpl; [auto|].
  intros H. inversion H as [|? ? Hni Hr]; subst.
  destruct (str_eqb k' k); [exact Hr|].
  simpl. constructor; [|apply IH, Hr].
  intros Hin. apply Hni. apply (keys_del_incl r k), Hin.
Qed.

Lemma contains_del_same (d : dict V) (k : str) :
  wf d -> contains (del d k) k = false.
Proof.
  intros H. apply contains_false. unfold wf, keys in *.
  induction d as [|[k' v'] r IH]; simpl; [auto|].
  inversion H as [|? ? Hni Hr]; subst.
  destruct (str_eqb k' k) eqn:E.
  - apply str_eqb_eq in E. subst. exact Hni.
  - apply str_eqb_neq in E. simpl. intros [Heq | Hin]; [contradiction|].
    apply (IH Hr), Hin.
Qed.

Lemma get_del_other (d : dict V) (k k' : str) :
  k' <> k -> get (del d k) k' = get d k'.
Proof.
  intros Hne. induction d as [|[k0 v0] r IH]; simpl; [reflexivity|].
  destruct (str_eqb k0 k) eqn:E.
  - apply str_eqb_eq in E. subst k0.
    replace (str_eqb k k') with false
      by (symmetry; apply str_eqb_neq; congruence).
    reflexivity.
  - simpl. rewrite IH. reflexivity.
Qed.

Lemma get_set_same (d : dict V) (k : str) (v : V) :
  get (set d k v) k = Some v.
Proof.
  induction d as [|[k0 v0] r IH]; simpl.
  - rewrite str_eqb_refl. reflexivity.
  - destruct (str_eqb k0 k) eqn:E; simpl; rewrite E; [reflexivity | exact IH].
Qed.

Lemma get_set_other (d : dict V) (k k' : str) (v : V) :
  k' <> k -> get (set d k v) k' = get d k'.
Proof.
  intros Hne. induction d as [|[k0 v0] r IH]; simpl.
  - replace (str_eqb k k') with false
      by (symmetry; apply str_eqb_neq; congruence).
    reflexivity.
  - destruct (str_eqb k0 k) eqn:E; simpl.
    + apply str_eqb_eq in E. subst k0.
      replace (str_eqb k k') with false
        by (symmetry; apply str_eqb_neq; congruence).
      reflexivity.
    + rewrite IH. reflexivity.
Qed.

Lemma length_set_new (d : dict V) (k : str) (v : V) :
  contains d k = false -> length (set d k v) = S (length d).
Proof.
  intros H. rewrite keys_set_new by exact H. rewrite length_app. simpl. lia.
Qed.

End Ops.

End Dict.

(** ** [crypto_handler.py]: the hybrid crypto engine *)

Module crypto_handler.
Local Open Scope exc_scope.

(** *** Sequence operations of the interpreter *)

(** [b[-1]] *)
Definition last_item (b : bytes) : exc N :=
  match rev b with
  | [] => raise IndexError
  | x :: _ => ret (Byte.to_N x)
  end.

(** [b[:-n]] for [n >= 0]: [-0] is [0], so [b[:-0]] is empty; a bound
    before the start is clamped to the start. *)
Definition slice_to_neg (b : bytes) (n : N) : bytes :=
  if N.eqb n 0 then [] else firstn (length b - N.to_nat n) b.

(** [x.encode('utf-8')] on a value that is a [str] or [None]. *)
Definition encode_value (x : option str) : exc bytes :=
  match x with
  | Some s => Utf8.encode s
  | None => raise AttributeError
  end.

(** *** [Crypto.Random.get_random_bytes]

    The operating system's random source is an input of the model: an
    unbounded supply of bytes, consumed from the front. *)
Definition entropy : Type := nat -> byte.

Definition get_random_bytes (n : nat) (src : entropy) : bytes * entropy :=
  (map src (seq 0 n), fun i => src (n + i)%nat).

Definition generate_aes_key (src : entropy) : bytes * entropy :=
  get_random_bytes config.AES_KEY_SIZE src.

Definition generate_aes_iv (src : entropy) : bytes * entropy :=
  get_random_bytes config.AES_IV_SIZE src.

(** *** Symmetric encryption *)

(** The [try] block of [encrypt_message], after
    [iv = self.generate_aes_iv()]:
    [message_bytes = message.encode('utf-8')],
    [padding_length = AES.block_size - (len(message_bytes) % AES.block_size)],
    [padded_message = message_bytes + (bytes([padding_length]) * padding_length)],
    [cipher = AES.new(aes_key, AES.MODE_CBC, iv)],
    [ciphertext = cipher.encrypt(padded_message)],
    [encrypted_data = iv + ciphertext],
    [return base64.b64encode(encrypted_data).decode('utf-8')]. *)
Definition encrypt_message_body (iv : bytes) (message : str)
    (aes_key : bytes) : exc str :=
  message_bytes <- Utf8.encode message ;;
  let padding_length :=
    (AES.block_size - length message_bytes mod AES.block_size)%nat in
  let padded_message :=
    message_bytes
    ++ repeat (byte_of_N (N.of_nat padding_length)) padding_length in
  cipher <- AES.new aes_key iv ;;
  ciphertext <- AES.encrypt cipher padded_message ;;
  let encrypted_data := iv ++ ciphertext in
  Utf8.decode (Base64.b64encode encrypted_data).

(** [encrypt_message]: the block above under
    [except Exception as e: ...; return None]; the random source goes
    in and comes out advanced by the IV. *)
Definition encrypt_message (src : entropy) (message : str)
    (aes_key : bytes) : option str * entropy :=
  let (iv, src') := generate_aes_iv src in
  (except_None (encrypt_message_body iv message aes_key), src').

(** The [try] block of [decrypt_message]:
    [encrypted_data = base64.b64decode(encrypted_message_b64.encode('utf-8'))],
    [iv = encrypted_data[:config.AES_IV_SIZE]],
    [ciphertext = encrypted_data[config.AES_IV_SIZE:]],
    [cipher = AES.new(aes_key, AES.MODE_CBC, iv)],
    [padded_message = cipher.decrypt(ciphertext)],
    [padding_length = padded_message[-1]],
    [message = padded_message[:-padding_length]],
    [return message.decode('utf-8')].
    The argument is whatever the caller passes: a [str], or the [None]
    of a failed encryption. *)
Definition decrypt_message_body (encrypted_message_b64 : option str)
    (aes_key : bytes) : exc str :=
  raw <- encode_value encrypted_message_b64 ;;
  encrypted_data <- Base64.b64decode raw ;;
  let iv := firstn config.AES_IV_SIZE encrypted_data in
  let ciphertext := skipn config.AES_IV_SIZE encrypted_data in
  cipher <- AES.new aes_key iv ;;
  padded_message <- AES.decrypt cipher ciphertext ;;
  padding_length <- last_item padded_message ;;
  let message := slice_to_neg padded_message padding_length in
  Utf8.decode message.

(** [decrypt_message]: the block above under
    [except Exception as e: ...; return None]. *)
Definition decrypt_message (encrypted_message_b64 : option str)
    (aes_key : bytes) : option str :=
  except_None (decrypt_message_body encrypted_message_b64 aes_key).

(** The decoded transport form of a ciphertext string. *)
Definition transport_decode (encrypted_message_b64 : option str) : exc bytes :=
  raw <- encode_value encrypted_message_b64 ;;
  Base64.b64decode raw.

(** The padded plaintext that [decrypt_message] recovers, and its
    padding length byte, when it gets that far. *)
Definition padded_plaintext (encrypted_message_b64 : option str)
    (aes_key : bytes) : exc bytes :=
  encrypted_data <- transport_decode encrypted_message_b64 ;;
  cipher <- AES.new aes_key (firstn config.AES_IV_SIZE encrypted_data) ;;
  AES.decrypt cipher (skipn config.AES_IV_SIZE encrypted_data).

Definition recovered_padding (encrypted_message_b64 : option str)
    (aes_key : bytes) : exc N :=
  padded_message <- padded_plaintext encrypted_message_b64 aes_key ;;
  last_item padded_message.

(** *** Keyed integrity tags *)

Inductive message_value : Type :=
| MsgStr (s : str)
| MsgBytes (b : bytes).

Definition hexdigit (n : N) : N :=
  if N.ltb n 10 then (48 + n)%N else (87 + n)%N.

(** [h.hexdigest()] *)
Definition hexdigest (d : bytes) : str :=
  flat_map (fun b => [hexdigit (Byte.to_N b / 16);
                      hexdigit (Byte.to_N b mod 16)]) d.

Definition is_ascii (s : str) : bool := forallb (fun c => N.ltb c 128) s.

(** [hmac.compare_digest(a, b)] on a [str] and a value that is a [str]
    or [None]: [TypeError] unless both are ASCII strings. *)
Definition compare_digest (a : str) (b : option str) : exc bool :=
  match b with
  | None => raise TypeError
  | Some b' =>
    if is_ascii a && is_ascii b' then ret (str_eqb a b')
    else raise TypeError
  end.

(** [print(text)] on a console that writes UTF-8 with the [strict]
    error handler, the usual one: the text is encoded for the stream,
    and a lone surrogate raises [UnicodeEncodeError]. *)
Definition print_utf8 (text : str) : exc unit :=
  _ <- Utf8.encode text ;; ret tt.

Section Primitives.

(** The library primitives the engine calls: [hmac.new(..., sha256)]
    and the RSA schemes of PyCryptodome. *)
Variable hmac_sha256 : bytes -> bytes -> bytes.
Variable RsaKey : Type.
Variable PKCS1_OAEP_encrypt : RsaKey -> bytes -> entropy -> exc bytes.
Variable PKCS1_OAEP_decrypt : RsaKey -> bytes -> exc bytes.
Variable SHA256 : bytes -> bytes.
Variable pkcs1_15_sign : RsaKey -> bytes -> exc bytes.

(** [print(text)]: [sys.stdout] encodes the text for the console the
    program runs on and raises [UnicodeEncodeError] where the console's
    encoding has no form for it.  It is called here where the text
    holds a name the caller passed in; the messages of the library's
    own exceptions are plain ASCII and are taken to go out. *)
Variable print : str -> exc unit.

(** The fields of a [CryptoHandler]. *)
Record CryptoHandler : Type := {
  public_key : option RsaKey;
  private_key : option RsaKey;
  peer_public_keys : Dict.dict RsaKey
}.

Definition new_handler : CryptoHandler :=
  {| public_key := None; private_key := None; peer_public_keys := [] |}.

(** The [try] block of [create_hmac]:
    [message_bytes = message.encode('utf-8') if isinstance(message, str)
     else message],
    [hmac_obj = hmac.new(key, message_bytes, hashlib.sha256)],
    [return hmac_obj.hexdigest()]. *)
Definition create_hmac_body (message : message_value) (key : bytes)
    : exc str :=
  message_bytes <-
    match message with
    | MsgStr s => Utf8.encode s
    | MsgBytes b => ret b
    end ;;
  ret (hexdigest (hmac_sha256 key message_bytes)).

Definition create_hmac (message : message_value) (key : bytes) : option str :=
  except_None (create_hmac_body message key).

(** [verify_hmac]: [expected_hmac = self.create_hmac(message, key)],
    [False] when that is [None], else
    [hmac.compare_digest(expected_hmac, received_hmac)], and [False]
    when the comparison raises. *)
Definition verify_hmac (message : message_value) (received_hmac : option str)
    (key : bytes) : bool :=
  match create_hmac message key with
  | None => false
  | Some expected_hmac =>
    match compare_digest expected_hmac received_hmac with
    | inr b => b
    | inl _ => false
    end
  end.

(** *** Asymmetric key wrap and signing *)

(** The [try] block of [encrypt_aes_key_with_rsa]:
    [if recipient_username not in self.peer_public_keys:
       raise ValueError(...)],
    [peer_public_key = self.peer_public_keys[recipient_username]],
    [encrypted_key = PKCS1_OAEP.new(peer_public_key).encrypt(aes_key)],
    [return base64.b64encode(encrypted_key).decode('utf-8')]. *)
Definition encrypt_aes_key_with_rsa_body (self : CryptoHandler)
    (src : entropy) (aes_key : bytes) (recipient_username : str) : exc str :=
  if negb (Dict.contains (peer_public_keys self) recipient_username)
  then raise ValueError
  else
    match Dict.get (peer_public_keys self) recipient_username with
    | None => raise KeyError
    | Some peer_public_key =>
      encrypted_key <- PKCS1_OAEP_encrypt peer_public_key aes_key src ;;
      Utf8.decode (Base64.b64encode encrypted_key)
    end.

(** [f"[CRYPTO ERROR] RSA encryption failed: {e}"] for the
    [ValueError(f"No public key found for {recipient_username}")] of
    the guard. *)
Definition no_key_report (recipient_username : str) : str :=
  lit "[CRYPTO ERROR] RSA encryption failed: "
  ++ lit "No public key found for " ++ recipient_username.

(** [encrypt_aes_key_with_rsa]: the block above under
    [except Exception as e:
       print(f"[CRYPTO ERROR] RSA encryption failed: {e}"); return None].
    The exception of the guard carries the recipient's name, so the
    handler prints that name; when the [print] raises, the exception
    leaves the handler and the call. *)
Definition encrypt_aes_key_with_rsa (self : CryptoHandler) (src : entropy)
    (aes_key : bytes) (recipient_username : str) : exc (option str) :=
  match encrypt_aes_key_with_rsa_body self src aes_key recipient_username with
  | inr encrypted_key_b64 => ret (Some encrypted_key_b64)
  | inl e =>
    if negb (Dict.contains (peer_public_keys self) recipient_username) then
      _ <- print (no_key_report recipient_username) ;;
      ret None
    else ret None
  end.

(** The [try] block of [decrypt_aes_key_with_rsa]; without a private
    key the cipher object has nothing to decrypt with and raises. *)
Definition decrypt_aes_key_with_rsa_body (self : CryptoHandler)
    (encrypted_key_b64 : option str) : exc bytes :=
  raw <- encode_value encrypted_key_b64 ;;
  encrypted_key <- Base64.b64decode raw ;;
  match private_key self with
  | None => raise AttributeError
  | Some k => PKCS1_OAEP_decrypt k encrypted_key
  end.

Definition decrypt_aes_key_with_rsa (self : CryptoHandler)
    (encrypted_key_b64 : option str) : option bytes :=
  except_None (decrypt_aes_key_with_rsa_body self encrypted_key_b64).

(** The [try] block of [sign_message]:
    [message_hash = SHA256.new(message.encode('utf-8'))],
    [signature = pkcs1_15.new(self.private_key).sign(message_hash)],
    [return base64.b64encode(signature).decode('utf-8')]. *)
Definition sign_message_body (self : CryptoHandler) (message : str)
    : exc str :=
  message_bytes <- Utf8.encode message ;;
  let message_hash := SHA256 message_bytes in
  match private_key self with
  | None => raise AttributeError
  | Some k =>
    signature <- pkcs1_15_sign k message_hash ;;
    Utf8.decode (Base64.b64encode signature)
  end.

Definition sign_message (self : CryptoHandler) (message : str) : option str :=
  except_None (sign_message_body self message).

End Primitives.

Arguments public_key {RsaKey} _.
Arguments private_key {RsaKey} _.
Arguments peer_public_keys {RsaKey} _.
Arguments new_handler {RsaKey}.
Arguments encrypt_aes_key_with_rsa_body {RsaKey} _ _ _ _ _.
Arguments encrypt_aes_key_with_rsa {RsaKey} _ _ _ _ _ _.
Arguments decrypt_aes_key_with_rsa_body {RsaKey} _ _ _.
Arguments decrypt_aes_key_with_rsa {RsaKey} _ _ _.
Arguments sign_message_body {RsaKey} _ _ _ _.
Arguments sign_message {RsaKey} _ _ _ _.

End crypto_handler.

(** ** Properties of the symmetric operations *)

Module crypto_facts.
Import crypto_handler.
Local Open Scope exc_scope.

Lemma firstn_app_exact {A} (a b : list A) (n : nat) :
  length a = n -> firstn n (a ++ b) = a.
Proof.
  intros <-. induction a as [|x a IH]; simpl.
  - destruct b; reflexivity.
  - rewrite IH. reflexivity.
Qed.

Lemma skipn_app_exact {A} (a b : list A) (n : nat) :
  length a = n -> skipn n (a ++ b) = b.
Proof. intros <-. induction a as [|x a IH]; simpl; auto. Qed.

Lemma length_get_random_bytes (n : nat) (src : entropy) :
  length (fst (get_random_bytes n src)) = n.
Proof. unfold get_random_bytes. simpl. rewrite length_map, length_seq. reflexivity. Qed.

Lemma length_generate_aes_iv (src : entropy) :
  length (fst (generate_aes_iv src)) = 16%nat.
Proof. apply length_get_random_bytes. Qed.

(** The padding length of [encrypt_message]. *)
Definition padding_length_of (message_bytes : bytes) : nat :=
  (AES.block_size - length message_bytes mod AES.block_size)%nat.

Definition pad (message_bytes : bytes) : bytes :=
  message_bytes
  ++ repeat (byte_of_N (N.of_nat (padding_length_of message_bytes)))
       (padding_length_of message_bytes).

Lemma padding_length_bounds (bs : bytes) :
  (1 <= padding_length_of bs <= 16)%nat.
Proof.
  unfold padding_length_of, AES.block_size.
  pose proof (Nat.mod_upper_bound (length bs) 16). lia.
Qed.

Lemma padding_length_aligned (bs : bytes) :
  (length bs mod 16 = 0)%nat -> padding_length_of bs = 16%nat.
Proof. unfold padding_length_of, AES.block_size. intros ->. reflexivity. Qed.

Lemma length_pad (bs : bytes) :
  length (pad bs) = (length bs + padding_length_of bs)%nat.
Proof. unfold pad. rewrite length_app, repeat_length. reflexivity. Qed.

Lemma length_pad_aligned (bs : bytes) : (length (pad bs) mod 16 = 0)%nat.
Proof.
  rewrite length_pad. unfold padding_length_of, AES.block_size.
  pose proof (Nat.mod_upper_bound (length bs) 16).
  pose proof (Nat.div_mod_eq (length bs) 16).
  replace (length bs + (16 - length bs mod 16))%nat
    with ((1 + length bs / 16) * 16)%nat by lia.
  apply Nat.Div0.mod_mul.
Qed.

Lemma last_item_pad (bs : bytes) :
  last_item (pad bs) = ret (N.of_nat (padding_length_of bs)).
Proof.
  pose proof (padding_length_bounds bs) as Hb.
  unfold last_item, pad.
  destruct (padding_length_of bs) as [|p] eqn:E; [lia|].
  rewrite <- E. rewrite E at 2. cbn [repeat].
  rewrite repeat_cons, app_assoc, rev_app_distr. cbn [rev app].
  rewrite to_N_byte_of_N by lia. reflexivity.
Qed.

Lemma slice_pad (bs : bytes) :
  slice_to_neg (pad bs) (N.of_nat (padding_length_of bs)) = bs.
Proof.
  pose proof (padding_length_bounds bs) as Hb.
  unfold slice_to_neg.
  replace (N.of_nat (padding_length_of bs) =? 0)%N with false
    by (symmetry; apply N.eqb_neq; lia).
  rewrite length_pad, Nat2N.id.
  replace (length bs + padding_length_of bs - padding_length_of bs)%nat
    with (length bs) by lia.
  unfold pad. apply firstn_app_exact. reflexivity.
Qed.

(** The cipher text [AES.new(k, MODE_CBC, iv).encrypt(padded)]. *)
Definition cbc_ciphertext (aes_key iv padded : bytes) : exc bytes :=
  cipher <- AES.new aes_key iv ;;
  AES.encrypt cipher padded.

(** What [encrypt_message] returns on an encodable message, a key of
    AES length and a 16-byte IV. *)
Lemma encrypt_message_body_spec (iv : bytes) (m : str) (k bs : bytes) :
  Utf8.encode m = ret bs -> AES.key_size_ok k = true -> length iv = 16%nat ->
  exists ciphertext,
    cbc_ciphertext k iv (pad bs) = ret ciphertext /\
    length ciphertext = length (pad bs) /\
    encrypt_message_body iv m k =
      ret (ascii_str (Base64.b64encode (iv ++ ciphertext))).
Proof.
  intros Hm Hk Hiv.
  destruct (AESFacts.new_ok k iv Hk Hiv) as [ivb [Hivb Hnew]].
  destruct (AESFacts.blocks_of_bytes_some (pad bs) (length_pad_aligned bs))
    as [blocks Hblocks].
  exists (AES.bytes_of_blocks
            (AES.cbc_encrypt (AES.key_expansion k) (AES.rounds k) ivb blocks)).
  assert (Henc : cbc_ciphertext k iv (pad bs) =
    ret (AES.bytes_of_blocks
           (AES.cbc_encrypt (AES.key_expansion k) (AES.rounds k) ivb blocks))).
  { unfold cbc_ciphertext. rewrite Hnew. cbn [bind ret].
    unfold AES.encrypt. cbn [AES.schedule AES.Nr AES.iv_block].
    rewrite Hblocks. reflexivity. }
  split; [exact Henc|]. split.
  - rewrite AESFacts.length_bytes_of_blocks, AESFacts.length_cbc_encrypt.
    symmetry. apply AESFacts.blocks_of_bytes_length, Hblocks.
  - unfold encrypt_message_body. rewrite Hm. cbn [bind ret].
    fold (padding_length_of bs). fold (pad bs).
    unfold cbc_ciphertext in Henc.
    destruct (AES.new k iv) as [e|cipher]; [discriminate|].
    cbn [bind ret] in Henc |- *. rewrite Henc. cbn [bind ret].
    apply utf8_decode_ascii, Base64.b64encode_ascii.
Qed.

(** Decrypting under the same key and IV recovers the padded plain
    text. *)
Lemma cbc_decrypt_ciphertext (k iv padded ciphertext : bytes) :
  cbc_ciphertext k iv padded = ret ciphertext ->
  (cipher <- AES.new k iv ;; AES.decrypt cipher ciphertext) = ret padded.
Proof.
  unfold cbc_ciphertext. destruct (AES.new k iv) as [e|cipher]; [discriminate|].
  cbn [bind ret]. unfold AES.encrypt, AES.decrypt.
  destruct (AES.blocks_of_bytes padded) as [blocks|] eqn:Hb; [|discriminate].
  intros H. injection H as <-.
  rewrite AESFacts.blocks_of_bytes_of_blocks, AESFacts.cbc_decrypt_encrypt.
  rewrite (AESFacts.bytes_of_blocks_of_bytes padded blocks Hb). reflexivity.
Qed.

Lemma transport_decode_encoded (data : bytes) :
  transport_decode (Some (ascii_str (Base64.b64encode data))) = ret data.
Proof.
  unfold transport_decode, encode_value.
  rewrite utf8_encode_ascii by apply Base64.b64encode_ascii.
  cbn [bind ret]. apply Base64.b64decode_b64encode.
Qed.

(** [decrypt_message] in terms of the stages it goes through. *)
Lemma decrypt_message_body_stages (c : option str) (k : bytes) :
  decrypt_message_body c k =
  (padded_message <- padded_plaintext c k ;;
   padding_length <- last_item padded_message ;;
   Utf8.decode (slice_to_neg padded_message padding_length)).
Proof.
  unfold decrypt_message_body, padded_plaintext, transport_decode.
  destruct (encode_value c) as [e|raw]; [reflexivity|]. cbn [bind ret].
  destruct (Base64.b64decode raw) as [e|data]; [reflexivity|]. cbn [bind ret].
  destruct (AES.new k (firstn config.AES_IV_SIZE data)) as [e|cipher];
    reflexivity.
Qed.

Lemma padded_plaintext_encrypted (iv k padded ciphertext : bytes) :
  length iv = 16%nat ->
  cbc_ciphertext k iv padded = ret ciphertext ->
  padded_plaintext
    (Some (ascii_str (Base64.b64encode (iv ++ ciphertext)))) k
  = ret padded.
Proof.
  intros Hiv Hc. unfold padded_plaintext.
  rewrite transport_decode_encoded. cbn [bind ret].
  unfold config.AES_IV_SIZE.
  rewrite (firstn_app_exact iv ciphertext 16 Hiv),
    (skipn_app_exact iv ciphertext 16 Hiv).
  apply cbc_decrypt_ciphertext, Hc.
Qed.

Lemma decrypt_encrypt_body (iv : bytes) (m : str) (k bs : bytes) :
  Utf8.encode m = ret bs -> AES.key_size_ok k = true -> length iv = 16%nat ->
  decrypt_message (except_None (encrypt_message_body iv m k)) k = Some m.
Proof.
  intros Hm Hk Hiv.
  destruct (encrypt_message_body_spec iv m k bs Hm Hk Hiv)
    as [ciphertext [Hc [_ ->]]].
  cbn [except_None ret]. unfold decrypt_message.
  rewrite decrypt_message_body_stages.
  rewrite (padded_plaintext_encrypted iv k (pad bs) ciphertext Hiv Hc).
  cbn [bind ret]. rewrite last_item_pad. cbn [bind ret].
  rewrite slice_pad, (Utf8.decode_encode m bs Hm). reflexivity.
Qed.

Lemma key_size_ok_32 (k : bytes) :
  length k = 32%nat -> AES.key_size_ok k = true.
Proof. intros H. unfold AES.key_size_ok. rewrite H. reflexivity. Qed.

End crypto_facts.

(** ** Concrete inputs *)

Module samples.
Import crypto_handler.

(** [ChatClient.session_key]:
    [b'CryptexSecureKey2024LocalLAN'.ljust(32, b'\0')]. *)
Definition session_key : bytes :=
  Eval vm_compute in
    map (fun c => byte_of_N c) (lit "CryptexSecureKey2024LocalLAN")
    ++ repeat x00 4.

(** A random source that only ever yields zero bytes, and one that
    counts. *)
Definition zero_entropy : entropy := fun _ => x00.
Definition counting_entropy : entropy := fun i => byte_of_N (N.of_nat i).

(** A string holding a lone surrogate, ["\ud800"]. *)
Definition lone_surrogate : str := [0xD800%N].

(** A key that is not of AES length. *)
Definition short_key : bytes := [x01; x02; x03; x04; x05].

(** A zero IV followed by the CBC encryption, under [session_key], of
    the two blocks [b"0123456789abcdef0123456789abcde\x11"]: the last
    plaintext byte is 17. *)
Definition forged_ciphertext : str :=
  lit "AAAAAAAAAAAAAAAAAAAAAI3lX1UPa7pUu7ZGUJsREIPIw0n1Oz2pZPXLNpase3u1".

(** The same for the single block [b"pay 100 to bob!\x00"]: the last
    plaintext byte is 0. *)
Definition forged_ciphertext_zero : str :=
  lit "AAAAAAAAAAAAAAAAAAAAAHeAz9oXaoCMJ3l/Fb66JEg=".

End samples.

Ltac encodable_lit :=
  unfold Utf8.encodable;
  repeat (constructor; [split; [vm_compute; reflexivity | reflexivity]|]);
  constructor.

(** ** The symmetric round trip *)

Module symmetric_claims.
Import crypto_handler crypto_facts samples.
Local Open Scope exc_scope.

(** C1, as stated, fails on a string that has no UTF-8 encoding:
    [encrypt_message("\ud800", k)] raises inside its [try] block and
    returns [None], and [decrypt_message(None, k)] returns [None]. *)
Lemma round_trip_fails_on_lone_surrogate :
  length session_key = 32%nat /\
  fst (encrypt_message zero_entropy lone_surrogate session_key) = None /\
  decrypt_message
    (fst (encrypt_message zero_entropy lone_surrogate session_key))
    session_key <> Some lone_surrogate.
Proof.
  split; [reflexivity|]. split; [vm_compute; reflexivity|].
  vm_compute. discriminate.
Qed.

(** C1 (amended): for every plaintext string [m] that has a UTF-8
    encoding, the empty string and block-aligned strings included, every
    32-byte key [k] and whatever IV the random source yields,
    [decrypt_message(encrypt_message(m, k), k)] returns [m]. *)
Theorem decrypt_encrypt_round_trip (src : entropy) (m : str) (k : bytes) :
  Utf8.encodable m -> length k = 32%nat ->
  decrypt_message (fst (encrypt_message src m k)) k = Some m.
Proof.
  intros Hm Hk. destruct (Utf8.encode_encodable m Hm) as [bs Hbs].
  unfold encrypt_message.
  destruct (generate_aes_iv src) as [iv src'] eqn:E. cbn [fst].
  apply (decrypt_encrypt_body iv m k bs Hbs (key_size_ok_32 k Hk)).
  pose proof (length_generate_aes_iv src) as H. rewrite E in H. exact H.
Qed.

Lemma decrypt_encrypt_round_trip_witness :
  Utf8.encodable (lit "hello") /\ length session_key = 32%nat /\
  decrypt_message
    (fst (encrypt_message counting_entropy (lit "hello") session_key))
    session_key = Some (lit "hello").
Proof.
  assert (Hm : Utf8.encodable (lit "hello")) by encodable_lit.
  assert (Hk : length session_key = 32%nat) by reflexivity.
  split; [exact Hm|]. split; [exact Hk|].
  exact (decrypt_encrypt_round_trip counting_entropy (lit "hello")
           session_key Hm Hk).
Defined.

(** The two boundary cases the claim names. *)
Example round_trip_empty :
  decrypt_message (fst (encrypt_message counting_entropy [] session_key))
    session_key = Some [].
Proof. vm_compute. reflexivity. Qed.

Example round_trip_block_aligned :
  decrypt_message
    (fst (encrypt_message counting_entropy (lit "0123456789abcdef")
            session_key))
    session_key = Some (lit "0123456789abcdef").
Proof. vm_compute. reflexivity. Qed.

(** ** Padding and layout of the ciphertext *)

(** C3, as stated, fails where [encrypt_message] has nothing to pad or
    no cipher to run: on a string without UTF-8 encoding and on a key
    that is not 16, 24 or 32 bytes long it returns [None]. *)
Lemma encrypt_message_rejects_bad_input :
  fst (encrypt_message zero_entropy lone_surrogate session_key) = None /\
  fst (encrypt_message zero_entropy (lit "hello") short_key) = None.
Proof. split; vm_compute; reflexivity. Qed.

(** C3 (amended): for every plaintext [m] that has a UTF-8 encoding
    [bs] and every key of AES length (16, 24 or 32 bytes),
    [encrypt_message] pads [bs] with [n] bytes of value [n],
    [1 <= n <= 16], a whole block when [bs] is block-aligned, encrypts
    the padded bytes in CBC mode under the IV it drew, and returns a
    string that base-64 decodes to that 16-byte IV followed by the
    block-aligned ciphertext. *)
Theorem encrypt_message_layout (src : entropy) (m : str) (k bs : bytes) :
  Utf8.encode m = ret bs -> AES.key_size_ok k = true ->
  let iv := fst (generate_aes_iv src) in
  let n := (16 - length bs mod 16)%nat in
  let padded := bs ++ repeat (byte_of_N (N.of_nat n)) n in
  (1 <= n <= 16)%nat /\
  ((length bs mod 16 = 0)%nat -> n = 16%nat) /\
  exists c ciphertext,
    fst (encrypt_message src m k) = Some c /\
    cbc_ciphertext k iv padded = ret ciphertext /\
    transport_decode (Some c) = ret (iv ++ ciphertext) /\
    length iv = 16%nat /\
    length ciphertext = (length bs + n)%nat /\
    (length ciphertext mod 16 = 0)%nat.
Proof.
  intros Hm Hk iv n padded.
  split; [exact (padding_length_bounds bs)|].
  split; [exact (padding_length_aligned bs)|].
  assert (Hiv : length iv = 16%nat) by apply length_generate_aes_iv.
  destruct (encrypt_message_body_spec iv m k bs Hm Hk Hiv)
    as [ciphertext [Hc [Hlen Hbody]]].
  exists (ascii_str (Base64.b64encode (iv ++ ciphertext))), ciphertext.
  split.
  { unfold encrypt_message. subst iv.
    destruct (generate_aes_iv src) as [iv src']. cbn [fst] in *.
    rewrite Hbody. reflexivity. }
  split; [exact Hc|].
  split; [apply transport_decode_encoded|].
  split; [exact Hiv|].
  rewrite Hlen. split; [apply length_pad | apply length_pad_aligned].
Qed.

Lemma encrypt_message_layout_witness :
  Utf8.encode (lit "0123456789abcdef") =
    ret (map byte_of_N (lit "0123456789abcdef")) /\
  AES.key_size_ok session_key = true /\
  exists c ciphertext,
    fst (encrypt_message counting_entropy (lit "0123456789abcdef")
           session_key) = Some c /\
    cbc_ciphertext session_key (fst (generate_aes_iv counting_entropy))
      (map byte_of_N (lit "0123456789abcdef") ++ repeat x10 16)
    = ret ciphertext /\
    transport_decode (Some c) =
      ret (fst (generate_aes_iv counting_entropy) ++ ciphertext) /\
    length ciphertext = 32%nat.
Proof.
  assert (Hm : Utf8.encode (lit "0123456789abcdef") =
               ret (map byte_of_N (lit "0123456789abcdef")))
    by (vm_compute; reflexivity).
  assert (Hk : AES.key_size_ok session_key = true) by reflexivity.
  split; [exact Hm|]. split; [exact Hk|].
  destruct (encrypt_message_layout counting_entropy
              (lit "0123456789abcdef") session_key _ Hm Hk)
    as [_ [_ [c [ciphertext [H1 [H2 [H3 [_ [H5 _]]]]]]]]].
  exists c, ciphertext. repeat split; assumption.
Defined.

(** ** IV freshness *)

Lemma ascii_str_inj (a b : bytes) : ascii_str a = ascii_str b -> a = b.
Proof.
  unfold ascii_str. revert b.
  induction a as [|x a IH]; intros [|y b] H; try discriminate.
  - reflexivity.
  - simpl in H. injection H as Hx Hr. apply to_N_inj in Hx.
    rewrite Hx, (IH b Hr). reflexivity.
Qed.

(** C10, as stated, fails when the random source repeats itself: two
    calls that draw the same 16 bytes return the same ciphertext. *)
Lemma repeated_iv_repeats_ciphertext :
  let first := encrypt_message zero_entropy (lit "hello") session_key in
  let second := encrypt_message (snd first) (lit "hello") session_key in
  fst first <> None /\ fst second = fst first.
Proof.
  cbv zeta. split.
  - vm_compute. discriminate.
  - vm_compute. reflexivity.
Qed.

(** C10 (amended): every call of [encrypt_message] draws its IV from
    the random source, and for a plaintext [m] that has a UTF-8 encoding
    and a key [k] of AES length two calls return the same ciphertext
    exactly when they drew the same IV; nothing in the code keeps a
    drawn IV from being drawn again. *)
Theorem encrypt_message_equal_iff_equal_iv (src1 src2 : entropy) (m : str)
    (k : bytes) :
  Utf8.encodable m -> AES.key_size_ok k = true ->
  (fst (encrypt_message src1 m k) = fst (encrypt_message src2 m k) <->
   fst (generate_aes_iv src1) = fst (generate_aes_iv src2)).
Proof.
  intros Hm Hk. destruct (Utf8.encode_encodable m Hm) as [bs Hbs].
  pose proof (length_generate_aes_iv src1) as H1.
  pose proof (length_generate_aes_iv src2) as H2.
  unfold encrypt_message.
  destruct (generate_aes_iv src1) as [iv1 s1].
  destruct (generate_aes_iv src2) as [iv2 s2]. cbn [fst] in *.
  destruct (encrypt_message_body_spec iv1 m k bs Hbs Hk H1)
    as [c1 [_ [_ E1]]].
  destruct (encrypt_message_body_spec iv2 m k bs Hbs Hk H2)
    as [c2 [_ [_ E2]]].
  split.
  - rewrite E1, E2. cbn [except_None ret]. intros H. injection H as H.
    apply ascii_str_inj, Base64.b64encode_inj in H.
    apply (f_equal (firstn 16)) in H.
    rewrite (firstn_app_exact iv1 c1 16 H1),
      (firstn_app_exact iv2 c2 16 H2) in H.
    exact H.
  - intros ->. reflexivity.
Qed.

Lemma encrypt_message_equal_iff_equal_iv_witness :
  Utf8.encodable (lit "hello") /\ AES.key_size_ok session_key = true /\
  fst (encrypt_message counting_entropy (lit "hello") session_key) <>
  fst (encrypt_message zero_entropy (lit "hello") session_key).
Proof.
  assert (Hm : Utf8.encodable (lit "hello")) by encodable_lit.
  assert (Hk : AES.key_size_ok session_key = true) by reflexivity.
  split; [exact Hm|]. split; [exact Hk|].
  intros H.
  apply (encrypt_message_equal_iff_equal_iv counting_entropy zero_entropy
           (lit "hello") session_key Hm Hk) in H.
  vm_compute in H. discriminate H.
Defined.

(** The IV of the next call is the next 16 bytes of the source. *)
Lemma successive_ivs (src : entropy) (m : str) (k : bytes) :
  fst (generate_aes_iv src) = map src (seq 0 16) /\
  fst (generate_aes_iv (snd (encrypt_message src m k))) = map src (seq 16 16).
Proof.
  split; [reflexivity|]. unfold encrypt_message, generate_aes_iv.
  cbn [get_random_bytes fst snd config.AES_IV_SIZE]. reflexivity.
Qed.

End symmetric_claims.

(** ** Failures of the crypto engine *)

Module failure_claims.
Import crypto_handler crypto_facts samples.
Local Open Scope exc_scope.

(** *** [decrypt_message] *)

(** C2, as stated, fails on the padding byte: the code never compares
    it with the block size.  A ciphertext whose last plaintext byte is
    17 decrypts to the first 15 of its 32 plaintext bytes, and one whose
    last plaintext byte is 0 decrypts to the empty string. *)
Lemma out_of_range_padding_is_accepted :
  recovered_padding (Some forged_ciphertext) session_key = ret 17%N /\
  decrypt_message (Some forged_ciphertext) session_key
    = Some (lit "0123456789abcde") /\
  recovered_padding (Some forged_ciphertext_zero) session_key = ret 0%N /\
  decrypt_message (Some forged_ciphertext_zero) session_key = Some [].
Proof. repeat split; vm_compute; reflexivity. Qed.

Lemma decrypt_message_short_input (c : option str) (k data : bytes) :
  transport_decode c = ret data -> (length data < 16)%nat ->
  decrypt_message c k = None.
Proof.
  intros Hd Hlen. unfold decrypt_message. rewrite decrypt_message_body_stages.
  unfold padded_plaintext. rewrite Hd. cbn [bind ret].
  rewrite AESFacts.new_bad_iv; [reflexivity|].
  unfold config.AES_IV_SIZE. rewrite length_firstn. lia.
Qed.

Lemma decrypt_message_transport_failure (c : option str) (k : bytes)
    (e : pyexc) :
  transport_decode c = raise e -> decrypt_message c k = None.
Proof.
  intros Hd. unfold decrypt_message. rewrite decrypt_message_body_stages.
  unfold padded_plaintext. rewrite Hd. reflexivity.
Qed.

Lemma decrypt_message_padding_unchecked (c : option str) (k padded : bytes)
    (n : N) :
  padded_plaintext c k = ret padded -> last_item padded = ret n ->
  decrypt_message c k = except_None (Utf8.decode (slice_to_neg padded n)).
Proof.
  intros Hp Hn. unfold decrypt_message. rewrite decrypt_message_body_stages.
  rewrite Hp. cbn [bind ret]. rewrite Hn. reflexivity.
Qed.

Lemma slice_to_neg_all (padded : bytes) (n : N) :
  (n = 0 \/ N.of_nat (length padded) <= n)%N -> slice_to_neg padded n = [].
Proof.
  intros H. unfold slice_to_neg. destruct (N.eqb_spec n 0); [reflexivity|].
  replace (length padded - N.to_nat n)%nat with 0%nat by lia. reflexivity.
Qed.

(** C2 (amended): for every key, [decrypt_message] returns [None], the
    only failure result the code has, when the transport decoding raises
    and when the decoded input is shorter than one IV block.  A padding
    length byte [n] outside [1, 16] is not rejected: the code cuts [n]
    bytes off the padded plaintext (all of it when [n] is 0 or not less
    than its length) and returns the UTF-8 decoding of the rest. *)
Theorem decrypt_message_failure_modes (c : option str) (k : bytes) :
  (forall e, transport_decode c = raise e -> decrypt_message c k = None) /\
  (forall data, transport_decode c = ret data -> (length data < 16)%nat ->
     decrypt_message c k = None) /\
  (forall padded n,
     padded_plaintext c k = ret padded -> last_item padded = ret n ->
     decrypt_message c k = except_None (Utf8.decode (slice_to_neg padded n)) /\
     ((n = 0 \/ N.of_nat (length padded) <= n)%N ->
      decrypt_message c k = Some [])).
Proof.
  split; [|split].
  - intros e. apply decrypt_message_transport_failure.
  - intros data. apply decrypt_message_short_input.
  - intros padded n Hp Hn.
    pose proof (decrypt_message_padding_unchecked c k padded n Hp Hn) as H.
    split; [exact H|]. intros Hr. rewrite H, slice_to_neg_all by exact Hr.
    reflexivity.
Qed.

Lemma decrypt_message_failure_modes_witness :
  (transport_decode (Some (lit "a")) = raise BinasciiError /\
   decrypt_message (Some (lit "a")) session_key = None) /\
  (transport_decode (Some (lit "QUJD")) = ret [x41; x42; x43] /\
   decrypt_message (Some (lit "QUJD")) session_key = None) /\
  (padded_plaintext (Some forged_ciphertext_zero) session_key
     = ret (map byte_of_N (lit "pay 100 to bob!") ++ [x00]) /\
   decrypt_message (Some forged_ciphertext_zero) session_key = Some []).
Proof.
  destruct (decrypt_message_failure_modes (Some (lit "a")) session_key)
    as [Ha _].
  destruct (decrypt_message_failure_modes (Some (lit "QUJD")) session_key)
    as [_ [Hb _]].
  destruct (decrypt_message_failure_modes (Some forged_ciphertext_zero)
              session_key) as [_ [_ Hc]].
  assert (H1 : transport_decode (Some (lit "a")) = raise BinasciiError)
    by (vm_compute; reflexivity).
  assert (H2 : transport_decode (Some (lit "QUJD")) = ret [x41; x42; x43])
    by (vm_compute; reflexivity).
  assert (H3 : padded_plaintext (Some forged_ciphertext_zero) session_key
               = ret (map byte_of_N (lit "pay 100 to bob!") ++ [x00]))
    by (vm_compute; reflexivity).
  split; [split; [exact H1 | exact (Ha _ H1)]|].
  split; [split; [exact H2 | apply (Hb _ H2); simpl; lia]|].
  split; [exact H3|].
  apply (Hc _ 0%N H3); [vm_compute; reflexivity | left; reflexivity].
Defined.

(** *** Failure results of the engine as a whole *)

Section Engine.

Variable hmac_sha256 : bytes -> bytes -> bytes.
Variable RsaKey : Type.
Variable PKCS1_OAEP_encrypt : RsaKey -> bytes -> entropy -> exc bytes.
Variable PKCS1_OAEP_decrypt : RsaKey -> bytes -> exc bytes.
Variable SHA256 : bytes -> bytes.
Variable pkcs1_15_sign : RsaKey -> bytes -> exc bytes.
Variable print : str -> exc unit.

(** A call of one of the five fallible operations. *)
Inductive crypto_call : Type :=
| CallEncryptMessage (src : entropy) (message : str) (aes_key : bytes)
| CallDecryptMessage (encrypted_message_b64 : option str) (aes_key : bytes)
| CallEncryptAesKey (self : CryptoHandler RsaKey)
    (src : entropy) (aes_key : bytes) (recipient_username : str)
| CallDecryptAesKey (self : CryptoHandler RsaKey)
    (encrypted_key_b64 : option str)
| CallSignMessage (self : CryptoHandler RsaKey) (message : str).

(** What a call returns: a [str], a [bytes], or [None]. *)
Inductive returned : Type :=
| RetStr (s : str)
| RetBytes (b : bytes)
| RetNone.

Definition returned_of {A} (wrap : A -> returned) (r : option A) : returned :=
  match r with
  | Some a => wrap a
  | None => RetNone
  end.

(** The exception, if any, raised inside the [try] block of the call. *)
Definition raised_in (call : crypto_call) : option pyexc :=
  let failure {A} (body : exc A) : option pyexc :=
    match body with
    | inl e => Some e
    | inr _ => None
    end in
  match call with
  | CallEncryptMessage src m k =>
    failure (encrypt_message_body (fst (generate_aes_iv src)) m k)
  | CallDecryptMessage c k => failure (decrypt_message_body c k)
  | CallEncryptAesKey self src k r =>
    failure (encrypt_aes_key_with_rsa_body PKCS1_OAEP_encrypt self src k r)
  | CallDecryptAesKey self c =>
    failure (decrypt_aes_key_with_rsa_body PKCS1_OAEP_decrypt self c)
  | CallSignMessage self m =>
    failure (sign_message_body SHA256 pkcs1_15_sign self m)
  end.

(** What the caller gets back, or the exception that leaves the
    call. *)
Definition result_of (call : crypto_call) : exc returned :=
  match call with
  | CallEncryptMessage src m k =>
    ret (returned_of RetStr (fst (encrypt_message src m k)))
  | CallDecryptMessage c k => ret (returned_of RetStr (decrypt_message c k))
  | CallEncryptAesKey self src k r =>
    encrypted_key_b64 <-
      encrypt_aes_key_with_rsa PKCS1_OAEP_encrypt print self src k r ;;
    ret (returned_of RetStr encrypted_key_b64)
  | CallDecryptAesKey self c =>
    ret (returned_of RetBytes
           (decrypt_aes_key_with_rsa PKCS1_OAEP_decrypt self c))
  | CallSignMessage self m =>
    ret (returned_of RetStr (sign_message SHA256 pkcs1_15_sign self m))
  end.

(** The text the handler of a failed call prints that holds a name the
    caller passed in: the report of a key wrap that found no key. *)
Definition name_printed (call : crypto_call) : option str :=
  match call with
  | CallEncryptAesKey self _ _ recipient_username =>
    if Dict.contains (peer_public_keys self) recipient_username then None
    else Some (no_key_report recipient_username)
  | _ => None
  end.

Lemma returned_of_except_None {A} (wrap : A -> returned) (body : exc A) :
  (forall a, wrap a <> RetNone) ->
  returned_of wrap (except_None body) = RetNone <->
  exists e, body = inl e.
Proof.
  intros Hw. destruct body as [e|a]; cbn.
  - split; [eauto | reflexivity].
  - split; [intros H; destruct (Hw a H) | intros [e H]; discriminate].
Qed.

(** Wrapping a key for a peer whose public key is not on file raises
    the [ValueError] of the guard. *)
Lemma no_key_for_peer (self : CryptoHandler RsaKey)
    (src : entropy) (aes_key : bytes) (recipient_username : str) :
  Dict.contains (peer_public_keys self) recipient_username = false ->
  raised_in (CallEncryptAesKey self src aes_key recipient_username)
  = Some ValueError.
Proof.
  intros H. cbn. unfold encrypt_aes_key_with_rsa_body. rewrite H. reflexivity.
Qed.

(** The result of a key wrap, from what its [try] block did and what
    became of the handler's [print]. *)
Lemma key_wrap_result (self : CryptoHandler RsaKey) (src : entropy)
    (aes_key : bytes) (recipient_username : str) :
  result_of (CallEncryptAesKey self src aes_key recipient_username)
  = match encrypt_aes_key_with_rsa_body PKCS1_OAEP_encrypt self src aes_key
            recipient_username with
    | inr encrypted_key_b64 => ret (RetStr encrypted_key_b64)
    | inl _ =>
      match name_printed
              (CallEncryptAesKey self src aes_key recipient_username) with
      | Some text => _ <- print text ;; ret RetNone
      | None => ret RetNone
      end
    end.
Proof.
  cbn [result_of name_printed]. unfold encrypt_aes_key_with_rsa.
  destruct (encrypt_aes_key_with_rsa_body _ self src aes_key
              recipient_username) as [e|c]; [|reflexivity].
  destruct (Dict.contains (peer_public_keys self) recipient_username);
    cbn [negb]; [reflexivity|].
  destruct (print (no_key_report recipient_username)) as [e'|[]];
    reflexivity.
Qed.


(** Where the console refuses the report, the exception of the
    handler's own [print] leaves the call: the caller gets neither a
    key nor [None]. *)
Lemma refused_report_leaves_the_call (self : CryptoHandler RsaKey)
    (src : entropy) (aes_key : bytes) (recipient_username : str)
    (e : pyexc) :
  Dict.contains (peer_public_keys self) recipient_username = false ->
  print (no_key_report recipient_username) = raise e ->
  encrypt_aes_key_with_rsa PKCS1_OAEP_encrypt print self src aes_key
    recipient_username
  = raise e.
Proof.
  intros Hc Hp. unfold encrypt_aes_key_with_rsa, encrypt_aes_key_with_rsa_body.
  rewrite Hc. cbn [negb raise]. rewrite Hp. reflexivity.
Qed.

(** *** Keyed integrity tags *)

Lemma hexdigit_lt (n : N) : (n < 16)%N -> (hexdigit n < 128)%N.
Proof. unfold hexdigit. intros H. destruct (N.ltb_spec n 10); lia. Qed.

Lemma hexdigest_ascii (d : bytes) : is_ascii (hexdigest d) = true.
Proof.
  unfold is_ascii, hexdigest. induction d as [|b d IH]; [reflexivity|].
  cbn [flat_map app forallb]. rewrite IH.
  pose proof (to_N_lt b) as Hb.
  assert (H1 : (hexdigit (Byte.to_N b / 16) < 128)%N)
    by (apply hexdigit_lt; nlia).
  assert (H2 : (hexdigit (Byte.to_N b mod 16) < 128)%N)
    by (apply hexdigit_lt; nlia).
  apply N.ltb_lt in H1, H2. rewrite H1, H2. reflexivity.
Qed.

(** The tag of a message verifies, once the message is one the tag can
    be computed for. *)
Lemma verify_hmac_create_hmac (message : message_value) (key : bytes)
    (tag : str) :
  create_hmac hmac_sha256 message key = Some tag ->
  verify_hmac hmac_sha256 message (Some tag) key = true.
Proof.
  intros H. unfold verify_hmac. rewrite H. unfold compare_digest.
  assert (Ha : is_ascii tag = true).
  { unfold create_hmac, create_hmac_body in H.
    destruct message as [s|b].
    - destruct (Utf8.encode s) as [e|bs]; [discriminate|].
      cbn in H. injection H as <-. apply hexdigest_ascii.
    - cbn in H. injection H as <-. apply hexdigest_ascii. }
  rewrite Ha, str_eqb_refl. reflexivity.
Qed.

(** Any other tag is refused, whatever it is. *)
Lemma verify_hmac_other_tag (message : message_value) (key : bytes)
    (tag : str) (received : option str) :
  create_hmac hmac_sha256 message key = Some tag ->
  received <> Some tag ->
  verify_hmac hmac_sha256 message received key = false.
Proof.
  intros H Hne. unfold verify_hmac. rewrite H. unfold compare_digest.
  destruct received as [r|]; [|reflexivity].
  destruct (is_ascii tag && is_ascii r); [|reflexivity].
  cbn. apply str_eqb_neq. congruence.
Qed.

(** A message whose tag cannot be computed never verifies, not even
    against what [create_hmac] returned for it. *)
Lemma verify_hmac_without_tag (message : message_value) (key : bytes)
    (received : option str) :
  create_hmac hmac_sha256 message key = None ->
  verify_hmac hmac_sha256 message received key = false.
Proof. intros H. unfold verify_hmac. rewrite H. reflexivity. Qed.

(** Changing the message changes the verdict exactly when it changes
    the digest. *)
Lemma verify_hmac_other_message (m m' key : bytes) :
  verify_hmac hmac_sha256 (MsgBytes m')
    (create_hmac hmac_sha256 (MsgBytes m) key) key
  = str_eqb (hexdigest (hmac_sha256 key m')) (hexdigest (hmac_sha256 key m)).
Proof.
  unfold verify_hmac, create_hmac, create_hmac_body, compare_digest.
  cbn. rewrite !hexdigest_ascii. reflexivity.
Qed.

End Engine.

Arguments CallEncryptMessage {RsaKey} _ _ _.
Arguments CallDecryptMessage {RsaKey} _ _.
Arguments CallEncryptAesKey {RsaKey} _ _ _ _.
Arguments CallDecryptAesKey {RsaKey} _ _.
Arguments CallSignMessage {RsaKey} _ _.
Arguments raised_in {RsaKey} _ _ _ _ _.
Arguments result_of {RsaKey} _ _ _ _ _ _.
Arguments name_printed {RsaKey} _.

(** Stand-ins for the RSA primitives where no RSA key exists. *)
Definition no_oaep_encrypt (k : Empty_set) (data : bytes) (src : entropy)
  : exc bytes := match k with end.
Definition no_oaep_decrypt (k : Empty_set) (data : bytes) : exc bytes :=
  match k with end.
Definition no_sign (k : Empty_set) (h : bytes) : exc bytes :=
  match k with end.
Definition no_hash (data : bytes) : bytes := [].


(** A recipient name the console cannot write, the lone surrogate
    U+D800: the report of the missing key raises inside the handler. *)
Example lone_surrogate_recipient_raises :
  encrypt_aes_key_with_rsa no_oaep_encrypt print_utf8 new_handler
    zero_entropy session_key [0xD800%N]
  = raise UnicodeEncodeError.
Proof. vm_compute. reflexivity. Qed.


End failure_claims.

(** ** String methods of the interpreter *)

Module pystr.

(** The remainder of [s] after the prefix [sep], if [s] starts with it. *)
Fixpoint starts_with (sep s : str) : option str :=
  match sep, s with
  | [], _ => Some s
  | c :: sep', d :: s' => if N.eqb c d then starts_with sep' s' else None
  | _ :: _, [] => None
  end.

(** [s.partition(sep)] when [sep] occurs in [s]: the text before and
    after its first occurrence. *)
Fixpoint partition (sep s : str) : option (str * str) :=
  match starts_with sep s with
  | Some rest => Some ([], rest)
  | None =>
    match s with
    | [] => None
    | c :: s' =>
      match partition sep s' with
      | Some (a, b) => Some (c :: a, b)
      | None => None
      end
    end
  end.

(** [sep in s] *)
Definition contains (sep s : str) : bool :=
  match partition sep s with
  | Some _ => true
  | None => false
  end.

(** [s.split(sep, maxsplit)] *)
Fixpoint split (sep s : str) (maxsplit : nat) : list str :=
  match maxsplit with
  | O => [s]
  | S n =>
    match partition sep s with
    | None => [s]
    | Some (a, b) => a :: split sep b n
    end
  end.

(** [c.isspace()] *)
Definition isspace (c : N) : bool :=
  ((0x09 <=? c) && (c <=? 0x0D) || (0x1C <=? c) && (c <=? 0x20)
   || (c =? 0x85) || (c =? 0xA0) || (c =? 0x1680)
   || (0x2000 <=? c) && (c <=? 0x200A)
   || (c =? 0x2028) || (c =? 0x2029) || (c =? 0x202F) || (c =? 0x205F)
   || (c =? 0x3000))%N.

Fixpoint lstrip (s : str) : str :=
  match s with
  | [] => []
  | c :: r => if isspace c then lstrip r else s
  end.

(** [s.strip()] *)
Definition strip (s : str) : str := rev (lstrip (rev (lstrip s))).

(** The truth value of a string. *)
Definition truthy (s : str) : bool :=
  match s with
  | [] => false
  | _ :: _ => true
  end.

(** *** Facts on [partition] *)

Lemma starts_with_app (sep s rest : str) :
  starts_with sep s = Some rest -> s = sep ++ rest.
Proof.
  revert s. induction sep as [|c sep IH]; intros [|d s] H; simpl in H;
    try discriminate.
  - injection H as <-. reflexivity.
  - injection H as <-. reflexivity.
  - destruct (N.eqb_spec c d); [|discriminate]. subst d.
    simpl. rewrite (IH s H). reflexivity.
Qed.

Lemma starts_with_prefix (sep rest : str) :
  starts_with sep (sep ++ rest) = Some rest.
Proof.
  induction sep as [|c sep IH]; simpl; [reflexivity|].
  rewrite N.eqb_refl. exact IH.
Qed.

(** Appending text does not undo a match. *)
Lemma starts_with_more (sep s rest x : str) :
  starts_with sep s = Some rest -> starts_with sep (s ++ x) = Some (rest ++ x).
Proof.
  intros H. apply starts_with_app in H. subst s.
  rewrite <- app_assoc. apply starts_with_prefix.
Qed.

Lemma partition_app (sep s a b : str) :
  partition sep s = Some (a, b) -> s = a ++ sep ++ b.
Proof.
  revert a b. induction s as [|c s IH]; intros a b H; simpl in H.
  - destruct (starts_with sep []) as [rest|] eqn:E; [|discriminate].
    injection H as <- <-. apply starts_with_app in E. exact E.
  - destruct (starts_with sep (c :: s)) as [rest|] eqn:E.
    + injection H as <- <-. apply starts_with_app in E. exact E.
    + destruct (partition sep s) as [[a' b']|] eqn:P; [|discriminate].
      injection H as <- <-. simpl. rewrite (IH a' b' eq_refl). reflexivity.
Qed.

Lemma partition_length (sep s a b : str) :
  partition sep s = Some (a, b) ->
  length s = (length a + length sep + length b)%nat.
Proof.
  intros H. apply partition_app in H. subst s.
  rewrite !length_app. lia.
Qed.

Lemma starts_with_within (sep s x r : str) :
  (length sep <= length s)%nat -> starts_with sep (s ++ x) = Some r ->
  exists r', starts_with sep s = Some r'.
Proof.
  revert s. induction sep as [|c sep IH]; intros s Hlen H.
  - exists s. destruct s; reflexivity.
  - destruct s as [|d s]; [simpl in Hlen; lia|].
    simpl in H |- *. destruct (N.eqb c d); [|discriminate].
    apply IH; [simpl in Hlen; lia | exact H].
Qed.

(** The first occurrence stays the first when text is appended. *)
Lemma partition_more (sep s a b x : str) :
  partition sep s = Some (a, b) ->
  partition sep (s ++ x) = Some (a, b ++ x).
Proof.
  revert a b. induction s as [|c s IH]; intros a b H.
  - simpl in H. destruct (starts_with sep []) as [rest|] eqn:E;
      [|discriminate].
    injection H as <- <-.
    destruct sep as [|d sep]; simpl in E; [|discriminate].
    injection E as <-. simpl. destruct x; reflexivity.
  - cbn [partition] in H. cbn [app partition].
    destruct (starts_with sep (c :: s)) as [rest|] eqn:E.
    + injection H as <- <-.
      change (c :: s ++ x) with ((c :: s) ++ x).
      rewrite (starts_with_more sep (c :: s) rest x E). reflexivity.
    + destruct (partition sep s) as [[a' b']|] eqn:P; [|discriminate].
      injection H as <- <-.
      assert (E' : starts_with sep (c :: s ++ x) = None).
      { destruct (starts_with sep (c :: s ++ x)) as [r|] eqn:E2;
          [|reflexivity].
        exfalso. apply partition_length in P.
        destruct (starts_with_within sep (c :: s) x r) as [r' Hr'];
          [simpl; lia | exact E2 | congruence]. }
      rewrite E', (IH a' b' eq_refl). reflexivity.
Qed.

(** The first occurrence is decided by the text up to its end. *)
Lemma partition_less (sep a b : str) :
  partition sep (a ++ sep ++ b) = Some (a, b) ->
  partition sep (a ++ sep) = Some (a, []).
Proof.
  induction a as [|c a IH]; intros H.
  - cbn [app].
    pose proof (starts_with_prefix sep []) as Hs. rewrite app_nil_r in Hs.
    destruct sep as [|d sep]; [reflexivity|].
    cbn [partition]. rewrite Hs. reflexivity.
  - cbn [app partition] in H |- *.
    destruct (starts_with sep (c :: a ++ sep ++ b)) as [r|] eqn:E.
    { injection H as H _. discriminate H. }
    destruct (partition sep (a ++ sep ++ b)) as [[a' b']|] eqn:P;
      [|discriminate].
    injection H as <- <-.
    destruct (starts_with sep (c :: a' ++ sep)) as [r|] eqn:E2.
    { apply (starts_with_more _ _ _ b') in E2.
      change ((c :: a' ++ sep) ++ b') with (c :: (a' ++ sep) ++ b') in E2.
      rewrite <- app_assoc in E2. congruence. }
    rewrite (IH eq_refl). reflexivity.
Qed.

Lemma contains_false_iff (sep s : str) :
  contains sep s = false <-> partition sep s = None.
Proof.
  unfold contains. destruct (partition sep s); split; congruence.
Qed.

(** *** Separators and text that is free of them *)

(** Text without the character [c]. *)
Definition free_of (c : N) (s : str) : Prop := Forall (fun d => d <> c) s.

Lemma free_of_app (c : N) (s t : str) :
  free_of c s -> free_of c t -> free_of c (s ++ t).
Proof. intros Hs Ht. apply Forall_app. split; assumption. Qed.

(** A separator is found right after text that is free of its first
    character. *)
Lemma partition_after_free (c : N) (sep a b : str) :
  free_of c a ->
  partition (c :: sep) (a ++ (c :: sep) ++ b) = Some (a, b).
Proof.
  intros Ha. induction Ha as [|d a Hd Ha IH].
  - cbn [app]. pose proof (starts_with_prefix (c :: sep) b) as H.
    cbn [app] in H. destruct b as [|x b]; cbn [partition]; rewrite H;
      reflexivity.
  - cbn [app partition].
    assert (E : starts_with (c :: sep) (d :: a ++ c :: sep ++ b) = None).
    { cbn [starts_with]. destruct (N.eqb_spec c d); [congruence|reflexivity]. }
    cbn [app] in IH. rewrite E, IH. reflexivity.
Qed.

Lemma contains_free (c : N) (sep a : str) :
  free_of c a -> contains (c :: sep) a = false.
Proof.
  intros Ha. apply contains_false_iff.
  induction Ha as [|d a Hd Ha IH]; [reflexivity|].
  cbn [partition].
  assert (E : starts_with (c :: sep) (d :: a) = None).
  { cbn [starts_with]. destruct (N.eqb_spec c d); [congruence|reflexivity]. }
  rewrite E, IH. reflexivity.
Qed.

End pystr.

(** ** [client.py]: the stream framer of [ChatClient.receive_messages] *)

Module client.
Import pystr.

(** [if message.strip(): self.process_message(message)]: the messages
    the statement hands on, the original one or none. *)
Definition hand_over (message : str) : list str :=
  if truthy (strip message) then [message] else [].

(** The inner loop
    [while config.MSG_DELIMITER in buffer:
         message, buffer = buffer.split(config.MSG_DELIMITER, 1) ...]:
    the messages handed to [process_message], in order, and the buffer
    the loop leaves. *)
Equations? drain (buffer : str) : list str * str by wf (length buffer) lt :=
  drain buffer with Equations.Prop.Logic.inspect (partition config.MSG_DELIMITER buffer) := {
    | exist _ (Some (message, rest)) _ =>
      (hand_over message ++ fst (drain rest), snd (drain rest));
    | exist _ None _ => ([], buffer) }.
Proof.
  all: match goal with
       | H : partition _ _ = Some _ |- _ =>
         apply partition_length in H; simpl in H; lia
       end.
Qed.

(** One pass of the outer loop on what
    [self.socket.recv(config.BUFFER_SIZE)] returned or raised:
    [data = ....decode('utf-8')], [if not data: break],
    [buffer += data], then the inner loop; [None] when the loop is left
    by [break]. *)
Definition receive_step (buffer : str) (received : exc bytes)
    : option (list str * str) :=
  match received with
  | inl _ => None
  | inr raw =>
    match Utf8.decode raw with
    | inl _ => None
    | inr data =>
      if truthy data then Some (drain (buffer ++ data)) else None
    end
  end.

(** The outer loop over the successive results of [recv]: everything
    handed to [process_message] and the buffer when the loop ends or
    the results run out. *)
Fixpoint receive_loop (buffer : str) (recvs : list (exc bytes))
    : list str * str :=
  match recvs with
  | [] => ([], buffer)
  | received :: later =>
    match receive_step buffer received with
    | None => ([], buffer)
    | Some (handed, buffer') =>
      let '(handed', final) := receive_loop buffer' later in
      (handed ++ handed', final)
    end
  end.

Definition receive_messages (recvs : list (exc bytes)) : list str * str :=
  receive_loop [] recvs.

(** The text of a sequence of complete spans, each with its delimiter. *)
Definition framed (spans : list str) : str :=
  flat_map (fun m => m ++ config.MSG_DELIMITER) spans.

(** A span: text in which, once the delimiter is appended, the
    delimiter occurs at the end and nowhere before. *)
Definition is_span (m : str) : Prop :=
  partition config.MSG_DELIMITER (m ++ config.MSG_DELIMITER) = Some (m, []).

(** *** The inner loop *)

Lemma drain_none (buffer : str) :
  partition config.MSG_DELIMITER buffer = None -> drain buffer = ([], buffer).
Proof.
  intros H. funelim (drain buffer); [congruence | reflexivity].
Qed.


Lemma drain_some (buffer message rest : str) :
  partition config.MSG_DELIMITER buffer = Some (message, rest) ->
  drain buffer = (hand_over message ++ fst (drain rest), snd (drain rest)).
Proof.
  intros H. funelim (drain buffer); [|congruence].
  match goal with
  | |- (hand_over ?m ++ _, _) = (hand_over ?m' ++ fst (drain ?r'), _) =>
    assert (Em : m = m') by congruence;
    assert (Er : rest = r') by congruence
  end.
  subst. reflexivity.
Qed.

(** The loop splits the buffer into its complete spans and the partial
    trailing span, hands over the spans that are not blank, untouched,
    and keeps the trailing span. *)
Lemma drain_spec (buffer : str) :
  exists spans,
    buffer = framed spans ++ snd (drain buffer) /\
    Forall is_span spans /\
    fst (drain buffer) = flat_map hand_over spans /\
    contains config.MSG_DELIMITER (snd (drain buffer)) = false.
Proof.
  remember (length buffer) as n eqn:En. revert buffer En.
  induction n as [n IH] using lt_wf_ind. intros buffer En.
  destruct (partition config.MSG_DELIMITER buffer) as [[message rest]|] eqn:P.
  - rewrite (drain_some buffer message rest P). cbn [fst snd].
    pose proof (partition_length _ _ _ _ P) as Hl.
    destruct (IH (length rest)) with (buffer := rest)
      as [spans [Hb [Hs [Hh Hc]]]]; [simpl in Hl; lia | reflexivity |].
    exists (message :: spans). repeat split.
    + apply partition_app in P. rewrite P at 1. rewrite Hb at 1.
      unfold framed. cbn [flat_map]. rewrite <- !app_assoc. reflexivity.
    + constructor; [|exact Hs]. unfold is_span.
      apply partition_app in P as P'. rewrite P' in P.
      apply (partition_less _ _ _ P).
    + cbn [flat_map]. rewrite Hh. reflexivity.
    + exact Hc.
  - rewrite (drain_none buffer P). exists []. repeat split.
    + constructor.
    + apply contains_false_iff, P.
Qed.

(** Text that arrives later does not change what was extracted before:
    draining a longer buffer is draining the shorter one and then the
    rest with what arrived. *)
Lemma drain_app (buffer more : str) :
  drain (buffer ++ more) =
  (fst (drain buffer) ++ fst (drain (snd (drain buffer) ++ more)),
   snd (drain (snd (drain buffer) ++ more))).
Proof.
  remember (length buffer) as n eqn:En. revert buffer En.
  induction n as [n IH] using lt_wf_ind. intros buffer En.
  destruct (partition config.MSG_DELIMITER buffer) as [[message rest]|] eqn:P.
  - rewrite (drain_some buffer message rest P). cbn [fst snd].
    rewrite (drain_some (buffer ++ more) message (rest ++ more)
               (partition_more _ _ _ _ more P)).
    pose proof (partition_length _ _ _ _ P) as Hl.
    rewrite (IH (length rest)) with (buffer := rest);
      [|simpl in Hl; lia | reflexivity].
    cbn [fst snd]. rewrite app_assoc. reflexivity.
  - rewrite (drain_none buffer P). cbn [fst snd app].
    destruct (drain (buffer ++ more)). reflexivity.
Qed.

(** A drained buffer holds no delimiter, so draining it again does
    nothing. *)
Lemma drain_idem (buffer : str) :
  drain (snd (drain buffer)) = ([], snd (drain buffer)).
Proof.
  destruct (drain_spec buffer) as [spans [_ [_ [_ Hc]]]].
  apply drain_none, contains_false_iff, Hc.
Qed.

(** *** The outer loop *)

(** The text the reads deliver: the decoded data of each read up to the
    first one that raises, does not decode or is empty, where the loop
    ends. *)
Fixpoint delivered (recvs : list (exc bytes)) : list str :=
  match recvs with
  | inr raw :: later =>
    match Utf8.decode raw with
    | inr (c :: data) => (c :: data) :: delivered later
    | _ => []
    end
  | _ => []
  end.

Lemma receive_loop_drain (buffer : str) (recvs : list (exc bytes)) :
  drain (snd (drain buffer) ++ concat (delivered recvs)) =
  (fst (receive_loop (snd (drain buffer)) recvs),
   snd (receive_loop (snd (drain buffer)) recvs)).
Proof.
  revert buffer. induction recvs as [|received later IH]; intros buffer.
  - cbn [delivered concat receive_loop fst snd]. rewrite app_nil_r.
    apply drain_idem.
  - cbn [delivered receive_loop]. unfold receive_step.
    destruct received as [e|raw];
      [cbn [concat fst snd]; rewrite app_nil_r; apply drain_idem|].
    destruct (Utf8.decode raw) as [e|[|c data]];
      try (cbn [concat fst snd truthy]; rewrite app_nil_r; apply drain_idem).
    cbn [truthy concat]. rewrite app_assoc.
    rewrite (drain_app (snd (drain buffer) ++ c :: data)
               (concat (delivered later))).
    destruct (drain (snd (drain buffer) ++ c :: data)) as [handed b'] eqn:E.
    cbn [fst snd].
    assert (Hb' : b' = snd (drain (snd (drain buffer) ++ c :: data)))
      by (rewrite E; reflexivity).
    rewrite Hb'. rewrite IH. rewrite <- Hb'.
    destruct (receive_loop b' later) as [handed' final]. reflexivity.
Qed.

(** Reading in pieces is reading at once. *)
Lemma receive_messages_drain (recvs : list (exc bytes)) :
  receive_messages recvs = drain (concat (delivered recvs)).
Proof.
  unfold receive_messages.
  pose proof (receive_loop_drain [] recvs) as E.
  rewrite (drain_none [] eq_refl) in E. cbn [snd app] in E.
  rewrite E. destruct (receive_loop [] recvs). reflexivity.
Qed.

(** What has been handed over after some reads is still handed over,
    first and in the same order, whatever is read later. *)
Lemma receive_loop_app (buffer : str) (r1 r2 : list (exc bytes)) :
  exists later,
    fst (receive_loop buffer (r1 ++ r2))
    = fst (receive_loop buffer r1) ++ later.
Proof.
  revert buffer. induction r1 as [|received r1 IH]; intros buffer.
  - cbn [app receive_loop fst]. eauto.
  - cbn [app receive_loop].
    destruct (receive_step buffer received) as [[handed b']|];
      [|exists []; reflexivity].
    destruct (IH b') as [later Hl].
    destruct (receive_loop b' (r1 ++ r2)) as [h12 f12].
    destruct (receive_loop b' r1) as [h1 f1]. cbn [fst] in *.
    exists later. rewrite Hl, app_assoc. reflexivity.
Qed.

End client.

(** ** The framer extracts spans *)

Module framer_claims.
Import pystr client.

(** ASCII text as the bytes a read returns. *)
Definition wire (s : str) : exc bytes := inr (map byte_of_N s).

Lemma flat_map_hand_over (spans : list str) :
  flat_map hand_over spans = filter (fun m => truthy (strip m)) spans.
Proof.
  induction spans as [|m l IH]; [reflexivity|].
  cbn [flat_map filter]. unfold hand_over at 1.
  destruct (truthy (strip m)); rewrite IH; reflexivity.
Qed.

(** C8, as stated, fails on what is handed over: the span is trimmed
    only to test it, and [process_message] receives the span as it
    arrived, surrounding white space included. *)
Lemma span_is_handed_over_untrimmed :
  receive_messages [wire (lit "  hi " ++ config.MSG_DELIMITER)]
    = ([lit "  hi "], []) /\
  strip (lit "  hi ") = lit "hi" /\
  lit "  hi " <> lit "hi".
Proof.
  split; [vm_compute; reflexivity|].
  split; [vm_compute; reflexivity|].
  vm_compute. discriminate.
Qed.

(** C8 (amended): for every sequence of transport reads, the framer
    extracts from the text they deliver every complete
    delimiter-terminated span in arrival order, hands each span to
    envelope processing as it arrived, untrimmed, and only if its
    trimmed form is non-empty (blank spans are skipped silently), and
    keeps the partial trailing span in the buffer; what has been handed
    over after some of the reads is a prefix of what is handed over
    after all of them. *)
Theorem receive_messages_frames (recvs : list (exc bytes)) :
  (exists spans rest,
     concat (delivered recvs) = framed spans ++ rest /\
     Forall is_span spans /\
     contains config.MSG_DELIMITER rest = false /\
     receive_messages recvs
       = (filter (fun m => truthy (strip m)) spans, rest)) /\
  (forall r1 r2,
     recvs = r1 ++ r2 ->
     exists later,
       fst (receive_messages recvs) = fst (receive_messages r1) ++ later).
Proof.
  split.
  - rewrite (receive_messages_drain recvs).
    destruct (drain_spec (concat (delivered recvs)))
      as [spans [Hb [Hs [Hh Hc]]]].
    exists spans, (snd (drain (concat (delivered recvs)))).
    repeat split; try assumption.
    rewrite <- flat_map_hand_over, <- Hh.
    destruct (drain (concat (delivered recvs))). reflexivity.
  - intros r1 r2 ->. unfold receive_messages. apply receive_loop_app.
Qed.

Lemma receive_messages_frames_witness :
  exists spans rest,
    concat
      (delivered
         [wire (lit "  hi " ++ firstn 5 config.MSG_DELIMITER);
          wire (skipn 5 config.MSG_DELIMITER ++ config.MSG_DELIMITER
                ++ lit "x");
          wire (lit "y" ++ config.MSG_DELIMITER ++ lit "tail")])
    = framed spans ++ rest /\
    receive_messages
      [wire (lit "  hi " ++ firstn 5 config.MSG_DELIMITER);
       wire (skipn 5 config.MSG_DELIMITER ++ config.MSG_DELIMITER ++ lit "x");
       wire (lit "y" ++ config.MSG_DELIMITER ++ lit "tail")]
    = (filter (fun m => truthy (strip m)) spans, rest).
Proof.
  destruct (receive_messages_frames
              [wire (lit "  hi " ++ firstn 5 config.MSG_DELIMITER);
               wire (skipn 5 config.MSG_DELIMITER ++ config.MSG_DELIMITER
                     ++ lit "x");
               wire (lit "y" ++ config.MSG_DELIMITER ++ lit "tail")])
    as [[spans [rest [H1 [_ [_ H4]]]]] _].
  exists spans, rest. split; assumption.
Defined.

(** Three reads, the first of which ends inside a delimiter. *)
Example receive_messages_split_delimiter :
  receive_messages
    [wire (lit "  hi " ++ firstn 5 config.MSG_DELIMITER);
     wire (skipn 5 config.MSG_DELIMITER ++ config.MSG_DELIMITER ++ lit "x");
     wire (lit "y" ++ config.MSG_DELIMITER ++ lit "tail")]
  = ([lit "  hi "; lit "xy"], lit "tail").
Proof. vm_compute. reflexivity. Qed.

(** The loop ends at a failed read, at bytes that do not decode and at
    an empty read; nothing further is handed over. *)
Lemma receive_loop_stops (buffer : str) (received : exc bytes)
    (later : list (exc bytes)) :
  delivered (received :: later) = [] ->
  receive_loop buffer (received :: later) = ([], buffer).
Proof.
  cbn [delivered receive_loop]. unfold receive_step.
  destruct received as [e|raw]; [reflexivity|].
  destruct (Utf8.decode raw) as [e|[|c data]];
    [reflexivity | reflexivity | discriminate].
Qed.

End framer_claims.

(** ** [json.dumps] on a list of strings *)

Module pyjson.

Definition hex4 (n : N) : str :=
  [crypto_handler.hexdigit (n / 4096 mod 16);
   crypto_handler.hexdigit (n / 256 mod 16);
   crypto_handler.hexdigit (n / 16 mod 16);
   crypto_handler.hexdigit (n mod 16)]%N.

Definition backslash : N := 92.
Definition quote : N := 34.

(** One character under [ensure_ascii=True]. *)
Definition escape_char (c : N) : str :=
  if (c =? backslash)%N then [backslash; backslash]
  else if (c =? quote)%N then [backslash; quote]
  else if (c =? 8)%N then backslash :: lit "b"
  else if (c =? 12)%N then backslash :: lit "f"
  else if (c =? 10)%N then backslash :: lit "n"
  else if (c =? 13)%N then backslash :: lit "r"
  else if (c =? 9)%N then backslash :: lit "t"
  else if ((0x20 <=? c) && (c <=? 0x7E))%N then [c]
  else if (c <? 0x10000)%N then backslash :: lit "u" ++ hex4 c
  else
    let n := (c - 0x10000)%N in
    let s1 := (0xD800 + n / 1024 mod 1024)%N in
    let s2 := (0xDC00 + n mod 1024)%N in
    backslash :: lit "u" ++ hex4 s1 ++ backslash :: lit "u" ++ hex4 s2.

Definition encode_basestring_ascii (s : str) : str :=
  quote :: flat_map escape_char s ++ [quote].

Fixpoint join (sep : str) (items : list str) : str :=
  match items with
  | [] => []
  | [x] => x
  | x :: r => x ++ sep ++ join sep r
  end.

(** [json.dumps(items)] *)
Definition dumps (items : list str) : str :=
  lit "[" ++ join (lit ", ") (map encode_basestring_ascii items) ++ lit "]".

End pyjson.

(** ** [server.py]: directory and relay router

    The three dictionaries of [ChatServer] together with the sockets as
    the server sees them.  The methods that route and fan out run under
    [self.lock] from start to end, so a call of one is one step of the
    model; [handle_client] holds the lock only for the registration
    itself and is given below both as the steps other handlers can
    come between and as the run nothing interrupts.  Console prints
    and audit records are left out: nothing reads them back, the
    logger swallows its own failures, and what is printed holds only
    literals and text decoded from UTF-8, which a console that writes
    UTF-8 takes. *)

Module server.
Import pystr.

Definition socket : Type := nat.
Definition address : Type := (str * N)%type.

Record state : Type := {
  clients : Dict.dict socket;
  client_addresses : Dict.dict address;
  public_keys : Dict.dict str;
  (** what each socket has been sent, in order *)
  sent : list (socket * bytes);
  (** sockets closed by the server *)
  closed : list socket;
  (** sockets whose peer is gone: [send] raises on them *)
  down : list socket
}.

Definition initial : state :=
  {| clients := []; client_addresses := []; public_keys := [];
     sent := []; closed := []; down := [] |}.

Definition with_clients (c : Dict.dict socket) (st : state) : state :=
  {| clients := c; client_addresses := client_addresses st;
     public_keys := public_keys st; sent := sent st;
     closed := closed st; down := down st |}.

Definition with_sent (s : list (socket * bytes)) (st : state) : state :=
  {| clients := clients st; client_addresses := client_addresses st;
     public_keys := public_keys st; sent := s;
     closed := closed st; down := down st |}.

(** A socket on which [send] succeeds. *)
Definition up (st : state) (sk : socket) : bool :=
  negb (existsb (Nat.eqb sk) (closed st ++ down st)).

(** [sk.send(data)]: the whole buffer goes out, as on a blocking
    socket whose peer keeps reading, or the call raises. *)
Definition sock_send (sk : socket) (data : bytes) (st : state)
    : exc unit * state :=
  if up st sk then (ret tt, with_sent (sent st ++ [(sk, data)]) st)
  else (raise OSError, st).

(** [sk.send(message.encode('utf-8'))] *)
Definition send_text (sk : socket) (message : str) (st : state)
    : exc unit * state :=
  match Utf8.encode message with
  | inl e => (inl e, st)
  | inr data => sock_send sk data st
  end.

(** [sk.recv(config.BUFFER_SIZE)] on a socket to which [arrived] has
    come in and has not been read: at most [BUFFER_SIZE] bytes from
    its front. *)
Definition recv (arrived : bytes) : bytes :=
  firstn config.BUFFER_SIZE arrived.

(** [sk.close()] *)
Definition sock_close (sk : socket) (st : state) : state :=
  {| clients := clients st; client_addresses := client_addresses st;
     public_keys := public_keys st; sent := sent st;
     closed := sk :: closed st; down := down st |}.

(** [f"{type}{MSG_SEPARATOR}{a}{MSG_SEPARATOR}{b}{MSG_DELIMITER}"] *)
Definition envelope (type a b : str) : str :=
  type ++ config.MSG_SEPARATOR ++ a ++ config.MSG_SEPARATOR ++ b
  ++ config.MSG_DELIMITER.

(** [for username in disconnected:
         if username in self.clients: del self.clients[username]] *)
Definition remove_disconnected (disconnected : list str) (st : state)
    : state :=
  fold_left
    (fun s username =>
       if Dict.contains (clients s) username
       then with_clients (Dict.del (clients s) username) s
       else s)
    disconnected st.

(** A loop [for username, client_socket in self.clients.items()] that
    sends [message] to the entries [target] selects and collects the
    names whose [send] raised. *)
Definition send_to_each (target : str -> bool) (message : str)
    (entries : list (str * socket)) (st : state) : list str * state :=
  fold_left
    (fun acc entry =>
       let '(disconnected, s) := acc in
       let '(username, client_socket) := entry in
       if target username then
         match send_text client_socket message s with
         | (inr _, s') => (disconnected, s')
         | (inl _, s') => (disconnected ++ [username], s')
         end
       else (disconnected, s))
    entries ([], st).

(** [send_direct_message]:
    [if recipient in self.clients:
       try: self.clients[recipient].send(message.encode('utf-8'))
       except Exception as e: print(...)]. *)
Definition send_direct_message (sender recipient encrypted_content : str)
    (st : state) : state :=
  if Dict.contains (clients st) recipient then
    match Dict.get (clients st) recipient with
    | Some recipient_socket =>
      let message :=
        envelope config.MSG_TYPE_MESSAGE sender encrypted_content in
      snd (send_text recipient_socket message st)
    | None => st
    end
  else st.

(** [broadcast_message]:
    [for username, client_socket in self.clients.items():
       if username != sender:
         try: client_socket.send(message.encode('utf-8'))
         except Exception as e: disconnected.append(username)]
    and then the removal of the disconnected names from
    [self.clients]. *)
Definition broadcast_message (sender encrypted_content : str) (st : state)
    : state :=
  let message := envelope config.MSG_TYPE_BROADCAST sender encrypted_content in
  let '(disconnected, st1) :=
    send_to_each (fun username => negb (str_eqb username sender))
      message (clients st) st in
  remove_disconnected disconnected st1.

(** [broadcast_user_list]: the same loop over every entry, with the
    JSON list of [self.clients.keys()]. *)
Definition broadcast_user_list (st : state) : state :=
  let user_list := Dict.keys (clients st) in
  let user_list_json := pyjson.dumps user_list in
  let message :=
    config.MSG_TYPE_USER_LIST ++ config.MSG_SEPARATOR ++ user_list_json
    ++ config.MSG_DELIMITER in
  let '(disconnected, st1) :=
    send_to_each (fun _ => true) message (clients st) st in
  remove_disconnected disconnected st1.

(** [send_all_public_keys]: every entry of [self.public_keys] but the
    client's own, to the client's socket; a failed [send] is printed. *)
Definition send_all_public_keys (username : str) (st : state) : state :=
  if negb (Dict.contains (clients st) username) then st
  else
    match Dict.get (clients st) username with
    | None => st
    | Some client_socket =>
      fold_left
        (fun s entry =>
           let '(other_user, public_key) := entry in
           if negb (str_eqb other_user username) then
             snd (send_text client_socket
                    (envelope config.MSG_TYPE_KEY_EXCHANGE other_user
                       public_key) s)
           else s)
        (public_keys st) st
    end.

(** [broadcast_public_key]: the client's key to every other entry of
    [self.clients]; a failed [send] is printed, nobody is removed. *)
Definition broadcast_public_key (username public_key : str) (st : state)
    : state :=
  let message :=
    envelope config.MSG_TYPE_KEY_EXCHANGE username public_key in
  snd (send_to_each (fun other_user => negb (str_eqb other_user username))
         message (clients st) st).

(** [route_message]:
    [parts = message_data.split(config.MSG_SEPARATOR, 2)], nothing for
    fewer than two parts; [BROADCAST] forwards [parts[1]], [MESSAGE]
    forwards [parts[2]] to [parts[1]] and needs three parts. *)
Definition route_message (sender message_data : str) (st : state) : state :=
  let parts := split config.MSG_SEPARATOR message_data 2 in
  match parts with
  | msg_type :: field :: rest =>
    if str_eqb msg_type config.MSG_TYPE_BROADCAST then
      broadcast_message sender field st
    else if str_eqb msg_type config.MSG_TYPE_MESSAGE then
      match rest with
      | encrypted_content :: _ =>
        send_direct_message sender field encrypted_content st
      | [] => st
      end
    else st
  | _ => st
  end.

(** *** [handle_client] *)

(** The three [if username in ...: del ...[username]] of the
    [finally] clause. *)
Definition forget (username : str) (st : state) : state :=
  {| clients :=
       if Dict.contains (clients st) username
       then Dict.del (clients st) username else clients st;
     client_addresses :=
       if Dict.contains (client_addresses st) username
       then Dict.del (client_addresses st) username
       else client_addresses st;
     public_keys :=
       if Dict.contains (public_keys st) username
       then Dict.del (public_keys st) username else public_keys st;
     sent := sent st; closed := closed st; down := down st |}.

(** The [finally] clause, entered with the value the local variable
    [username] has at that point. *)
Definition finally_clause (username : option str) (client_socket : socket)
    (st : state) : state :=
  let st1 :=
    match username with
    | Some u => if truthy u then broadcast_user_list (forget u st) else st
    | None => st
    end in
  sock_close client_socket st1.

(** [send] an error reply, then [close] and [return]; a [send] that
    raises skips the [close] of the [try] block. *)
Definition reject (client_socket : socket) (reply : str) (st : state)
    : state :=
  match send_text client_socket reply st with
  | (inr _, st1) => sock_close client_socket st1
  | (inl _, st1) => st1
  end.

(** Where a handler thread stands after a step: at the test of its
    receive loop with the name it registered, or at its end. *)
Inductive handler : Type :=
| Serving (username : str)
| Finished.

(** [self.clients[username] = client_socket],
    [self.client_addresses[username] = address],
    [self.public_keys[username] = public_key_pem]. *)
Definition register (username : str) (client_socket : socket)
    (addr : address) (public_key_pem : str) (st : state) : state :=
  {| clients := Dict.set (clients st) username client_socket;
     client_addresses := Dict.set (client_addresses st) username addr;
     public_keys := Dict.set (public_keys st) username public_key_pem;
     sent := sent st; closed := closed st; down := down st |}.

(** [handle_client] from its start to the receive loop, on what the
    first [recv] returned or raised, when no other handler runs in
    between.  Every way out before the loop, a [return] as much as an
    exception, goes through the [finally] clause, with [username]
    still [None] until [username = parts[1]] has run and set from then
    on. *)
Definition handle_client_connect (client_socket : socket) (addr : address)
    (received : exc bytes) (st : state) : handler * state :=
  match received with
  | inl _ => (Finished, finally_clause None client_socket st)
  | inr raw =>
    match Utf8.decode raw with
    | inl _ => (Finished, finally_clause None client_socket st)
    | inr auth_data =>
      if negb (truthy auth_data) then
        (Finished,
         finally_clause None client_socket (sock_close client_socket st))
      else
        let parts := split config.MSG_SEPARATOR auth_data 2 in
        let invalid :=
          (Finished,
           finally_clause None client_socket
             (reject client_socket
                (lit "ERROR: Invalid authentication" ++ config.MSG_DELIMITER)
                st)) in
        match parts with
        | [msg_type; username; public_key_pem] =>
          if str_eqb msg_type config.MSG_TYPE_AUTH then
            if Dict.contains (clients st) username then
              (Finished,
               finally_clause (Some username) client_socket
                 (reject client_socket
                    (lit "ERROR: Username '" ++ username
                     ++ lit "' already taken" ++ config.MSG_DELIMITER)
                    st))
            else
              let st1 :=
                register username client_socket addr public_key_pem st in
              match send_text client_socket
                      (lit "SUCCESS" ++ config.MSG_DELIMITER) st1 with
              | (inl _, st2) =>
                (Finished, finally_clause (Some username) client_socket st2)
              | (inr _, st2) =>
                (Serving username,
                 broadcast_public_key username public_key_pem
                   (send_all_public_keys username (broadcast_user_list st2)))
              end
          else invalid
        | _ => invalid
        end
    end
  end.

(** The same in the steps another handler can come between.  First
    [handle_client] up to the end of [with self.lock:], where the name
    is registered: the name and key registered, or nothing when the
    handler has ended. *)
Definition handle_client_auth (client_socket : socket) (addr : address)
    (received : exc bytes) (st : state) : option (str * str) * state :=
  match received with
  | inl _ => (None, finally_clause None client_socket st)
  | inr raw =>
    match Utf8.decode raw with
    | inl _ => (None, finally_clause None client_socket st)
    | inr auth_data =>
      if negb (truthy auth_data) then
        (None,
         finally_clause None client_socket (sock_close client_socket st))
      else
        let parts := split config.MSG_SEPARATOR auth_data 2 in
        let invalid :=
          (None,
           finally_clause None client_socket
             (reject client_socket
                (lit "ERROR: Invalid authentication" ++ config.MSG_DELIMITER)
                st)) in
        match parts with
        | [msg_type; username; public_key_pem] =>
          if str_eqb msg_type config.MSG_TYPE_AUTH then
            if Dict.contains (clients st) username then
              (None,
               finally_clause (Some username) client_socket
                 (reject client_socket
                    (lit "ERROR: Username '" ++ username
                     ++ lit "' already taken" ++ config.MSG_DELIMITER)
                    st))
            else
              (Some (username, public_key_pem),
               register username client_socket addr public_key_pem st)
          else invalid
        | _ => invalid
        end
    end
  end.

(** Then, with the lock released,
    [client_socket.send(f"SUCCESS{config.MSG_DELIMITER}".encode('utf-8'))];
    when it raises the handler leaves through the [finally] clause. *)
Definition handle_client_reply (username : str) (client_socket : socket)
    (st : state) : handler * state :=
  match send_text client_socket (lit "SUCCESS" ++ config.MSG_DELIMITER) st
  with
  | (inl _, st1) => (Finished, finally_clause (Some username) client_socket st1)
  | (inr _, st1) => (Serving username, st1)
  end.

(** Then [self.broadcast_user_list()], [self.send_all_public_keys(username)]
    and [self.broadcast_public_key(username, public_key_pem)], each
    under the lock for itself, up to the receive loop. *)
Definition handle_client_announce (username public_key_pem : str)
    (st : state) : state :=
  broadcast_public_key username public_key_pem
    (send_all_public_keys username (broadcast_user_list st)).

(** The steps run one after the other. *)
Definition handle_client_steps (client_socket : socket) (addr : address)
    (received : exc bytes) (st : state) : handler * state :=
  match handle_client_auth client_socket addr received st with
  | (None, st1) => (Finished, st1)
  | (Some (username, public_key_pem), st1) =>
    match handle_client_reply username client_socket st1 with
    | (Serving _, st2) =>
      (Serving username, handle_client_announce username public_key_pem st2)
    | (Finished, st2) => (Finished, st2)
    end
  end.

(** One pass of the receive loop of [handle_client], on what
    [client_socket.recv(config.BUFFER_SIZE)] returned, which is [recv]
    of what had arrived, or raised; leaving the loop runs the
    [finally] clause. *)
Definition handle_client_receive (username : str) (client_socket : socket)
    (received : exc bytes) (st : state) : handler * state :=
  let leave := (Finished, finally_clause (Some username) client_socket st) in
  match received with
  | inl _ => leave
  | inr raw =>
    match Utf8.decode raw with
    | inl _ => leave
    | inr message_data =>
      if truthy message_data
      then (Serving username, route_message username message_data st)
      else leave
    end
  end.

(** The test [while self.running:] and, where it holds, one pass of
    the loop.  [running] is what the test reads: [shutdown] clears the
    flag from another thread, and a handler that finds it cleared
    leaves through the [finally] clause without reading. *)
Definition handle_client_loop (running : bool) (username : str)
    (client_socket : socket) (received : exc bytes) (st : state)
    : handler * state :=
  if running then handle_client_receive username client_socket received st
  else (Finished, finally_clause (Some username) client_socket st).

End server.

(** ** Facts on the relay *)

Module server_facts.
Import pystr server.

(** *** Dictionaries as filtered lists *)

Definition named (k : str) (e : str * socket) : bool := str_eqb (fst e) k.

Lemma del_filter {V} (d : Dict.dict V) (k : str) :
  Dict.wf d ->
  Dict.del d k = filter (fun e => negb (str_eqb (fst e) k)) d.
Proof.
  unfold Dict.wf, Dict.keys. induction d as [|[k' v] r IH]; intros H;
    [reflexivity|].
  inversion H as [|? ? Hni Hr]; subst. cbn [Dict.del filter fst].
  destruct (str_eqb k' k) eqn:E; cbn [negb].
  - apply str_eqb_eq in E. subst k'.
    symmetry. apply forallb_filter_id. apply forallb_forall.
    intros [k2 v2] Hin. cbn [fst]. apply negb_true_iff, str_eqb_neq.
    intros ->. apply Hni. apply (in_map fst) in Hin. exact Hin.
  - rewrite (IH Hr). reflexivity.
Qed.

Lemma filter_absent {V} (d : Dict.dict V) (k : str) :
  Dict.contains d k = false ->
  filter (fun e => negb (str_eqb (fst e) k)) d = d.
Proof.
  intros H. apply Dict.contains_false in H.
  apply forallb_filter_id. apply forallb_forall.
  intros [k2 v2] Hin. cbn [fst]. apply negb_true_iff, str_eqb_neq.
  intros ->. apply H. apply (in_map fst) in Hin. exact Hin.
Qed.

Lemma guarded_del {V} (d : Dict.dict V) (k : str) :
  Dict.wf d ->
  (if Dict.contains d k then Dict.del d k else d)
  = filter (fun e => negb (str_eqb (fst e) k)) d.
Proof.
  intros H. destruct (Dict.contains d k) eqn:E.
  - apply del_filter, H.
  - symmetry. apply filter_absent, E.
Qed.

Lemma wf_filter {V} (f : str * V -> bool) (d : Dict.dict V) :
  Dict.wf d -> Dict.wf (filter f d).
Proof.
  unfold Dict.wf, Dict.keys. induction d as [|e r IH]; intros H;
    [constructor|].
  inversion H as [|? ? Hni Hr]; subst. cbn [filter].
  destruct (f e); [|exact (IH Hr)].
  cbn [map]. constructor; [|exact (IH Hr)].
  intros Hin. apply Hni. apply in_map_iff in Hin.
  destruct Hin as [x [Hx Hin]]. apply filter_In in Hin.
  apply in_map_iff. exists x. tauto.
Qed.

Lemma contains_filter_false {V} (f : str * V -> bool) (d : Dict.dict V)
    (k : str) :
  Dict.contains d k = false -> Dict.contains (filter f d) k = false.
Proof.
  intros H. apply Dict.contains_false. apply Dict.contains_false in H.
  intros Hin. apply H. unfold Dict.keys in *. apply in_map_iff in Hin.
  destruct Hin as [x [Hx Hin]]. apply filter_In in Hin.
  apply in_map_iff. exists x. tauto.
Qed.

Lemma filter_twice {A} (f g : A -> bool) (l : list A) :
  filter f (filter g l) = filter (fun x => g x && f x) l.
Proof.
  induction l as [|x l IH]; [reflexivity|]. cbn [filter].
  destruct (g x); cbn [filter andb]; rewrite IH; reflexivity.
Qed.

(** *** Sending *)

Lemma up_with_sent (s : list (socket * bytes)) (st : state) (sk : socket) :
  up (with_sent s st) sk = up st sk.
Proof. reflexivity. Qed.

Lemma with_sent_with_sent (s s' : list (socket * bytes)) (st : state) :
  with_sent s (with_sent s' st) = with_sent s st.
Proof. reflexivity. Qed.

Lemma with_sent_same (st : state) : with_sent (sent st) st = st.
Proof. destruct st. reflexivity. Qed.

Lemma send_text_encoded (sk : socket) (message : str) (data : bytes)
    (st : state) :
  Utf8.encode message = ret data ->
  send_text sk message st =
  if up st sk then (ret tt, with_sent (sent st ++ [(sk, data)]) st)
  else (raise OSError, st).
Proof. intros H. unfold send_text, sock_send. rewrite H. reflexivity. Qed.

(** The entries a fan-out reaches and the entries it fails on. *)
Definition reached (target : str -> bool) (st : state) (e : str * socket)
    : bool := target (fst e) && up st (snd e).

Definition failed (target : str -> bool) (st : state) (e : str * socket)
    : bool := target (fst e) && negb (up st (snd e)).

Lemma send_to_each_fold (target : str -> bool) (message : str) (data : bytes)
    (entries : list (str * socket)) (st : state) (disc : list str)
    (out : list (socket * bytes)) :
  Utf8.encode message = ret data ->
  fold_left
    (fun acc entry =>
       let '(disconnected, s) := acc in
       let '(username, client_socket) := entry in
       if target username then
         match send_text client_socket message s with
         | (inr _, s') => (disconnected, s')
         | (inl _, s') => (disconnected ++ [username], s')
         end
       else (disconnected, s))
    entries (disc, with_sent out st)
  = (disc ++ map fst (filter (failed target st) entries),
     with_sent
       (out ++ map (fun e => (snd e, data)) (filter (reached target st) entries))
       st).
Proof.
  intros Hm. revert disc out.
  induction entries as [|[u sk] l IH]; intros disc out.
  - cbn. rewrite !app_nil_r. reflexivity.
  - cbn [fold_left filter]. unfold reached at 1, failed at 1. cbn [fst snd].
    destruct (target u); cbn [andb].
    + rewrite (send_text_encoded sk message data _ Hm), up_with_sent.
      destruct (up st sk); cbn [negb]; unfold ret, raise; cbv iota.
      * change (sent (with_sent out st)) with out.
        rewrite with_sent_with_sent, IH.
        cbn [map]. rewrite <- app_assoc. reflexivity.
      * rewrite IH. cbn [map]. rewrite <- app_assoc. reflexivity.
    + apply IH.
Qed.

Lemma send_to_each_encoded (target : str -> bool) (message : str)
    (data : bytes) (entries : list (str * socket)) (st : state) :
  Utf8.encode message = ret data ->
  send_to_each target message entries st
  = (map fst (filter (failed target st) entries),
     with_sent
       (sent st
        ++ map (fun e => (snd e, data)) (filter (reached target st) entries))
       st).
Proof.
  intros Hm. unfold send_to_each.
  rewrite <- (with_sent_same st) at 1.
  rewrite (send_to_each_fold target message data entries st [] (sent st) Hm).
  reflexivity.
Qed.

(** A message that does not encode reaches no one: every [send] of the
    loop raises. *)
Lemma send_to_each_unencodable (target : str -> bool) (message : str)
    (e : pyexc) (entries : list (str * socket)) (st : state) :
  Utf8.encode message = inl e ->
  send_to_each target message entries st
  = (map fst (filter (fun x => target (fst x)) entries), st).
Proof.
  intros Hm. unfold send_to_each.
  match goal with |- fold_left ?f _ _ = _ => set (step := f) end.
  assert (G : forall disc,
             fold_left step entries (disc, st)
             = (disc ++ map fst (filter (fun x => target (fst x)) entries),
                st)).
  { induction entries as [|[u sk] l IH]; intros disc.
    - cbn. rewrite app_nil_r. reflexivity.
    - cbn [fold_left filter fst]. unfold step at 2. unfold send_text.
      rewrite Hm. destruct (target u).
      + rewrite IH. cbn [map fst]. rewrite <- app_assoc. reflexivity.
      + apply IH. }
  apply (G []).
Qed.

(** *** Removing the entries a fan-out failed on *)

Lemma remove_disconnected_clients (disconnected : list str) (st : state) :
  Dict.wf (clients st) ->
  remove_disconnected disconnected st
  = with_clients
      (filter (fun e => negb (existsb (str_eqb (fst e)) disconnected))
         (clients st))
      st.
Proof.
  unfold remove_disconnected. revert st.
  induction disconnected as [|u l IH]; intros st Hwf.
  - cbn. rewrite forallb_filter_id by (apply forallb_forall; reflexivity).
    destruct st. reflexivity.
  - cbn [fold_left].
    assert (E : (if Dict.contains (clients st) u
                 then with_clients (Dict.del (clients st) u) st else st)
                = with_clients
                    (filter (fun e => negb (str_eqb (fst e) u)) (clients st))
                    st).
    { rewrite <- (guarded_del (clients st) u Hwf).
      destruct (Dict.contains (clients st) u); [reflexivity|].
      destruct st. reflexivity. }
    rewrite E, IH by (apply wf_filter, Hwf).
    unfold with_clients. cbn. f_equal.
    rewrite filter_twice. apply filter_ext. intros [k v]. cbn [fst existsb].
    destruct (str_eqb k u); reflexivity.
Qed.

Lemma in_failed_names (target : str -> bool) (st : state)
    (entries : list (str * socket)) (e : str * socket) :
  NoDup (map fst entries) -> In e entries ->
  existsb (str_eqb (fst e)) (map fst (filter (failed target st) entries))
  = failed target st e.
Proof.
  intros Hnd Hin. destruct (failed target st e) eqn:F.
  - apply existsb_exists. exists (fst e). split; [|apply str_eqb_refl].
    apply in_map, filter_In. tauto.
  - apply not_true_iff_false. intros Hex. apply existsb_exists in Hex.
    destruct Hex as [k [Hk Heq]]. apply str_eqb_eq in Heq. subst k.
    apply in_map_iff in Hk. destruct Hk as [e' [Hfst He']].
    apply filter_In in He'. destruct He' as [Hin' F'].
    assert (e' = e).
    { destruct e as [k v], e' as [k' v']. cbn [fst] in Hfst. subst k'.
      f_equal.
      pose proof (Dict.In_get entries k v Hnd Hin) as G1.
      pose proof (Dict.In_get entries k v' Hnd Hin') as G2.
      congruence. }
    subst e'. congruence.
Qed.

(** *** [broadcast_message] *)

Lemma broadcast_message_encoded (sender encrypted_content : str)
    (data : bytes) (st : state) :
  Dict.wf (clients st) ->
  Utf8.encode (envelope config.MSG_TYPE_BROADCAST sender encrypted_content)
    = ret data ->
  let others := fun username => negb (str_eqb username sender) in
  broadcast_message sender encrypted_content st
  = with_clients
      (filter (fun e => negb (failed others st e)) (clients st))
      (with_sent
         (sent st
          ++ map (fun e => (snd e, data))
               (filter (reached others st) (clients st)))
         st).
Proof.
  intros Hwf Hm others. unfold broadcast_message.
  rewrite (send_to_each_encoded _ _ data _ _ Hm).
  rewrite remove_disconnected_clients by exact Hwf.
  cbn [clients with_sent]. f_equal.
  apply filter_ext_in. intros e Hin.
  rewrite (in_failed_names _ st (clients st) e Hwf Hin). reflexivity.
Qed.

(** *** [send_direct_message] *)

Lemma send_direct_message_absent (sender recipient encrypted_content : str)
    (st : state) :
  Dict.get (clients st) recipient = None ->
  send_direct_message sender recipient encrypted_content st = st.
Proof.
  intros H. unfold send_direct_message, Dict.contains. rewrite H. reflexivity.
Qed.

Lemma send_direct_message_present (sender recipient encrypted_content : str)
    (sk : socket) (data : bytes) (st : state) :
  Dict.get (clients st) recipient = Some sk ->
  Utf8.encode (envelope config.MSG_TYPE_MESSAGE sender encrypted_content)
    = ret data ->
  send_direct_message sender recipient encrypted_content st
  = if up st sk then with_sent (sent st ++ [(sk, data)]) st else st.
Proof.
  intros H Hm. unfold send_direct_message, Dict.contains. rewrite H.
  rewrite (send_text_encoded sk _ data st Hm).
  destruct (up st sk); reflexivity.
Qed.

End server_facts.

(** ** The directory under the operations of the relay *)

Module directory_facts.
Import pystr server server_facts.

(** Sending touches nothing but the record of what was sent. *)
Definition same_directory (st st' : state) : Prop :=
  clients st' = clients st /\
  client_addresses st' = client_addresses st /\
  public_keys st' = public_keys st.

Lemma same_directory_refl (st : state) : same_directory st st.
Proof. repeat split. Qed.

Lemma same_directory_trans (a b c : state) :
  same_directory a b -> same_directory b c -> same_directory a c.
Proof.
  intros [H1 [H2 H3]] [H4 [H5 H6]]. repeat split; congruence.
Qed.

Lemma send_text_directory (sk : socket) (message : str) (st : state) :
  same_directory st (snd (send_text sk message st)).
Proof.
  unfold send_text, sock_send. destruct (Utf8.encode message);
    [apply same_directory_refl|].
  destruct (up st sk); repeat split.
Qed.

Lemma sock_close_directory (sk : socket) (st : state) :
  same_directory st (sock_close sk st).
Proof. repeat split. Qed.

Lemma reject_directory (sk : socket) (reply : str) (st : state) :
  same_directory st (reject sk reply st).
Proof.
  unfold reject. pose proof (send_text_directory sk reply st) as H.
  destruct (send_text sk reply st) as [[e|u] st1]; cbn [snd] in H;
    [exact H|].
  apply (same_directory_trans _ _ _ H), sock_close_directory.
Qed.

Lemma send_to_each_directory (target : str -> bool) (message : str)
    (entries : list (str * socket)) (st : state) :
  same_directory st (snd (send_to_each target message entries st)).
Proof.
  destruct (Utf8.encode message) as [e|data] eqn:E.
  - rewrite (send_to_each_unencodable _ _ e _ _ E). apply same_directory_refl.
  - rewrite (send_to_each_encoded _ _ data _ _ E). repeat split.
Qed.

Lemma fold_left_directory {A} (f : state -> A -> state) (l : list A) :
  (forall s a, same_directory s (f s a)) ->
  forall s, same_directory s (fold_left f l s).
Proof.
  intros Hf. induction l as [|a l IH]; intros s.
  - apply same_directory_refl.
  - cbn [fold_left]. apply (same_directory_trans _ _ _ (Hf s a)), IH.
Qed.

Lemma send_all_public_keys_directory (username : str) (st : state) :
  same_directory st (send_all_public_keys username st).
Proof.
  unfold send_all_public_keys.
  destruct (negb (Dict.contains (clients st) username));
    [apply same_directory_refl|].
  destruct (Dict.get (clients st) username) as [sk|];
    [|apply same_directory_refl].
  apply fold_left_directory. intros s [other pk].
  destruct (negb (str_eqb other username));
    [apply send_text_directory | apply same_directory_refl].
Qed.

Lemma broadcast_public_key_directory (username public_key : str)
    (st : state) :
  same_directory st (broadcast_public_key username public_key st).
Proof. unfold broadcast_public_key. apply send_to_each_directory. Qed.

(** A fan-out with clean-up only ever drops entries of [clients]. *)
Definition shrinks (st st' : state) : Prop :=
  (exists keep, clients st' = filter keep (clients st)) /\
  client_addresses st' = client_addresses st /\
  public_keys st' = public_keys st.

Lemma fan_out_shrinks (target : str -> bool) (message : str) (st : state) :
  Dict.wf (clients st) ->
  shrinks st
    (remove_disconnected
       (fst (send_to_each target message (clients st) st))
       (snd (send_to_each target message (clients st) st))).
Proof.
  intros Hwf.
  destruct (send_to_each_directory target message (clients st) st)
    as [Hc [Ha Hk]].
  rewrite remove_disconnected_clients by (rewrite Hc; exact Hwf).
  unfold shrinks, with_clients. cbn [clients client_addresses public_keys].
  rewrite Hc. split; [eauto | split; assumption].
Qed.

Lemma broadcast_message_shrinks (sender encrypted_content : str)
    (st : state) :
  Dict.wf (clients st) ->
  shrinks st (broadcast_message sender encrypted_content st).
Proof.
  intros Hwf. unfold broadcast_message.
  pose proof (fan_out_shrinks (fun u => negb (str_eqb u sender))
                (envelope config.MSG_TYPE_BROADCAST sender encrypted_content)
                st Hwf) as H.
  destruct (send_to_each _ _ (clients st) st). exact H.
Qed.

Lemma broadcast_user_list_shrinks (st : state) :
  Dict.wf (clients st) -> shrinks st (broadcast_user_list st).
Proof.
  intros Hwf. unfold broadcast_user_list.
  pose proof (fan_out_shrinks (fun _ => true)
                (config.MSG_TYPE_USER_LIST ++ config.MSG_SEPARATOR
                 ++ pyjson.dumps (Dict.keys (clients st))
                 ++ config.MSG_DELIMITER) st Hwf) as H.
  destruct (send_to_each _ _ (clients st) st). exact H.
Qed.

Lemma shrinks_wf (st st' : state) :
  shrinks st st' -> Dict.wf (clients st) -> Dict.wf (clients st').
Proof. intros [[keep ->] _]. apply wf_filter. Qed.

Lemma shrinks_absent (st st' : state) (k : str) :
  shrinks st st' -> Dict.contains (clients st) k = false ->
  Dict.contains (clients st') k = false.
Proof. intros [[keep ->] _]. apply contains_filter_false. Qed.

Lemma same_directory_shrinks (st st' : state) :
  same_directory st st' -> shrinks st st'.
Proof.
  intros [Hc [Ha Hk]]. split; [|split; assumption].
  exists (fun _ => true). rewrite Hc.
  symmetry. apply forallb_filter_id, forallb_forall. reflexivity.
Qed.

Lemma send_direct_message_directory (sender recipient content : str)
    (st : state) :
  same_directory st (send_direct_message sender recipient content st).
Proof.
  unfold send_direct_message.
  destruct (Dict.contains (clients st) recipient);
    [|apply same_directory_refl].
  destruct (Dict.get (clients st) recipient);
    [apply send_text_directory | apply same_directory_refl].
Qed.

Lemma route_message_shrinks (sender message_data : str) (st : state) :
  Dict.wf (clients st) -> shrinks st (route_message sender message_data st).
Proof.
  intros Hwf. unfold route_message.
  pose proof (same_directory_shrinks st st (same_directory_refl st)) as Hid.
  destruct (split config.MSG_SEPARATOR message_data 2) as [|t [|f rest]];
    try exact Hid.
  destruct (str_eqb t config.MSG_TYPE_BROADCAST);
    [apply broadcast_message_shrinks, Hwf|].
  destruct (str_eqb t config.MSG_TYPE_MESSAGE); [|exact Hid].
  destruct rest; [exact Hid|].
  apply same_directory_shrinks, send_direct_message_directory.
Qed.

(** *** The [finally] clause *)

Lemma forget_clients (username : str) (st : state) :
  Dict.wf (clients st) ->
  Dict.wf (clients (forget username st)) /\
  Dict.contains (clients (forget username st)) username = false.
Proof.
  intros Hwf. unfold forget. cbn [clients].
  destruct (Dict.contains (clients st) username) eqn:E.
  - split; [apply Dict.wf_del, Hwf | apply Dict.contains_del_same, Hwf].
  - split; assumption.
Qed.

(** Whoever runs the [finally] clause with a non-empty [username] leaves
    the directory without that name. *)
Lemma finally_clause_forgets (username : str) (sk : socket) (st : state) :
  Dict.wf (clients st) -> truthy username = true ->
  Dict.wf (clients (finally_clause (Some username) sk st)) /\
  Dict.contains (clients (finally_clause (Some username) sk st)) username
  = false.
Proof.
  intros Hwf Ht. unfold finally_clause. rewrite Ht.
  destruct (forget_clients username st Hwf) as [Hwf' Habs].
  pose proof (broadcast_user_list_shrinks (forget username st) Hwf') as Hs.
  cbn [sock_close clients]. split.
  - apply (shrinks_wf _ _ Hs Hwf').
  - apply (shrinks_absent _ _ _ Hs Habs).
Qed.

Lemma finally_clause_wf (username : option str) (sk : socket) (st : state) :
  Dict.wf (clients st) -> Dict.wf (clients (finally_clause username sk st)).
Proof.
  intros Hwf. destruct username as [u|]; [|exact Hwf].
  destruct (truthy u) eqn:Ht.
  - apply finally_clause_forgets; assumption.
  - unfold finally_clause. rewrite Ht. exact Hwf.
Qed.

(** *** At most one entry per identity *)

Lemma register_wf (username : str) (sk : socket) (addr : address)
    (pem : str) (st : state) :
  Dict.wf (clients st) -> Dict.wf (clients (register username sk addr pem st)).
Proof. intros H. cbn [register clients]. apply Dict.wf_set, H. Qed.

Lemma handle_client_connect_wf (sk : socket) (addr : address)
    (received : exc bytes) (st : state) :
  Dict.wf (clients st) ->
  Dict.wf (clients (snd (handle_client_connect sk addr received st))).
Proof.
  intros Hwf. unfold handle_client_connect.
  destruct received as [e|raw]; [apply finally_clause_wf, Hwf|].
  destruct (Utf8.decode raw) as [e|auth_data];
    [apply finally_clause_wf, Hwf|].
  destruct (negb (truthy auth_data)); [apply finally_clause_wf, Hwf|].
  assert (Hinv : forall reply,
            Dict.wf (clients (finally_clause None sk (reject sk reply st)))).
  { intros reply. apply finally_clause_wf.
    destruct (reject_directory sk reply st) as [-> _]. exact Hwf. }
  destruct (split config.MSG_SEPARATOR auth_data 2)
    as [|t [|username [|pem [|x rest]]]]; try apply Hinv.
  destruct (str_eqb t config.MSG_TYPE_AUTH); [|apply Hinv].
  destruct (Dict.contains (clients st) username).
  - cbn [snd]. apply finally_clause_wf.
    destruct (reject_directory sk
                (lit "ERROR: Username '" ++ username
                 ++ lit "' already taken" ++ config.MSG_DELIMITER) st)
      as [-> _].
    exact Hwf.
  - pose proof (register_wf username sk addr pem st Hwf) as Hreg.
    pose proof (send_text_directory sk
                  (lit "SUCCESS" ++ config.MSG_DELIMITER)
                  (register username sk addr pem st)) as Hs.
    destruct (send_text sk (lit "SUCCESS" ++ config.MSG_DELIMITER)
                (register username sk addr pem st)) as [[e|u] st2];
      cbn [snd] in Hs |- *; destruct Hs as [Hc _].
    + apply finally_clause_wf. rewrite Hc. exact Hreg.
    + assert (H2 : Dict.wf (clients st2)) by (rewrite Hc; exact Hreg).
      pose proof (broadcast_user_list_shrinks st2 H2) as H3.
      pose proof (shrinks_wf _ _ H3 H2) as H4.
      destruct (send_all_public_keys_directory username
                  (broadcast_user_list st2)) as [H5 _].
      destruct (broadcast_public_key_directory username pem
                  (send_all_public_keys username (broadcast_user_list st2)))
        as [H6 _].
      rewrite H6, H5. exact H4.
Qed.

Lemma handle_client_receive_wf (username : str) (sk : socket)
    (received : exc bytes) (st : state) :
  Dict.wf (clients st) ->
  Dict.wf (clients (snd (handle_client_receive username sk received st))).
Proof.
  intros Hwf. unfold handle_client_receive.
  destruct received as [e|raw]; [apply finally_clause_wf, Hwf|].
  destruct (Utf8.decode raw) as [e|data]; [apply finally_clause_wf, Hwf|].
  destruct (truthy data); [|apply finally_clause_wf, Hwf].
  cbn [snd]. apply (shrinks_wf _ _ (route_message_shrinks username data st Hwf)).
  exact Hwf.
Qed.

(** The states the relay can be in: from the empty directory, by steps
    of its connection handlers. *)
Inductive reachable : state -> Prop :=
| reachable_initial : reachable initial
| reachable_down st sk :
    reachable st ->
    reachable {| clients := clients st;
                 client_addresses := client_addresses st;
                 public_keys := public_keys st; sent := sent st;
                 closed := closed st; down := sk :: down st |}
| reachable_connect st sk addr received :
    reachable st ->
    reachable (snd (handle_client_connect sk addr received st))
| reachable_receive st username sk received :
    reachable st ->
    reachable (snd (handle_client_receive username sk received st)).

(** At every step the directory holds at most one entry per
    identity. *)
Lemma reachable_wf (st : state) : reachable st -> Dict.wf (clients st).
Proof.
  induction 1 as [|st sk H IH|st sk addr r H IH|st u sk r H IH].
  - apply Dict.wf_nil.
  - exact IH.
  - apply handle_client_connect_wf, IH.
  - apply handle_client_receive_wf, IH.
Qed.

End directory_facts.

(** ** Registration of a name that is not taken *)

Module registration_facts.
Import pystr server server_facts directory_facts.

(** *** The user list always encodes *)

Definition ascii_only (s : str) : Prop := Forall (fun c => (c < 128)%N) s.

Lemma ascii_only_app (s t : str) :
  ascii_only s -> ascii_only t -> ascii_only (s ++ t).
Proof. intros Hs Ht. apply Forall_app. split; assumption. Qed.

Lemma ascii_only_encodes (s : str) :
  ascii_only s -> exists data, Utf8.encode s = ret data.
Proof.
  intros H. apply Utf8.encode_encodable. unfold Utf8.encodable.
  apply (Forall_impl _ (P := fun c => (c < 128)%N)); [|exact H].
  intros c Hc. split; [lia|]. unfold Utf8.is_surrogate.
  replace (0xD800 <=? c)%N with false by (symmetry; apply N.leb_gt; lia).
  reflexivity.
Qed.

Lemma hexdigit_ascii (n : N) :
  (crypto_handler.hexdigit (n mod 16) < 128)%N.
Proof.
  unfold crypto_handler.hexdigit.
  pose proof (N.mod_upper_bound n 16). destruct (N.ltb_spec (n mod 16) 10); lia.
Qed.

Lemma hex4_ascii (n : N) : ascii_only (pyjson.hex4 n).
Proof.
  unfold pyjson.hex4. repeat constructor; apply hexdigit_ascii.
Qed.

Lemma lit_ascii_only (s : str) :
  forallb (fun c => N.ltb c 128) s = true -> ascii_only s.
Proof.
  intros H. apply Forall_forall. intros c Hc.
  rewrite forallb_forall in H. apply N.ltb_lt, H, Hc.
Qed.

Lemma escape_char_ascii (c : N) : ascii_only (pyjson.escape_char c).
Proof.
  unfold pyjson.escape_char.
  repeat match goal with
  | |- ascii_only (if ?b then _ else _) => destruct b eqn:?
  end;
  try (apply lit_ascii_only; reflexivity).
  - apply andb_true_iff in Heqb6. destruct Heqb6 as [_ H].
    apply N.leb_le in H. repeat constructor. lia.
  - apply (ascii_only_app [pyjson.backslash; 117%N]);
      [apply lit_ascii_only; reflexivity | apply hex4_ascii].
  - apply (ascii_only_app [pyjson.backslash; 117%N]);
      [apply lit_ascii_only; reflexivity|].
    apply ascii_only_app; [apply hex4_ascii|].
    apply (ascii_only_app [pyjson.backslash; 117%N]);
      [apply lit_ascii_only; reflexivity | apply hex4_ascii].
Qed.

Lemma encode_basestring_ascii_only (s : str) :
  ascii_only (pyjson.encode_basestring_ascii s).
Proof.
  unfold pyjson.encode_basestring_ascii.
  apply (ascii_only_app [pyjson.quote]);
    [apply lit_ascii_only; reflexivity|].
  apply ascii_only_app; [|apply lit_ascii_only; reflexivity].
  induction s as [|c s IH]; [constructor|].
  cbn [flat_map]. apply ascii_only_app; [apply escape_char_ascii | exact IH].
Qed.

Lemma join_ascii_only (sep : str) (items : list str) :
  ascii_only sep -> Forall ascii_only items ->
  ascii_only (pyjson.join sep items).
Proof.
  intros Hsep H. induction H as [|x l Hx Hl IH]; [constructor|].
  cbn [pyjson.join]. destruct l as [|y l]; [exact Hx|].
  apply ascii_only_app; [exact Hx|]. apply ascii_only_app; assumption.
Qed.

Lemma dumps_ascii_only (items : list str) : ascii_only (pyjson.dumps items).
Proof.
  unfold pyjson.dumps.
  apply ascii_only_app; [apply lit_ascii_only; reflexivity|].
  apply ascii_only_app; [|apply lit_ascii_only; reflexivity].
  apply join_ascii_only; [apply lit_ascii_only; reflexivity|].
  apply Forall_forall. intros x Hx. apply in_map_iff in Hx.
  destruct Hx as [s [<- _]]. apply encode_basestring_ascii_only.
Qed.

(** *** Sockets that stay up *)

Definition same_sockets (st st' : state) : Prop :=
  closed st' = closed st /\ down st' = down st.

Lemma same_sockets_up (st st' : state) (sk : socket) :
  same_sockets st st' -> up st' sk = up st sk.
Proof. intros [Hc Hd]. unfold up. rewrite Hc, Hd. reflexivity. Qed.

Lemma same_sockets_trans (a b c : state) :
  same_sockets a b -> same_sockets b c -> same_sockets a c.
Proof. intros [H1 H2] [H3 H4]. split; congruence. Qed.

Lemma send_text_sockets (sk : socket) (message : str) (st : state) :
  same_sockets st (snd (send_text sk message st)).
Proof.
  unfold send_text, sock_send. destruct (Utf8.encode message);
    [split; reflexivity|].
  destruct (up st sk); split; reflexivity.
Qed.

Lemma send_to_each_sockets (target : str -> bool) (message : str)
    (entries : list (str * socket)) (st : state) :
  same_sockets st (snd (send_to_each target message entries st)).
Proof.
  destruct (Utf8.encode message) as [e|data] eqn:E.
  - rewrite (send_to_each_unencodable _ _ e _ _ E). split; reflexivity.
  - rewrite (send_to_each_encoded _ _ data _ _ E). split; reflexivity.
Qed.

Lemma fold_left_sockets {A} (f : state -> A -> state) (l : list A) :
  (forall s a, same_sockets s (f s a)) ->
  forall s, same_sockets s (fold_left f l s).
Proof.
  intros Hf. induction l as [|a l IH]; intros s.
  - split; reflexivity.
  - cbn [fold_left]. apply (same_sockets_trans _ _ _ (Hf s a)), IH.
Qed.

Lemma send_all_public_keys_sockets (username : str) (st : state) :
  same_sockets st (send_all_public_keys username st).
Proof.
  unfold send_all_public_keys.
  destruct (negb (Dict.contains (clients st) username));
    [split; reflexivity|].
  destruct (Dict.get (clients st) username) as [sk|]; [|split; reflexivity].
  apply fold_left_sockets. intros s [other pk].
  destruct (negb (str_eqb other username));
    [apply send_text_sockets | split; reflexivity].
Qed.

(** With every registered socket up the user list reaches everyone and
    nobody is dropped. *)
Lemma broadcast_user_list_all_up (st : state) :
  Dict.wf (clients st) ->
  (forall e, In e (clients st) -> up st (snd e) = true) ->
  same_directory st (broadcast_user_list st) /\
  same_sockets st (broadcast_user_list st).
Proof.
  intros Hwf Hup. unfold broadcast_user_list.
  set (message := config.MSG_TYPE_USER_LIST ++ config.MSG_SEPARATOR
                  ++ pyjson.dumps (Dict.keys (clients st))
                  ++ config.MSG_DELIMITER).
  destruct (ascii_only_encodes message) as [data Hm].
  { subst message.
    apply ascii_only_app; [apply lit_ascii_only; reflexivity|].
    apply ascii_only_app; [apply lit_ascii_only; reflexivity|].
    apply ascii_only_app; [apply dumps_ascii_only|].
    apply lit_ascii_only. reflexivity. }
  rewrite (send_to_each_encoded _ _ data _ _ Hm).
  assert (Hnone : filter (failed (fun _ => true) st) (clients st) = []).
  { revert Hup. generalize (clients st) as entries.
    induction entries as [|e l IH]; intros Hup; [reflexivity|].
    cbn [filter]. unfold failed at 1. rewrite (Hup e (or_introl eq_refl)).
    cbn [negb andb]. apply IH. intros x Hx. apply Hup. right. exact Hx. }
  rewrite Hnone. cbn [map remove_disconnected fold_left].
  split; repeat split.
Qed.

(** *** A successful registration *)

(** An [AUTH] for a name that is not taken, on a socket that is up and
    with every registered socket up, appends one entry to the directory
    and keeps every other. *)
Lemma fresh_registration (st : state) (sk : socket) (addr : address)
    (raw : bytes) (auth_data username pem : str) :
  Dict.wf (clients st) ->
  Utf8.decode raw = ret auth_data ->
  split config.MSG_SEPARATOR auth_data 2
    = [config.MSG_TYPE_AUTH; username; pem] ->
  Dict.contains (clients st) username = false ->
  up st sk = true ->
  (forall e, In e (clients st) -> up st (snd e) = true) ->
  let after := handle_client_connect sk addr (inr raw) st in
  fst after = Serving username /\
  clients (snd after) = clients st ++ [(username, sk)] /\
  same_sockets st (snd after).
Proof.
  intros Hwf Hd Hs Hc Hsk Hup after. subst after.
  unfold handle_client_connect. rewrite Hd.
  assert (Ht : truthy auth_data = true).
  { destruct auth_data; [discriminate Hs | reflexivity]. }
  cbn [ret]. rewrite Ht. cbn [negb]. rewrite Hs, str_eqb_refl, Hc.
  set (st1 := register username sk addr pem st).
  assert (Hok : Utf8.encode (lit "SUCCESS" ++ config.MSG_DELIMITER)
                = ret (map byte_of_N (lit "SUCCESS" ++ config.MSG_DELIMITER)))
    by (vm_compute; reflexivity).
  rewrite (send_text_encoded sk _ _ st1 Hok).
  change (up st1 sk) with (up st sk). rewrite Hsk.
  set (st2 := with_sent _ st1).
  assert (Hc2 : clients st2 = clients st ++ [(username, sk)])
    by (apply Dict.keys_set_new, Hc).
  assert (Hwf2 : Dict.wf (clients st2))
    by (apply (register_wf username sk addr pem st Hwf)).
  assert (Hup2 : forall e, In e (clients st2) -> up st2 (snd e) = true).
  { intros e He. change (up st2 (snd e)) with (up st (snd e)).
    rewrite Hc2 in He. apply in_app_or in He.
    destruct He as [He | [<- | []]]; [apply Hup, He | exact Hsk]. }
  destruct (broadcast_user_list_all_up st2 Hwf2 Hup2) as [[H3 _] S3].
  destruct (send_all_public_keys_directory username (broadcast_user_list st2))
    as [H4 _].
  pose proof (send_all_public_keys_sockets username (broadcast_user_list st2))
    as S4.
  destruct (broadcast_public_key_directory username pem
              (send_all_public_keys username (broadcast_user_list st2)))
    as [H5 _].
  pose proof (send_to_each_sockets
                (fun other_user => negb (str_eqb other_user username))
                (envelope config.MSG_TYPE_KEY_EXCHANGE username pem)
                (clients (send_all_public_keys username
                            (broadcast_user_list st2)))
                (send_all_public_keys username (broadcast_user_list st2)))
    as S5.
  unfold ret. cbv iota. cbn [fst snd]. split; [reflexivity|]. split.
  - rewrite H5, H4, H3. exact Hc2.
  - assert (S2 : same_sockets st st2) by (split; reflexivity).
    apply (same_sockets_trans _ _ _ S2).
    apply (same_sockets_trans _ _ _ S3).
    apply (same_sockets_trans _ _ _ S4). exact S5.
Qed.

(** The name a handler serves under was read off the wire, so it has a
    UTF-8 encoding. *)
Lemma serving_username_encodes (st : state) (sk : socket) (addr : address)
    (received : exc bytes) (username : str) :
  fst (handle_client_connect sk addr received st) = Serving username ->
  exists ub, Utf8.encode username = ret ub.
Proof.
  unfold handle_client_connect.
  destruct received as [e|raw]; [discriminate|].
  destruct (Utf8.decode raw) as [e|auth_data] eqn:Hd; [discriminate|].
  destruct (negb (truthy auth_data)); [discriminate|].
  destruct (split config.MSG_SEPARATOR auth_data 2)
    as [|t [|u [|pem [|x rest]]]] eqn:Hs; try discriminate.
  destruct (str_eqb t config.MSG_TYPE_AUTH); [|discriminate].
  destruct (Dict.contains (clients st) u); [discriminate|].
  destruct (send_text sk (lit "SUCCESS" ++ config.MSG_DELIMITER)
              (register u sk addr pem st)) as [[e|x] st2]; [discriminate|].
  cbn [fst]. intros H. injection H as <-.
  pose proof (Utf8Canon.encode_decode raw auth_data Hd) as Hraw.
  cbn [split] in Hs.
  destruct (partition config.MSG_SEPARATOR auth_data) as [[a s1]|] eqn:P1;
    [|discriminate].
  destruct (partition config.MSG_SEPARATOR s1) as [[b c]|] eqn:P2;
    [|discriminate].
  injection Hs as <- <- <-.
  apply partition_app in P1, P2. subst auth_data s1.
  apply Utf8Canon.encode_app_inv in Hraw.
  destruct Hraw as [_ [x1 [_ [Hx1 _]]]].
  apply Utf8Canon.encode_app_inv in Hx1.
  destruct Hx1 as [_ [x2 [_ [Hx2 _]]]].
  apply Utf8Canon.encode_app_inv in Hx2.
  destruct Hx2 as [ub [_ [Hub _]]]. eauto.
Qed.

(** *** Any number of registrations *)

(** The states reached from the empty directory by registrations under
    names not yet taken, with the names in arrival order. *)
Inductive joined : list str -> state -> Prop :=
| joined_nobody : joined [] initial
| joined_one names st sk addr raw auth_data username pem :
    joined names st ->
    Utf8.decode raw = ret auth_data ->
    split config.MSG_SEPARATOR auth_data 2
      = [config.MSG_TYPE_AUTH; username; pem] ->
    Dict.contains (clients st) username = false ->
    joined (names ++ [username])
           (snd (handle_client_connect sk addr (inr raw) st)).

Lemma initial_all_up (st : state) (sk : socket) :
  same_sockets initial st -> up st sk = true.
Proof. intros H. rewrite (same_sockets_up _ _ sk H). reflexivity. Qed.

(** After N registrations under N distinct names the directory holds
    exactly those N names, each once. *)
Lemma joined_directory (names : list str) (st : state) :
  joined names st ->
  Dict.keys (clients st) = names /\ Dict.wf (clients st) /\
  length (clients st) = length names /\ same_sockets initial st.
Proof.
  induction 1 as [|names st sk addr raw auth_data username pem J IH Hd Hs Hc].
  - repeat split. constructor.
  - destruct IH as [Hk [Hwf [Hlen Hsock]]].
    destruct (fresh_registration st sk addr raw auth_data username pem
                Hwf Hd Hs Hc (initial_all_up st sk Hsock)
                (fun e _ => initial_all_up st (snd e) Hsock))
      as [_ [Hcl Hss]].
    assert (Hkeys : Dict.keys
                      (clients (snd (handle_client_connect sk addr (inr raw) st)))
                    = names ++ [username]).
    { rewrite Hcl. unfold Dict.keys in *. rewrite map_app, Hk. reflexivity. }
    split; [exact Hkeys|]. split.
    + pose proof (handle_client_connect_wf sk addr (inr raw) st Hwf) as W.
      exact W.
    + split.
      * rewrite Hcl, !length_app, Hlen. reflexivity.
      * apply (same_sockets_trans _ _ _ Hsock Hss).
Qed.

End registration_facts.

(** ** Envelopes on the wire *)

Module wire_facts.
Import pystr server server_facts.

(** The bytes of an ASCII literal. *)
Definition ascii_bytes (s : str) : bytes := map byte_of_N s.

Definition separator_bytes : bytes :=
  Eval vm_compute in ascii_bytes config.MSG_SEPARATOR.
Definition delimiter_bytes : bytes :=
  Eval vm_compute in ascii_bytes config.MSG_DELIMITER.

(** The encoded envelope [type||a||b] with its delimiter. *)
Definition envelope_bytes (type : str) (a b : bytes) : bytes :=
  ascii_bytes type ++ separator_bytes ++ a ++ separator_bytes ++ b
  ++ delimiter_bytes.

Lemma encode_envelope (type a b : str) (ab bb : bytes) :
  Utf8.encode type = ret (ascii_bytes type) ->
  Utf8.encode a = ret ab -> Utf8.encode b = ret bb ->
  Utf8.encode (envelope type a b) = ret (envelope_bytes type ab bb).
Proof.
  intros Ht Ha Hb. unfold envelope, envelope_bytes.
  assert (Hs : Utf8.encode config.MSG_SEPARATOR = ret separator_bytes)
    by (vm_compute; reflexivity).
  assert (Hd : Utf8.encode config.MSG_DELIMITER = ret delimiter_bytes)
    by (vm_compute; reflexivity).
  repeat (apply Utf8Canon.encode_app; [assumption|]). exact Hd.
Qed.

(** The parts of [s.split(sep, 2)] put together again. *)
Lemma split_two (sep s a b : str) (rest : list str) :
  split sep s 2 = a :: b :: rest ->
  (rest = [] /\ s = a ++ sep ++ b) \/
  (exists c, rest = [c] /\ s = a ++ sep ++ b ++ sep ++ c).
Proof.
  cbn [split].
  destruct (partition sep s) as [[a' s1]|] eqn:P1; [|discriminate].
  apply partition_app in P1.
  destruct (partition sep s1) as [[b' c]|] eqn:P2.
  - apply partition_app in P2. intros H. injection H as <- <- <-.
    right. exists c. split; [reflexivity|]. rewrite P1, P2. reflexivity.
  - intros H. injection H as <- <- <-. left. split; [reflexivity | exact P1].
Qed.

(** An envelope of three fields, the first two free of [|], splits
    into them. *)
Lemma split_three (a b c : str) :
  free_of 124 a -> free_of 124 b ->
  split config.MSG_SEPARATOR
    (a ++ config.MSG_SEPARATOR ++ b ++ config.MSG_SEPARATOR ++ c) 2
  = [a; b; c].
Proof.
  intros Ha Hb. cbn [split].
  change config.MSG_SEPARATOR with (124%N :: [124%N]).
  rewrite (partition_after_free 124 [124%N] a _ Ha).
  rewrite (partition_after_free 124 [124%N] b _ Hb). reflexivity.
Qed.

(** An envelope of two fields, the first free of [|] and the second
    without a separator, splits into them. *)
Lemma split_fields (a b : str) :
  free_of 124 a -> contains config.MSG_SEPARATOR b = false ->
  split config.MSG_SEPARATOR (a ++ config.MSG_SEPARATOR ++ b) 2 = [a; b].
Proof.
  intros Ha Hb. cbn [split]. apply contains_false_iff in Hb.
  change config.MSG_SEPARATOR with (124%N :: [124%N]) in Hb |- *.
  rewrite (partition_after_free 124 [124%N] a _ Ha), Hb. reflexivity.
Qed.

Lemma free_of_lit (c : N) (s : str) :
  forallb (fun d => negb (d =? c)%N) s = true -> free_of c s.
Proof.
  intros H. rewrite forallb_forall in H. apply Forall_forall.
  intros d Hd. specialize (H d Hd). apply negb_true_iff in H.
  apply N.eqb_neq, H.
Qed.

End wire_facts.

(** ** Registration, fan-out and forwarding *)

Module relay_claims.
Import pystr server server_facts directory_facts wire_facts.

(** *** Sample connections *)

Definition wire (s : str) : exc bytes := inr (ascii_bytes s).

Definition lan_address : address := (lit "192.168.1.20", 50000%N).

(** Alice on socket 1, then Bob on socket 2, then Carol on socket 3. *)
Definition alice_online : state :=
  snd (handle_client_connect 1 lan_address
         (wire (lit "AUTH||Alice||PEM-A")) initial).

Definition alice_bob_online : state :=
  snd (handle_client_connect 2 lan_address
         (wire (lit "AUTH||Bob||PEM-B")) alice_online).

Definition all_online : state :=
  snd (handle_client_connect 3 lan_address
         (wire (lit "AUTH||Carol||PEM-C")) alice_bob_online).

(** The same with Bob's peer gone. *)
Definition bob_gone : state :=
  {| clients := clients all_online;
     client_addresses := client_addresses all_online;
     public_keys := public_keys all_online;
     sent := sent all_online; closed := closed all_online;
     down := [2] |}.

(** *** Duplicate registration *)

(** C5: the code does not keep the existing entry.  With Alice
    registered on socket 1, a second connection that authenticates as
    Alice is sent the error and closed, and the [finally] clause of its
    handler, entered with [username == "Alice"], deletes Alice from all
    three dictionaries and announces a user list without her. *)
Theorem duplicate_auth_evicts_existing_entry :
  Dict.get (clients alice_bob_online) (lit "Alice") = Some 1 /\
  let after :=
    handle_client_connect 3 lan_address (wire (lit "AUTH||Alice||PEM-E"))
      alice_bob_online in
  fst after = Finished /\
  In (3, ascii_bytes (lit "ERROR: Username 'Alice' already taken"
                      ++ config.MSG_DELIMITER))
     (sent (snd after)) /\
  Dict.keys (clients (snd after)) = [lit "Bob"] /\
  Dict.keys (public_keys (snd after)) = [lit "Bob"] /\
  Dict.keys (client_addresses (snd after)) = [lit "Bob"] /\
  last (sent (snd after)) (0, [])
  = (2, ascii_bytes (lit "USER_LIST||" ++ pyjson.dumps [lit "Bob"]
                     ++ config.MSG_DELIMITER)).
Proof.
  split; [vm_compute; reflexivity|]. cbv zeta.
  split; [vm_compute; reflexivity|].
  split; [vm_compute; tauto|].
  repeat split; vm_compute; reflexivity.
Qed.

(** The same on every state: an [AUTH] for a name that is in the
    directory leaves the directory without that name. *)
Lemma duplicate_auth_always_evicts (st : state) (sk : socket)
    (addr : address) (raw : bytes) (auth_data username pem : str) :
  Dict.wf (clients st) ->
  Utf8.decode raw = ret auth_data ->
  split config.MSG_SEPARATOR auth_data 2
    = [config.MSG_TYPE_AUTH; username; pem] ->
  username <> [] ->
  Dict.contains (clients st) username = true ->
  let after := handle_client_connect sk addr (inr raw) st in
  fst after = Finished /\
  Dict.contains (clients (snd after)) username = false.
Proof.
  intros Hwf Hd Hs Hne Hc after. subst after.
  unfold handle_client_connect. rewrite Hd.
  assert (Ht : truthy auth_data = true).
  { destruct auth_data; [discriminate Hs | reflexivity]. }
  cbn [ret]. rewrite Ht. cbn [negb]. rewrite Hs, str_eqb_refl, Hc.
  cbn [fst snd].
  split; [reflexivity|].
  apply finally_clause_forgets.
  - destruct (reject_directory sk
                (lit "ERROR: Username '" ++ username
                 ++ lit "' already taken" ++ config.MSG_DELIMITER) st)
      as [-> _].
    exact Hwf.
  - destruct username; [congruence | reflexivity].
Qed.

(** What the check before registration does achieve: the new socket is
    never entered under a name that is taken. *)
Lemma duplicate_auth_never_registers (st : state) (sk : socket)
    (addr : address) (raw : bytes) (auth_data username pem : str) :
  Utf8.decode raw = ret auth_data ->
  split config.MSG_SEPARATOR auth_data 2
    = [config.MSG_TYPE_AUTH; username; pem] ->
  Dict.contains (clients st) username = true ->
  fst (handle_client_connect sk addr (inr raw) st) = Finished.
Proof.
  intros Hd Hs Hc. unfold handle_client_connect. rewrite Hd.
  assert (Ht : truthy auth_data = true).
  { destruct auth_data; [discriminate Hs | reflexivity]. }
  cbn [ret]. rewrite Ht. cbn [negb]. rewrite Hs, str_eqb_refl, Hc.
  reflexivity.
Qed.

(** Registering a name that is not taken adds one entry. *)
Lemma register_adds_one (username : str) (sk : socket) (addr : address)
    (pem : str) (st : state) :
  Dict.contains (clients st) username = false ->
  clients (register username sk addr pem st) = clients st ++ [(username, sk)].
Proof. intros H. cbn [register clients]. apply Dict.keys_set_new, H. Qed.

Example three_registrations :
  Dict.keys (clients all_online) = [lit "Alice"; lit "Bob"; lit "Carol"].
Proof. vm_compute. reflexivity. Qed.

(** *** Broadcast *)

(** The delivery of a broadcast: a [BROADCAST] from [sender] is sent,
    once and in directory order, to every registered session other
    than the sender on which [send] succeeds and to no one else; the
    targets on which [send] fails are exactly the entries
    [self.clients] loses, and they do not keep the others from being
    served. *)
Lemma broadcast_reaches_all_but_sender (st : state)
    (sender encrypted_content : str) (data : bytes) :
  Dict.wf (clients st) ->
  Utf8.encode (envelope config.MSG_TYPE_BROADCAST sender encrypted_content)
    = ret data ->
  let st' := broadcast_message sender encrypted_content st in
  sent st'
    = sent st
      ++ map (fun e => (snd e, data))
           (filter (fun e => negb (str_eqb (fst e) sender) && up st (snd e))
              (clients st)) /\
  clients st'
    = filter (fun e => str_eqb (fst e) sender || up st (snd e)) (clients st) /\
  (forall username sk,
     In (username, sk) (clients st) -> username <> sender ->
     if up st sk
     then In (sk, data) (sent st') /\
          Dict.get (clients st') username = Some sk
     else Dict.contains (clients st') username = false).
Proof.
  intros Hwf Hm st'. subst st'.
  rewrite (broadcast_message_encoded sender encrypted_content data st Hwf Hm).
  cbn [sent clients with_clients with_sent].
  assert (Hkeep : filter
            (fun e => negb (failed (fun u => negb (str_eqb u sender)) st e))
            (clients st)
          = filter (fun e => str_eqb (fst e) sender || up st (snd e))
              (clients st)).
  { apply filter_ext. intros [u sk]. unfold failed. cbn [fst snd].
    destruct (str_eqb u sender), (up st sk); reflexivity. }
  rewrite Hkeep. split; [reflexivity|]. split; [reflexivity|].
  intros username sk Hin Hne.
  assert (Hn : str_eqb username sender = false) by (apply str_eqb_neq, Hne).
  destruct (up st sk) eqn:Hup.
  - split.
    + apply in_or_app. right.
      apply (in_map (fun e => (snd e, data)) _ (username, sk)).
      apply filter_In. split; [exact Hin|].
      unfold reached. cbn [fst snd]. rewrite Hn, Hup. reflexivity.
    + apply Dict.In_get; [apply wf_filter, Hwf|].
      apply filter_In. split; [exact Hin|].
      cbn [fst snd]. rewrite Hup. apply orb_true_r.
  - apply Dict.contains_false. intros Hk. unfold Dict.keys in Hk.
    apply in_map_iff in Hk. destruct Hk as [[u' sk'] [Hu Hin']].
    cbn [fst] in Hu. subst u'. apply filter_In in Hin'.
    destruct Hin' as [Hin' Hkept]. cbn [fst snd] in Hkept.
    rewrite Hn in Hkept. cbn [orb] in Hkept.
    pose proof (Dict.In_get (clients st) username sk Hwf Hin) as G1.
    pose proof (Dict.In_get (clients st) username sk' Hwf Hin') as G2.
    congruence.
Qed.

(** The fan-out leaves the key and address tables as they are; the
    entries of a dropped target go when its handler runs its [finally]
    clause. *)
Lemma broadcast_message_keeps_keys (st : state)
    (sender encrypted_content : str) :
  Dict.wf (clients st) ->
  public_keys (broadcast_message sender encrypted_content st) = public_keys st /\
  client_addresses (broadcast_message sender encrypted_content st)
  = client_addresses st.
Proof.
  intros Hwf.
  destruct (broadcast_message_shrinks sender encrypted_content st Hwf)
    as [_ [Ha Hk]].
  split; assumption.
Qed.

(** C6: the code does not remove the entry of a target whose send
    failed.  With Alice, Bob and Carol registered and Bob's peer gone,
    a [BROADCAST] from Alice reaches Carol and takes Bob out of
    [self.clients] only: his key and his address stay on file, where
    the [finally] clause of a handler removes all three.  The next
    client to register is told of Alice and Carol and is sent Bob's
    key with theirs. *)
Theorem failed_target_keeps_key_and_address :
  let after :=
    snd (handle_client_receive (lit "Alice") 1
           (wire (lit "BROADCAST||QUJD")) bob_gone) in
  sent after
  = sent bob_gone
    ++ [(3, ascii_bytes
              (lit "BROADCAST||Alice||QUJD" ++ config.MSG_DELIMITER))] /\
  Dict.keys (clients after) = [lit "Alice"; lit "Carol"] /\
  Dict.get (public_keys after) (lit "Bob") = Some (lit "PEM-B") /\
  Dict.get (client_addresses after) (lit "Bob") = Some lan_address /\
  (let gone := finally_clause (Some (lit "Bob")) 2 bob_gone in
   Dict.keys (clients gone) = [lit "Alice"; lit "Carol"] /\
   Dict.keys (public_keys gone) = [lit "Alice"; lit "Carol"] /\
   Dict.keys (client_addresses gone) = [lit "Alice"; lit "Carol"]) /\
  (let joined :=
     snd (handle_client_connect 4 lan_address
            (wire (lit "AUTH||Dave||PEM-D")) after) in
   In (4, ascii_bytes
            (lit "USER_LIST||"
             ++ pyjson.dumps [lit "Alice"; lit "Carol"; lit "Dave"]
             ++ config.MSG_DELIMITER))
      (sent joined) /\
   In (4, ascii_bytes
            (lit "KEY_EXCHANGE||Bob||PEM-B" ++ config.MSG_DELIMITER))
      (sent joined)).
Proof.
  cbv zeta.
  split; [vm_compute; reflexivity|].
  split; [vm_compute; reflexivity|].
  split; [vm_compute; reflexivity|].
  split; [vm_compute; reflexivity|].
  split; [repeat split; vm_compute; reflexivity|].
  split; vm_compute; tauto.
Qed.

(** *** Forwarding *)




(** A [MESSAGE] for a name that is not registered is dropped. *)
Example message_to_absent_recipient :
  handle_client_receive (lit "Alice") 1 (wire (lit "MESSAGE||Dave||QUJD"))
    all_online
  = (Serving (lit "Alice"), all_online).
Proof. vm_compute. reflexivity. Qed.

(** A sender field inside the received data is payload, not identity. *)
Example forged_sender_is_ignored :
  sent (snd (handle_client_receive (lit "Carol") 3
               (wire (lit "MESSAGE||Bob||Alice||QUJD")) all_online))
  = sent all_online
    ++ [(2, ascii_bytes
              (lit "MESSAGE||Carol||Alice||QUJD" ++ config.MSG_DELIMITER))].
Proof. vm_compute. reflexivity. Qed.

End relay_claims.

(** ** [utils.py]: input validation and text helpers *)

Module utils.
Import pystr.

(** *** [validate_username] *)

(** A character of the class [[a-zA-Z0-9_]]. *)
Definition word_char (c : N) : bool :=
  ((97 <=? c) && (c <=? 122) || (65 <=? c) && (c <=? 90)
   || (48 <=? c) && (c <=? 57) || (c =? 95))%N.

(** What the greedy run [[a-zA-Z0-9_]+] leaves of the text. *)
Fixpoint skip_word_chars (s : str) : str :=
  match s with
  | c :: r => if word_char c then skip_word_chars r else s
  | [] => []
  end.

(** [$] without [re.MULTILINE]: the end of the string, or just before
    a newline that ends the string. *)
Definition at_end (rest : str) : bool :=
  match rest with
  | [] => true
  | [c] => (c =? 10)%N
  | _ => false
  end.

(** [re.match(r'^[a-zA-Z0-9_]+$', username)]: one character of the
    class at least, the longest run of them, then [$].  A shorter run
    ends before a character of the class, where [$] does not match, so
    giving characters back never helps. *)
Definition username_pattern (s : str) : bool :=
  match s with
  | c :: r => word_char c && at_end (skip_word_chars r)
  | [] => false
  end.

(** [validate_username(username)]: the verdict and its message. *)
Definition validate_username (username : str) : bool * str :=
  if negb (truthy username) then
    (false, lit "Username cannot be empty")
  else if (length username <? 3)%nat then
    (false, lit "Username must be at least 3 characters")
  else if (20 <? length username)%nat then
    (false, lit "Username must not exceed 20 characters")
  else if negb (username_pattern username) then
    (false,
     lit "Username can only contain letters, numbers, and underscores")
  else (true, lit "Valid username").

(** *** [truncate_text] *)

(** [text[:k]] for an integer [k]: a negative [k] counts from the end,
    and a bound before the start is the start. *)
Definition slice_to (text : str) (k : Z) : str :=
  if (0 <=? k)%Z then firstn (Z.to_nat k) text
  else firstn (Z.to_nat (Z.of_nat (length text) + k)) text.

(** [truncate_text(text, max_length)]:
    [if len(text) <= max_length: return text],
    [return text[:max_length-3] + "..."]. *)
Definition truncate_text (text : str) (max_length : Z) : str :=
  if (Z.of_nat (length text) <=? max_length)%Z then text
  else slice_to text (max_length - 3) ++ lit "...".

(** *** [parse_message_data] *)

(** [parts = data_str.split("||", 2)], [parts] when it has two items at
    least and [None] otherwise. *)
Definition parse_message_data (data_str : str) : option (list str) :=
  let parts := split (lit "||") data_str 2 in
  if (2 <=? length parts)%nat then Some parts else None.

End utils.

(** ** Facts on [utils.py] *)

Module utils_facts.
Import pystr utils.

(** *** [validate_username] *)

Definition word (s : str) : Prop := Forall (fun c => word_char c = true) s.

Lemma skip_word_chars_run (body rest : str) :
  word body -> skip_word_chars (body ++ rest) = skip_word_chars rest.
Proof.
  intros H. induction H as [|c body Hc Hb IH]; [reflexivity|].
  cbn [app skip_word_chars]. rewrite Hc. exact IH.
Qed.

Lemma skip_word_chars_split (s : str) :
  exists body, word body /\ s = body ++ skip_word_chars s.
Proof.
  induction s as [|c s [body [Hb Hs]]].
  - exists []. split; [constructor | reflexivity].
  - cbn [skip_word_chars]. destruct (word_char c) eqn:E.
    + exists (c :: body). split; [constructor; assumption|].
      cbn [app]. f_equal. exact Hs.
    + exists []. split; [constructor | reflexivity].
Qed.

(** The pattern accepts a run of class characters, alone or followed by
    one newline. *)
Lemma username_pattern_iff (s : str) :
  username_pattern s = true <->
  exists body, body <> [] /\ word body /\ (s = body \/ s = body ++ [10%N]).
Proof.
  split.
  - destruct s as [|c r]; [discriminate|]. cbn [username_pattern].
    intros H. apply andb_true_iff in H. destruct H as [Hc He].
    destruct (skip_word_chars_split r) as [body [Hb Hr]].
    exists (c :: body). split; [discriminate|].
    split; [constructor; assumption|].
    destruct (skip_word_chars r) as [|x [|y t]]; try discriminate.
    + left. rewrite app_nil_r in Hr. congruence.
    + right. cbn [at_end] in He. apply N.eqb_eq in He. subst x.
      cbn [app]. congruence.
  - intros [body [Hne [Hb Hs]]].
    destruct body as [|c body]; [congruence|].
    inversion Hb as [|? ? Hc Hb']; subst.
    destruct Hs as [-> | ->]; cbn [app username_pattern]; rewrite Hc.
    + rewrite <- (app_nil_r body), skip_word_chars_run by exact Hb'.
      reflexivity.
    + rewrite skip_word_chars_run by exact Hb'. reflexivity.
Qed.

Lemma word_char_ascii (c : N) : word_char c = true -> (c < 128)%N.
Proof.
  unfold word_char. intros H.
  repeat (apply orb_true_iff in H; destruct H as [H|H]);
    repeat (apply andb_true_iff in H; destruct H as [? H]);
    repeat match goal with
           | X : (_ <=? _)%N = true |- _ => apply N.leb_le in X
           | X : (_ =? _)%N = true |- _ => apply N.eqb_eq in X
           end; lia.
Qed.

Lemma word_char_not (c d : N) :
  word_char c = true -> word_char d = false -> c <> d.
Proof. intros Hc Hd ->. congruence. Qed.

(** The text before the first occurrence of a separator holds no
    occurrence of it. *)
Lemma partition_first (c : N) (sep s a b : str) :
  partition (c :: sep) s = Some (a, b) -> partition (c :: sep) a = None.
Proof.
  revert a b. induction s as [|d s IH]; intros a b H.
  - cbn in H. discriminate.
  - cbn [partition] in H.
    destruct (starts_with (c :: sep) (d :: s)) as [r|] eqn:E.
    + injection H as <- <-. reflexivity.
    + destruct (partition (c :: sep) s) as [[a' b']|] eqn:P; [|discriminate].
      injection H as <- <-. cbn [partition].
      assert (E' : starts_with (c :: sep) (d :: a') = None).
      { destruct (starts_with (c :: sep) (d :: a')) as [r|] eqn:E2;
          [|reflexivity].
        exfalso. apply partition_app in P. subst s.
        apply (starts_with_more _ _ _ ((c :: sep) ++ b')) in E2.
        change ((d :: a') ++ (c :: sep) ++ b')
          with (d :: a' ++ (c :: sep) ++ b') in E2.
        congruence. }
      rewrite E', (IH a' b' eq_refl). reflexivity.
Qed.

(** [sep.join(s.split(sep, n))] is [s]. *)
Lemma join_split (sep s : str) (n : nat) :
  pyjson.join sep (split sep s n) = s.
Proof.
  revert s. induction n as [|n IH]; intros s; [reflexivity|].
  cbn [split]. destruct (partition sep s) as [[a b]|] eqn:P; [|reflexivity].
  apply partition_app in P. subst s.
  specialize (IH b).
  destruct (split sep b n) as [|x r] eqn:E.
  - destruct n; cbn [split] in E; [discriminate|].
    destruct (partition sep b) as [[? ?]|]; discriminate.
  - cbn [pyjson.join]. cbn [pyjson.join] in IH. rewrite IH. reflexivity.
Qed.

(** *** The properties *)

(** What [validate_username] lets through is a short run of word
    characters, a final newline apart. *)
Lemma valid_usernames (username : str) :
  fst (validate_username username) = true ->
  (3 <= length username <= 20)%nat /\
  exists body, word body /\
               (username = body \/ username = body ++ [10%N]).
Proof.
  unfold validate_username.
  destruct username as [|c r] eqn:Hu.
  { cbn. discriminate. }
  rewrite <- Hu. assert (Ht : truthy username = true) by (subst; reflexivity).
  rewrite Ht. cbn [negb].
  destruct (Nat.ltb_spec (length username) 3) as [H3|H3].
  { cbn. discriminate. }
  destruct (Nat.ltb_spec 20 (length username)) as [H20|H20].
  { cbn. discriminate. }
  destruct (username_pattern username) eqn:Hp; cbn [negb fst].
  - intros _. split; [lia|]. apply username_pattern_iff in Hp.
    destruct Hp as [body [_ [Hb Hs]]]. exists body. tauto.
  - discriminate.
Qed.

(** X1: [validate_username] accepts a name exactly when it has 3 to 20
    characters and is a run of ASCII letters, digits and underscores,
    alone or followed by one newline (which [$] lets through). *)
Theorem validate_username_accepts (username : str) :
  fst (validate_username username) = true <->
  (3 <= length username <= 20)%nat /\
  exists body, word body /\
               (username = body \/ username = body ++ [10%N]).
Proof.
  split; [apply valid_usernames|].
  intros [[H3 H20] [body [Hb Hs]]].
  assert (Hp : username_pattern username = true).
  { apply username_pattern_iff. exists body.
    split; [|tauto]. intros ->.
    destruct Hs as [Hs|Hs]; rewrite Hs in H3; cbn in H3; lia. }
  assert (Ht : truthy username = true)
    by (destruct username; [cbn in H3; lia | reflexivity]).
  unfold validate_username. rewrite Ht. cbn [negb].
  destruct (Nat.ltb_spec (length username) 3) as [H|_]; [lia|].
  destruct (Nat.ltb_spec 20 (length username)) as [H|_]; [lia|].
  rewrite Hp. reflexivity.
Qed.

(** X2: for [max_length >= 3], [truncate_text] returns text of at most
    [max_length] characters: the text itself when it fits, and
    otherwise its first [max_length - 3] characters followed by three
    dots, [max_length] characters in all. *)
Theorem truncate_text_fits (text : str) (max_length : Z) :
  (3 <= max_length)%Z ->
  (Z.of_nat (length (truncate_text text max_length)) <= max_length)%Z /\
  ((Z.of_nat (length text) <= max_length)%Z ->
   truncate_text text max_length = text) /\
  ((max_length < Z.of_nat (length text))%Z ->
   truncate_text text max_length
   = firstn (Z.to_nat (max_length - 3)) text ++ lit "..." /\
   Z.of_nat (length (truncate_text text max_length)) = max_length).
Proof.
  intros H3. unfold truncate_text, slice_to.
  destruct (Z.leb_spec (Z.of_nat (length text)) max_length) as [Hle|Hgt].
  - split; [exact Hle|]. split; [reflexivity | lia].
  - destruct (Z.leb_spec 0 (max_length - 3)) as [_|Hneg]; [|lia].
    assert (Hlen : Z.of_nat (length (firstn (Z.to_nat (max_length - 3)) text
                                     ++ lit "...")) = max_length).
    { rewrite length_app, length_firstn.
      change (length (lit "...")) with 3%nat. lia. }
    split; [lia|]. split; [lia|]. intros _. split; [reflexivity | exact Hlen].
Qed.

Lemma truncate_text_fits_witness :
  (3 <= 10)%Z /\
  truncate_text (lit "Cryptex secure chat") 10 = lit "Cryptex...".
Proof.
  assert (H : (3 <= 10)%Z) by lia.
  split; [exact H|].
  destruct (truncate_text_fits (lit "Cryptex secure chat") 10 H)
    as [_ [_ Hcut]].
  destruct Hcut as [Hcut _]; [vm_compute; reflexivity|].
  rewrite Hcut. vm_compute. reflexivity.
Defined.

(** X3: for [max_length < 3] the bound is not kept: text longer than
    [max_length] comes back with the three dots after all but its last
    [3 - max_length] characters, which is longer than [max_length]. *)
Theorem truncate_text_overshoots (text : str) (max_length : Z) :
  (max_length < 3)%Z -> (max_length < Z.of_nat (length text))%Z ->
  length (truncate_text text max_length)
  = (Z.to_nat (Z.of_nat (length text) + max_length - 3) + 3)%nat /\
  (max_length < Z.of_nat (length (truncate_text text max_length)))%Z.
Proof.
  intros H3 Hgt. unfold truncate_text, slice_to.
  destruct (Z.leb_spec (Z.of_nat (length text)) max_length) as [Hle|_]; [lia|].
  destruct (Z.leb_spec 0 (max_length - 3)) as [Hpos|_]; [lia|].
  rewrite length_app, length_firstn.
  change (length (lit "...")) with 3%nat.
  split; lia.
Qed.

Lemma truncate_text_overshoots_witness :
  (2 < 3)%Z /\ (2 < Z.of_nat (length (lit "abcdef")))%Z /\
  length (truncate_text (lit "abcdef") 2) = 8%nat.
Proof.
  assert (H1 : (2 < 3)%Z) by lia.
  assert (H2 : (2 < Z.of_nat (length (lit "abcdef")))%Z)
    by (vm_compute; reflexivity).
  split; [exact H1|]. split; [exact H2|].
  destruct (truncate_text_overshoots (lit "abcdef") 2 H1 H2) as [Hlen _].
  rewrite Hlen. vm_compute. reflexivity.
Defined.

(** X4: [parse_message_data] returns [None] exactly for data without
    the separator; otherwise it returns two or three parts that joined
    by the separator give the data back, the parts before the third
    holding no separator. *)
Theorem parse_message_data_parts (data_str : str) :
  match parse_message_data data_str with
  | None => contains (lit "||") data_str = false
  | Some parts =>
    contains (lit "||") data_str = true /\
    (length parts = 2 \/ length parts = 3)%nat /\
    pyjson.join (lit "||") parts = data_str /\
    Forall (fun part => contains (lit "||") part = false) (firstn 2 parts)
  end.
Proof.
  unfold parse_message_data.
  pose proof (join_split (lit "||") data_str 2) as Hj.
  unfold contains. cbn [split] in Hj |- *.
  destruct (partition (lit "||") data_str) as [[a s1]|] eqn:P1;
    [|reflexivity].
  pose proof (partition_first _ _ _ _ _ P1) as Ha.
  destruct (partition (lit "||") s1) as [[b c]|] eqn:P2.
  - pose proof (partition_first _ _ _ _ _ P2) as Hb.
    cbn [length Nat.leb firstn].
    split; [reflexivity|]. split; [right; reflexivity|].
    split; [exact Hj|].
    repeat constructor.
    + replace (partition (lit "||") a) with (@None (str * str))
        by (symmetry; exact Ha).
      reflexivity.
    + replace (partition (lit "||") b) with (@None (str * str))
        by (symmetry; exact Hb).
      reflexivity.
  - cbn [length Nat.leb firstn].
    split; [reflexivity|]. split; [left; reflexivity|].
    split; [exact Hj|].
    repeat constructor.
    + replace (partition (lit "||") a) with (@None (str * str))
        by (symmetry; exact Ha).
      reflexivity.
    + rewrite P2. reflexivity.
Qed.

End utils_facts.

(** ** [utils.py]: addresses and ports

    [validate_ip] and [validate_port] read numbers with [\d] and
    [int].  Both go by the interpreter's table of Unicode decimal
    digits, which is an input of the model, as is the interpreter's
    limit on the number of digits of a numeral. *)

Module pyint.
Import pystr.

Section Int.

(** [Py_UNICODE_TODECIMAL]: the digit value of a code point that is a
    decimal digit. *)
Variable decimal : N -> option N.

(** [sys.get_int_max_str_digits()], [None] where there is no limit. *)
Variable max_str_digits : option nat.

Definition is_decimal (c : N) : bool :=
  match decimal c with
  | Some _ => true
  | None => false
  end.

(** White space [int] skips at both ends: the ASCII white space of
    [Py_ISSPACE] and the white space beyond ASCII. *)
Definition int_space (c : N) : bool :=
  (isspace c && negb ((0x1C <=? c) && (c <=? 0x1F)))%N.

Fixpoint lstrip_int (s : str) : str :=
  match s with
  | [] => []
  | c :: r => if int_space c then lstrip_int r else s
  end.

Definition strip_int (s : str) : str :=
  rev (lstrip_int (rev (lstrip_int s))).

(** The digits of a numeral, single underscores between digits
    allowed: the value and the number of digits. *)
Fixpoint read_digits (acc : N) (count : nat) (after_digit : bool) (s : str)
    : option (N * nat) :=
  match s with
  | [] => if after_digit then Some (acc, count) else None
  | c :: r =>
    match decimal c with
    | Some d => read_digits (10 * acc + d) (S count) true r
    | None =>
      if (c =? 95)%N && after_digit then read_digits acc count false r
      else None
    end
  end.

(** [int(text)] in base ten: white space, an optional sign, the
    digits, white space; [ValueError] for anything else and for a
    numeral with more digits than the limit. *)
Definition int_of (text : str) : exc Z :=
  let body := strip_int text in
  let '(negative, digits) :=
    match body with
    | c :: r =>
      if (c =? 43)%N then (false, r)
      else if (c =? 45)%N then (true, r)
      else (false, body)
    | [] => (false, body)
    end in
  match read_digits 0 0 false digits with
  | None => raise ValueError
  | Some (n, count) =>
    let value := if negative then (- Z.of_N n)%Z else Z.of_N n in
    match max_str_digits with
    | Some limit =>
      if (limit <? count)%nat then raise ValueError else ret value
    | None => ret value
    end
  end.

End Int.

End pyint.

Module utils_net.
Import pystr pyint.
Local Open Scope exc_scope.

Section Net.

Variable decimal : N -> option N.
Variable max_str_digits : option nat.

(** *** [validate_ip] *)

(** Exactly [n] decimal digits, then [k] on the rest. *)
Fixpoint digits_then (n : nat) (k : str -> bool) (s : str) : bool :=
  match n with
  | O => k s
  | S n' =>
    match s with
    | c :: r => is_decimal decimal c && digits_then n' k r
    | [] => false
    end
  end.

(** [\d{1,3}] and what follows it: three digits, then two, then one,
    as the matcher tries them. *)
Definition digit_run_then (k : str -> bool) (s : str) : bool :=
  digits_then 3 k s || digits_then 2 k s || digits_then 1 k s.

(** [\.] and what follows it. *)
Definition dot_then (k : str -> bool) (s : str) : bool :=
  match s with
  | c :: r => (c =? 46)%N && k r
  | [] => false
  end.

(** [re.match(r'^(\d{1,3}\.){3}\d{1,3}$', ip)] *)
Definition ip_pattern (ip : str) : bool :=
  digit_run_then
    (dot_then
       (digit_run_then
          (dot_then
             (digit_run_then
                (dot_then (digit_run_then utils.at_end))))))
    ip.

(** [for part in parts: if int(part) > 255: return False ...]: whether
    the loop runs to its end. *)
Fixpoint octets_in_range (parts : list str) : exc bool :=
  match parts with
  | [] => ret true
  | part :: rest =>
    n <- int_of decimal max_str_digits part ;;
    if (255 <? n)%Z then ret false else octets_in_range rest
  end.

(** [validate_ip(ip)]; [ip.split('.')] splits at every dot, of which
    there are fewer than [len(ip)]. *)
Definition validate_ip (ip : str) : exc (bool * str) :=
  if str_eqb ip (lit "localhost") then ret (true, lit "Valid")
  else if negb (ip_pattern ip) then ret (false, lit "Invalid IP format")
  else
    in_range <- octets_in_range (split (lit ".") ip (length ip)) ;;
    if in_range then ret (true, lit "Valid IP")
    else ret (false, lit "IP octets must be 0-255").

(** *** [validate_port] *)

(** [validate_port(port)]: [except ValueError] catches what [int]
    raises on text that is no numeral. *)
Definition validate_port (port : str) : exc (bool * str) :=
  match int_of decimal max_str_digits port with
  | inr port_num =>
    if ((1024 <=? port_num) && (port_num <=? 65535))%Z
    then ret (true, lit "Valid port")
    else ret (false, lit "Port must be between 1024 and 65535")
  | inl ValueError => ret (false, lit "Port must be a number")
  | inl e => raise e
  end.

End Net.

End utils_net.

(** ** Facts on addresses and ports *)

Module net_facts.
Import pystr pyint utils_net utils_facts.
Local Open Scope exc_scope.

(** What is known of the interpreter's digit table: on ASCII it holds
    the ten digits and nothing else, and no white space is a digit. *)
Definition ascii_digit (c : N) : option N :=
  if ((48 <=? c) && (c <=? 57))%N then Some (c - 48)%N else None.

Definition decimal_table (decimal : N -> option N) : Prop :=
  (forall c, (c < 128)%N -> decimal c = ascii_digit c) /\
  (forall c, isspace c = true -> decimal c = None).

(** A limit on digits, where there is one, is 640 at least. *)
Definition digit_limit (max_str_digits : option nat) : Prop :=
  forall limit, max_str_digits = Some limit -> (640 <= limit)%nat.

Section Facts.

Variable decimal : N -> option N.
Variable max_str_digits : option nat.
Hypothesis table : decimal_table decimal.
Hypothesis limited : digit_limit max_str_digits.

Definition digit_value (c : N) : N :=
  match decimal c with
  | Some d => d
  | None => 0%N
  end.

(** The number a run of digits denotes, from [acc] on. *)
Definition numeral_from (acc : N) (g : str) : N :=
  fold_left (fun a c => (10 * a + digit_value c)%N) g acc.

Definition numeral_value (g : str) : N := numeral_from 0 g.

Definition digit_run (g : str) : Prop :=
  Forall (fun c => is_decimal decimal c = true) g.

Lemma digit_not_space (c : N) :
  is_decimal decimal c = true -> int_space c = false.
Proof.
  unfold is_decimal, int_space. intros H.
  destruct (isspace c) eqn:E; [|reflexivity].
  rewrite (proj2 table c E) in H. discriminate.
Qed.

Lemma digit_not_ascii (c : N) :
  (c < 128)%N -> ascii_digit c = None -> is_decimal decimal c = false.
Proof.
  intros Hc Ha. unfold is_decimal. rewrite (proj1 table c Hc), Ha.
  reflexivity.
Qed.

Lemma digit_run_free (c : N) (g : str) :
  (c < 128)%N -> ascii_digit c = None -> digit_run g -> free_of c g.
Proof.
  intros Hc Ha Hg. unfold free_of.
  apply (Forall_impl _ (P := fun d => is_decimal decimal d = true));
    [|exact Hg].
  intros d Hd ->. rewrite (digit_not_ascii c Hc Ha) in Hd. discriminate.
Qed.

Lemma read_digits_run (g : str) :
  digit_run g ->
  forall acc count after_digit,
    g <> [] \/ after_digit = true ->
    read_digits decimal acc count after_digit g
    = Some (numeral_from acc g, (count + length g)%nat).
Proof.
  intros Hg. induction Hg as [|c g Hc Hg IH]; intros acc count b Hb.
  - destruct Hb as [Hb | ->]; [congruence|]. cbn. rewrite Nat.add_0_r.
    reflexivity.
  - cbn [read_digits]. unfold is_decimal in Hc.
    destruct (decimal c) as [d|] eqn:E; [|discriminate].
    assert (Hd : digit_value c = d)
      by (unfold digit_value; rewrite E; reflexivity).
    rewrite (IH (10 * acc + d)%N (S count) true) by (right; reflexivity).
    unfold numeral_from. cbn [fold_left length]. rewrite Hd.
    f_equal. f_equal. lia.
Qed.

Lemma lstrip_int_run (g : str) :
  digit_run g -> lstrip_int g = g.
Proof.
  intros H. destruct H as [|c r Hc Hr]; [reflexivity|].
  cbn [lstrip_int]. rewrite (digit_not_space c Hc). reflexivity.
Qed.

Lemma lstrip_int_run_app (g tail : str) :
  digit_run g -> g <> [] -> lstrip_int (g ++ tail) = g ++ tail.
Proof.
  intros H Hne. destruct H as [|c r Hc Hr]; [congruence|].
  cbn [app lstrip_int]. rewrite (digit_not_space c Hc). reflexivity.
Qed.

(** A trailing newline is stripped, the digits stay. *)
Lemma strip_int_run (g tail : str) :
  digit_run g -> g <> [] -> tail = [] \/ tail = [10%N] ->
  strip_int (g ++ tail) = g.
Proof.
  intros Hg Hne Ht. unfold strip_int.
  rewrite (lstrip_int_run_app g tail Hg Hne), rev_app_distr.
  assert (Hr : digit_run (rev g)) by (apply Forall_rev, Hg).
  destruct Ht as [-> | ->]; cbn [rev app lstrip_int].
  - rewrite (lstrip_int_run _ Hr). apply rev_involutive.
  - change (int_space 10) with true. cbv iota.
    rewrite (lstrip_int_run _ Hr). apply rev_involutive.
Qed.

(** [int] of one to three digits, a newline after them or not. *)
Lemma int_of_run (g tail : str) :
  digit_run g -> (1 <= length g <= 640)%nat ->
  tail = [] \/ tail = [10%N] ->
  int_of decimal max_str_digits (g ++ tail)
  = ret (Z.of_N (numeral_value g)).
Proof.
  intros Hg Hl Ht. unfold int_of.
  assert (Hne : g <> []) by (intros ->; cbn in Hl; lia).
  rewrite (strip_int_run g tail Hg Hne Ht).
  destruct g as [|c r]; [congruence|].
  inversion Hg as [|? ? Hc Hr]; subst.
  assert (H43 : (c =? 43)%N = false).
  { apply N.eqb_neq. intros ->.
    rewrite (digit_not_ascii 43) in Hc by (reflexivity || lia).
    discriminate. }
  assert (H45 : (c =? 45)%N = false).
  { apply N.eqb_neq. intros ->.
    rewrite (digit_not_ascii 45) in Hc by (reflexivity || lia).
    discriminate. }
  rewrite H43, H45.
  rewrite (read_digits_run (c :: r) Hg 0%N 0%nat false)
    by (left; discriminate).
  cbn [Nat.add]. fold (numeral_value (c :: r)).
  pose proof limited as Hlimit. unfold digit_limit in Hlimit.
  destruct max_str_digits as [limit|]; [|reflexivity].
  pose proof (Hlimit limit eq_refl) as Hlim.
  replace (limit <? length (c :: r))%nat with false
    by (symmetry; apply Nat.ltb_ge; lia).
  reflexivity.
Qed.

(** [int] raises nothing but [ValueError]. *)
Lemma int_of_raises (text : str) (e : pyexc) :
  int_of decimal max_str_digits text = raise e -> e = ValueError.
Proof.
  unfold int_of.
  destruct (match strip_int text with
            | [] => (false, strip_int text)
            | c :: r =>
              if (c =? 43)%N then (false, r)
              else if (c =? 45)%N then (true, r)
              else (false, strip_int text)
            end) as [negative digits].
  destruct (read_digits decimal 0 0 false digits) as [[n count]|];
    [|intros H; injection H as <-; reflexivity].
  destruct max_str_digits as [limit|]; [|discriminate].
  destruct (limit <? count)%nat; [|discriminate].
  intros H. injection H as <-. reflexivity.
Qed.

(** *** The pattern *)

Lemma digits_then_iff (n : nat) (k : str -> bool) (s : str) :
  digits_then decimal n k s = true <->
  exists g rest,
    s = g ++ rest /\ length g = n /\ digit_run g /\ k rest = true.
Proof.
  revert s. induction n as [|n IH]; intros s.
  - cbn [digits_then]. split.
    + intros H. exists [], s. repeat split; [constructor | exact H].
    + intros [g [rest [-> [Hl [_ Hk]]]]].
      destruct g; [exact Hk | discriminate].
  - cbn [digits_then]. destruct s as [|c r].
    + split; [discriminate|].
      intros [g [rest [Hs [Hl _]]]]. destruct g; discriminate.
    + rewrite andb_true_iff, IH. split.
      * intros [Hc [g [rest [-> [Hl [Hg Hk]]]]]].
        exists (c :: g), rest. repeat split; try assumption.
        -- cbn. lia.
        -- constructor; assumption.
      * intros [g [rest [Hs [Hl [Hg Hk]]]]].
        destruct g as [|c' g]; [discriminate|].
        injection Hs as <- ->. inversion Hg as [|? ? Hc Hg']; subst.
        split; [exact Hc|]. exists g, rest. repeat split; try assumption.
        cbn in Hl. lia.
Qed.

Lemma digit_run_then_iff (k : str -> bool) (s : str) :
  digit_run_then decimal k s = true <->
  exists g rest,
    s = g ++ rest /\ (1 <= length g <= 3)%nat /\ digit_run g /\
    k rest = true.
Proof.
  unfold digit_run_then. rewrite !orb_true_iff, !digits_then_iff. split.
  - intros [[H|H]|H]; destruct H as [g [rest [Hs [Hl [Hg Hk]]]]];
      exists g, rest; repeat split; try assumption; lia.
  - intros [g [rest [Hs [Hl [Hg Hk]]]]].
    assert (Hc : length g = 3%nat \/ length g = 2%nat \/ length g = 1%nat)
      by lia.
    destruct Hc as [Hc|[Hc|Hc]];
      [left; left | left; right | right]; exists g, rest;
      repeat split; assumption.
Qed.

Lemma dot_then_iff (k : str -> bool) (s : str) :
  dot_then k s = true <-> exists r, s = 46%N :: r /\ k r = true.
Proof.
  unfold dot_then. destruct s as [|c r].
  - split; [discriminate | intros [r [H _]]; discriminate].
  - rewrite andb_true_iff, N.eqb_eq. split.
    + intros [-> Hk]. eauto.
    + intros [r' [H Hk]]. injection H as -> ->. tauto.
Qed.

(** A run of one to three digits. *)
Definition short_run (g : str) : Prop :=
  (1 <= length g <= 3)%nat /\ digit_run g.

(** Four groups with dots between them and what follows the last. *)
Definition dotted (a b c d tail : str) : str :=
  a ++ [46%N] ++ b ++ [46%N] ++ c ++ [46%N] ++ d ++ tail.

Lemma ip_pattern_iff (ip : str) :
  ip_pattern decimal ip = true <->
  exists a b c d tail,
    short_run a /\ short_run b /\ short_run c /\ short_run d /\
    (tail = [] \/ tail = [10%N]) /\ ip = dotted a b c d tail.
Proof.
  unfold ip_pattern, dotted, short_run.
  rewrite digit_run_then_iff. split.
  - intros [a [r1 [-> [La [Ha H]]]]].
    apply dot_then_iff in H. destruct H as [r2 [-> H]].
    apply digit_run_then_iff in H. destruct H as [b [r3 [-> [Lb [Hb H]]]]].
    apply dot_then_iff in H. destruct H as [r4 [-> H]].
    apply digit_run_then_iff in H. destruct H as [c [r5 [-> [Lc [Hc H]]]]].
    apply dot_then_iff in H. destruct H as [r6 [-> H]].
    apply digit_run_then_iff in H. destruct H as [d [tail [-> [Ld [Hd H]]]]].
    exists a, b, c, d, tail. repeat split; try assumption; try lia.
    unfold utils.at_end in H. destruct tail as [|x [|y t]];
      [left; reflexivity | right | discriminate].
    apply N.eqb_eq in H. subst x. reflexivity.
  - intros [a [b [c [d [tail [[La Ha] [[Lb Hb] [[Lc Hc] [[Ld Hd]
                                                          [Ht ->]]]]]]]]]].
    exists a, ([46%N] ++ b ++ [46%N] ++ c ++ [46%N] ++ d ++ tail).
    repeat split; try assumption; try lia.
    apply dot_then_iff. eexists. split; [reflexivity|].
    apply digit_run_then_iff.
    exists b, ([46%N] ++ c ++ [46%N] ++ d ++ tail).
    repeat split; try assumption; try lia.
    apply dot_then_iff. eexists. split; [reflexivity|].
    apply digit_run_then_iff. exists c, ([46%N] ++ d ++ tail).
    repeat split; try assumption; try lia.
    apply dot_then_iff. eexists. split; [reflexivity|].
    apply digit_run_then_iff. exists d, tail.
    repeat split; try assumption; try lia.
    destruct Ht as [-> | ->]; reflexivity.
Qed.

(** *** Splitting at the dots *)

Lemma run_free_of_dot (g : str) : digit_run g -> free_of 46 g.
Proof. apply digit_run_free; [lia | reflexivity]. Qed.

Lemma split_dot (g t : str) (n : nat) :
  digit_run g ->
  split (lit ".") (g ++ [46%N] ++ t) (S n) = g :: split (lit ".") t n.
Proof.
  intros Hg. cbn [split]. change (lit ".") with (46%N :: []).
  rewrite (partition_after_free 46 [] g t (run_free_of_dot g Hg)).
  reflexivity.
Qed.

Lemma split_last (g tail : str) (n : nat) :
  digit_run g -> tail = [] \/ tail = [10%N] ->
  split (lit ".") (g ++ tail) n = [g ++ tail].
Proof.
  intros Hg Ht. destruct n as [|n]; [reflexivity|]. cbn [split].
  assert (Hf : free_of 46 (g ++ tail)).
  { apply free_of_app; [apply run_free_of_dot, Hg|].
    destruct Ht as [-> | ->]; repeat constructor. discriminate. }
  pose proof (contains_free 46 [] (g ++ tail) Hf) as Hc.
  apply contains_false_iff in Hc. change (lit ".") with (46%N :: []).
  rewrite Hc. reflexivity.
Qed.

Lemma split_dotted (a b c d tail : str) :
  digit_run a -> digit_run b -> digit_run c -> digit_run d ->
  tail = [] \/ tail = [10%N] ->
  split (lit ".") (dotted a b c d tail) (length (dotted a b c d tail))
  = [a; b; c; d ++ tail].
Proof.
  intros Ha Hb Hc Hd Ht.
  assert (Hl : exists n, length (dotted a b c d tail) = S (S (S n))).
  { unfold dotted. rewrite !length_app. cbn [length].
    exists (length a + length b + length c + length d + length tail)%nat.
    lia. }
  destruct Hl as [n ->]. unfold dotted.
  rewrite (split_dot a _ _ Ha), (split_dot b _ _ Hb), (split_dot c _ _ Hc).
  rewrite (split_last d tail n Hd Ht). reflexivity.
Qed.

(** *** The properties *)

(** A group of one to three digits that denotes 255 at most. *)
Definition octet (g : str) : Prop :=
  short_run g /\ (numeral_value g <= 255)%N.

Lemma octets_of_dotted (a b c d tail : str) :
  short_run a -> short_run b -> short_run c -> short_run d ->
  tail = [] \/ tail = [10%N] ->
  octets_in_range decimal max_str_digits [a; b; c; d ++ tail]
  = ret ((numeral_value a <=? 255)%N && (numeral_value b <=? 255)%N
         && (numeral_value c <=? 255)%N && (numeral_value d <=? 255)%N).
Proof.
  intros [La Ha] [Lb Hb] [Lc Hc] [Ld Hd] Ht.
  assert (Hint : forall g, digit_run g -> (1 <= length g <= 3)%nat ->
            int_of decimal max_str_digits g
            = ret (Z.of_N (numeral_value g))).
  { intros g Hg Hl.
    pose proof (int_of_run g [] Hg ltac:(lia) (or_introl eq_refl)) as Hi.
    rewrite app_nil_r in Hi. exact Hi. }
  assert (Hcmp : forall n, (255 <? Z.of_N n)%Z = negb (n <=? 255)%N).
  { intros n. destruct (N.leb_spec n 255); cbn [negb].
    - apply Z.ltb_ge. lia.
    - apply Z.ltb_lt. lia. }
  cbn [octets_in_range].
  rewrite (Hint a Ha La). cbn [bind ret]. rewrite Hcmp.
  destruct (numeral_value a <=? 255)%N; cbn [negb andb]; [|reflexivity].
  rewrite (Hint b Hb Lb). cbn [bind ret]. rewrite Hcmp.
  destruct (numeral_value b <=? 255)%N; cbn [negb andb]; [|reflexivity].
  rewrite (Hint c Hc Lc). cbn [bind ret]. rewrite Hcmp.
  destruct (numeral_value c <=? 255)%N; cbn [negb andb]; [|reflexivity].
  rewrite (int_of_run d tail Hd) by (lia || exact Ht). cbn [bind ret].
  rewrite Hcmp.
  destruct (numeral_value d <=? 255)%N; reflexivity.
Qed.

(** X5: [validate_ip] never raises, and it accepts exactly
    ["localhost"] and the texts made of four groups of one to three
    decimal digits, each denoting 255 at most, with dots between them,
    a newline after the last group or not. *)
Theorem validate_ip_accepts (ip : str) :
  exists verdict message,
    validate_ip decimal max_str_digits ip = ret (verdict, message) /\
    (verdict = true <->
     ip = lit "localhost" \/
     exists a b c d tail,
       octet a /\ octet b /\ octet c /\ octet d /\
       (tail = [] \/ tail = [10%N]) /\ ip = dotted a b c d tail).
Proof.
  unfold validate_ip. destruct (str_eqb ip (lit "localhost")) eqn:El.
  { apply str_eqb_eq in El. eexists _, _. split; [reflexivity|].
    split; [intros _; left; exact El | reflexivity]. }
  apply str_eqb_neq in El.
  destruct (ip_pattern decimal ip) eqn:P; cbn [negb].
  - apply ip_pattern_iff in P.
    destruct P as [a [b [c [d [tail [Ra [Rb [Rc [Rd [Ht ->]]]]]]]]]].
    rewrite (split_dotted a b c d tail (proj2 Ra) (proj2 Rb) (proj2 Rc)
               (proj2 Rd) Ht).
    rewrite (octets_of_dotted a b c d tail Ra Rb Rc Rd Ht). cbn [bind ret].
    set (ok := ((numeral_value a <=? 255)%N && (numeral_value b <=? 255)%N
                && (numeral_value c <=? 255)%N
                && (numeral_value d <=? 255)%N)).
    assert (Hok : ok = true <->
              exists a' b' c' d' tail',
                octet a' /\ octet b' /\ octet c' /\ octet d' /\
                (tail' = [] \/ tail' = [10%N]) /\
                dotted a b c d tail = dotted a' b' c' d' tail').
    { unfold ok. rewrite !andb_true_iff, !N.leb_le. split.
      - intros [[[Va Vb] Vc] Vd]. exists a, b, c, d, tail.
        unfold octet. tauto.
      - intros [a' [b' [c' [d' [tail' [[Ra' Va] [[Rb' Vb] [[Rc' Vc]
                                         [[Rd' Vd] [Ht' E]]]]]]]]]].
        pose proof (split_dotted a b c d tail (proj2 Ra) (proj2 Rb)
                      (proj2 Rc) (proj2 Rd) Ht) as S1.
        pose proof (split_dotted a' b' c' d' tail' (proj2 Ra') (proj2 Rb')
                      (proj2 Rc') (proj2 Rd') Ht') as S2.
        rewrite <- E in S2. rewrite S1 in S2.
        injection S2 as -> -> -> Ed.
        pose proof (int_of_run d tail (proj2 Rd)) as I1.
        pose proof (int_of_run d' tail' (proj2 Rd')) as I2.
        rewrite Ed in I1.
        rewrite I1 in I2 by (destruct Rd; lia || exact Ht).
        assert (Hv : numeral_value d = numeral_value d').
        { destruct Rd' as [Ld' _].
          specialize (I2 ltac:(lia) Ht').
          apply ret_inj in I2. lia. }
        rewrite Hv. tauto. }
    destruct ok; eexists _, _; (split; [reflexivity|]).
    + split; [intros _; right; apply Hok; reflexivity | reflexivity].
    + split; [discriminate|]. intros [H|H]; [contradiction|].
      apply Hok in H. discriminate.
  - eexists _, _. split; [reflexivity|]. split; [discriminate|].
    intros [H|[a [b [c [d [tail [[Ra _] [[Rb _] [[Rc _] [[Rd _]
                                                     [Ht E]]]]]]]]]]];
      [contradiction|].
    assert (P' : ip_pattern decimal ip = true).
    { apply ip_pattern_iff. exists a, b, c, d, tail. tauto. }
    congruence.
Qed.

(** X6: [validate_port] never raises; for a numeral of one digit or
    more it answers whether the number lies between 1024 and 65535;
    and it refuses the empty text as no number. *)
Theorem validate_port_numerals (port : str) :
  (exists verdict message,
     validate_port decimal max_str_digits port = ret (verdict, message)) /\
  (digit_run port -> (1 <= length port <= 640)%nat ->
   exists message,
     validate_port decimal max_str_digits port
     = ret (((1024 <=? numeral_value port)
             && (numeral_value port <=? 65535))%N, message)) /\
  validate_port decimal max_str_digits []
  = ret (false, lit "Port must be a number").
Proof.
  split; [|split].
  - unfold validate_port.
    destruct (int_of decimal max_str_digits port) as [e|n] eqn:E.
    + apply int_of_raises in E. subst e. eauto.
    + destruct ((1024 <=? n) && (n <=? 65535))%Z; eauto.
  - intros Hg Hl. unfold validate_port.
    pose proof (int_of_run port [] Hg Hl (or_introl eq_refl)) as Hi.
    rewrite app_nil_r in Hi. rewrite Hi. cbn [ret].
    assert (Hc : ((1024 <=? Z.of_N (numeral_value port))
                  && (Z.of_N (numeral_value port) <=? 65535))%Z
                 = ((1024 <=? numeral_value port)
                    && (numeral_value port <=? 65535))%N).
    { f_equal.
      - destruct (N.leb_spec 1024 (numeral_value port)).
        + apply Z.leb_le. lia.
        + apply Z.leb_gt. lia.
      - destruct (N.leb_spec (numeral_value port) 65535).
        + apply Z.leb_le. lia.
        + apply Z.leb_gt. lia. }
    rewrite Hc.
    destruct ((1024 <=? numeral_value port)
              && (numeral_value port <=? 65535))%N; eauto.
  - unfold validate_port, int_of. cbn. reflexivity.
Qed.

End Facts.

(** The digit table of an interpreter that knows the ASCII digits
    only, and the default limit on digits. *)
Lemma ascii_digit_table : decimal_table ascii_digit.
Proof.
  split; [reflexivity|]. intros c Hc. unfold ascii_digit.
  destruct ((48 <=? c) && (c <=? 57))%N eqn:E; [|reflexivity].
  exfalso. apply andb_true_iff in E. destruct E as [E1 E2].
  apply N.leb_le in E1, E2. unfold isspace in Hc.
  repeat (apply orb_true_iff in Hc; destruct Hc as [Hc|Hc]);
    repeat (apply andb_true_iff in Hc; destruct Hc as [? Hc]);
    repeat match goal with
           | X : (_ <=? _)%N = true |- _ => apply N.leb_le in X
           | X : (_ =? _)%N = true |- _ => apply N.eqb_eq in X
           end; lia.
Qed.

Lemma default_digit_limit : digit_limit (Some 4300%nat).
Proof. intros limit H. injection H as <-. lia. Qed.

Lemma validate_ip_accepts_witness :
  validate_ip ascii_digit (Some 4300%nat) (lit "192.168.1.20")
  = ret (true, lit "Valid IP") /\
  validate_ip ascii_digit (Some 4300%nat) (lit "192.168.1.256")
  = ret (false, lit "IP octets must be 0-255") /\
  exists verdict message,
    validate_ip ascii_digit (Some 4300%nat) (lit "10.0.0.7")
    = ret (verdict, message).
Proof.
  split; [vm_compute; reflexivity|]. split; [vm_compute; reflexivity|].
  destruct (validate_ip_accepts ascii_digit (Some 4300%nat)
              ascii_digit_table default_digit_limit (lit "10.0.0.7"))
    as [verdict [message [H _]]].
  exists verdict, message. exact H.
Defined.

Lemma validate_port_numerals_witness :
  validate_port ascii_digit (Some 4300%nat) (lit "5555")
  = ret (true, lit "Valid port") /\
  validate_port ascii_digit (Some 4300%nat) []
  = ret (false, lit "Port must be a number").
Proof.
  split; [vm_compute; reflexivity|].
  destruct (validate_port_numerals ascii_digit (Some 4300%nat)
              ascii_digit_table default_digit_limit [])
    as [_ [_ H]].
  exact H.
Defined.

End net_facts.

(** ** [crypto_handler.py]: the remaining operations *)

Module crypto_keys.
Import crypto_handler.
Local Open Scope exc_scope.

(** [quick_encrypt] and [quick_decrypt]: the two operations on a
    handler made for the call; [encrypt_message] and [decrypt_message]
    read nothing of the handler. *)
Definition quick_encrypt (src : entropy) (message : str) (key : bytes)
    : option str * entropy :=
  encrypt_message src message key.

Definition quick_decrypt (encrypted_message : option str) (key : bytes)
    : option str :=
  decrypt_message encrypted_message key.

Section Primitives.

(** The library primitives of key import and signature checking:
    [RSA.import_key], [SHA256.new(...)] and
    [pkcs1_15.new(key).verify(hash, signature)], which raises on a
    signature that does not fit. *)
Variable RsaKey : Type.
Variable RSA_import_key : bytes -> exc RsaKey.
Variable SHA256 : bytes -> bytes.
Variable pkcs1_15_verify : RsaKey -> bytes -> bytes -> exc unit.

(** [print(text)] on the console the program runs on; it raises where
    the console's encoding has no form for the text. *)
Variable print : str -> exc unit.

(** [f"[CRYPTO] Imported public key for user: {username}"] *)
Definition import_report (username : str) : str :=
  lit "[CRYPTO] Imported public key for user: " ++ username.

(** [import_peer_public_key]:
    [peer_key = RSA.import_key(public_key_pem.encode('utf-8'))],
    [self.peer_public_keys[username] = peer_key],
    [print(f"[CRYPTO] Imported public key for user: {username}")],
    [return True]; [return False] when one of them raises, the [print]
    included, which runs inside the [try] block after the key has
    been filed.  The handler prints the message of the exception, plain
    ASCII in each case. *)
Definition import_peer_public_key (self : CryptoHandler RsaKey)
    (username public_key_pem : str) : bool * CryptoHandler RsaKey :=
  match (raw <- Utf8.encode public_key_pem ;; RSA_import_key raw) with
  | inr peer_key =>
    let filed :=
      {| public_key := public_key self;
         private_key := private_key self;
         peer_public_keys :=
           Dict.set (peer_public_keys self) username peer_key |} in
    match print (import_report username) with
    | inr _ => (true, filed)
    | inl _ => (false, filed)
    end
  | inl _ => (false, self)
  end.

(** The [try] block of [verify_signature]:
    [if sender_username not in self.peer_public_keys: print(...);
     return False] (a [print] that raises there is caught by the
    handler, which returns [False] as well),
    [signature = base64.b64decode(signature_b64.encode('utf-8'))],
    [message_hash = SHA256.new(message.encode('utf-8'))],
    [peer_public_key = self.peer_public_keys[sender_username]],
    [pkcs1_15.new(peer_public_key).verify(message_hash, signature)],
    [return True]. *)
Definition verify_signature_body (self : CryptoHandler RsaKey)
    (message : str) (signature_b64 : option str) (sender_username : str)
    : exc bool :=
  if negb (Dict.contains (peer_public_keys self) sender_username)
  then ret false
  else
    raw <- encode_value signature_b64 ;;
    signature <- Base64.b64decode raw ;;
    message_bytes <- Utf8.encode message ;;
    let message_hash := SHA256 message_bytes in
    match Dict.get (peer_public_keys self) sender_username with
    | None => raise KeyError
    | Some peer_public_key =>
      _ <- pkcs1_15_verify peer_public_key message_hash signature ;;
      ret true
    end.

(** [verify_signature]: the block above under
    [except Exception as e: ...; return False]. *)
Definition verify_signature (self : CryptoHandler RsaKey)
    (message : str) (signature_b64 : option str) (sender_username : str)
    : bool :=
  match verify_signature_body self message signature_b64 sender_username with
  | inr verdict => verdict
  | inl _ => false
  end.

End Primitives.

Arguments import_peer_public_key {RsaKey} _ _ _ _ _.
Arguments verify_signature_body {RsaKey} _ _ _ _ _ _.
Arguments verify_signature {RsaKey} _ _ _ _ _ _.

End crypto_keys.

(** ** Facts on the crypto engine *)

Module engine_facts.
Import crypto_handler crypto_facts crypto_keys samples.
Local Open Scope exc_scope.

(** *** The transport alphabet *)

(** A character of the base-64 alphabet, or the padding character. *)
Definition is_base64_char (c : N) : bool :=
  ((65 <=? c) && (c <=? 90) || (97 <=? c) && (c <=? 122)
   || (48 <=? c) && (c <=? 57) || (c =? 43) || (c =? 47) || (c =? 61))%N.

Definition base64_text (s : str) : Prop :=
  Forall (fun c => is_base64_char c = true) s.

Lemma table_b2a_alphabet (v : N) :
  (v < 64)%N -> is_base64_char (Byte.to_N (Base64.table_b2a v)) = true.
Proof.
  revert v.
  apply (Base64.sextet_forall
           (fun v => is_base64_char (Byte.to_N (Base64.table_b2a v)))).
  vm_compute. reflexivity.
Qed.

Lemma b64encode_alphabet (data : bytes) :
  base64_text (ascii_str (Base64.b64encode data)).
Proof.
  unfold base64_text, ascii_str, Base64.b64encode.
  induction data as [|a|a b|a b c l IH] using Base64.list_ind3;
    cbn [Base64.b2a_base64 map];
    repeat constructor;
    try (apply table_b2a_alphabet;
         first [apply Base64.sextet0_lt | apply Base64.sextet1_lt
               | apply Base64.sextet2_lt | apply Base64.sextet3_lt]);
    try exact IH.
Qed.

Lemma length_b64encode (data : bytes) :
  length (Base64.b64encode data) = (4 * ((length data + 2) / 3))%nat.
Proof.
  unfold Base64.b64encode.
  induction data as [|a|a b|a b c l IH] using Base64.list_ind3;
    cbn [Base64.b2a_base64 length]; try reflexivity.
  rewrite IH.
  replace (S (S (S (length l))) + 2)%nat with (length l + 2 + 1 * 3)%nat
    by lia.
  rewrite Nat.div_add by lia. lia.
Qed.

(** *** Symmetric encryption *)

Lemma encode_ret_encodable (m : str) (bs : bytes) :
  Utf8.encode m = ret bs -> Utf8.encodable m.
Proof.
  unfold Utf8.encode. intros H.
  destruct (Utf8.encode_opt m) as [x|] eqn:Ho; [|discriminate].
  apply (Utf8.encode_opt_encodable m). exists x. exact Ho.
Qed.

Lemma encrypt_message_body_fails_unencodable (iv : bytes) (m : str)
    (k : bytes) (e : pyexc) :
  Utf8.encode m = inl e -> encrypt_message_body iv m k = inl e.
Proof. intros H. unfold encrypt_message_body. rewrite H. reflexivity. Qed.

(** X7: [encrypt_message] returns a ciphertext exactly when the message
    has a UTF-8 encoding and the key is 16, 24 or 32 bytes long; in
    every other case it returns [None]. *)
Theorem encrypt_message_succeeds_iff (src : entropy) (m : str) (k : bytes) :
  fst (encrypt_message src m k) <> None <->
  Utf8.encodable m /\ AES.key_size_ok k = true.
Proof.
  unfold encrypt_message.
  destruct (generate_aes_iv src) as [iv src'] eqn:E. cbn [fst].
  assert (Hiv : length iv = 16%nat).
  { pose proof (length_generate_aes_iv src) as H. rewrite E in H. exact H. }
  split.
  - intros H. destruct (Utf8.encode m) as [e|bs] eqn:Hm.
    { exfalso. apply H.
      rewrite (encrypt_message_body_fails_unencodable iv m k e Hm).
      reflexivity. }
    split.
    + apply (encode_ret_encodable m bs Hm).
    + destruct (AES.key_size_ok k) eqn:Hk; [reflexivity|].
      exfalso. apply H. unfold encrypt_message_body. rewrite Hm.
      cbn [bind ret]. rewrite (AESFacts.new_bad_key k iv Hk). reflexivity.
  - intros [Hm Hk]. destruct (Utf8.encode_encodable m Hm) as [bs Hbs].
    destruct (encrypt_message_body_spec iv m k bs Hbs Hk Hiv)
      as [ciphertext [_ [_ ->]]].
    discriminate.
Qed.

(** What [encrypt_message] returns on good input: the transport
    encoding of the IV it drew, followed by a ciphertext as long as the
    padded message. *)
Lemma encrypt_message_returns (src : entropy) (m : str) (k mb : bytes) :
  Utf8.encode m = ret mb -> AES.key_size_ok k = true ->
  exists iv ciphertext,
    length iv = 16%nat /\ length ciphertext = length (pad mb) /\
    fst (encrypt_message src m k)
    = Some (ascii_str (Base64.b64encode (iv ++ ciphertext))).
Proof.
  intros Hm Hk. unfold encrypt_message.
  destruct (generate_aes_iv src) as [iv src'] eqn:E. cbn [fst].
  assert (Hiv : length iv = 16%nat).
  { pose proof (length_generate_aes_iv src) as H. rewrite E in H. exact H. }
  destruct (encrypt_message_body_spec iv m k mb Hm Hk Hiv)
    as [ciphertext [_ [Hlen ->]]].
  exists iv, ciphertext. split; [exact Hiv|]. split; [exact Hlen|].
  reflexivity.
Qed.

(** The length of the transport form of an IV and the ciphertext of a
    padded message. *)
Lemma transport_length (iv ciphertext mb : bytes) :
  length iv = 16%nat -> length ciphertext = length (pad mb) ->
  length (ascii_str (Base64.b64encode (iv ++ ciphertext)))
  = (4 * ((16 + 16 * (length mb / 16 + 1) + 2) / 3))%nat.
Proof.
  intros Hiv Hlen.
  unfold ascii_str. rewrite length_map, length_b64encode, length_app.
  rewrite Hiv, Hlen, length_pad. unfold padding_length_of, AES.block_size.
  pose proof (Nat.mod_upper_bound (length mb) 16).
  pose proof (Nat.div_mod_eq (length mb) 16).
  do 3 f_equal. lia.
Qed.

(** X8: a ciphertext of [encrypt_message] is text over the base-64
    alphabet and its padding character, and its length is fixed by the
    number of 16-byte blocks of the UTF-8 encoded message: the IV, the
    whole blocks and one more, four characters for every three
    bytes. *)
Theorem encrypt_message_shape (src : entropy) (m : str) (k mb : bytes) :
  Utf8.encode m = ret mb -> AES.key_size_ok k = true ->
  exists c,
    fst (encrypt_message src m k) = Some c /\
    base64_text c /\
    length c = (4 * ((16 + 16 * (length mb / 16 + 1) + 2) / 3))%nat.
Proof.
  intros Hm Hk.
  destruct (encrypt_message_returns src m k mb Hm Hk)
    as [iv [ciphertext [Hiv [Hlen ->]]]].
  eexists. split; [reflexivity|]. split; [apply b64encode_alphabet|].
  apply transport_length; assumption.
Qed.

Lemma encrypt_message_shape_witness :
  Utf8.encode (lit "hello") = ret [x68; x65; x6c; x6c; x6f] /\
  AES.key_size_ok session_key = true /\
  exists c,
    fst (encrypt_message counting_entropy (lit "hello") session_key)
      = Some c /\
    length c = 44%nat.
Proof.
  assert (Hm : Utf8.encode (lit "hello") = ret [x68; x65; x6c; x6c; x6f])
    by (vm_compute; reflexivity).
  assert (Hk : AES.key_size_ok session_key = true) by reflexivity.
  split; [exact Hm|]. split; [exact Hk|].
  destruct (encrypt_message_shape counting_entropy (lit "hello") session_key
              _ Hm Hk) as [c [Hc [_ Hlen]]].
  exists c. split; [exact Hc | exact Hlen].
Defined.

(** X9: a key from [generate_aes_key] is one the cipher accepts,
    whatever the random source yields: [quick_decrypt] under it
    returns every message that has a UTF-8 encoding from what
    [quick_encrypt] made of it. *)
Theorem generated_key_round_trip (src : entropy) (m : str) :
  Utf8.encodable m ->
  let (key, src1) := generate_aes_key src in
  length key = 32%nat /\
  quick_decrypt (fst (quick_encrypt src1 m key)) key = Some m.
Proof.
  intros Hm. destruct (generate_aes_key src) as [key src1] eqn:E.
  assert (Hk : length key = 32%nat).
  { pose proof (length_get_random_bytes config.AES_KEY_SIZE src) as H.
    unfold generate_aes_key in E. rewrite E in H. exact H. }
  split; [exact Hk|].
  destruct (Utf8.encode_encodable m Hm) as [bs Hbs].
  unfold quick_decrypt, quick_encrypt, encrypt_message.
  destruct (generate_aes_iv src1) as [iv src2] eqn:E2. cbn [fst].
  apply (decrypt_encrypt_body iv m key bs Hbs (key_size_ok_32 key Hk)).
  pose proof (length_generate_aes_iv src1) as H. rewrite E2 in H. exact H.
Qed.

Lemma generated_key_round_trip_witness :
  Utf8.encodable (lit "hello") /\
  quick_decrypt
    (fst (quick_encrypt (snd (generate_aes_key counting_entropy))
            (lit "hello") (fst (generate_aes_key counting_entropy))))
    (fst (generate_aes_key counting_entropy))
  = Some (lit "hello").
Proof.
  assert (Hm : Utf8.encodable (lit "hello")) by encodable_lit.
  split; [exact Hm|].
  pose proof (generated_key_round_trip counting_entropy (lit "hello") Hm)
    as H.
  destruct (generate_aes_key counting_entropy) as [key src1].
  destruct H as [_ H]. exact H.
Defined.

(** X10: [decrypt_message] returns a message only for input whose
    transport decoding is a whole number of 16-byte blocks, two at
    least (the IV and one block of ciphertext), and only under a key of
    16, 24 or 32 bytes; everything else gives [None]. *)
Theorem decrypt_message_needs_blocks (c : option str) (k : bytes)
    (m : str) :
  decrypt_message c k = Some m ->
  exists data,
    transport_decode c = ret data /\
    (32 <= length data)%nat /\ (length data mod 16 = 0)%nat /\
    AES.key_size_ok k = true.
Proof.
  unfold decrypt_message, decrypt_message_body, transport_decode.
  destruct (encode_value c) as [e|raw]; [discriminate|]. cbn [bind ret].
  destruct (Base64.b64decode raw) as [e|data]; [discriminate|].
  cbn [bind ret]. intros H. exists data. split; [reflexivity|].
  unfold AES.new in H.
  destruct (AES.key_size_ok k) eqn:Hk; [|discriminate].
  destruct (AES.blocks_of_bytes (firstn config.AES_IV_SIZE data))
    as [[|b [|b' l]]|] eqn:Hiv; try discriminate.
  cbn [bind ret] in H. unfold AES.decrypt in H. cbn [AES.schedule] in H.
  destruct (AES.blocks_of_bytes (skipn config.AES_IV_SIZE data))
    as [blocks|] eqn:Hb; [|discriminate].
  cbn [bind ret] in H.
  apply AESFacts.blocks_of_bytes_length in Hiv, Hb.
  assert (Hne : blocks <> []).
  { intros ->. cbn in H. discriminate. }
  cbn [length] in Hiv.
  pose proof (firstn_skipn config.AES_IV_SIZE data) as Hsplit.
  assert (Hlen : length data = (16 + 16 * length blocks)%nat).
  { rewrite <- Hsplit, length_app, Hiv, Hb. lia. }
  destruct blocks as [|b0 blocks]; [congruence|]. cbn [length] in Hlen.
  split; [lia|]. split; [|reflexivity].
  rewrite Hlen.
  replace (16 + 16 * S (length blocks))%nat
    with ((2 + length blocks) * 16)%nat by lia.
  apply Nat.Div0.mod_mul.
Qed.

Lemma decrypt_message_needs_blocks_witness :
  decrypt_message (Some forged_ciphertext_zero) session_key = Some [] /\
  exists data,
    transport_decode (Some forged_ciphertext_zero) = ret data /\
    (32 <= length data)%nat.
Proof.
  assert (H : decrypt_message (Some forged_ciphertext_zero) session_key
              = Some []) by (vm_compute; reflexivity).
  split; [exact H|].
  destruct (decrypt_message_needs_blocks _ _ _ H) as [data [Hd [Hl _]]].
  exists data. split; [exact Hd | exact Hl].
Defined.

(** *** Keyed integrity tags *)

Lemma hexdigest_is_ascii (d : bytes) : is_ascii (hexdigest d) = true.
Proof.
  unfold is_ascii, hexdigest. induction d as [|b d IH]; [reflexivity|].
  cbn [flat_map app forallb]. rewrite IH.
  pose proof (to_N_lt b) as Hb.
  assert (H : forall n, (n < 16)%N -> (hexdigit n <? 128)%N = true).
  { intros n Hn. apply N.ltb_lt. unfold hexdigit.
    destruct (N.ltb_spec n 10); lia. }
  rewrite !H by nlia. reflexivity.
Qed.

Section Tags.

Variable hmac_sha256 : bytes -> bytes -> bytes.

Lemma create_hmac_ascii (message : message_value) (key : bytes) (tag : str) :
  create_hmac hmac_sha256 message key = Some tag -> is_ascii tag = true.
Proof.
  unfold create_hmac, create_hmac_body. destruct message as [s|b].
  - destruct (Utf8.encode s) as [e|bs]; [discriminate|].
    cbn. intros H. injection H as <-.
    apply hexdigest_is_ascii.
  - cbn. intros H. injection H as <-. apply hexdigest_is_ascii.
Qed.

(** X11: [verify_hmac] returns [True] for exactly one received value,
    the tag [create_hmac] returns for the message under the key; for a
    message [create_hmac] fails on, for [None] and for any other
    string, it returns [False]. *)
Theorem verify_hmac_accepts_exactly (message : message_value)
    (received : option str) (key : bytes) :
  verify_hmac hmac_sha256 message received key = true <->
  exists tag,
    received = Some tag /\ create_hmac hmac_sha256 message key = Some tag.
Proof.
  unfold verify_hmac.
  destruct (create_hmac hmac_sha256 message key) as [expected|] eqn:Hc.
  - pose proof (create_hmac_ascii message key expected Hc) as Ha.
    unfold compare_digest. destruct received as [r|].
    + rewrite Ha. cbn [andb]. destruct (is_ascii r) eqn:Hr.
      * cbn [ret]. split.
        -- intros H. apply str_eqb_eq in H. subst r. eauto.
        -- intros [tag [H1 H2]]. injection H1 as ->. injection H2 as ->.
           apply str_eqb_refl.
      * cbn [raise]. split; [discriminate|].
        intros [tag [H1 H2]]. injection H1 as ->. injection H2 as ->.
        congruence.
    + cbn [raise]. split; [discriminate|]. intros [tag [H1 _]]. discriminate.
  - split; [discriminate|]. intros [tag [_ H]]. discriminate.
Qed.

End Tags.

(** *** Key wrap, signatures and key import *)

(** A stand-in key pair on which the glue code can run: [true] is the
    private half, [false] the public one; wrapping flips every bit, a
    signature is the digest reversed.  It is no cipher. *)
Module stand_in.

Definition flip (data : bytes) : bytes := map (bxor xff) data.

Definition oaep_encrypt (k : bool) (data : bytes) (src : entropy)
    : exc bytes := ret (flip data).

Definition oaep_decrypt (k : bool) (data : bytes) : exc bytes :=
  if k then ret (flip data) else raise TypeError.

Definition digest (data : bytes) : bytes := data.

Definition sign (k : bool) (h : bytes) : exc bytes :=
  if k then ret (rev h) else raise TypeError.

Definition verify (k : bool) (h signature : bytes) : exc unit :=
  if list_eq_dec Byte.byte_eq_dec signature (rev h) then ret tt
  else raise ValueError.

Definition import_key (pem : bytes) : exc bool :=
  match pem with
  | [] => raise ValueError
  | _ :: _ => ret false
  end.

Definition alice : CryptoHandler bool :=
  {| public_key := Some false; private_key := Some true;
     peer_public_keys := [(lit "Bob", false)] |}.

Definition bob : CryptoHandler bool :=
  {| public_key := Some false; private_key := Some true;
     peer_public_keys := [(lit "Alice", false)] |}.

End stand_in.

Lemma transport_round_trip (data : bytes) :
  (raw <- encode_value (Some (ascii_str (Base64.b64encode data))) ;;
   Base64.b64decode raw) = ret data.
Proof. exact (transport_decode_encoded data). Qed.

(** X12: a session key wrapped for a peer whose public key is on file
    comes out of [encrypt_aes_key_with_rsa] as base-64 text, and
    [decrypt_aes_key_with_rsa] hands the peer's private key exactly the
    bytes the wrap produced: when the library unwraps those, the caller
    gets the session key back. *)
Theorem key_wrap_round_trip (RsaKey : Type)
    (PKCS1_OAEP_encrypt : RsaKey -> bytes -> entropy -> exc bytes)
    (PKCS1_OAEP_decrypt : RsaKey -> bytes -> exc bytes)
    (print : str -> exc unit)
    (sender recipient : CryptoHandler RsaKey) (src : entropy)
    (aes_key : bytes) (recipient_username : str) (pub priv : RsaKey)
    (wrapped : bytes) :
  Dict.get (peer_public_keys sender) recipient_username = Some pub ->
  private_key recipient = Some priv ->
  PKCS1_OAEP_encrypt pub aes_key src = ret wrapped ->
  PKCS1_OAEP_decrypt priv wrapped = ret aes_key ->
  exists encrypted_key_b64,
    encrypt_aes_key_with_rsa PKCS1_OAEP_encrypt print sender src aes_key
      recipient_username = ret (Some encrypted_key_b64) /\
    base64_text encrypted_key_b64 /\
    decrypt_aes_key_with_rsa PKCS1_OAEP_decrypt recipient
      (Some encrypted_key_b64) = Some aes_key.
Proof.
  intros Hpub Hpriv Henc Hdec.
  exists (ascii_str (Base64.b64encode wrapped)).
  split; [|split; [apply b64encode_alphabet|]].
  - unfold encrypt_aes_key_with_rsa, encrypt_aes_key_with_rsa_body,
      Dict.contains.
    rewrite Hpub. cbn [negb]. rewrite Henc. cbn [bind ret].
    rewrite (utf8_decode_ascii _ (Base64.b64encode_ascii wrapped)).
    reflexivity.
  - unfold decrypt_aes_key_with_rsa, decrypt_aes_key_with_rsa_body.
    pose proof (transport_round_trip wrapped) as Ht.
    destruct (encode_value (Some (ascii_str (Base64.b64encode wrapped))))
      as [e|raw]; [discriminate|].
    cbn [bind ret] in Ht |- *. rewrite Ht. cbn [bind ret].
    rewrite Hpriv, Hdec. reflexivity.
Qed.

Lemma key_wrap_round_trip_witness :
  (encrypted_key_b64 <-
     encrypt_aes_key_with_rsa stand_in.oaep_encrypt print_utf8
       stand_in.alice zero_entropy session_key (lit "Bob") ;;
   ret (decrypt_aes_key_with_rsa stand_in.oaep_decrypt stand_in.bob
          encrypted_key_b64))
  = ret (Some session_key).
Proof.
  destruct (key_wrap_round_trip bool stand_in.oaep_encrypt
              stand_in.oaep_decrypt print_utf8 stand_in.alice stand_in.bob
              zero_entropy session_key (lit "Bob") false true
              (stand_in.flip session_key))
    as [b64 [Hw [_ Hu]]];
    [reflexivity | reflexivity | reflexivity | vm_compute; reflexivity |].
  rewrite Hw. cbn [bind ret]. rewrite Hu. reflexivity.
Defined.

(** X13: a signature from [sign_message] is accepted by
    [verify_signature] of a handler that has the signer's public key on
    file under the sender's name: the signature bytes and the digest
    the library is asked to verify are the ones it signed. *)
Theorem verify_signature_of_sign_message (RsaKey : Type)
    (SHA256 : bytes -> bytes)
    (pkcs1_15_sign : RsaKey -> bytes -> exc bytes)
    (pkcs1_15_verify : RsaKey -> bytes -> bytes -> exc unit)
    (signer verifier : CryptoHandler RsaKey) (message sender_username : str)
    (pub priv : RsaKey) (message_bytes signature : bytes) :
  private_key signer = Some priv ->
  Dict.get (peer_public_keys verifier) sender_username = Some pub ->
  Utf8.encode message = ret message_bytes ->
  pkcs1_15_sign priv (SHA256 message_bytes) = ret signature ->
  pkcs1_15_verify pub (SHA256 message_bytes) signature = ret tt ->
  verify_signature SHA256 pkcs1_15_verify verifier message
    (sign_message SHA256 pkcs1_15_sign signer message) sender_username
  = true.
Proof.
  intros Hpriv Hpub Hm Hs Hv.
  unfold sign_message, sign_message_body. rewrite Hm. cbn [bind ret].
  rewrite Hpriv, Hs. cbn [bind ret].
  rewrite (utf8_decode_ascii _ (Base64.b64encode_ascii signature)).
  cbn [except_None ret].
  unfold verify_signature, verify_signature_body, Dict.contains.
  rewrite Hpub. cbn [negb].
  pose proof (transport_round_trip signature) as Ht.
  destruct (encode_value (Some (ascii_str (Base64.b64encode signature))))
    as [e|raw]; [discriminate|].
  cbn [bind ret] in Ht |- *. rewrite Ht. cbn [bind ret].
  rewrite Hm. cbn [bind ret]. rewrite Hv. reflexivity.
Qed.

Lemma verify_signature_of_sign_message_witness :
  verify_signature stand_in.digest stand_in.verify stand_in.bob
    (lit "hello")
    (sign_message stand_in.digest stand_in.sign stand_in.alice (lit "hello"))
    (lit "Alice")
  = true.
Proof.
  apply (verify_signature_of_sign_message bool stand_in.digest stand_in.sign
           stand_in.verify stand_in.alice stand_in.bob (lit "hello")
           (lit "Alice") false true
           [x68; x65; x6c; x6c; x6f] [x6f; x6c; x6c; x65; x68]);
    vm_compute; reflexivity.
Defined.

(** [verify_signature] returns [True] only when a key is on file for
    the sender, the signature text decodes, the message encodes and
    the library accepted exactly those bytes under that key. *)
Lemma verify_signature_sound (RsaKey : Type) (SHA256 : bytes -> bytes)
    (pkcs1_15_verify : RsaKey -> bytes -> bytes -> exc unit)
    (self : CryptoHandler RsaKey) (message : str)
    (signature_b64 : option str) (sender_username : str) :
  verify_signature SHA256 pkcs1_15_verify self message signature_b64
    sender_username = true ->
  exists pub message_bytes signature,
    Dict.get (peer_public_keys self) sender_username = Some pub /\
    Utf8.encode message = ret message_bytes /\
    transport_decode signature_b64 = ret signature /\
    pkcs1_15_verify pub (SHA256 message_bytes) signature = ret tt.
Proof.
  unfold verify_signature, verify_signature_body, Dict.contains,
    transport_decode.
  destruct (Dict.get (peer_public_keys self) sender_username) as [pub|];
    cbn [negb]; [|discriminate].
  destruct (encode_value signature_b64) as [e|raw]; [discriminate|].
  cbn [bind ret].
  destruct (Base64.b64decode raw) as [e|signature]; [discriminate|].
  cbn [bind ret].
  destruct (Utf8.encode message) as [e|message_bytes]; [discriminate|].
  cbn [bind ret].
  destruct (pkcs1_15_verify pub (SHA256 message_bytes) signature)
    as [e|[]] eqn:Hv; [discriminate|].
  intros _. exists pub, message_bytes, signature. repeat split. exact Hv.
Qed.

(** X14: [import_peer_public_key] files the key the library made of
    the encoded text under the user's name, replacing any earlier one,
    and then returns [True] exactly when the console takes the line it
    prints: when that [print] raises it returns [False] with the key
    on file all the same.  When the text does not encode or the library
    refuses it, it returns [False] and the handler is left as it was.
    No other user's key and no private key is ever touched. *)
Theorem import_peer_public_key_files (RsaKey : Type)
    (RSA_import_key : bytes -> exc RsaKey) (print : str -> exc unit)
    (self : CryptoHandler RsaKey) (username public_key_pem : str) :
  let imported :=
    import_peer_public_key RSA_import_key print self username
      public_key_pem in
  match (raw <- Utf8.encode public_key_pem ;; RSA_import_key raw) with
  | inr peer_key =>
    Dict.get (peer_public_keys (snd imported)) username = Some peer_key /\
    (fst imported = true <-> print (import_report username) = ret tt)
  | inl _ => imported = (false, self)
  end /\
  (forall other, other <> username ->
     Dict.get (peer_public_keys (snd imported)) other
     = Dict.get (peer_public_keys self) other) /\
  private_key (snd imported) = private_key self.
Proof.
  cbv zeta. unfold import_peer_public_key.
  destruct (raw <- Utf8.encode public_key_pem ;; RSA_import_key raw)
    as [e|peer_key].
  { repeat split; reflexivity. }
  destruct (print (import_report username)) as [e|[]]; cbn [fst snd];
    (split; [split; [apply Dict.get_set_same|]
            |split; [intros other Hne; apply Dict.get_set_other, Hne
                    |reflexivity]]).
  - split; intros H; discriminate H.
  - split; reflexivity.
Qed.

(** A user name the console cannot write: the key is filed, and the
    call reports failure. *)
Example import_under_unprintable_name :
  import_peer_public_key stand_in.import_key print_utf8
    (new_handler (RsaKey := bool)) [0xD800%N] (lit "PEM")
  = (false,
     {| public_key := None; private_key := None;
        peer_public_keys := [([0xD800%N], false)] |}).
Proof. vm_compute. reflexivity. Qed.

End engine_facts.

(** ** [client.py]: the session of a chat client

    The socket is kept as the client sees it: whether [send] goes
    through, and what has been sent.  As on the relay, a [send] that
    does not raise has sent the whole buffer.  Console prints are left
    out: they hold literals, messages of exceptions and text decoded
    from UTF-8, which a console that writes UTF-8 takes; the print of
    the user list in [process_message] comes after the callback and
    inside the [try]. *)

Module chat_client.
Import pystr crypto_handler.

(** [b.ljust(width, fillbyte)] *)
Definition ljust (b : bytes) (width : nat) (fillbyte : byte) : bytes :=
  b ++ repeat fillbyte (width - length b).

(** [self.session_key = b'CryptexSecureKey2024LocalLAN'], then
    [self.session_key = self.session_key.ljust(32, b'\0')]; nothing
    assigns it again. *)
Definition session_key : bytes :=
  ljust (map byte_of_N (lit "CryptexSecureKey2024LocalLAN")) 32 x00.

Record ChatClient : Type := {
  username : str;
  connected : bool;
  running : bool;
  (** [self.socket.send] goes through *)
  socket_up : bool;
  (** what [self.socket.send] has sent, in order *)
  socket_out : list bytes
}.

(** [ChatClient(username)] *)
Definition new_client (name : str) : ChatClient :=
  {| username := name; connected := false; running := false;
     socket_up := false; socket_out := [] |}.

Definition with_out (out : list bytes) (self : ChatClient) : ChatClient :=
  {| username := username self; connected := connected self;
     running := running self; socket_up := socket_up self;
     socket_out := out |}.

(** [self.socket.send(data.encode('utf-8'))] inside a [try] block:
    the client after it, or [None] when it raised. *)
Definition send_text (self : ChatClient) (data : str) : option ChatClient :=
  match Utf8.encode data with
  | inl _ => None
  | inr raw =>
    if socket_up self then Some (with_out (socket_out self ++ [raw]) self)
    else None
  end.

(** *** [connect] *)

(** [f"{config.MSG_TYPE_AUTH}{config.MSG_SEPARATOR}{self.username}
       {config.MSG_SEPARATOR}{public_key_pem}"] *)
Definition auth_message (name public_key_pem : str) : str :=
  config.MSG_TYPE_AUTH ++ config.MSG_SEPARATOR ++ name
  ++ config.MSG_SEPARATOR ++ public_key_pem.

(** [s.split(sep)[0]] *)
Definition first_part (sep s : str) : str :=
  match partition sep s with
  | Some (a, _) => a
  | None => s
  end.

(** [response.split(config.MSG_DELIMITER)[0].strip() == "SUCCESS"] on
    what the first [recv] returned or raised; a failed [recv] or
    [decode] leaves through [except Exception]. *)
Definition accepted (received : exc bytes) : bool :=
  match received with
  | inl _ => false
  | inr raw =>
    match Utf8.decode raw with
    | inl _ => false
    | inr response =>
      str_eqb (strip (first_part config.MSG_DELIMITER response))
        (lit "SUCCESS")
    end
  end.

(** [connect], given the PEM text [export_public_key] returned for the
    key pair just generated, whether the server can be reached, and
    what the first [recv] returns or raises. *)
Definition connect (self : ChatClient) (public_key_pem : str)
    (server_up : bool) (received : exc bytes) : bool * ChatClient :=
  if negb server_up then (false, self)
  else
    let opened :=
      {| username := username self; connected := connected self;
         running := running self; socket_up := true; socket_out := [] |} in
    match send_text opened (auth_message (username self) public_key_pem) with
    | None => (false, opened)
    | Some sent =>
      if accepted received then
        (true,
         {| username := username sent; connected := true; running := true;
            socket_up := true; socket_out := socket_out sent |})
      else
        match received with
        | inr raw =>
          match Utf8.decode raw with
          | inr _ =>
            (false,
             {| username := username sent; connected := connected sent;
                running := running sent; socket_up := false;
                socket_out := socket_out sent |})
          | inl _ => (false, sent)
          end
        | inl _ => (false, sent)
        end
    end.

(** *** [send_message] *)

(** [send_message(recipient, message)]: [False] when not connected,
    when [encrypt_message] returned [None] or an empty string, and when
    encoding or sending raised; else the envelope is sent and the
    result is [True]. *)
Definition send_message (self : ChatClient) (src : entropy)
    (recipient message : str) : bool * ChatClient * entropy :=
  if negb (connected self) then (false, self, src)
  else
    let (encrypted_message, src') :=
      encrypt_message src message session_key in
    match encrypted_message with
    | None => (false, self, src')
    | Some encrypted =>
      if negb (truthy encrypted) then (false, self, src')
      else
        let data :=
          if str_eqb recipient (lit "ALL") then
            config.MSG_TYPE_BROADCAST ++ config.MSG_SEPARATOR ++ encrypted
          else
            config.MSG_TYPE_MESSAGE ++ config.MSG_SEPARATOR ++ recipient
            ++ config.MSG_SEPARATOR ++ encrypted in
        match send_text self data with
        | Some self' => (true, self', src')
        | None => (false, self, src')
        end
    end.

(** *** [process_message] *)

Section Json.

(** [json.loads], and the values it returns. *)
Variable json : Type.
Variable json_loads : str -> exc json.

(** What processing a message makes the client do: the callbacks it
    invokes when they are set, and the key import it asks its
    [CryptoHandler] for. *)
Inductive effect : Type :=
| on_user_list_update (user_list : json)
| import_peer_public_key (name public_key : str)
| on_message_received (sender decrypted_message : str).

(** [handle_encrypted_message]:
    [decrypted_message = self.crypto.decrypt_message(encrypted_data,
     self.session_key)], the callback [if decrypted_message:] and an
    error print otherwise. *)
Definition handle_encrypted_message (sender encrypted_data : str)
    : list effect :=
  match decrypt_message (Some encrypted_data) session_key with
  | Some decrypted_message =>
    if truthy decrypted_message
    then [on_message_received sender decrypted_message]
    else []
  | None => []
  end.

(** [process_message(data)]:
    [parts = data.split(config.MSG_SEPARATOR, 2)], nothing for fewer
    than two parts, then by [parts[0]]; [KEY_EXCHANGE], [MESSAGE] and
    [BROADCAST] need three parts.  What [json.loads] raises is caught
    by [except Exception]. *)
Definition process_message (data : str) : list effect :=
  let parts := split config.MSG_SEPARATOR data 2 in
  match parts with
  | msg_type :: field :: rest =>
    if str_eqb msg_type config.MSG_TYPE_USER_LIST then
      match json_loads field with
      | inr user_list => [on_user_list_update user_list]
      | inl _ => []
      end
    else if str_eqb msg_type config.MSG_TYPE_KEY_EXCHANGE then
      match rest with
      | public_key :: _ => [import_peer_public_key field public_key]
      | [] => []
      end
    else if str_eqb msg_type config.MSG_TYPE_MESSAGE then
      match rest with
      | encrypted_content :: _ =>
        handle_encrypted_message field encrypted_content
      | [] => []
      end
    else if str_eqb msg_type config.MSG_TYPE_BROADCAST then
      match rest with
      | encrypted_content :: _ =>
        handle_encrypted_message field encrypted_content
      | [] => []
      end
    else []
  | _ => []
  end.

(** [receive_messages] with [process_message] on every message it
    hands over: what the reads make the client do. *)
Definition receive_and_process (recvs : list (exc bytes)) : list effect :=
  flat_map process_message (fst (client.receive_messages recvs)).

End Json.

Arguments on_user_list_update {json} _.
Arguments import_peer_public_key {json} _ _.
Arguments on_message_received {json} _ _.
Arguments handle_encrypted_message {json} _ _.

(** [disconnect] *)
Definition disconnect (self : ChatClient) : ChatClient :=
  {| username := username self; connected := false; running := false;
     socket_up := false; socket_out := socket_out self |}.

End chat_client.

(** ** [server.py]: the rest of the relay *)

Module relay.
Import pystr server.

(** [shutdown]: [close] on the socket of every entry of
    [self.clients], then [self.clients.clear()]; the listening socket
    is no part of the model. *)
Definition shutdown (st : state) : state :=
  with_clients []
    (fold_left (fun s entry => sock_close (snd entry) s) (clients st) st).

End relay.

(** ** Facts on the relay *)

Module relay_facts.
Import pystr server server_facts directory_facts registration_facts.
Import wire_facts relay.

(** *** What has been sent only grows *)

Definition appends (st st' : state) : Prop :=
  exists more, sent st' = sent st ++ more.

Lemma appends_refl (st : state) : appends st st.
Proof. exists []. symmetry. apply app_nil_r. Qed.

Lemma appends_trans (a b c : state) :
  appends a b -> appends b c -> appends a c.
Proof.
  intros [m1 H1] [m2 H2]. exists (m1 ++ m2).
  rewrite H2, H1, app_assoc. reflexivity.
Qed.

Lemma send_text_appends (sk : socket) (message : str) (st : state) :
  appends st (snd (send_text sk message st)).
Proof.
  unfold send_text, sock_send.
  destruct (Utf8.encode message); [apply appends_refl|].
  destruct (up st sk); [|apply appends_refl].
  eexists. reflexivity.
Qed.

Lemma send_to_each_appends (target : str -> bool) (message : str)
    (entries : list (str * socket)) (st : state) :
  appends st (snd (send_to_each target message entries st)).
Proof.
  destruct (Utf8.encode message) as [e|data] eqn:E.
  - rewrite (send_to_each_unencodable _ _ e _ _ E). apply appends_refl.
  - rewrite (send_to_each_encoded _ _ data _ _ E). eexists. reflexivity.
Qed.

Lemma remove_disconnected_sent (disconnected : list str) (st : state) :
  sent (remove_disconnected disconnected st) = sent st.
Proof.
  unfold remove_disconnected. revert st.
  induction disconnected as [|u l IH]; intros st; [reflexivity|].
  cbn [fold_left]. rewrite IH.
  destruct (Dict.contains (clients st) u); reflexivity.
Qed.

Lemma broadcast_user_list_appends (st : state) :
  appends st (broadcast_user_list st).
Proof.
  unfold broadcast_user_list.
  pose proof (send_to_each_appends (fun _ => true)
                (config.MSG_TYPE_USER_LIST ++ config.MSG_SEPARATOR
                 ++ pyjson.dumps (Dict.keys (clients st))
                 ++ config.MSG_DELIMITER) (clients st) st) as H.
  destruct (send_to_each _ _ (clients st) st) as [d st1]. cbn [snd] in H.
  destruct H as [more H]. exists more.
  rewrite remove_disconnected_sent. exact H.
Qed.

Lemma fold_left_appends {A} (f : state -> A -> state) (l : list A) :
  (forall s a, appends s (f s a)) ->
  forall s, appends s (fold_left f l s).
Proof.
  intros Hf. induction l as [|a l IH]; intros s.
  - apply appends_refl.
  - cbn [fold_left]. apply (appends_trans _ _ _ (Hf s a)), IH.
Qed.

Lemma send_all_public_keys_appends (username : str) (st : state) :
  appends st (send_all_public_keys username st).
Proof.
  unfold send_all_public_keys.
  destruct (negb (Dict.contains (clients st) username));
    [apply appends_refl|].
  destruct (Dict.get (clients st) username) as [sk|]; [|apply appends_refl].
  apply fold_left_appends. intros s [other pk].
  destruct (negb (str_eqb other username));
    [apply send_text_appends | apply appends_refl].
Qed.

Lemma broadcast_public_key_appends (username public_key : str)
    (st : state) :
  appends st (broadcast_public_key username public_key st).
Proof. unfold broadcast_public_key. apply send_to_each_appends. Qed.

(** *** Registration *)

(** The reply to a successful [AUTH], as it goes out. *)
Definition success_reply : bytes :=
  Eval vm_compute in ascii_bytes (lit "SUCCESS" ++ config.MSG_DELIMITER).

(** What a registration files and sends first. *)
Lemma registration_files (st : state) (sk : socket)
    (addr : address) (raw : bytes) (auth_data username pem : str) :
  Dict.wf (clients st) ->
  Utf8.decode raw = ret auth_data ->
  split config.MSG_SEPARATOR auth_data 2
    = [config.MSG_TYPE_AUTH; username; pem] ->
  Dict.contains (clients st) username = false ->
  up st sk = true ->
  (forall e, In e (clients st) -> up st (snd e) = true) ->
  let after := handle_client_connect sk addr (inr raw) st in
  Dict.get (public_keys (snd after)) username = Some pem /\
  Dict.get (client_addresses (snd after)) username = Some addr /\
  exists more, sent (snd after) = sent st ++ (sk, success_reply) :: more.
Proof.
  intros Hwf Hd Hs Hc Hsk Hup after.
  subst after. unfold handle_client_connect in *. rewrite Hd in *.
  assert (Ht : truthy auth_data = true).
  { destruct auth_data; [discriminate Hs | reflexivity]. }
  cbn [ret] in *. rewrite Ht in *. cbn [negb] in *.
  rewrite Hs, str_eqb_refl, Hc in *.
  set (st1 := register username sk addr pem st) in *.
  assert (Hok : Utf8.encode (lit "SUCCESS" ++ config.MSG_DELIMITER)
                = ret success_reply) by (vm_compute; reflexivity).
  rewrite (send_text_encoded sk _ _ st1 Hok) in *.
  change (up st1 sk) with (up st sk) in *. rewrite Hsk in *.
  set (st2 := with_sent (sent st1 ++ [(sk, success_reply)]) st1) in *.
  unfold ret in *. cbv iota in *. cbn [fst snd] in *.
  assert (Hwf2 : Dict.wf (clients st2))
    by (apply (register_wf username sk addr pem st Hwf)).
  pose proof (broadcast_user_list_shrinks st2 Hwf2) as [_ [A3 K3]].
  destruct (send_all_public_keys_directory username (broadcast_user_list st2))
    as [_ [A4 K4]].
  destruct (broadcast_public_key_directory username pem
              (send_all_public_keys username (broadcast_user_list st2)))
    as [_ [A5 K5]].
  split; [|split].
  - rewrite K5, K4, K3. cbn [st2 st1 with_sent register public_keys].
    apply Dict.get_set_same.
  - rewrite A5, A4, A3. cbn [st2 st1 with_sent register client_addresses].
    apply Dict.get_set_same.
  - pose proof (appends_trans _ _ _
                  (appends_trans _ _ _ (broadcast_user_list_appends st2)
                     (send_all_public_keys_appends username
                        (broadcast_user_list st2)))
                  (broadcast_public_key_appends username pem
                     (send_all_public_keys username
                        (broadcast_user_list st2)))) as [more Hm].
    exists more. rewrite Hm. cbn [st2 st1 with_sent register sent].
    rewrite <- app_assoc. reflexivity.
Qed.

(** The steps of [handle_client], run with nothing in between, are the
    uninterrupted run. *)
Lemma handle_client_connect_steps (sk : socket) (addr : address)
    (received : exc bytes) (st : state) :
  handle_client_connect sk addr received st
  = handle_client_steps sk addr received st.
Proof.
  unfold handle_client_connect, handle_client_steps, handle_client_auth,
    handle_client_reply, handle_client_announce.
  destruct received as [e|raw]; [reflexivity|].
  destruct (Utf8.decode raw) as [e|auth_data]; [reflexivity|].
  destruct (negb (truthy auth_data)); [reflexivity|].
  cbv zeta.
  destruct (split config.MSG_SEPARATOR auth_data 2)
    as [|msg_type [|username [|pem [|x parts]]]]; try reflexivity.
  destruct (str_eqb msg_type config.MSG_TYPE_AUTH); [|reflexivity].
  destruct (Dict.contains (clients st) username); [reflexivity|].
  destruct (send_text sk (lit "SUCCESS" ++ config.MSG_DELIMITER)
              (register username sk addr pem st)) as [[e|[]] st2];
    reflexivity.
Qed.

(** The registration itself, one step under the lock. *)
Lemma handle_client_auth_registers (st : state) (sk : socket)
    (addr : address) (raw : bytes) (auth_data username pem : str) :
  Utf8.decode raw = ret auth_data ->
  split config.MSG_SEPARATOR auth_data 2
    = [config.MSG_TYPE_AUTH; username; pem] ->
  Dict.contains (clients st) username = false ->
  handle_client_auth sk addr (inr raw) st
  = (Some (username, pem), register username sk addr pem st).
Proof.
  intros Hd Hs Hc. unfold handle_client_auth. rewrite Hd.
  assert (Ht : truthy auth_data = true).
  { destruct auth_data; [discriminate Hs | reflexivity]. }
  cbn [ret]. rewrite Ht. cbn [negb]. rewrite Hs, str_eqb_refl, Hc.
  reflexivity.
Qed.

(** The reply goes out on a socket that is up, whatever else the state
    holds by then. *)
Lemma handle_client_reply_sends (username : str) (sk : socket)
    (st : state) :
  up st sk = true ->
  handle_client_reply username sk st
  = (Serving username, with_sent (sent st ++ [(sk, success_reply)]) st).
Proof.
  intros Hup. unfold handle_client_reply.
  assert (Hok : Utf8.encode (lit "SUCCESS" ++ config.MSG_DELIMITER)
                = ret success_reply) by (vm_compute; reflexivity).
  rewrite (send_text_encoded sk _ _ st Hok), Hup. reflexivity.
Qed.

(** X15: an [AUTH] for a name that is not in the directory is
    registered in one step under the lock: the directory gains exactly
    the one entry for the new socket, at its end, the key and the
    address are on file under the name, and nothing has been sent.
    The lock is released before the reply: from whatever state the
    other handlers have left by then, the handler's next send is the
    success reply to the new socket, if that socket is up.  In a run
    that no other handler interrupts, with every registered socket up,
    the reply is the first thing sent after the registration, before
    the user list and the keys, and the handler comes to the test of
    its receive loop under the name. *)
Theorem registration_of_fresh_name (st : state) (sk : socket)
    (addr : address) (raw : bytes) (auth_data username pem : str) :
  Dict.wf (clients st) ->
  Utf8.decode raw = ret auth_data ->
  split config.MSG_SEPARATOR auth_data 2
    = [config.MSG_TYPE_AUTH; username; pem] ->
  Dict.contains (clients st) username = false ->
  (let registered := handle_client_auth sk addr (inr raw) st in
   fst registered = Some (username, pem) /\
   clients (snd registered) = clients st ++ [(username, sk)] /\
   Dict.get (public_keys (snd registered)) username = Some pem /\
   Dict.get (client_addresses (snd registered)) username = Some addr /\
   sent (snd registered) = sent st) /\
  (forall later,
     up later sk = true ->
     handle_client_reply username sk later
     = (Serving username,
        with_sent (sent later ++ [(sk, success_reply)]) later)) /\
  (up st sk = true ->
   (forall e, In e (clients st) -> up st (snd e) = true) ->
   let after := handle_client_connect sk addr (inr raw) st in
   fst after = Serving username /\
   clients (snd after) = clients st ++ [(username, sk)] /\
   exists more, sent (snd after) = sent st ++ (sk, success_reply) :: more).
Proof.
  intros Hwf Hd Hs Hc. split; [|split].
  - cbv zeta.
    rewrite (handle_client_auth_registers st sk addr raw auth_data username
               pem Hd Hs Hc).
    cbn [fst snd register clients public_keys client_addresses sent].
    split; [reflexivity|].
    split; [apply Dict.keys_set_new, Hc|].
    split; [apply Dict.get_set_same|].
    split; [apply Dict.get_set_same | reflexivity].
  - intros later Hup. apply handle_client_reply_sends, Hup.
  - intros Hsk Hup after.
    destruct (fresh_registration st sk addr raw auth_data username pem
                Hwf Hd Hs Hc Hsk Hup) as [Hserve [Hclients _]].
    destruct (registration_files st sk addr raw auth_data username pem
                Hwf Hd Hs Hc Hsk Hup) as [_ [_ Hsent]].
    split; [exact Hserve|]. split; [exact Hclients | exact Hsent].
Qed.

Lemma registration_of_fresh_name_witness :
  let registered :=
    handle_client_auth 1 (lit "192.168.1.20", 50000%N)
      (inr (ascii_bytes (lit "AUTH||Alice||PEM-A"))) initial in
  fst registered = Some (lit "Alice", lit "PEM-A") /\
  clients (snd registered) = [(lit "Alice", 1)] /\
  Dict.get (public_keys (snd registered)) (lit "Alice")
  = Some (lit "PEM-A") /\
  sent (snd registered) = [] /\
  handle_client_reply (lit "Alice") 1 (snd registered)
  = (Serving (lit "Alice"),
     with_sent [(1, success_reply)] (snd registered)).
Proof.
  destruct (registration_of_fresh_name initial 1
              (lit "192.168.1.20", 50000%N)
              (ascii_bytes (lit "AUTH||Alice||PEM-A"))
              (lit "AUTH||Alice||PEM-A") (lit "Alice") (lit "PEM-A"))
    as [[H1 [H2 [H3 [_ H5]]]] [Hreply _]];
    [apply Dict.wf_nil | vm_compute; reflexivity | vm_compute; reflexivity
    | reflexivity |].
  cbv zeta. split; [exact H1|]. split; [exact H2|]. split; [exact H3|].
  split; [exact H5|].
  assert (Hup : up (snd (handle_client_auth 1 (lit "192.168.1.20", 50000%N)
                           (inr (ascii_bytes (lit "AUTH||Alice||PEM-A")))
                           initial)) 1 = true) by (vm_compute; reflexivity).
  rewrite (Hreply _ Hup), H5. reflexivity.
Defined.

(** X16: after N registrations under names that were not taken, one
    after the other from the empty directory, the directory holds
    exactly those N names, each once and in the order of arrival. *)
Theorem registrations_fill_directory (names : list str) (st : state) :
  joined names st ->
  Dict.keys (clients st) = names /\ NoDup names /\
  length (clients st) = length names.
Proof.
  intros H. destruct (joined_directory names st H) as [Hk [Hwf [Hl _]]].
  split; [exact Hk|]. split; [|exact Hl].
  unfold Dict.wf in Hwf. rewrite Hk in Hwf. exact Hwf.
Qed.

Lemma registrations_fill_directory_witness :
  exists st,
    joined [lit "Alice"; lit "Bob"] st /\ length (clients st) = 2%nat.
Proof.
  assert (H1 : joined [lit "Alice"]
                 (snd (handle_client_connect 1 (lit "192.168.1.20", 50000%N)
                         (inr (ascii_bytes (lit "AUTH||Alice||PEM-A")))
                         initial))).
  { apply (joined_one [] initial 1 (lit "192.168.1.20", 50000%N)
             (ascii_bytes (lit "AUTH||Alice||PEM-A"))
             (lit "AUTH||Alice||PEM-A") (lit "Alice") (lit "PEM-A")
             joined_nobody);
      vm_compute; reflexivity. }
  assert (H2 : joined [lit "Alice"; lit "Bob"]
                 (snd (handle_client_connect 2 (lit "192.168.1.21", 50001%N)
                         (inr (ascii_bytes (lit "AUTH||Bob||PEM-B")))
                         (snd (handle_client_connect 1
                                 (lit "192.168.1.20", 50000%N)
                                 (inr (ascii_bytes
                                         (lit "AUTH||Alice||PEM-A")))
                                 initial))))).
  { apply (joined_one [lit "Alice"] _ 2 (lit "192.168.1.21", 50001%N)
             (ascii_bytes (lit "AUTH||Bob||PEM-B"))
             (lit "AUTH||Bob||PEM-B") (lit "Bob") (lit "PEM-B") H1);
      vm_compute; reflexivity. }
  eexists. split; [exact H2|].
  destruct (registrations_fill_directory _ _ H2) as [_ [_ Hl]]. exact Hl.
Defined.

(** *** Dictionaries *)

Lemma get_filter_kept {V} (keep : str * V -> bool) (d : Dict.dict V)
    (k : str) (v : V) :
  Dict.get d k = Some v -> keep (k, v) = true ->
  Dict.get (filter keep d) k = Some v.
Proof.
  intros Hg Hk. induction d as [|[k' v'] r IH]; [discriminate|].
  cbn [Dict.get] in Hg. cbn [filter].
  destruct (str_eqb k' k) eqn:E.
  - injection Hg as ->. apply str_eqb_eq in E. subst k'.
    rewrite Hk. cbn [Dict.get]. rewrite str_eqb_refl. reflexivity.
  - destruct (keep (k', v')); [cbn [Dict.get]; rewrite E|]; apply IH, Hg.
Qed.

Lemma contains_filter_true {V} (keep : str * V -> bool) (d : Dict.dict V)
    (k : str) :
  Dict.contains (filter keep d) k = true -> Dict.contains d k = true.
Proof.
  intros H. destruct (Dict.contains d k) eqn:E; [reflexivity|].
  rewrite (contains_filter_false keep d k E) in H. discriminate.
Qed.

Lemma contains_guarded_del_other {V} (d : Dict.dict V) (k k' : str) :
  k' <> k ->
  Dict.contains (if Dict.contains d k then Dict.del d k else d) k'
  = Dict.contains d k'.
Proof.
  intros Hne. destruct (Dict.contains d k); [|reflexivity].
  unfold Dict.contains. rewrite Dict.get_del_other by exact Hne.
  reflexivity.
Qed.

Lemma contains_guarded_del_same {V} (d : Dict.dict V) (k : str) :
  Dict.wf d ->
  Dict.contains (if Dict.contains d k then Dict.del d k else d) k = false.
Proof.
  intros Hwf. destruct (Dict.contains d k) eqn:E; [|exact E].
  apply Dict.contains_del_same, Hwf.
Qed.

Lemma contains_set {V} (d : Dict.dict V) (k k' : str) (v : V) :
  Dict.contains (Dict.set d k v) k'
  = if str_eqb k k' then true else Dict.contains d k'.
Proof.
  unfold Dict.contains. destruct (str_eqb k k') eqn:E.
  - apply str_eqb_eq in E. subst k'. rewrite Dict.get_set_same. reflexivity.
  - apply str_eqb_neq in E.
    rewrite Dict.get_set_other by congruence. reflexivity.
Qed.

(** *** Every registered client has a key on file *)

Definition keyed (st : state) : Prop :=
  forall name,
    Dict.contains (clients st) name = true ->
    Dict.contains (public_keys st) name = true /\
    Dict.contains (client_addresses st) name = true.

Lemma keyed_shrinks (st st' : state) :
  shrinks st st' -> keyed st -> keyed st'.
Proof.
  intros [[keep Hc] [Ha Hk]] H name Hn. rewrite Hc in Hn.
  apply contains_filter_true in Hn. rewrite Ha, Hk. apply H, Hn.
Qed.

Lemma keyed_same (st st' : state) :
  same_directory st st' -> keyed st -> keyed st'.
Proof. intros H. apply keyed_shrinks, same_directory_shrinks, H. Qed.

Lemma keyed_forget (username : str) (st : state) :
  Dict.wf (clients st) -> keyed st -> keyed (forget username st).
Proof.
  intros Hwf H name Hn. unfold forget in *.
  cbn [clients public_keys client_addresses] in *.
  destruct (str_eqb name username) eqn:E;
    [apply str_eqb_eq in E; subst name | apply str_eqb_neq in E].
  - rewrite (contains_guarded_del_same (clients st) username Hwf) in Hn.
    discriminate.
  - rewrite contains_guarded_del_other in Hn by exact E.
    rewrite !contains_guarded_del_other by exact E. apply H, Hn.
Qed.

Lemma keyed_register (username : str) (sk : socket) (addr : address)
    (pem : str) (st : state) :
  keyed st -> keyed (register username sk addr pem st).
Proof.
  intros H name Hn. unfold register in *.
  cbn [clients public_keys client_addresses] in *.
  rewrite contains_set in Hn. rewrite !contains_set.
  destruct (str_eqb username name); [split; reflexivity | apply H, Hn].
Qed.

Lemma keyed_finally (username : option str) (sk : socket) (st : state) :
  Dict.wf (clients st) -> keyed st -> keyed (finally_clause username sk st).
Proof.
  intros Hwf H. unfold finally_clause.
  apply (keyed_same _ _ (sock_close_directory sk _)).
  destruct username as [u|]; [|exact H].
  destruct (truthy u); [|exact H].
  destruct (forget_clients u st Hwf) as [Hwf' _].
  apply (keyed_shrinks _ _ (broadcast_user_list_shrinks _ Hwf')).
  apply keyed_forget; assumption.
Qed.

Lemma keyed_connect (sk : socket) (addr : address) (received : exc bytes)
    (st : state) :
  Dict.wf (clients st) -> keyed st ->
  keyed (snd (handle_client_connect sk addr received st)).
Proof.
  intros Hwf H. unfold handle_client_connect.
  destruct received as [e|raw]; [apply keyed_finally; assumption|].
  destruct (Utf8.decode raw) as [e|auth_data];
    [apply keyed_finally; assumption|].
  destruct (negb (truthy auth_data)).
  { cbn [snd]. apply keyed_finally; [exact Hwf|].
    apply (keyed_same _ _ (sock_close_directory sk st) H). }
  assert (Hrej : forall u reply,
            keyed (finally_clause u sk (reject sk reply st))).
  { intros u reply. pose proof (reject_directory sk reply st) as Hr.
    apply keyed_finally; [|apply (keyed_same _ _ Hr H)].
    destruct Hr as [-> _]. exact Hwf. }
  destruct (split config.MSG_SEPARATOR auth_data 2)
    as [|t [|username [|pem [|x rest]]]]; try apply Hrej.
  destruct (str_eqb t config.MSG_TYPE_AUTH); [|apply Hrej].
  destruct (Dict.contains (clients st) username); [apply Hrej|].
  pose proof (register_wf username sk addr pem st Hwf) as Hreg.
  pose proof (keyed_register username sk addr pem st H) as Hk1.
  pose proof (send_text_directory sk (lit "SUCCESS" ++ config.MSG_DELIMITER)
                (register username sk addr pem st)) as Hs.
  destruct (send_text sk (lit "SUCCESS" ++ config.MSG_DELIMITER)
              (register username sk addr pem st)) as [[e|u] st2];
    cbn [snd] in Hs |- *.
  - apply keyed_finally; [|apply (keyed_same _ _ Hs Hk1)].
    destruct Hs as [-> _]. exact Hreg.
  - assert (H2 : Dict.wf (clients st2))
      by (destruct Hs as [-> _]; exact Hreg).
    apply (keyed_same _ _ (broadcast_public_key_directory username pem _)).
    apply (keyed_same _ _ (send_all_public_keys_directory username _)).
    apply (keyed_shrinks _ _ (broadcast_user_list_shrinks st2 H2)).
    apply (keyed_same _ _ Hs Hk1).
Qed.

Lemma keyed_receive (username : str) (sk : socket) (received : exc bytes)
    (st : state) :
  Dict.wf (clients st) -> keyed st ->
  keyed (snd (handle_client_receive username sk received st)).
Proof.
  intros Hwf H. unfold handle_client_receive.
  destruct received as [e|raw]; [apply keyed_finally; assumption|].
  destruct (Utf8.decode raw) as [e|data];
    [apply keyed_finally; assumption|].
  destruct (truthy data); [|apply keyed_finally; assumption].
  cbn [snd].
  apply (keyed_shrinks _ _ (route_message_shrinks username data st Hwf) H).
Qed.

(** X17: in every state the relay can reach, a name that is in
    [self.clients] is in [self.public_keys] and in
    [self.client_addresses] as well: whoever is registered has a key
    and an address on file. *)
Theorem registered_clients_have_keys (st : state) :
  reachable st ->
  forall name,
    Dict.contains (clients st) name = true ->
    Dict.contains (public_keys st) name = true /\
    Dict.contains (client_addresses st) name = true.
Proof.
  induction 1 as [|st sk H IH|st sk addr r H IH|st u sk r H IH].
  - intros name Hn. discriminate.
  - exact IH.
  - apply keyed_connect; [apply reachable_wf, H | exact IH].
  - apply keyed_receive; [apply reachable_wf, H | exact IH].
Qed.

Lemma registered_clients_have_keys_witness :
  let st :=
    snd (handle_client_connect 1 (lit "192.168.1.20", 50000%N)
           (inr (ascii_bytes (lit "AUTH||Alice||PEM-A"))) initial) in
  reachable st /\
  Dict.contains (clients st) (lit "Alice") = true /\
  Dict.contains (public_keys st) (lit "Alice") = true.
Proof.
  cbv zeta.
  assert (Hr : reachable
                 (snd (handle_client_connect 1 (lit "192.168.1.20", 50000%N)
                         (inr (ascii_bytes (lit "AUTH||Alice||PEM-A")))
                         initial)))
    by (apply reachable_connect, reachable_initial).
  assert (Hc : Dict.contains
                 (clients
                    (snd (handle_client_connect 1
                            (lit "192.168.1.20", 50000%N)
                            (inr (ascii_bytes (lit "AUTH||Alice||PEM-A")))
                            initial)))
                 (lit "Alice") = true) by (vm_compute; reflexivity).
  split; [exact Hr|]. split; [exact Hc|].
  destruct (registered_clients_have_keys _ Hr (lit "Alice") Hc) as [Hk _].
  exact Hk.
Defined.

(** *** The user list and the [finally] clause *)

Definition user_list_message (names : list str) : str :=
  config.MSG_TYPE_USER_LIST ++ config.MSG_SEPARATOR ++ pyjson.dumps names
  ++ config.MSG_DELIMITER.

Lemma user_list_encodes (names : list str) :
  exists data, Utf8.encode (user_list_message names) = ret data.
Proof.
  apply ascii_only_encodes. unfold user_list_message.
  apply ascii_only_app; [apply lit_ascii_only; reflexivity|].
  apply ascii_only_app; [apply lit_ascii_only; reflexivity|].
  apply ascii_only_app; [apply dumps_ascii_only|].
  apply lit_ascii_only. reflexivity.
Qed.

(** [broadcast_user_list]: the list goes to every socket that is up,
    the entries of the others are dropped. *)
Lemma broadcast_user_list_exact (st : state) (data : bytes) :
  Dict.wf (clients st) ->
  Utf8.encode (user_list_message (Dict.keys (clients st))) = ret data ->
  broadcast_user_list st
  = with_clients
      (filter (fun e => up st (snd e)) (clients st))
      (with_sent
         (sent st
          ++ map (fun e => (snd e, data))
               (filter (fun e => up st (snd e)) (clients st)))
         st).
Proof.
  intros Hwf Hm. unfold broadcast_user_list.
  fold (user_list_message (Dict.keys (clients st))).
  rewrite (send_to_each_encoded _ _ data _ _ Hm).
  rewrite remove_disconnected_clients by exact Hwf.
  cbn [clients with_sent]. unfold with_clients. cbn. f_equal.
  apply filter_ext_in. intros e Hin.
  rewrite (in_failed_names _ st (clients st) e Hwf Hin).
  unfold failed. cbn [andb]. apply negb_involutive.
Qed.

Lemma up_sock_close (sk : socket) (st : state) :
  up (sock_close sk st) sk = false.
Proof.
  unfold up, sock_close. cbn [closed down app existsb].
  rewrite Nat.eqb_refl. reflexivity.
Qed.

(** The names the directory holds once [name] is taken out. *)
Definition without (name : str) (d : Dict.dict socket) : Dict.dict socket :=
  filter (fun e => negb (str_eqb (fst e) name)) d.

(** What the [finally] clause leaves behind when it is entered with a
    non-empty [username]. *)
Lemma finally_clause_outcome (username : str) (sk : socket) (st : state) :
  Dict.wf (clients st) -> Dict.wf (client_addresses st) ->
  Dict.wf (public_keys st) -> username <> [] ->
  let st' := finally_clause (Some username) sk st in
  Dict.contains (clients st') username = false /\
  Dict.contains (client_addresses st') username = false /\
  Dict.contains (public_keys st') username = false /\
  up st' sk = false /\
  exists data,
    Utf8.encode (user_list_message
                   (Dict.keys (without username (clients st)))) = ret data /\
    clients st'
    = filter (fun e => up st (snd e)) (without username (clients st)) /\
    sent st'
    = sent st
      ++ map (fun e => (snd e, data))
           (filter (fun e => up st (snd e)) (without username (clients st))).
Proof.
  intros Hwf Hwa Hwk Hne st'. subst st'. unfold finally_clause.
  assert (Ht : truthy username = true)
    by (destruct username; [congruence | reflexivity]).
  rewrite Ht.
  destruct (forget_clients username st Hwf) as [Hwf' Habs].
  assert (Hcl : clients (forget username st) = without username (clients st))
    by (apply guarded_del, Hwf).
  destruct (user_list_encodes (Dict.keys (without username (clients st))))
    as [data Hdata].
  assert (Hdata' : Utf8.encode
                     (user_list_message
                        (Dict.keys (clients (forget username st))))
                   = ret data) by (rewrite Hcl; exact Hdata).
  rewrite (broadcast_user_list_exact (forget username st) data Hwf' Hdata').
  cbn [sock_close with_clients with_sent clients client_addresses
       public_keys sent].
  split; [|split; [|split; [|split]]].
  - apply contains_filter_false, Habs.
  - cbn [forget client_addresses].
    apply contains_guarded_del_same, Hwa.
  - cbn [forget public_keys]. apply contains_guarded_del_same, Hwk.
  - apply up_sock_close.
  - exists data. split; [exact Hdata|]. rewrite Hcl. split; reflexivity.
Qed.


(** Alice on socket 1, then Bob on socket 2. *)
Definition two_online : state :=
  snd (handle_client_connect 2 (lit "192.168.1.21", 50001%N)
         (inr (ascii_bytes (lit "AUTH||Bob||PEM-B")))
         (snd (handle_client_connect 1 (lit "192.168.1.20", 50000%N)
                 (inr (ascii_bytes (lit "AUTH||Alice||PEM-A")))
                 initial))).

Ltac wf_by_computation :=
  unfold Dict.wf, Dict.keys; vm_compute;
  repeat (constructor; [simpl; intuition discriminate|]); constructor.

Lemma two_online_wf :
  Dict.wf (clients two_online) /\ Dict.wf (client_addresses two_online) /\
  Dict.wf (public_keys two_online).
Proof. repeat split; wf_by_computation. Qed.


(** *** A second [AUTH] under a name that is taken *)

Lemma up_reject_other (sk other : socket) (reply : str) (st : state) :
  other <> sk -> up (reject sk reply st) other = up st other.
Proof.
  intros Hne. unfold reject, send_text, sock_send.
  destruct (Utf8.encode reply); [reflexivity|].
  destruct (up st sk); [|reflexivity].
  unfold ret. cbv iota.
  unfold up, sock_close. cbn [closed down with_sent app existsb].
  replace (Nat.eqb other sk) with false
    by (symmetry; apply Nat.eqb_neq, Hne).
  reflexivity.
Qed.



(** *** Clean-up after a failed broadcast *)

(** X20: a broadcast that fails on a client drops that client from
    [self.clients] only: the key and the address stay on file under
    the name, as they were. *)
Theorem dropped_client_keeps_key (st : state)
    (sender encrypted_content name : str) (sk : socket) :
  Dict.wf (clients st) ->
  Dict.get (clients st) name = Some sk -> name <> sender ->
  up st sk = false ->
  let st' := broadcast_message sender encrypted_content st in
  Dict.contains (clients st') name = false /\
  public_keys st' = public_keys st /\
  client_addresses st' = client_addresses st.
Proof.
  intros Hwf Hg Hne Hup st'. subst st'.
  destruct (broadcast_message_shrinks sender encrypted_content st Hwf)
    as [_ [Ha Hk]].
  split; [|split; assumption].
  assert (Hin : In (name, sk) (clients st)).
  { clear - Hg. induction (clients st) as [|[k v] r IH]; [discriminate|].
    cbn [Dict.get] in Hg. destruct (str_eqb k name) eqn:E.
    - injection Hg as ->. apply str_eqb_eq in E. subst k. left. reflexivity.
    - right. apply IH, Hg. }
  set (others := fun username => negb (str_eqb username sender)).
  assert (Ho : others name = true)
    by (apply negb_true_iff, str_eqb_neq, Hne).
  unfold broadcast_message.
  destruct (Utf8.encode
              (envelope config.MSG_TYPE_BROADCAST sender encrypted_content))
    as [e|data] eqn:E.
  - rewrite (send_to_each_unencodable _ _ e _ _ E).
    rewrite remove_disconnected_clients by exact Hwf.
    cbn [clients with_clients]. apply Dict.contains_false.
    unfold Dict.keys. intros Hk'. apply in_map_iff in Hk'.
    destruct Hk' as [[k v] [Hfst Hin']]. cbn [fst] in Hfst. subst k.
    apply filter_In in Hin'. destruct Hin' as [_ Hkeep]. cbn [fst] in Hkeep.
    apply negb_true_iff in Hkeep.
    assert (Hex : existsb (str_eqb name)
                    (map fst
                       (filter (fun x => others (fst x)) (clients st)))
                  = true).
    { apply existsb_exists. exists name. split; [|apply str_eqb_refl].
      apply in_map_iff. exists (name, sk). split; [reflexivity|].
      apply filter_In. split; [exact Hin | exact Ho]. }
    exact (eq_true_false_abs _ Hex Hkeep).
  - rewrite (send_to_each_encoded _ _ data _ _ E).
    rewrite remove_disconnected_clients by exact Hwf.
    cbn [clients with_clients with_sent]. apply Dict.contains_false.
    unfold Dict.keys. intros Hk'. apply in_map_iff in Hk'.
    destruct Hk' as [[k v] [Hfst Hin']]. cbn [fst] in Hfst. subst k.
    apply filter_In in Hin'. destruct Hin' as [_ Hkeep]. cbn [fst] in Hkeep.
    apply negb_true_iff in Hkeep.
    assert (Hex : existsb (str_eqb name)
                    (map fst (filter (failed others st) (clients st)))
                  = true).
    { apply existsb_exists. exists name. split; [|apply str_eqb_refl].
      apply in_map_iff. exists (name, sk). split; [reflexivity|].
      apply filter_In. split; [exact Hin|].
      unfold failed. cbn [fst snd]. rewrite Ho, Hup. reflexivity. }
    exact (eq_true_false_abs _ Hex Hkeep).
Qed.

(** The same with Bob's peer gone. *)
Definition bob_down : state :=
  {| clients := clients two_online;
     client_addresses := client_addresses two_online;
     public_keys := public_keys two_online;
     sent := sent two_online; closed := closed two_online;
     down := [2] |}.

Lemma dropped_client_keeps_key_witness :
  let st' := broadcast_message (lit "Alice") (lit "QUJD") bob_down in
  Dict.contains (clients st') (lit "Bob") = false /\
  Dict.get (public_keys st') (lit "Bob") = Some (lit "PEM-B").
Proof.
  assert (Hwf : Dict.wf (clients bob_down)) by wf_by_computation.
  assert (Hne : lit "Bob" <> lit "Alice") by discriminate.
  destruct (dropped_client_keeps_key bob_down (lit "Alice") (lit "QUJD")
              (lit "Bob") 2 Hwf)
    as [Hc [Hk _]];
    [vm_compute; reflexivity | exact Hne | vm_compute; reflexivity |].
  cbv zeta. split; [exact Hc|]. rewrite Hk. vm_compute. reflexivity.
Defined.

(** *** Direct messages *)

(** X21: [send_direct_message] touches nothing but the record of what
    was sent, and that by one envelope to the recipient's socket at
    most.  When the [send] fails nothing changes at all: the recipient
    stays in the directory and the sender is not told. *)
Theorem direct_message_changes_only_outbox (st : state)
    (sender recipient encrypted_content : str) :
  let st' := send_direct_message sender recipient encrypted_content st in
  same_directory st st' /\ closed st' = closed st /\ down st' = down st /\
  (st' = st \/
   exists sk data,
     Dict.get (clients st) recipient = Some sk /\ up st sk = true /\
     Utf8.encode
       (envelope config.MSG_TYPE_MESSAGE sender encrypted_content)
     = ret data /\
     sent st' = sent st ++ [(sk, data)]) /\
  (forall sk,
     Dict.get (clients st) recipient = Some sk -> up st sk = false ->
     st' = st).
Proof.
  cbv zeta.
  split; [apply send_direct_message_directory|].
  unfold send_direct_message, Dict.contains.
  destruct (Dict.get (clients st) recipient) as [sk|] eqn:Hg.
  - unfold send_text, sock_send.
    destruct (Utf8.encode
                (envelope config.MSG_TYPE_MESSAGE sender encrypted_content))
      as [e|data] eqn:E; cbn [snd].
    + split; [reflexivity|]. split; [reflexivity|].
      split; [left; reflexivity | reflexivity].
    + destruct (up st sk) eqn:Hup; cbn [snd].
      * split; [reflexivity|]. split; [reflexivity|]. split.
        -- right. exists sk, data. repeat split. exact Hup.
        -- intros sk' Hsk' Hdown. injection Hsk' as <-. congruence.
      * split; [reflexivity|]. split; [reflexivity|].
        split; [left; reflexivity | reflexivity].
  - split; [reflexivity|]. split; [reflexivity|].
    split; [left; reflexivity | discriminate].
Qed.

(** *** Reads that hold more than one envelope *)

(** X22: the relay routes what one [recv] returned as one message.
    When two [BROADCAST] envelopes of a client arrive in one read, it
    routes a single broadcast whose payload is the first payload
    followed by the text [BROADCAST]; the second payload is not
    forwarded. *)
Theorem coalesced_broadcasts_are_one (st : state) (sender : str)
    (sk : socket) (raw : bytes) (first second : str) :
  free_of 124 first ->
  Utf8.decode raw
  = ret ((config.MSG_TYPE_BROADCAST ++ config.MSG_SEPARATOR ++ first)
         ++ config.MSG_TYPE_BROADCAST ++ config.MSG_SEPARATOR ++ second) ->
  handle_client_receive sender sk (inr raw) st
  = (Serving sender,
     broadcast_message sender (first ++ config.MSG_TYPE_BROADCAST) st).
Proof.
  intros Hf Hraw. unfold handle_client_receive. rewrite Hraw. cbn [ret].
  assert (Ht : truthy
                 ((config.MSG_TYPE_BROADCAST ++ config.MSG_SEPARATOR ++ first)
                  ++ config.MSG_TYPE_BROADCAST ++ config.MSG_SEPARATOR
                  ++ second) = true) by reflexivity.
  rewrite Ht. unfold route_message. f_equal.
  assert (Hs : split config.MSG_SEPARATOR
                 ((config.MSG_TYPE_BROADCAST ++ config.MSG_SEPARATOR ++ first)
                  ++ config.MSG_TYPE_BROADCAST ++ config.MSG_SEPARATOR
                  ++ second) 2
               = [config.MSG_TYPE_BROADCAST;
                  first ++ config.MSG_TYPE_BROADCAST; second]).
  { rewrite <- !app_assoc. cbn [split].
    change config.MSG_SEPARATOR with (124%N :: [124%N]).
    rewrite (partition_after_free 124 [124%N]
               config.MSG_TYPE_BROADCAST)
      by (repeat constructor; discriminate).
    rewrite app_assoc.
    rewrite (partition_after_free 124 [124%N]
               (first ++ config.MSG_TYPE_BROADCAST)).
    - reflexivity.
    - apply free_of_app; [exact Hf|].
      repeat constructor; discriminate. }
  rewrite Hs. reflexivity.
Qed.

Lemma coalesced_broadcasts_are_one_witness :
  handle_client_receive (lit "Alice") 1
    (inr (ascii_bytes (lit "BROADCAST||QUJDBROADCAST||REVG"))) two_online
  = (Serving (lit "Alice"),
     broadcast_message (lit "Alice") (lit "QUJDBROADCAST") two_online).
Proof.
  apply (coalesced_broadcasts_are_one two_online (lit "Alice") 1
           (ascii_bytes (lit "BROADCAST||QUJDBROADCAST||REVG"))
           (lit "QUJD") (lit "REVG"));
    [repeat constructor; discriminate | vm_compute; reflexivity].
Defined.

(** *** A client without a name *)

(** X23: the relay registers a client under the empty name, and the
    [finally] clause of a handler that serves under the empty name
    removes nothing: when that handler ends, the three dictionaries are
    as they were, the entry under the empty name included. *)
Theorem empty_username_is_never_removed (st : state) (sk : socket)
    (addr : address) (raw : bytes) (auth_data pem : str) :
  Dict.wf (clients st) ->
  Utf8.decode raw = ret auth_data ->
  split config.MSG_SEPARATOR auth_data 2 = [config.MSG_TYPE_AUTH; []; pem] ->
  Dict.contains (clients st) [] = false ->
  up st sk = true ->
  (forall e, In e (clients st) -> up st (snd e) = true) ->
  let after := handle_client_connect sk addr (inr raw) st in
  fst after = Serving [] /\
  Dict.get (clients (snd after)) [] = Some sk /\
  forall later received,
    fst (handle_client_receive [] sk received later) = Finished ->
    same_directory later (snd (handle_client_receive [] sk received later)).
Proof.
  intros Hwf Hd Hs Hc Hsk Hup after.
  destruct (fresh_registration st sk addr raw auth_data [] pem
              Hwf Hd Hs Hc Hsk Hup) as [Hserve [Hclients _]].
  fold after in Hserve, Hclients.
  split; [exact Hserve|]. split.
  - rewrite Hclients.
    apply Dict.contains_false in Hc.
    clear - Hc. induction (clients st) as [|[k v] r IH].
    + reflexivity.
    + cbn [app Dict.get]. destruct (str_eqb k []) eqn:E.
      * apply str_eqb_eq in E. subst k. exfalso. apply Hc. left. reflexivity.
      * apply IH. intros Hin. apply Hc. right. exact Hin.
  - intros later received Hfin. unfold handle_client_receive in *.
    assert (Hout : same_directory later (finally_clause (Some []) sk later))
      by (unfold finally_clause; cbn [truthy]; apply sock_close_directory).
    destruct received as [e|raw']; [exact Hout|].
    destruct (Utf8.decode raw') as [e|data]; [exact Hout|].
    destruct (truthy data); [discriminate Hfin | exact Hout].
Qed.

Lemma empty_username_is_never_removed_witness :
  let after :=
    handle_client_connect 1 (lit "192.168.1.20", 50000%N)
      (inr (ascii_bytes (lit "AUTH||||PEM-A"))) initial in
  fst after = Serving [] /\
  clients (snd (handle_client_receive [] 1 (inl OSError) (snd after)))
  = [([], 1)].
Proof.
  destruct (empty_username_is_never_removed initial 1
              (lit "192.168.1.20", 50000%N)
              (ascii_bytes (lit "AUTH||||PEM-A"))
              (lit "AUTH||||PEM-A") (lit "PEM-A"))
    as [H1 [_ H3]];
    [apply Dict.wf_nil | vm_compute; reflexivity | vm_compute; reflexivity
    | reflexivity | reflexivity | intros e [] |].
  cbv zeta. split; [exact H1|].
  destruct (H3 (snd (handle_client_connect 1 (lit "192.168.1.20", 50000%N)
                       (inr (ascii_bytes (lit "AUTH||||PEM-A"))) initial))
              (inl OSError) eq_refl) as [Hc _].
  rewrite Hc. vm_compute. reflexivity.
Defined.

(** *** Shutdown *)

Lemma closed_fold_close (entries : list (str * socket)) (st : state) :
  closed (fold_left (fun s entry => sock_close (snd entry) s) entries st)
  = rev (map snd entries) ++ closed st.
Proof.
  revert st. induction entries as [|e l IH]; intros st; [reflexivity|].
  cbn [fold_left map rev]. rewrite IH. cbn [sock_close closed].
  rewrite <- app_assoc. reflexivity.
Qed.

Lemma fold_close_frame (entries : list (str * socket)) (st : state) :
  let st' :=
    fold_left (fun s entry => sock_close (snd entry) s) entries st in
  same_directory st st' /\ sent st' = sent st.
Proof.
  cbv zeta. revert st. induction entries as [|e l IH]; intros st.
  - repeat split.
  - cbn [fold_left]. destruct (IH (sock_close (snd e) st)) as [[H1 [H2 H3]] H4].
    repeat split; assumption.
Qed.

(** X24: [shutdown] closes the socket of every registered client and
    empties [self.clients], while the keys and addresses stay on file;
    whatever a handler that is still running routes afterwards is sent
    to nobody. *)
Theorem shutdown_silences_the_relay (st : state) :
  clients (shutdown st) = [] /\
  (forall e, In e (clients st) -> up (shutdown st) (snd e) = false) /\
  public_keys (shutdown st) = public_keys st /\
  client_addresses (shutdown st) = client_addresses st /\
  sent (shutdown st) = sent st /\
  forall sender message_data,
    route_message sender message_data (shutdown st) = shutdown st.
Proof.
  unfold shutdown.
  destruct (fold_close_frame (clients st) st) as [[_ [Ha Hk]] Hs].
  cbv zeta in *.
  split; [reflexivity|]. split; [|split; [exact Hk|split; [exact Ha|]]].
  - intros e Hin. unfold up, with_clients. cbn [closed down].
    rewrite closed_fold_close. apply negb_false_iff, existsb_exists.
    exists (snd e). split; [|apply Nat.eqb_refl].
    apply in_or_app. left. apply in_or_app. left.
    apply in_rev. rewrite rev_involutive. apply in_map, Hin.
  - split; [exact Hs|]. intros sender message_data.
    set (off := with_clients [] _).
    unfold route_message.
    destruct (split config.MSG_SEPARATOR message_data 2)
      as [|t [|f rest]]; try reflexivity.
    destruct (str_eqb t config.MSG_TYPE_BROADCAST).
    { unfold broadcast_message, send_to_each. cbn. reflexivity. }
    destruct (str_eqb t config.MSG_TYPE_MESSAGE); [|reflexivity].
    destruct rest; reflexivity.
Qed.

End relay_facts.

(** ** Client and relay together *)

Module session_facts.
Import pystr crypto_handler crypto_facts utils utils_facts engine_facts.
Import server server_facts directory_facts registration_facts relay_facts.
Import wire_facts chat_client.

(** *** Text that cannot be mistaken for protocol punctuation *)

(** Text free of [|] and of [#], within ASCII. *)
Definition plain (s : str) : Prop :=
  free_of 124 s /\ free_of 35 s /\ ascii_only s.

Definition plain_char (c : N) : bool :=
  (negb (c =? 124) && negb (c =? 35) && (c <? 128))%N.

Lemma plain_chars (s : str) : forallb plain_char s = true -> plain s.
Proof.
  intros H. rewrite forallb_forall in H.
  repeat split; apply Forall_forall; intros c Hc; specialize (H c Hc);
    unfold plain_char in H;
    apply andb_true_iff in H; destruct H as [H H3];
    apply andb_true_iff in H; destruct H as [H1 H2];
    apply negb_true_iff in H1, H2;
    apply N.eqb_neq in H1, H2; apply N.ltb_lt in H3; assumption.
Qed.

Lemma plain_app (s t : str) : plain s -> plain t -> plain (s ++ t).
Proof.
  intros [H1 [H2 H3]] [K1 [K2 K3]].
  repeat split; apply Forall_app; split; assumption.
Qed.

Lemma plain_of_chars (P : N -> Prop) (s : str) :
  (forall c, P c -> plain_char c = true) -> Forall P s -> plain s.
Proof.
  intros HP Hs. apply plain_chars, forallb_forall. intros c Hc.
  rewrite Forall_forall in Hs. apply HP, Hs, Hc.
Qed.

Lemma base64_text_plain (s : str) : base64_text s -> plain s.
Proof.
  apply plain_of_chars. intros c H. unfold is_base64_char in H.
  unfold plain_char.
  repeat (apply orb_true_iff in H; destruct H as [H|H]);
    repeat (apply andb_true_iff in H; destruct H as [? H]);
    repeat match goal with
           | X : (_ <=? _)%N = true |- _ => apply N.leb_le in X
           | X : (_ =? _)%N = true |- _ => apply N.eqb_eq in X
           end;
    repeat (apply andb_true_iff; split);
    try (apply negb_true_iff, N.eqb_neq; lia); apply N.ltb_lt; lia.
Qed.

(** An accepted username is plain text. *)
Lemma valid_username_plain (name : str) :
  fst (validate_username name) = true -> plain name.
Proof.
  intros H. apply valid_usernames in H.
  destruct H as [_ [body [Hb Hs]]].
  assert (Hbody : plain body).
  { revert Hb. apply plain_of_chars. intros c Hc.
    pose proof (word_char_ascii c Hc) as Ha.
    unfold plain_char.
    assert (H1 : c <> 124%N) by (intros ->; discriminate Hc).
    assert (H2 : c <> 35%N) by (intros ->; discriminate Hc).
    apply N.eqb_neq in H1, H2. apply N.ltb_lt in Ha.
    rewrite H1, H2, Ha. reflexivity. }
  destruct Hs as [-> | ->]; [exact Hbody|].
  apply plain_app; [exact Hbody | apply plain_chars; reflexivity].
Qed.

Lemma plain_encodes (s : str) :
  plain s -> exists raw, Utf8.encode s = ret raw /\ Utf8.decode raw = ret s.
Proof.
  intros [_ [_ Ha]]. destruct (ascii_only_encodes s Ha) as [raw Hr].
  exists raw. split; [exact Hr | apply (Utf8.decode_encode s raw Hr)].
Qed.

(** The bytes of ASCII text, one for each character. *)
Lemma ascii_only_bytes (s : str) :
  ascii_only s ->
  Utf8.encode s = ret (map byte_of_N s) /\
  Forall (fun b => (Byte.to_N b < 128)%N) (map byte_of_N s) /\
  ascii_str (map byte_of_N s) = s.
Proof.
  intros H.
  assert (Hs : ascii_str (map byte_of_N s) = s).
  { unfold ascii_str. rewrite map_map.
    induction H as [|c s Hc Hs IH]; [reflexivity|].
    cbn [map]. rewrite IH, to_N_byte_of_N by lia. reflexivity. }
  assert (Hb : Forall (fun b => (Byte.to_N b < 128)%N) (map byte_of_N s)).
  { apply Forall_map.
    apply (Forall_impl _ (P := fun c => (c < 128)%N)); [|exact H].
    intros c Hc. rewrite to_N_byte_of_N by lia. exact Hc. }
  split; [|split; assumption].
  rewrite <- Hs at 1. apply utf8_encode_ascii, Hb.
Qed.

(** *** Reads of bounded size *)

(** A way [data] can come out of successive
    [recv(config.BUFFER_SIZE)]: in pieces, in order, none of them
    empty and none longer than the buffer size. *)
Definition arrives_as (data : bytes) (reads : list bytes) : Prop :=
  concat reads = data /\
  Forall (fun r => r <> [] /\ (length r <= config.BUFFER_SIZE)%nat) reads.

(** A buffer that fits one read is read whole. *)
Lemma recv_whole (data : bytes) :
  (length data <= config.BUFFER_SIZE)%nat -> recv data = data.
Proof. intros H. unfold recv. apply firstn_all2, H. Qed.

Lemma delivered_ascii (reads : list bytes) :
  Forall (fun r => r <> [] /\ Forall (fun b => (Byte.to_N b < 128)%N) r)
    reads ->
  client.delivered (map inr reads) = map ascii_str reads.
Proof.
  induction 1 as [|r reads [Hne Ha] _ IH]; [reflexivity|].
  cbn [map client.delivered]. rewrite (utf8_decode_ascii r Ha).
  destruct r as [|b r]; [congruence|].
  cbn [ret ascii_str map]. rewrite IH. reflexivity.
Qed.

(** ASCII text that comes in pieces is framed as if it had come at
    once. *)
Lemma received_in_pieces (text : str) (data : bytes) (reads : list bytes) :
  ascii_only text -> Utf8.encode text = ret data -> arrives_as data reads ->
  client.receive_messages (map inr reads) = client.drain text.
Proof.
  intros Ha He [Hc Hr].
  destruct (ascii_only_bytes text Ha) as [He' [Hb Hs]].
  rewrite He' in He. unfold ret in He. injection He as <-.
  rewrite client.receive_messages_drain. f_equal.
  rewrite delivered_ascii.
  - change (map ascii_str reads) with (map (map Byte.to_N) reads).
    rewrite <- concat_map, Hc. exact Hs.
  - rewrite <- Hc in Hb. rewrite Forall_concat in Hb.
    rewrite Forall_forall in Hr, Hb |- *.
    intros r Hin. split; [apply (Hr r Hin) | apply (Hb r Hin)].
Qed.

(** *** Splitting at the separator and at the delimiter *)

(** The delimiter is found right after text that is free of [#]. *)
Lemma partition_delimiter (text rest : str) :
  free_of 35 text ->
  partition config.MSG_DELIMITER (text ++ config.MSG_DELIMITER ++ rest)
  = Some (text, rest).
Proof.
  intros Ht. induction Ht as [|c text Hc Ht IH].
  - cbn [app].
    pose proof (starts_with_prefix config.MSG_DELIMITER rest) as H.
    change (config.MSG_DELIMITER ++ rest)
      with (10%N :: (tl config.MSG_DELIMITER ++ rest)) in H |- *.
    cbn [partition]. rewrite H. reflexivity.
  - assert (E : starts_with config.MSG_DELIMITER
                  ((c :: text) ++ config.MSG_DELIMITER ++ rest) = None).
    { change config.MSG_DELIMITER
        with (10%N :: 35%N :: tl (tl config.MSG_DELIMITER)) at 1.
      cbn [app starts_with].
      destruct (N.eqb_spec 10 c) as [<-|]; [|reflexivity].
      destruct Ht as [|d text Hd Ht].
      - reflexivity.
      - cbn [app]. destruct (N.eqb_spec 35 d); [congruence | reflexivity]. }
    change ((c :: text) ++ config.MSG_DELIMITER ++ rest)
      with (c :: (text ++ config.MSG_DELIMITER ++ rest)) in E |- *.
    cbn [partition]. rewrite E, IH. reflexivity.
Qed.

Lemma split_pair (a b : str) :
  free_of 124 a -> free_of 124 b ->
  split config.MSG_SEPARATOR (a ++ config.MSG_SEPARATOR ++ b) 2 = [a; b].
Proof.
  intros Ha Hb. cbn [split].
  change config.MSG_SEPARATOR with (124%N :: [124%N]).
  rewrite (partition_after_free 124 [124%N] a _ Ha).
  pose proof (contains_free 124 [124%N] b Hb) as Hc.
  apply contains_false_iff in Hc. rewrite Hc. reflexivity.
Qed.

(** One read that holds one complete envelope hands over the envelope
    text. *)
Lemma receive_one (text : str) (data : bytes) :
  free_of 35 text -> Utf8.decode data = ret (text ++ config.MSG_DELIMITER) ->
  fst (client.receive_messages [inr data]) = client.hand_over text.
Proof.
  intros Ht Hd. rewrite client.receive_messages_drain.
  cbn [client.delivered]. rewrite Hd.
  assert (Hne : exists c r, text ++ config.MSG_DELIMITER = c :: r).
  { destruct text as [|c r]; cbn [app]; eauto.
    exists 10%N, (tl config.MSG_DELIMITER). reflexivity. }
  destruct Hne as [c [r Hcr]]. rewrite Hcr. cbn [ret concat].
  rewrite app_nil_r, <- Hcr.
  pose proof (partition_delimiter text [] Ht) as P.
  rewrite app_nil_r in P.
  rewrite (client.drain_some _ _ _ P).
  rewrite (client.drain_none [] eq_refl). cbn [fst]. apply app_nil_r.
Qed.

(** *** What a client sends *)

Lemma session_key_ok : AES.key_size_ok session_key = true.
Proof. reflexivity. Qed.

Lemma encrypted_under_session_key (src : entropy) (message : str)
    (mb : bytes) :
  Utf8.encode message = ret mb ->
  exists encrypted,
    fst (encrypt_message src message session_key) = Some encrypted /\
    base64_text encrypted /\ truthy encrypted = true /\
    decrypt_message (Some encrypted) session_key = Some message.
Proof.
  intros Hm.
  destruct (encrypt_message_returns src message session_key mb Hm
              session_key_ok) as [iv0 [ciphertext [Hiv0 [_ Hc]]]].
  remember (ascii_str (Base64.b64encode (iv0 ++ ciphertext))) as c eqn:Ec.
  exists c. split; [exact Hc|].
  split; [rewrite Ec; apply b64encode_alphabet|]. split.
  - destruct c; [|reflexivity]. exfalso.
    apply (f_equal (@length _)) in Ec. unfold ascii_str in Ec.
    rewrite length_map, length_b64encode, length_app, Hiv0 in Ec.
    cbn [length] in Ec.
    assert (1 <= (16 + length ciphertext + 2) / 3)%nat
      by (apply Nat.div_le_lower_bound; lia).
    lia.
  - unfold encrypt_message in Hc.
    destruct (generate_aes_iv src) as [iv src'] eqn:E. cbn [fst] in Hc.
    assert (Hiv : length iv = 16%nat).
    { pose proof (length_generate_aes_iv src) as H. rewrite E in H.
      exact H. }
    pose proof (decrypt_encrypt_body iv message session_key mb Hm
                  session_key_ok Hiv) as Hd.
    rewrite Hc in Hd. exact Hd.
Qed.

(** The text [send_message] puts on the wire. *)
Definition outgoing (recipient encrypted : str) : str :=
  if str_eqb recipient (lit "ALL") then
    config.MSG_TYPE_BROADCAST ++ config.MSG_SEPARATOR ++ encrypted
  else
    config.MSG_TYPE_MESSAGE ++ config.MSG_SEPARATOR ++ recipient
    ++ config.MSG_SEPARATOR ++ encrypted.

(** How long a ciphertext under the session key is. *)
Lemma encrypted_length (src : entropy) (message : str) (mb : bytes)
    (encrypted : str) :
  Utf8.encode message = ret mb ->
  fst (encrypt_message src message session_key) = Some encrypted ->
  length encrypted
  = (4 * ((16 + 16 * (length mb / 16 + 1) + 2) / 3))%nat.
Proof.
  intros Hm He.
  destruct (encrypt_message_returns src message session_key mb Hm
              session_key_ok) as [iv0 [ciphertext [Hiv0 [Hlen Hc]]]].
  rewrite Hc in He. injection He as <-.
  apply transport_length; assumption.
Qed.

Lemma send_message_sends (self : ChatClient) (src : entropy)
    (recipient message : str) (mb : bytes) :
  connected self = true -> socket_up self = true ->
  Utf8.encode message = ret mb -> plain recipient ->
  exists encrypted raw,
    base64_text encrypted /\
    length encrypted
    = (4 * ((16 + 16 * (length mb / 16 + 1) + 2) / 3))%nat /\
    decrypt_message (Some encrypted) session_key = Some message /\
    Utf8.decode raw = ret (outgoing recipient encrypted) /\
    length raw = length (outgoing recipient encrypted) /\
    fst (send_message self src recipient message)
    = (true, with_out (socket_out self ++ [raw]) self).
Proof.
  intros Hc Hu Hm Hr.
  destruct (encrypted_under_session_key src message mb Hm)
    as [encrypted [He [Hb [Ht Hd]]]].
  assert (Hp : ascii_only (outgoing recipient encrypted)).
  { pose proof (base64_text_plain _ Hb) as [_ [_ Hbe]].
    destruct Hr as [_ [_ Hra]].
    unfold outgoing. destruct (str_eqb recipient (lit "ALL"));
      repeat (apply ascii_only_app;
              [first [assumption | apply lit_ascii_only; reflexivity]|]);
      assumption. }
  destruct (ascii_only_bytes _ Hp) as [Hraw _].
  pose proof (Utf8.decode_encode _ _ Hraw) as Hdec.
  exists encrypted, (map byte_of_N (outgoing recipient encrypted)).
  split; [exact Hb|].
  split; [apply (encrypted_length src message mb encrypted Hm He)|].
  split; [exact Hd|]. split; [exact Hdec|].
  split; [apply length_map|].
  unfold send_message. rewrite Hc. cbn [negb].
  destruct (encrypt_message src message session_key) as [em src'].
  cbn [fst] in He. subst em. rewrite Ht. cbn [negb].
  cbv zeta.
  change (if str_eqb recipient (lit "ALL") then _ else _)
    with (outgoing recipient encrypted).
  unfold send_text. rewrite Hraw, Hu. reflexivity.
Qed.

(** *** What a client makes of an envelope *)

Lemma lstrip_keeps (s : str) (c : N) :
  In c s -> isspace c = false -> lstrip s <> [].
Proof.
  induction s as [|d s IH]; intros Hin Hc; [contradiction|].
  cbn [lstrip]. destruct (isspace d) eqn:Hd; [|discriminate].
  destruct Hin as [-> | Hin]; [congruence | apply IH; assumption].
Qed.

Lemma strip_truthy (s : str) (c : N) :
  In c s -> isspace c = false -> truthy (strip s) = true.
Proof.
  intros Hin Hc. unfold strip.
  pose proof (lstrip_keeps s c Hin Hc) as H1.
  assert (Hin' : In c (lstrip s)).
  { clear H1. induction s as [|d s IH]; [contradiction|].
    cbn [lstrip]. destruct (isspace d) eqn:Hd; [|exact Hin].
    destruct Hin as [-> | Hin]; [congruence | apply IH, Hin]. }
  pose proof (lstrip_keeps (rev (lstrip s)) c
                (proj1 (in_rev _ _) Hin') Hc) as H2.
  destruct (lstrip (rev (lstrip s))) as [|x r]; [congruence|].
  cbn [rev]. destruct (rev r); reflexivity.
Qed.

(** One complete envelope in the buffer is handed over and nothing is
    kept. *)
Lemma drain_one (text : str) :
  free_of 35 text ->
  client.drain (text ++ config.MSG_DELIMITER) = (client.hand_over text, []).
Proof.
  intros Ht.
  pose proof (partition_delimiter text [] Ht) as P.
  rewrite app_nil_r in P.
  rewrite (client.drain_some _ _ _ P).
  rewrite (client.drain_none [] eq_refl). cbn [fst snd].
  rewrite app_nil_r. reflexivity.
Qed.

Lemma envelope_ascii (type sender encrypted : str) :
  ascii_only type -> plain sender -> base64_text encrypted ->
  ascii_only (envelope type sender encrypted).
Proof.
  intros Ht [_ [_ Hs]] He.
  pose proof (base64_text_plain _ He) as [_ [_ Hea]].
  unfold envelope.
  repeat (apply ascii_only_app;
          [first [assumption | apply lit_ascii_only; reflexivity]|]).
  apply lit_ascii_only. reflexivity.
Qed.

Section Receiving.

Variable json : Type.
Variable json_loads : str -> exc json.

(** A client to which one [MESSAGE] or [BROADCAST] envelope of the
    relay comes, in one read or in pieces, decrypts its payload and,
    unless the plain text is empty, calls [on_message_received] with
    the sender and the plain text. *)
Lemma envelope_received (type sender encrypted message : str)
    (data : bytes) (reads : list bytes) :
  type = config.MSG_TYPE_MESSAGE \/ type = config.MSG_TYPE_BROADCAST ->
  plain sender -> base64_text encrypted ->
  decrypt_message (Some encrypted) session_key = Some message ->
  Utf8.encode (envelope type sender encrypted) = ret data ->
  arrives_as data reads ->
  receive_and_process json json_loads (map inr reads)
  = if truthy message then [on_message_received sender message] else [].
Proof.
  intros Ht Hs He Hd Hdata Hreads.
  pose proof (base64_text_plain _ He) as Hpe.
  assert (Hpt : plain type)
    by (destruct Ht as [-> | ->]; apply plain_chars; reflexivity).
  set (text := type ++ config.MSG_SEPARATOR ++ sender
               ++ config.MSG_SEPARATOR ++ encrypted).
  assert (Henv : envelope type sender encrypted
                 = text ++ config.MSG_DELIMITER).
  { unfold envelope, text. rewrite <- !app_assoc. reflexivity. }
  assert (Hfree : free_of 35 text).
  { unfold text.
    pose proof (proj1 (proj2 Hpt)) as Ht35.
    pose proof (proj1 (proj2 Hs)) as Hs35.
    pose proof (proj1 (proj2 Hpe)) as He35.
    apply free_of_app; [exact Ht35|].
    apply free_of_app; [apply free_of_lit; reflexivity|].
    apply free_of_app; [exact Hs35|].
    apply free_of_app; [apply free_of_lit; reflexivity | exact He35]. }
  unfold receive_and_process.
  rewrite (received_in_pieces (envelope type sender encrypted) data reads
             (envelope_ascii type sender encrypted (proj2 (proj2 Hpt)) Hs He)
             Hdata Hreads).
  rewrite Henv, (drain_one text Hfree). cbn [fst].
  assert (Hto : client.hand_over text = [text]).
  { unfold client.hand_over.
    assert (Hin : exists c, In c text /\ isspace c = false).
    { unfold text. destruct Ht as [-> | ->].
      - exists 77%N. split; [left; reflexivity | reflexivity].
      - exists 66%N. split; [left; reflexivity | reflexivity]. }
    destruct Hin as [c [Hin Hc]].
    rewrite (strip_truthy text c Hin Hc). reflexivity. }
  rewrite Hto. cbn [flat_map]. rewrite app_nil_r.
  unfold process_message, text.
  rewrite (split_three type sender encrypted
             (proj1 Hpt) (proj1 Hs)).
  unfold handle_encrypted_message.
  destruct Ht as [-> | ->]; cbn [str_eqb]; rewrite Hd; reflexivity.
Qed.

End Receiving.

(** *** What the relay makes of what a client sent *)

Lemma envelope_encodes (type sender encrypted : str) :
  ascii_only type -> plain sender -> base64_text encrypted ->
  exists data,
    Utf8.encode (envelope type sender encrypted) = ret data /\
    Utf8.decode data = ret (envelope type sender encrypted).
Proof.
  intros Ht [_ [_ Hs]] He.
  pose proof (base64_text_plain _ He) as [_ [_ Hea]].
  assert (Ha : ascii_only (envelope type sender encrypted)).
  { unfold envelope.
    repeat (apply ascii_only_app;
            [first [assumption | apply lit_ascii_only; reflexivity]|]).
    apply lit_ascii_only. reflexivity. }
  destruct (ascii_only_encodes _ Ha) as [data Hd].
  exists data. split; [exact Hd | apply (Utf8.decode_encode _ _ Hd)].
Qed.

Lemma relay_broadcast (st : state) (sender : str) (sk : socket)
    (raw : bytes) (encrypted : str) :
  Dict.wf (clients st) -> plain sender -> base64_text encrypted ->
  Utf8.decode raw = ret (outgoing (lit "ALL") encrypted) ->
  exists data,
    Utf8.encode (envelope config.MSG_TYPE_BROADCAST sender encrypted)
    = ret data /\
    let others := fun name => negb (str_eqb name sender) in
    handle_client_receive sender sk (inr raw) st
    = (Serving sender,
       with_clients
         (filter (fun e => negb (failed others st e)) (clients st))
         (with_sent
            (sent st
             ++ map (fun e => (snd e, data))
                  (filter (reached others st) (clients st)))
            st)).
Proof.
  intros Hwf Hs He Hraw.
  destruct (envelope_encodes config.MSG_TYPE_BROADCAST sender encrypted)
    as [data [Henc Hdec]];
    [apply lit_ascii_only; reflexivity | exact Hs | exact He |].
  exists data. split; [exact Henc|]. cbv zeta.
  assert (Eo : outgoing (lit "ALL") encrypted
               = config.MSG_TYPE_BROADCAST ++ config.MSG_SEPARATOR
                 ++ encrypted) by reflexivity.
  rewrite Eo in Hraw.
  unfold handle_client_receive. rewrite Hraw. cbn [ret].
  assert (Ht : truthy (config.MSG_TYPE_BROADCAST ++ config.MSG_SEPARATOR
                       ++ encrypted) = true) by reflexivity.
  rewrite Ht. unfold route_message.
  rewrite (split_pair config.MSG_TYPE_BROADCAST encrypted);
    [|apply free_of_lit; reflexivity
     |apply (proj1 (base64_text_plain _ He))].
  cbn [str_eqb].
  rewrite (broadcast_message_encoded sender encrypted data st Hwf Henc).
  reflexivity.
Qed.

Lemma relay_direct (st : state) (sender recipient : str) (sk rsk : socket)
    (raw : bytes) (encrypted : str) :
  plain sender -> plain recipient -> base64_text encrypted ->
  str_eqb recipient (lit "ALL") = false ->
  Utf8.decode raw = ret (outgoing recipient encrypted) ->
  Dict.get (clients st) recipient = Some rsk ->
  exists data,
    Utf8.encode (envelope config.MSG_TYPE_MESSAGE sender encrypted)
    = ret data /\
    handle_client_receive sender sk (inr raw) st
    = (Serving sender,
       if up st rsk then with_sent (sent st ++ [(rsk, data)]) st else st).
Proof.
  intros Hs Hr He Hall Hraw Hget.
  destruct (envelope_encodes config.MSG_TYPE_MESSAGE sender encrypted)
    as [data [Henc Hdec]];
    [apply lit_ascii_only; reflexivity | exact Hs | exact He |].
  exists data. split; [exact Henc|].
  unfold outgoing in Hraw. rewrite Hall in Hraw.
  unfold handle_client_receive. rewrite Hraw. cbn [ret].
  assert (Ht : truthy (config.MSG_TYPE_MESSAGE ++ config.MSG_SEPARATOR
                       ++ recipient ++ config.MSG_SEPARATOR ++ encrypted)
               = true) by reflexivity.
  rewrite Ht. unfold route_message.
  rewrite (split_three config.MSG_TYPE_MESSAGE recipient encrypted);
    [|apply free_of_lit; reflexivity | apply (proj1 Hr)].
  cbn [str_eqb].
  rewrite (send_direct_message_present sender recipient encrypted rsk data
             st Hget Henc).
  reflexivity.
Qed.

(** *** The properties *)

(** A connected client with a working socket. *)
Definition online (name : str) : ChatClient :=
  {| username := name; connected := true; running := true;
     socket_up := true; socket_out := [] |}.

(** A parser that refuses every text, to run [process_message] on
    envelopes that are no user list. *)
Definition no_json (text : str) : exc unit := raise ValueError.

(** The longest messages, in bytes of UTF-8, whose envelope a client
    sends fits one read of the relay: a broadcast, and a message to a
    recipient whose name [validate_username] accepts. *)
Definition broadcast_limit : nat := 3039.
Definition direct_limit : nat := 3023.

Lemma ciphertext_bound (n limit : nat) :
  (n <= limit)%nat ->
  (4 * ((16 + 16 * (n / 16 + 1) + 2) / 3)
   <= 4 * ((16 + 16 * (limit / 16 + 1) + 2) / 3))%nat.
Proof.
  intros H. apply Nat.mul_le_mono_l. apply Nat.Div0.div_le_mono.
  pose proof (Nat.Div0.div_le_mono n limit 16 H). lia.
Qed.

(** X25: a broadcast end to end.  A connected client whose name
    [validate_username] accepts sends a message of at most 3039 bytes
    to ['ALL']: the send succeeds with one buffer, of at most
    [BUFFER_SIZE] bytes; the relay, when its read in the client's
    handler finds that buffer arrived, reads it whole, sends one and
    the same envelope to every other registered socket that is up and
    drops the others from the directory; and a client to which that
    envelope comes, in one read or in pieces, calls
    [on_message_received] with the sender's name and the message, or
    nothing at all when the message is empty. *)
Theorem broadcast_end_to_end (json : Type) (json_loads : str -> exc json)
    (alice : ChatClient) (src : entropy) (message : str) (mb : bytes)
    (st : state) (alice_socket : socket) :
  connected alice = true -> socket_up alice = true ->
  fst (validate_username (username alice)) = true ->
  Utf8.encode message = ret mb -> (length mb <= broadcast_limit)%nat ->
  Dict.wf (clients st) ->
  exists raw data,
    fst (send_message alice src (lit "ALL") message)
    = (true, with_out (socket_out alice ++ [raw]) alice) /\
    (length raw <= config.BUFFER_SIZE)%nat /\
    (let others := fun name => negb (str_eqb name (username alice)) in
     handle_client_receive (username alice) alice_socket (inr (recv raw)) st
     = (Serving (username alice),
        with_clients
          (filter (fun e => negb (failed others st e)) (clients st))
          (with_sent
             (sent st
              ++ map (fun e => (snd e, data))
                   (filter (reached others st) (clients st)))
             st))) /\
    forall reads,
      arrives_as data reads ->
      receive_and_process json json_loads (map inr reads)
      = if truthy message
        then [on_message_received (username alice) message] else [].
Proof.
  intros Hc Hu Hv Hmb Hlen Hwf.
  pose proof (valid_username_plain _ Hv) as Hp.
  destruct (send_message_sends alice src (lit "ALL") message mb Hc Hu Hmb)
    as [encrypted [raw [Hb [Hle [Hd [Hraw [Hlr Hsend]]]]]]];
    [apply plain_chars; reflexivity|].
  assert (Hfits : (length raw <= config.BUFFER_SIZE)%nat).
  { rewrite Hlr.
    change (outgoing (lit "ALL") encrypted)
      with (config.MSG_TYPE_BROADCAST ++ config.MSG_SEPARATOR ++ encrypted).
    rewrite !length_app, Hle.
    pose proof (ciphertext_bound (length mb) broadcast_limit Hlen) as Hcb.
    change (4 * ((16 + 16 * (broadcast_limit / 16 + 1) + 2) / 3))%nat
      with 4076%nat in Hcb.
    change (length config.MSG_TYPE_BROADCAST) with 9%nat.
    change (length config.MSG_SEPARATOR) with 2%nat.
    change config.BUFFER_SIZE with 4096%nat. lia. }
  destruct (relay_broadcast st (username alice) alice_socket raw encrypted
              Hwf Hp Hb Hraw) as [data [Hdata Hrelay]].
  exists raw, data. split; [exact Hsend|]. split; [exact Hfits|].
  split; [rewrite (recv_whole raw Hfits); exact Hrelay|].
  intros reads Hreads.
  apply (envelope_received json json_loads config.MSG_TYPE_BROADCAST
           (username alice) encrypted message data reads);
    [right; reflexivity | exact Hp | exact Hb | exact Hd | exact Hdata
    | exact Hreads].
Qed.

Ltac pieces_by_computation :=
  split;
  [vm_compute; reflexivity
  |repeat (constructor;
           [split; [vm_compute; discriminate
                   |apply Nat.leb_le; vm_compute; reflexivity]|]);
   constructor].

Lemma broadcast_end_to_end_witness :
  exists raw data,
    fst (send_message (online (lit "Alice")) samples.counting_entropy
           (lit "ALL") (lit "hello"))
    = (true, with_out [raw] (online (lit "Alice"))) /\
    sent (snd (handle_client_receive (lit "Alice") 1 (inr (recv raw))
                 two_online))
    = sent two_online ++ [(2, data)] /\
    receive_and_process unit no_json
      [inr (firstn 40 data); inr (skipn 40 data)]
    = [on_message_received (lit "Alice") (lit "hello")].
Proof.
  assert (Hm : Utf8.encode (lit "hello") = ret [x68; x65; x6c; x6c; x6f])
    by (vm_compute; reflexivity).
  assert (Hl : (length [x68; x65; x6c; x6c; x6f] <= broadcast_limit)%nat)
    by (vm_compute; lia).
  destruct (broadcast_end_to_end unit no_json (online (lit "Alice"))
              samples.counting_entropy (lit "hello") _ two_online 1
              eq_refl eq_refl eq_refl Hm Hl (proj1 two_online_wf))
    as [raw [data [Hs [_ [Hr Hp]]]]].
  exists raw, data. split; [exact Hs|].
  cbv zeta in Hr.
  change (username (online (lit "Alice"))) with (lit "Alice") in Hr, Hp.
  split; [rewrite Hr; vm_compute; reflexivity|].
  apply (Hp [firstn 40 data; skipn 40 data]).
  pose proof Hs as Hraw. vm_compute in Hraw. injection Hraw as Hraw.
  subst raw.
  apply (f_equal (fun r => last (sent (snd r)) (0%nat, []))) in Hr.
  vm_compute in Hr. injection Hr as Hr. subst data.
  pieces_by_computation.
Defined.

(** X26: a direct message end to end.  A connected client whose name
    [validate_username] accepts sends a message of at most 3023 bytes
    to a recipient other than ['ALL'] whose name it accepts too: the
    send succeeds with one buffer, of at most [BUFFER_SIZE] bytes; the
    relay, when its read finds that buffer arrived, reads it whole and
    sends one envelope to the socket registered under the recipient's
    name when that socket is up, changes nothing else, and sends
    nothing when it is not; a client to which the envelope comes, in
    one read or in pieces, calls [on_message_received] with the
    sender's name and the message, or nothing when the message is
    empty. *)
Theorem direct_message_end_to_end (json : Type)
    (json_loads : str -> exc json)
    (alice : ChatClient) (src : entropy) (recipient message : str)
    (mb : bytes) (st : state) (alice_socket recipient_socket : socket) :
  connected alice = true -> socket_up alice = true ->
  fst (validate_username (username alice)) = true ->
  fst (validate_username recipient) = true ->
  recipient <> lit "ALL" ->
  Utf8.encode message = ret mb -> (length mb <= direct_limit)%nat ->
  Dict.get (clients st) recipient = Some recipient_socket ->
  exists raw data,
    fst (send_message alice src recipient message)
    = (true, with_out (socket_out alice ++ [raw]) alice) /\
    (length raw <= config.BUFFER_SIZE)%nat /\
    handle_client_receive (username alice) alice_socket (inr (recv raw)) st
    = (Serving (username alice),
       if up st recipient_socket
       then with_sent (sent st ++ [(recipient_socket, data)]) st
       else st) /\
    forall reads,
      arrives_as data reads ->
      receive_and_process json json_loads (map inr reads)
      = if truthy message
        then [on_message_received (username alice) message] else [].
Proof.
  intros Hc Hu Hv Hvr Hall Hmb Hlen Hget.
  pose proof (valid_username_plain _ Hv) as Hp.
  pose proof (valid_username_plain _ Hvr) as Hpr.
  destruct (send_message_sends alice src recipient message mb Hc Hu Hmb Hpr)
    as [encrypted [raw [Hb [Hle [Hd [Hraw [Hlr Hsend]]]]]]].
  apply str_eqb_neq in Hall.
  assert (Hfits : (length raw <= config.BUFFER_SIZE)%nat).
  { rewrite Hlr. unfold outgoing. rewrite Hall.
    rewrite !length_app, Hle.
    pose proof (ciphertext_bound (length mb) direct_limit Hlen) as Hcb.
    change (4 * ((16 + 16 * (direct_limit / 16 + 1) + 2) / 3))%nat
      with 4056%nat in Hcb.
    apply valid_usernames in Hvr. destruct Hvr as [[_ Hr20] _].
    change (length config.MSG_TYPE_MESSAGE) with 7%nat.
    change (length config.MSG_SEPARATOR) with 2%nat.
    change config.BUFFER_SIZE with 4096%nat. lia. }
  destruct (relay_direct st (username alice) recipient alice_socket
              recipient_socket raw encrypted Hp Hpr Hb Hall Hraw Hget)
    as [data [Hdata Hrelay]].
  exists raw, data. split; [exact Hsend|]. split; [exact Hfits|].
  split; [rewrite (recv_whole raw Hfits); exact Hrelay|].
  intros reads Hreads.
  apply (envelope_received json json_loads config.MSG_TYPE_MESSAGE
           (username alice) encrypted message data reads);
    [left; reflexivity | exact Hp | exact Hb | exact Hd | exact Hdata
    | exact Hreads].
Qed.

Lemma direct_message_end_to_end_witness :
  exists raw data,
    fst (send_message (online (lit "Alice")) samples.counting_entropy
           (lit "Bob") (lit "hello"))
    = (true, with_out [raw] (online (lit "Alice"))) /\
    sent (snd (handle_client_receive (lit "Alice") 1 (inr (recv raw))
                 two_online))
    = sent two_online ++ [(2, data)] /\
    receive_and_process unit no_json
      [inr (firstn 40 data); inr (skipn 40 data)]
    = [on_message_received (lit "Alice") (lit "hello")].
Proof.
  assert (Hm : Utf8.encode (lit "hello") = ret [x68; x65; x6c; x6c; x6f])
    by (vm_compute; reflexivity).
  assert (Hl : (length [x68; x65; x6c; x6c; x6f] <= direct_limit)%nat)
    by (vm_compute; lia).
  assert (Hne : lit "Bob" <> lit "ALL") by discriminate.
  destruct (direct_message_end_to_end unit no_json (online (lit "Alice"))
              samples.counting_entropy (lit "Bob") (lit "hello") _
              two_online 1 2 eq_refl eq_refl eq_refl eq_refl Hne Hm Hl
              eq_refl)
    as [raw [data [Hs [_ [Hr Hp]]]]].
  exists raw, data. split; [exact Hs|].
  change (username (online (lit "Alice"))) with (lit "Alice") in Hr, Hp.
  split; [rewrite Hr; vm_compute; reflexivity|].
  apply (Hp [firstn 40 data; skipn 40 data]).
  pose proof Hs as Hraw. vm_compute in Hraw. injection Hraw as Hraw.
  subst raw.
  apply (f_equal (fun r => last (sent (snd r)) (0%nat, []))) in Hr.
  vm_compute in Hr. injection Hr as Hr. subst data.
  pieces_by_computation.
Defined.

(** *** When a send goes through *)

Lemma encrypt_message_some_encodable (src : entropy) (m : str) (k : bytes)
    (c : str) :
  fst (encrypt_message src m k) = Some c -> Utf8.encodable m.
Proof.
  unfold encrypt_message. destruct (generate_aes_iv src) as [iv src'].
  cbn [fst]. destruct (Utf8.encode m) as [e|bs] eqn:Hm.
  - rewrite (encrypt_message_body_fails_unencodable iv m k e Hm).
    discriminate.
  - intros _. apply (encode_ret_encodable m bs Hm).
Qed.

Lemma ascii_only_encodable (s : str) : ascii_only s -> Utf8.encodable s.
Proof.
  intros H. destruct (ascii_only_encodes s H) as [raw Hr].
  apply (encode_ret_encodable s raw Hr).
Qed.

Lemma encodable_app (s t : str) :
  Utf8.encodable (s ++ t) <-> Utf8.encodable s /\ Utf8.encodable t.
Proof. unfold Utf8.encodable. apply Forall_app. Qed.

Lemma outgoing_encodable (recipient encrypted : str) :
  base64_text encrypted ->
  (Utf8.encodable (outgoing recipient encrypted) <->
   Utf8.encodable recipient).
Proof.
  intros Hb.
  assert (He : Utf8.encodable encrypted).
  { apply ascii_only_encodable.
    apply (proj2 (proj2 (base64_text_plain _ Hb))). }
  unfold outgoing. destruct (str_eqb recipient (lit "ALL")) eqn:E.
  - apply str_eqb_eq in E. subst recipient. split; intros _.
    + apply ascii_only_encodable, lit_ascii_only. reflexivity.
    + apply encodable_app. split; [|apply encodable_app; split];
        try exact He; apply ascii_only_encodable, lit_ascii_only;
        reflexivity.
  - rewrite !encodable_app. split.
    + intros [_ [_ [H _]]]. exact H.
    + intros H. repeat split; try assumption;
        apply ascii_only_encodable, lit_ascii_only; reflexivity.
Qed.

(** X27: [send_message] returns [True] exactly when the client is
    connected, its socket takes the data, and both the message and the
    recipient's name have a UTF-8 encoding; it has then sent exactly
    one buffer.  When it returns [False] it has sent nothing. *)
Theorem send_message_succeeds_iff (self : ChatClient) (src : entropy)
    (recipient message : str) :
  let result := fst (send_message self src recipient message) in
  (fst result = true <->
   connected self = true /\ socket_up self = true /\
   Utf8.encodable message /\ Utf8.encodable recipient) /\
  (fst result = true ->
   exists raw, snd result = with_out (socket_out self ++ [raw]) self) /\
  (fst result = false -> snd result = self).
Proof.
  cbv zeta. unfold send_message.
  destruct (connected self) eqn:Hc; cbn [negb].
  2:{ cbn [fst snd]. split; [|split]; try discriminate; try reflexivity.
      split; [discriminate | intros [H _]; discriminate]. }
  destruct (encrypt_message src message session_key) as [em src'] eqn:Eenc.
  assert (Hem : fst (encrypt_message src message session_key) = em)
    by (rewrite Eenc; reflexivity).
  destruct em as [encrypted|].
  2:{ cbn [fst snd]. split; [|split]; try discriminate; try reflexivity.
      split; [discriminate|]. intros [_ [_ [Hm _]]]. exfalso.
      destruct (Utf8.encode_encodable message Hm) as [mb Hmb].
      destruct (encrypted_under_session_key src message mb Hmb)
        as [c [Hc' _]].
      congruence. }
  pose proof (encrypt_message_some_encodable _ _ _ _ Hem) as Hm.
  destruct (Utf8.encode_encodable message Hm) as [mb Hmb].
  destruct (encrypted_under_session_key src message mb Hmb)
    as [c [Hc' [Hb [Ht _]]]].
  assert (c = encrypted) by congruence. subst c.
  rewrite Ht. cbn [negb]. cbv zeta.
  change (if str_eqb recipient (lit "ALL") then _ else _)
    with (outgoing recipient encrypted).
  pose proof (outgoing_encodable recipient encrypted Hb) as Henc.
  unfold send_text.
  destruct (Utf8.encode (outgoing recipient encrypted)) as [e|raw] eqn:Hraw.
  { cbn [fst snd]. split; [|split]; try discriminate; try reflexivity.
    split; [discriminate|]. intros [_ [_ [_ Hr]]]. exfalso.
    apply Henc in Hr. destruct (Utf8.encode_encodable _ Hr) as [x Hx].
    unfold ret in Hx. congruence. }
  pose proof (proj1 Henc (encode_ret_encodable _ _ Hraw)) as Hr.
  destruct (socket_up self) eqn:Hu; cbn [fst snd].
  - split; [|split]; try discriminate.
    + split; [intros _; repeat split; assumption | reflexivity].
    + intros _. exists raw. reflexivity.
  - split; [|split]; try discriminate; try reflexivity.
    split; [discriminate | intros [_ [H _]]; discriminate].
Qed.

(** *** What a client never does *)

(** X28: [process_message] calls [on_message_received] only for data
    of the form [type||sender||payload] with [type] one of [MESSAGE]
    and [BROADCAST], and only with the sender field of the data and the
    non-empty text that [decrypt_message] returns for the payload under
    the session key. *)
Theorem process_message_delivers_decrypted (json : Type)
    (json_loads : str -> exc json) (data sender message : str) :
  In (on_message_received sender message)
     (process_message json json_loads data) ->
  exists type encrypted,
    data = type ++ config.MSG_SEPARATOR ++ sender ++ config.MSG_SEPARATOR
           ++ encrypted /\
    (type = config.MSG_TYPE_MESSAGE \/ type = config.MSG_TYPE_BROADCAST) /\
    decrypt_message (Some encrypted) session_key = Some message /\
    message <> [].
Proof.
  unfold process_message.
  destruct (split config.MSG_SEPARATOR data 2) as [|t [|f rest]] eqn:Hs;
    try contradiction.
  assert (Hdeliver : forall encrypted,
            In (@on_message_received json sender message)
               (handle_encrypted_message f encrypted) ->
            f = sender /\
            decrypt_message (Some encrypted) session_key = Some message /\
            message <> []).
  { intros encrypted. unfold handle_encrypted_message.
    destruct (decrypt_message (Some encrypted) session_key) as [m|];
      [|contradiction].
    destruct m as [|c m]; cbn [truthy]; [contradiction|].
    intros [H|[]]. injection H as -> <-.
    repeat split. discriminate. }
  destruct (wire_facts.split_two _ _ _ _ _ Hs)
    as [[-> Hdata] | [c [-> Hdata]]].
  - destruct (str_eqb t config.MSG_TYPE_USER_LIST).
    { destruct (json_loads f); [contradiction|].
      intros [H|[]]. discriminate. }
    destruct (str_eqb t config.MSG_TYPE_KEY_EXCHANGE); [contradiction|].
    destruct (str_eqb t config.MSG_TYPE_MESSAGE); [contradiction|].
    destruct (str_eqb t config.MSG_TYPE_BROADCAST); contradiction.
  - destruct (str_eqb t config.MSG_TYPE_USER_LIST).
    { destruct (json_loads f); [contradiction|].
      intros [H|[]]. discriminate. }
    destruct (str_eqb t config.MSG_TYPE_KEY_EXCHANGE).
    { intros [H|[]]. discriminate. }
    destruct (str_eqb t config.MSG_TYPE_MESSAGE) eqn:Em.
    { intros H. apply Hdeliver in H. destruct H as [-> [Hd Hne]].
      apply str_eqb_eq in Em. exists t, c. repeat split; try assumption.
      left. exact Em. }
    destruct (str_eqb t config.MSG_TYPE_BROADCAST) eqn:Eb; [|contradiction].
    intros H. apply Hdeliver in H. destruct H as [-> [Hd Hne]].
    apply str_eqb_eq in Eb. exists t, c. repeat split; try assumption.
    right. exact Eb.
Qed.

(** An envelope as the relay sends it, without its delimiter: Alice's
    ["hello"] under the session key. *)
Definition sample_envelope : str :=
  lit "MESSAGE||Alice||"
  ++ match fst (encrypt_message samples.counting_entropy (lit "hello")
                  session_key) with
     | Some encrypted => encrypted
     | None => []
     end.

Lemma process_message_delivers_decrypted_witness :
  In (on_message_received (lit "Alice") (lit "hello"))
     (process_message unit no_json sample_envelope) /\
  exists type encrypted,
    sample_envelope
    = type ++ config.MSG_SEPARATOR ++ lit "Alice" ++ config.MSG_SEPARATOR
      ++ encrypted /\
    decrypt_message (Some encrypted) session_key = Some (lit "hello").
Proof.
  assert (H : In (on_message_received (lit "Alice") (lit "hello"))
                (process_message unit no_json sample_envelope))
    by (vm_compute; left; reflexivity).
  split; [exact H|].
  destruct (process_message_delivers_decrypted unit no_json sample_envelope
              (lit "Alice") (lit "hello") H)
    as [type [encrypted [Hd [_ [Hm _]]]]].
  exists type, encrypted. split; [exact Hd | exact Hm].
Defined.

(** *** The handshake *)

Lemma auth_message_encodes (name public_key_pem : str) :
  plain name -> Utf8.encodable public_key_pem ->
  exists auth,
    Utf8.encode (auth_message name public_key_pem) = ret auth /\
    Utf8.decode auth = ret (auth_message name public_key_pem) /\
    split config.MSG_SEPARATOR (auth_message name public_key_pem) 2
    = [config.MSG_TYPE_AUTH; name; public_key_pem].
Proof.
  intros Hn Hp.
  assert (He : Utf8.encodable (auth_message name public_key_pem)).
  { unfold auth_message. rewrite !encodable_app.
    repeat split; try exact Hp;
      try (apply ascii_only_encodable, lit_ascii_only; reflexivity).
    apply ascii_only_encodable. apply (proj2 (proj2 Hn)). }
  destruct (Utf8.encode_encodable _ He) as [auth Ha].
  exists auth. split; [exact Ha|].
  split; [apply (Utf8.decode_encode _ _ Ha)|].
  unfold auth_message. apply split_three; [|apply (proj1 Hn)].
  apply free_of_lit. reflexivity.
Qed.

Lemma decode_app (a b : bytes) (s t : str) :
  Utf8.decode a = ret s -> Utf8.decode b = ret t ->
  Utf8.decode (a ++ b) = ret (s ++ t).
Proof.
  intros Ha Hb. apply Utf8Canon.encode_decode in Ha, Hb.
  apply (Utf8.decode_encode (s ++ t) (a ++ b)).
  apply Utf8Canon.encode_app; assumption.
Qed.

Lemma lstrip_snoc (a : str) (c : N) :
  isspace c = false -> exists t, lstrip (a ++ [c]) = t ++ [c].
Proof.
  intros Hc. induction a as [|d a [t IH]].
  - exists []. cbn [app lstrip]. rewrite Hc. reflexivity.
  - cbn [app lstrip]. destruct (isspace d).
    + exists t. exact IH.
    + exists (d :: a). reflexivity.
Qed.

(** Stripping keeps a first character that is no white space. *)
Lemma strip_head (c : N) (r : str) :
  isspace c = false -> exists r', strip (c :: r) = c :: r'.
Proof.
  intros Hc. unfold strip. cbn [lstrip]. rewrite Hc. cbn [rev].
  destruct (lstrip_snoc (rev r) c Hc) as [t Ht]. rewrite Ht.
  rewrite rev_app_distr. cbn [rev app]. eauto.
Qed.

Lemma accepted_success (tail : bytes) (text : str) :
  Utf8.decode tail = ret text ->
  accepted (inr (success_reply ++ tail)) = true.
Proof.
  intros Ht. unfold accepted.
  assert (Hs : Utf8.decode success_reply
               = ret (lit "SUCCESS" ++ config.MSG_DELIMITER))
    by (vm_compute; reflexivity).
  rewrite (decode_app _ _ _ _ Hs Ht). cbn [ret].
  unfold first_part. rewrite <- app_assoc.
  rewrite (partition_delimiter (lit "SUCCESS") text)
    by (apply free_of_lit; reflexivity).
  reflexivity.
Qed.

Lemma connect_sends_auth (self : ChatClient) (public_key_pem : str)
    (auth : bytes) (received : exc bytes) :
  Utf8.encode (auth_message (username self) public_key_pem) = ret auth ->
  socket_out (snd (connect self public_key_pem true received)) = [auth] /\
  fst (connect self public_key_pem true received) = accepted received.
Proof.
  intros Ha. unfold connect. cbn [negb]. unfold send_text.
  cbn [username socket_up socket_out]. rewrite Ha.
  cbn [with_out socket_out app username connected running socket_up].
  destruct (accepted received) eqn:E; [split; reflexivity|].
  destruct received as [e|raw]; [split; reflexivity|].
  destruct (Utf8.decode raw); split; reflexivity.
Qed.

Lemma finally_clause_appends (name : option str) (sk : socket)
    (st : state) :
  appends st (finally_clause name sk st).
Proof.
  unfold finally_clause.
  assert (H : forall s, appends s (sock_close sk s)).
  { intros s. exists []. cbn [sock_close sent]. symmetry. apply app_nil_r. }
  destruct name as [u|]; [|apply H].
  destruct (truthy u); [|apply H].
  destruct (broadcast_user_list_appends (forget u st)) as [more Hm].
  exists more. exact Hm.
Qed.

(** The buffer of an [AUTH] for a plain name, byte by byte. *)
Lemma auth_message_bytes (name public_key_pem : str) (pem : bytes) :
  plain name -> Utf8.encode public_key_pem = ret pem ->
  Utf8.encode (auth_message name public_key_pem)
  = ret (ascii_bytes config.MSG_TYPE_AUTH ++ separator_bytes
         ++ map byte_of_N name ++ separator_bytes ++ pem).
Proof.
  intros [_ [_ Hn]] Hp. unfold auth_message.
  destruct (ascii_only_bytes name Hn) as [Hname _].
  assert (Ha : Utf8.encode config.MSG_TYPE_AUTH
               = ret (ascii_bytes config.MSG_TYPE_AUTH))
    by (vm_compute; reflexivity).
  assert (Hs : Utf8.encode config.MSG_SEPARATOR = ret separator_bytes)
    by (vm_compute; reflexivity).
  repeat (apply Utf8Canon.encode_app; [assumption|]). exact Hp.
Qed.

(** [connect] gives up on a first read that starts with anything but
    white space or the letter S. *)
Lemma rejected_first_read (raw : bytes) (c : N) (rest : str) :
  Utf8.decode raw = ret (c :: rest) -> isspace c = false -> c <> 83%N ->
  accepted (inr raw) = false.
Proof.
  intros Hd Hc Hs. unfold accepted. rewrite Hd. cbn [ret].
  assert (Hfirst : exists a,
            first_part config.MSG_DELIMITER (c :: rest) = c :: a).
  { unfold first_part.
    change config.MSG_DELIMITER with (10%N :: tl config.MSG_DELIMITER).
    cbn [partition starts_with].
    destruct (N.eqb_spec 10 c) as [<-|_]; [discriminate Hc|].
    destruct (partition (10%N :: tl config.MSG_DELIMITER) rest)
      as [[a b]|]; eauto. }
  destruct Hfirst as [a ->].
  destruct (strip_head c a Hc) as [r' ->].
  apply str_eqb_neq. intros E.
  change (lit "SUCCESS") with (83%N :: lit "UCCESS") in E.
  injection E as E _. contradiction.
Qed.

(** X29: the handshake.  For a client whose name [validate_username]
    accepts and is not in the directory, and a key with which the
    [AUTH] buffer fits one read, what [connect] sends, read whole by
    the relay, makes it register exactly that name with exactly that
    key on the new socket, in one step under the lock and before
    anything is sent.  The lock is released before the reply: from
    whatever state the other handlers have left, the handler's next
    send is the success reply.  [connect] returns [True] on a first
    read that starts with that reply and decodes, and [False] on a
    first read that starts with anything but white space or the letter
    S, as the envelopes of another handler's fan-out do: the client
    then gives up although the relay has registered it. *)
Theorem handshake_registers (self : ChatClient) (public_key_pem : str)
    (pem : bytes) (st : state) (sk : socket) (addr : address) :
  fst (validate_username (username self)) = true ->
  Utf8.encode public_key_pem = ret pem ->
  (length (username self) + length pem + 8 <= config.BUFFER_SIZE)%nat ->
  Dict.contains (clients st) (username self) = false ->
  exists auth,
    (forall received,
       socket_out (snd (connect self public_key_pem true received))
       = [auth]) /\
    (length auth <= config.BUFFER_SIZE)%nat /\
    (let registered := handle_client_auth sk addr (inr (recv auth)) st in
     fst registered = Some (username self, public_key_pem) /\
     clients (snd registered) = clients st ++ [(username self, sk)] /\
     Dict.get (public_keys (snd registered)) (username self)
     = Some public_key_pem /\
     sent (snd registered) = sent st) /\
    (forall later,
       up later sk = true ->
       handle_client_reply (username self) sk later
       = (Serving (username self),
          with_sent (sent later ++ [(sk, success_reply)]) later)) /\
    (forall tail text,
       Utf8.decode tail = ret text ->
       fst (connect self public_key_pem true (inr (success_reply ++ tail)))
       = true) /\
    (forall raw c rest,
       Utf8.decode raw = ret (c :: rest) -> isspace c = false ->
       c <> 83%N ->
       fst (connect self public_key_pem true (inr raw)) = false).
Proof.
  intros Hv Hp Hlen Hc.
  pose proof (valid_username_plain _ Hv) as Hn.
  pose proof (auth_message_bytes (username self) public_key_pem pem Hn Hp)
    as Ha.
  set (auth := ascii_bytes config.MSG_TYPE_AUTH ++ separator_bytes
               ++ map byte_of_N (username self) ++ separator_bytes ++ pem)
    in Ha.
  destruct (auth_message_encodes (username self) public_key_pem Hn
              (encode_ret_encodable _ _ Hp)) as [auth' [Ha' [Hd Hs]]].
  assert (auth' = auth).
  { rewrite Ha in Ha'. unfold ret in Ha'. injection Ha' as <-. reflexivity. }
  subst auth'.
  assert (Hfits : (length auth <= config.BUFFER_SIZE)%nat).
  { unfold auth. rewrite !length_app, length_map.
    change (length (ascii_bytes config.MSG_TYPE_AUTH)) with 4%nat.
    change (length separator_bytes) with 2%nat. lia. }
  exists auth. split; [|split; [exact Hfits|split; [|split; [|split]]]].
  - intros received. apply (connect_sends_auth self _ _ received Ha).
  - cbv zeta. rewrite (recv_whole auth Hfits).
    rewrite (handle_client_auth_registers st sk addr auth _ (username self)
               public_key_pem Hd Hs Hc).
    cbn [fst snd register clients public_keys sent].
    split; [reflexivity|]. split; [apply Dict.keys_set_new, Hc|].
    split; [apply Dict.get_set_same | reflexivity].
  - intros later Hup. apply handle_client_reply_sends, Hup.
  - intros tail text Ht.
    rewrite (proj2 (connect_sends_auth self _ _
                      (inr (success_reply ++ tail)) Ha)).
    apply (accepted_success tail text Ht).
  - intros raw c rest Hd' Hsp Hne.
    rewrite (proj2 (connect_sends_auth self _ _ (inr raw) Ha)).
    apply (rejected_first_read raw c rest Hd' Hsp Hne).
Qed.

Lemma handshake_registers_witness :
  exists auth,
    socket_out
      (snd (connect (new_client (lit "Carol")) (lit "PEM-C") true
              (inr success_reply)))
    = [auth] /\
    Dict.keys
      (clients
         (snd (handle_client_auth 3 (lit "192.168.1.22", 50002%N)
                 (inr (recv auth)) two_online)))
    = [lit "Alice"; lit "Bob"; lit "Carol"] /\
    fst (connect (new_client (lit "Carol")) (lit "PEM-C") true
           (inr success_reply))
    = true /\
    fst (connect (new_client (lit "Carol")) (lit "PEM-C") true
           (inr (ascii_bytes (lit "USER_LIST||[]" ++ config.MSG_DELIMITER))))
    = false.
Proof.
  assert (Hp : Utf8.encode (lit "PEM-C") = ret (ascii_bytes (lit "PEM-C")))
    by (vm_compute; reflexivity).
  assert (Hl : (length (username (new_client (lit "Carol")))
                + length (ascii_bytes (lit "PEM-C")) + 8
                <= config.BUFFER_SIZE)%nat)
    by (apply Nat.leb_le; vm_compute; reflexivity).
  destruct (handshake_registers (new_client (lit "Carol")) (lit "PEM-C")
              (ascii_bytes (lit "PEM-C")) two_online 3
              (lit "192.168.1.22", 50002%N) eq_refl Hp Hl eq_refl)
    as [auth [Hout [_ [Hreg [_ [Hyes Hno]]]]]].
  exists auth. split; [apply Hout|]. split; [|split].
  - cbv zeta in Hreg. destruct Hreg as [_ [H2 _]].
    unfold Dict.keys. rewrite H2. vm_compute. reflexivity.
  - pose proof (Hyes [] [] eq_refl) as H. rewrite app_nil_r in H. exact H.
  - apply (Hno _ 85%N (lit "SER_LIST||[]" ++ config.MSG_DELIMITER));
      [vm_compute; reflexivity | reflexivity | discriminate].
Defined.

(** X30: the handshake under a name that is taken.  What [connect]
    sends makes the relay end the handler and send its error reply to
    the new socket; on a first read of that reply [connect] returns
    [False]. *)
Theorem handshake_refused (self : ChatClient) (public_key_pem : str)
    (st : state) (sk : socket) (addr : address) :
  fst (validate_username (username self)) = true ->
  Utf8.encodable public_key_pem ->
  Dict.contains (clients st) (username self) = true ->
  up st sk = true ->
  exists auth reply,
    (forall received,
       socket_out (snd (connect self public_key_pem true received))
       = [auth]) /\
    fst (handle_client_connect sk addr (inr auth) st) = Finished /\
    Utf8.decode reply
    = ret (lit "ERROR: Username '" ++ username self
           ++ lit "' already taken" ++ config.MSG_DELIMITER) /\
    In (sk, reply) (sent (snd (handle_client_connect sk addr (inr auth) st)))
    /\
    fst (connect self public_key_pem true (inr reply)) = false.
Proof.
  intros Hv Hp Hc Hsk.
  pose proof (valid_username_plain _ Hv) as Hn.
  destruct (auth_message_encodes (username self) public_key_pem Hn Hp)
    as [auth [Ha [Hd Hs]]].
  set (text := lit "ERROR: Username '" ++ username self
               ++ lit "' already taken").
  assert (Htext : lit "ERROR: Username '" ++ username self
                  ++ lit "' already taken" ++ config.MSG_DELIMITER
                  = text ++ config.MSG_DELIMITER)
    by (unfold text; rewrite <- !app_assoc; reflexivity).
  assert (Hascii : ascii_only (text ++ config.MSG_DELIMITER)).
  { rewrite <- Htext.
    repeat (apply ascii_only_app;
            [first [apply (proj2 (proj2 Hn))
                   | apply lit_ascii_only; reflexivity]|]).
    apply lit_ascii_only. reflexivity. }
  destruct (ascii_only_encodes _ Hascii) as [reply Hr].
  pose proof (Utf8.decode_encode _ _ Hr) as Hdr.
  exists auth, reply. split; [|split; [|split; [|split]]].
  - intros received. apply (connect_sends_auth self _ _ received Ha).
  - unfold handle_client_connect. rewrite Hd. cbn [ret].
    assert (Ht : truthy (auth_message (username self) public_key_pem)
                 = true) by reflexivity.
    rewrite Ht. cbn [negb]. rewrite Hs, str_eqb_refl, Hc. reflexivity.
  - rewrite Htext. exact Hdr.
  - unfold handle_client_connect. rewrite Hd. cbn [ret].
    assert (Ht : truthy (auth_message (username self) public_key_pem)
                 = true) by reflexivity.
    rewrite Ht. cbn [negb]. rewrite Hs, str_eqb_refl, Hc. cbn [snd].
    rewrite Htext.
    destruct (finally_clause_appends (Some (username self)) sk
                (reject sk (text ++ config.MSG_DELIMITER) st)) as [more Hm].
    rewrite Hm. apply in_or_app. left.
    unfold reject. rewrite (send_text_encoded sk _ reply st Hr), Hsk.
    unfold ret. cbv iota. cbn [sock_close sent with_sent].
    apply in_or_app. right. left. reflexivity.
  - rewrite (proj2 (connect_sends_auth self _ _ (inr reply) Ha)).
    unfold accepted. rewrite Hdr. cbn [ret]. unfold first_part.
    pose proof (partition_delimiter text []) as P.
    rewrite app_nil_r in P. rewrite P.
    + destruct (strip_head 69 (tl text) eq_refl) as [r' Hr'].
      change (69%N :: tl text) with text in Hr'. rewrite Hr'. reflexivity.
    + unfold text. apply free_of_app; [apply free_of_lit; reflexivity|].
      apply free_of_app; [apply (proj1 (proj2 Hn))|].
      apply free_of_lit. reflexivity.
Qed.

Lemma handshake_refused_witness :
  exists auth reply,
    fst (handle_client_connect 3 (lit "192.168.1.66", 50002%N) (inr auth)
           two_online) = Finished /\
    Utf8.decode reply
    = ret (lit "ERROR: Username 'Alice' already taken"
           ++ config.MSG_DELIMITER) /\
    fst (connect (new_client (lit "Alice")) (lit "PEM-E") true (inr reply))
    = false.
Proof.
  assert (Hp : Utf8.encodable (lit "PEM-E")) by encodable_lit.
  destruct (handshake_refused (new_client (lit "Alice")) (lit "PEM-E")
              two_online 3 (lit "192.168.1.66", 50002%N) eq_refl Hp)
    as [auth [reply [_ [Hf [Hd [_ Hc]]]]]];
    [vm_compute; reflexivity | vm_compute; reflexivity |].
  exists auth, reply. split; [exact Hf|]. split; [exact Hd | exact Hc].
Defined.

End session_facts.
